(** * A Wordle-solving bot: constraint tracking, filtering, outcome
    simulation, guess selection and the dictionary cache

  Shallow embedding of the classes [EnhancedAIWordleBot]
  ([enhanced-bot.ts]), [FreeDictionaryService] ([services/dictionary.ts])
  and [LRUCache] ([utils/lru-cache.ts]).

  Conventions of the embedding.
  - A JavaScript string is a [list ascii]; words are made of the letters
    A..Z, for which indexing by UTF-16 unit, iteration by code point and
    [new RegExp(char, "g")] all see one letter at a time.
  - A JavaScript [Map], a plain object used as a record and a [Set] keep
    their entries in insertion order; they are association lists and
    duplicate-free lists ([JsMap], [JsSet]).
  - Counters are [nat]; scores and entropies, which the program computes
    with IEEE doubles, are real numbers ([R]) and [Math.log2] is the
    logarithm to base two: rounding is outside the model.
  - [async] functions are run to completion; the dictionary service is
    explicit state (its cache) passed along, the network is a function
    from requests to responses and [Date.now()] is a parameter.  The
    dictionary batch size is taken to be at least one: with zero the batch
    loop of [validateWords] does not end. *)

From Stdlib Require Import Ascii String List Arith ZArith Bool Lia Permutation.
From Stdlib Require Import Reals Lra.
Import ListNotations.
Open Scope list_scope.

(** ** Decidable equality, as used by [===] on letters, indices and keys *)

Class EqDec (A : Type) := eq_dec : forall x y : A, {x = y} + {x <> y}.

#[global] Instance ascii_EqDec : EqDec ascii := ascii_dec.
#[global] Instance nat_EqDec : EqDec nat := Nat.eq_dec.
#[global] Instance list_EqDec {A} `{EqDec A} : EqDec (list A) :=
  list_eq_dec eq_dec.
#[global] Instance option_EqDec {A} `{EqDec A} : EqDec (option A).
Proof. intros [x|] [y|]; try (right; discriminate); [|left; reflexivity].
  destruct (eq_dec x y); [left; congruence | right; congruence]. Defined.

Definition eqb {A} `{EqDec A} (x y : A) : bool :=
  if eq_dec x y then true else false.


(** A word, and a word literal. *)
Definition word := list ascii.
Definition str (s : string) : word := list_ascii_of_string s.
Arguments str s%_string.

(** [x || d] on a counter: [undefined] and [0] are both falsy. *)
Definition js_or (x : option nat) (d : nat) : nat :=
  match x with
  | Some (S n) => S n
  | _ => d
  end.

(** Truthiness of a counter that may be [undefined]. *)
Definition truthy (x : option nat) : bool :=
  match x with
  | Some (S _) => true
  | _ => false
  end.

(** [for (let i = 0; i < n; i++) body] over a loop state. *)
Definition for_loop {St : Type} (n : nat) (body : nat -> St -> St) (s : St) : St :=
  fold_left (fun acc i => body i acc) (seq 0 n) s.

(** [arr[i] = v] for an index inside the array. *)
Fixpoint array_set {A : Type} (l : list A) (i : nat) (v : A) : list A :=
  match l, i with
  | [], _ => []
  | _ :: t, O => v :: t
  | h :: t, S i' => h :: array_set t i' v
  end.

(** ** Insertion-ordered maps and sets *)

Module JsMap.
Section Defs.
Context {K V : Type} `{EqDec K}.

Fixpoint get (m : list (K * V)) (k : K) : option V :=
  match m with
  | [] => None
  | (k', v) :: m' => if eq_dec k k' then Some v else get m' k
  end.

Definition has (m : list (K * V)) (k : K) : bool :=
  match get m k with Some _ => true | None => false end.

  (** [m.set(k, v)]: an existing key keeps its place, a new one goes last. *)
Fixpoint set (m : list (K * V)) (k : K) (v : V) : list (K * V) :=
  match m with
  | [] => [(k, v)]
  | (k', v') :: m' =>
      if eq_dec k k' then (k, v) :: m' else (k', v') :: set m' k v
  end.

Fixpoint delete (m : list (K * V)) (k : K) : list (K * V) :=
  match m with
  | [] => []
  | (k', v') :: m' =>
      if eq_dec k k' then delete m' k else (k', v') :: delete m' k
  end.

Definition keys (m : list (K * V)) : list K := map fst m.
Definition size (m : list (K * V)) : nat := length m.

End Defs.
End JsMap.

Module JsSet.
Section Defs.
Context {A : Type} `{EqDec A}.

Definition has (s : list A) (x : A) : bool :=
  if in_dec eq_dec x s then true else false.

Definition add (s : list A) (x : A) : list A :=
  if in_dec eq_dec x s then s else s ++ [x].

End Defs.
End JsSet.

(** ** Outcome simulator: [computePattern] *)

(** The three tiles of a pattern: the grey, green and yellow squares that
  [computePattern] joins into its result string (the grey square is one
  UTF-16 unit and the other two are surrogate pairs with distinct low
  halves, so two joined strings are equal exactly when the tile lists
  are). *)
Inductive Mark := Grey | Green | Yellow.

#[global] Instance Mark_EqDec : EqDec Mark.
Proof. intros x y; unfold EqDec; decide equality. Defined.

Definition countSecretLetters (secret : word) : list (ascii * nat) :=
  fold_left
  (fun secretLetters char =>
     JsMap.set secretLetters char (js_or (JsMap.get secretLetters char) 0 + 1))
  secret [].

Definition markCorrect (guess secret : word) (i : nat)
  (st : list Mark * list (ascii * nat)) : list Mark * list (ascii * nat) :=
  let '(result, secretLetters) := st in
  match nth_error guess i with
  | Some g =>
    if eqb (Some g) (nth_error secret i)
    then (array_set result i Green,
          JsMap.set secretLetters g (js_or (JsMap.get secretLetters g) 1 - 1))
    else (result, secretLetters)
  | None => (result, secretLetters)
  end.

Definition markPresent (guess : word) (i : nat)
  (st : list Mark * list (ascii * nat)) : list Mark * list (ascii * nat) :=
  let '(result, secretLetters) := st in
  match nth_error guess i with
  | Some g =>
    let count := js_or (JsMap.get secretLetters g) 0 in
    if eqb (nth i result Grey) Grey && (0 <? count)
    then (array_set result i Yellow, JsMap.set secretLetters g (count - 1))
    else (result, secretLetters)
  | None => (result, secretLetters)
  end.

Definition computePattern (guess secret : word) : list Mark :=
  let n := length guess in
  let result := repeat Grey n in
  let secretLetters := countSecretLetters secret in
  let pass1 := for_loop n (markCorrect guess secret) (result, secretLetters) in
  let pass2 := for_loop n (markPresent guess) pass1 in
  fst pass2.


(** Number of positions where [guess] has the letter [c] and the pattern
    shows the tile [mk]. *)
Definition countMark (mk : Mark) (c : ascii) (guess : word)
    (pattern : list Mark) : nat :=
  length (filter (fun gp => eqb (fst gp) c && eqb (snd gp) mk)
                 (combine guess pattern)).

(** The working count of a letter: [secretLetters.get(c) || 0]. *)
Definition cnt (m : list (ascii * nat)) (c : ascii) : nat :=
  js_or (JsMap.get m c) 0.


(** Loop invariants of the two passes of [computePattern]. *)

(** State of the first pass after the positions below [i]. *)
Definition pass1_inv (guess secret : word) (i : nat) (st : list Mark * list (ascii * nat)) : Prop :=
  length (fst st) = length guess /\
  (forall j, i <= j -> nth j (fst st) Grey = Grey) /\
  (forall c, countMark Yellow c guess (fst st) = 0) /\
  (forall c, cnt (snd st) c + countMark Green c guess (fst st)
             = count_occ ascii_dec secret c) /\
  (forall c, countMark Green c guess (fst st)
             <= count_occ ascii_dec (firstn i secret) c).

(** State of the second pass: every tile handed out so far is paid for by
    one occurrence of the letter in the secret. *)
Definition pass2_inv (guess secret : word) (st : list Mark * list (ascii * nat)) : Prop :=
  length (fst st) = length guess /\
  forall c, cnt (snd st) c + countMark Green c guess (fst st)
            + countMark Yellow c guess (fst st)
            = count_occ ascii_dec secret c.


(** ** Configuration ([config.ts], the version with the dictionary section
       that [FreeDictionaryService] reads) *)

Record LetterBonuses := {
  commonStart : list ascii;
  commonEnd : list ascii;
  vowels : list ascii
}.

Record ScoringWeights := {
  letterFrequency : nat;
  startBonus : nat;
  vowelBonus : nat;
  commonEndBonus : nat
}.

Record DictionaryConfig := {
  batchSize : nat;
  cacheMaxSize : nat;
  cacheTtl : Z
}.

Record BotConfig := {
  wordLength : nat;
  maxAttempts : nat;
  startingWords : list word;
  letterBonuses : LetterBonuses;
  scoring : ScoringWeights;
  dictionary : DictionaryConfig
}.

Definition config : BotConfig := {|
  wordLength := 5;
  maxAttempts := 50;
  startingWords :=
    [ str "STARE"; str "CRANE"; str "SLATE"; str "TRACE"; str "ADIEU";
      str "AUDIO"; str "RAISE"; str "ARISE"; str "STARE"; str "CRANE";
      str "SLATE"; str "TRACE"; str "ADIEU"; str "AUDIO"; str "RAISE";
      str "ARISE"; str "STARE"; str "CRANE"; str "SLATE"; str "TRACE" ];
  letterBonuses := {|
    commonStart := str "SCTAR";
    commonEnd := str "ERTYN";
    vowels := str "AEIOU" |};
  scoring := {|
    letterFrequency := 1;
    startBonus := 10;
    vowelBonus := 5;
    commonEndBonus := 3 |};
  dictionary := {|
    batchSize := 5;
    cacheMaxSize := 2000;
    cacheTtl := 604800000%Z |}
|}.

(** ** Feedback interpreter: [analyzeResults] *)

Inductive ResultKind := Correct | Present | Absent.

#[global] Instance ResultKind_EqDec : EqDec ResultKind.
Proof. intros x y; unfold EqDec; decide equality. Defined.

Record LetterCount := { lcMin : nat; lcMax : option nat }.

Record GuessAnalysis := {
  correct : list ascii;
  present : list ascii;
  absent : list ascii;
  positions : list (nat * ascii);
  letterCounts : list (ascii * LetterCount);
  constraints : list word
}.

Definition emptyAnalysis : GuessAnalysis :=
  {| correct := []; present := []; absent := []; positions := [];
     letterCounts := []; constraints := [] |}.

(** The letters of the guess paired with their results.  [analyzeResults]
    reads [guess[index]] for each result and [results[i]] for each letter.
    With one result per letter these are the pairs below.  With fewer
    results than letters the second pass of the source reads
    [results[i].result] of [undefined] and throws a [TypeError], with more
    results the first pass records the letter [undefined]; statements about
    [analyzeResults] on arbitrary arguments therefore assume
    [length results = length guess]. *)
Definition feedback (guess : word) (results : list ResultKind)
    : list (ascii * ResultKind) :=
  combine guess results.

Definition isCorrectOrPresent (r : ResultKind) : bool :=
  match r with Absent => false | _ => true end.

(** [Array.from(results).filter((r, i) => guess[i] === char &&
    (r.result === "correct" || r.result === "present")).length] *)
Definition knownCount (fb : list (ascii * ResultKind)) (char : ascii) : nat :=
  length (filter (fun gr => eqb (fst gr) char && isCorrectOrPresent (snd gr)) fb).

(** First pass, one result. *)
Definition collectResult (fb : list (ascii * ResultKind))
    (analysis : GuessAnalysis) (entry : nat * (ascii * ResultKind))
    : GuessAnalysis :=
  let '(index, (char, resultType)) := entry in
  match resultType with
  | Correct =>
      {| correct := JsSet.add (correct analysis) char;
         present := present analysis;
         absent := absent analysis;
         positions := JsMap.set (positions analysis) index char;
         letterCounts := letterCounts analysis;
         constraints := constraints analysis |}
  | Present =>
      {| correct := correct analysis;
         present := JsSet.add (present analysis) char;
         absent := absent analysis;
         positions := positions analysis;
         letterCounts :=
           if JsMap.has (letterCounts analysis) char
           then letterCounts analysis
           else JsMap.set (letterCounts analysis) char
                  {| lcMin := 1; lcMax := None |};
         constraints := constraints analysis |}
  | Absent =>
      if negb (JsSet.has (correct analysis) char)
         && negb (JsSet.has (present analysis) char)
      then
        {| correct := correct analysis;
           present := present analysis;
           absent := JsSet.add (absent analysis) char;
           positions := positions analysis;
           letterCounts := letterCounts analysis;
           constraints := constraints analysis |}
      else
        {| correct := correct analysis;
           present := present analysis;
           absent := absent analysis;
           positions := positions analysis;
           letterCounts :=
             JsMap.set (letterCounts analysis) char
               {| lcMin := knownCount fb char;
                  lcMax := Some (knownCount fb char) |};
           constraints := constraints analysis |}
  end.

Record CharResults := {
  crCorrect : list nat;
  crPresent : list nat;
  crAbsent : list nat
}.

(** Second pass, grouping the positions of each letter by result. *)
Definition groupResult (charResults : list (ascii * CharResults))
    (entry : nat * (ascii * ResultKind)) : list (ascii * CharResults) :=
  let '(i, (char, resultType)) := entry in
  let info :=
    match JsMap.get charResults char with
    | Some info => info
    | None => {| crCorrect := []; crPresent := []; crAbsent := [] |}
    end in
  JsMap.set charResults char
    match resultType with
    | Correct =>
        {| crCorrect := crCorrect info ++ [i]; crPresent := crPresent info;
           crAbsent := crAbsent info |}
    | Present =>
        {| crCorrect := crCorrect info; crPresent := crPresent info ++ [i];
           crAbsent := crAbsent info |}
    | Absent =>
        {| crCorrect := crCorrect info; crPresent := crPresent info;
           crAbsent := crAbsent info ++ [i] |}
    end.

(** [for (let char in charResults)]: the letter-count bounds of one letter. *)
Definition buildLetterCount (counts : list (ascii * LetterCount))
    (entry : ascii * CharResults) : list (ascii * LetterCount) :=
  let '(char, info) := entry in
  let counts1 :=
    if (0 <? length (crCorrect info)) || (0 <? length (crPresent info))
    then JsMap.set counts char
           {| lcMin := length (crCorrect info) + length (crPresent info);
              lcMax := None |}
    else counts in
  if (0 <? length (crAbsent info)) && (length (crCorrect info) =? 0)
     && (length (crPresent info) =? 0)
  then JsMap.set counts1 char {| lcMin := 0; lcMax := Some 0 |}
  else counts1.

Definition indexed {A : Type} (l : list A) : list (nat * A) :=
  combine (seq 0 (length l)) l.

Definition analyzeResults (guess : word) (results : list ResultKind)
    : GuessAnalysis :=
  let fb := feedback guess results in
  let analysis := fold_left (collectResult fb) (indexed fb) emptyAnalysis in
  let charResults := fold_left groupResult (indexed fb) [] in
  {| correct := correct analysis;
     present := present analysis;
     absent := absent analysis;
     positions := positions analysis;
     letterCounts :=
       fold_left buildLetterCount charResults (letterCounts analysis);
     constraints := constraints analysis |}.

(** ** Constraint model: [normalizeConstraints] *)

(** An entry of the [greens] array: [null] as filled at creation, a letter,
    or [undefined] (a hole left by an assignment past the end, which is also
    what reading past the end gives). *)
Inductive Slot := SNull | SChar (c : ascii) | SUndefined.

#[global] Instance Slot_EqDec : EqDec Slot.
Proof. intros x y; unfold EqDec; decide equality; apply ascii_dec. Defined.

Definition slot_get (a : list Slot) (i : nat) : Slot := nth i a SUndefined.

(** [arr[i] = v] for any index: the array grows when [i] is past its end
    and the positions skipped are holes. *)
Fixpoint array_put {A : Type} (hole : A) (a : list A) (i : nat) (v : A)
    : list A :=
  match a, i with
  | [], O => [v]
  | [], S i' => hole :: array_put hole [] i' v
  | _ :: t, O => v :: t
  | h :: t, S i' => h :: array_put hole t i' v
  end.

Definition slot_set (a : list Slot) (i : nat) (v : Slot) : list Slot :=
  array_put SUndefined a i v.

Record NormalizedConstraints := {
  greens : list Slot;
  minCounts : list (ascii * nat);
  maxCounts : list (ascii * nat);
  bannedPos : list (ascii * list nat);
  forbidden : list ascii;
  testedLetters : list ascii
}.

(** The error thrown for impossible constraints, with the values its
    message shows. *)
Inductive ConstraintError :=
  ImpossibleConstraints (char : ascii) (min max : nat).

Definition processGreen (c : NormalizedConstraints) (entry : nat * ascii)
    : NormalizedConstraints :=
  let '(pos, char) := entry in
  {| greens := slot_set (greens c) pos (SChar char);
     minCounts :=
       JsMap.set (minCounts c) char (js_or (JsMap.get (minCounts c) char) 0 + 1);
     maxCounts := maxCounts c;
     bannedPos := bannedPos c;
     forbidden := forbidden c;
     testedLetters := JsSet.add (testedLetters c) char |}.

Definition processPresent (wordLength : nat) (analysis : GuessAnalysis)
    (c : NormalizedConstraints) (char : ascii) : NormalizedConstraints :=
  let greenCount :=
    length (filter (fun pc => eqb (snd pc) char) (positions analysis)) in
  let banned0 :=
    match JsMap.get (bannedPos c) char with
    | Some s => s
    | None => []
    end in
  let banned :=
    for_loop wordLength
      (fun i s =>
         if negb (eqb (slot_get (greens c) i) (SChar char))
            && negb (eqb (JsMap.get (positions analysis) i) (Some char))
         then JsSet.add s i else s)
      banned0 in
  {| greens := greens c;
     minCounts :=
       JsMap.set (minCounts c) char
         (Nat.max (js_or (JsMap.get (minCounts c) char) 0 + 1) greenCount);
     maxCounts := maxCounts c;
     bannedPos := JsMap.set (bannedPos c) char banned;
     forbidden := forbidden c;
     testedLetters := JsSet.add (testedLetters c) char |}.

Definition processAbsent (c : NormalizedConstraints) (char : ascii)
    : NormalizedConstraints :=
  if negb (truthy (JsMap.get (minCounts c) char))
  then
    {| greens := greens c; minCounts := minCounts c;
       maxCounts := maxCounts c; bannedPos := bannedPos c;
       forbidden := JsSet.add (forbidden c) char;
       testedLetters := JsSet.add (testedLetters c) char |}
  else
    {| greens := greens c; minCounts := minCounts c;
       maxCounts :=
         JsMap.set (maxCounts c) char (js_or (JsMap.get (minCounts c) char) 0);
       bannedPos := bannedPos c;
       forbidden := forbidden c;
       testedLetters := JsSet.add (testedLetters c) char |}.

(** The constraints as collected, before they are validated. *)
Definition collectConstraints (wordLength : nat) (analysis : GuessAnalysis)
    : NormalizedConstraints :=
  let c0 :=
    {| greens := repeat SNull wordLength; minCounts := []; maxCounts := [];
       bannedPos := []; forbidden := []; testedLetters := [] |} in
  let c1 := fold_left processGreen (positions analysis) c0 in
  let c2 := fold_left (processPresent wordLength analysis) (present analysis) c1 in
  fold_left processAbsent (absent analysis) c2.

(** [Object.entries(maxCounts).forEach(...)]: the first letter whose minimum
    exceeds its maximum raises the error. *)
Fixpoint validateCounts (minCounts : list (ascii * nat))
    (entries : list (ascii * nat)) : option ConstraintError :=
  match entries with
  | [] => None
  | (char, max) :: rest =>
      let min := js_or (JsMap.get minCounts char) 0 in
      if max <? min then Some (ImpossibleConstraints char min max)
      else validateCounts minCounts rest
  end.

Definition normalizeConstraints (cfg : BotConfig) (analysis : GuessAnalysis)
    : ConstraintError + NormalizedConstraints :=
  let c := collectConstraints (wordLength cfg) analysis in
  match validateCounts (minCounts c) (maxCounts c) with
  | Some e => inl e
  | None => inr c
  end.

(** ** Candidate filter: the predicate of [filterWords] *)

Definition includes (w : word) (char : ascii) : bool :=
  if in_dec ascii_dec char w then true else false.

(** The characters with a meaning of their own in a pattern (the
    [SyntaxCharacter]s of the language); every other character is a pattern
    that matches itself. *)
Definition syntaxCharacters : word := str "^$\.*+?()[]{}|".

Definition literalChar (char : ascii) : bool :=
  negb (includes syntaxCharacters char).

(** [(word.match(new RegExp(char, "g")) || []).length] for a character that
    matches itself ([literalChar]): the number of its occurrences.  For a
    syntax character the source does something else (["."] matches every
    character, ["("] makes [new RegExp] throw a [SyntaxError]); statements
    about that expression are made for literal characters. *)
Definition matchCount (w : word) (char : ascii) : nat :=
  count_occ ascii_dec w char.

(** The characters of an analysis that [filterWords] turns into patterns
    (the keys of [minCounts] and [maxCounts] are letters of
    [analysis.positions] and [analysis.present]), and those that the beam
    fallback of [generateNextGuess] turns into patterns as well (the keys of
    [analysis.letterCounts]). *)
Definition literalKeys (analysis : GuessAnalysis) : bool :=
  forallb literalChar (map snd (positions analysis))
  && forallb literalChar (present analysis).

Definition literalAnalysis (analysis : GuessAnalysis) : bool :=
  literalKeys analysis
  && forallb literalChar (map fst (letterCounts analysis)).

(** The callback of [wordList.filter] in [filterWords]; each of its loops
    returns [false] at the first violation. *)
Definition satisfiesConstraints (c : NormalizedConstraints) (w : word) : bool :=
  forallb (fun char => negb (includes w char)) (forbidden c)
  && forallb
       (fun i =>
          negb (negb (eqb (slot_get (greens c) i) SNull)
                && negb (eqb (match nth_error w i with
                              | Some ch => SChar ch
                              | None => SUndefined
                              end)
                             (slot_get (greens c) i))))
       (seq 0 (length w))
  && forallb (fun cm => negb (matchCount w (fst cm) <? snd cm)) (minCounts c)
  && forallb (fun cm => negb (snd cm <? matchCount w (fst cm))) (maxCounts c)
  && forallb
       (fun cp =>
          forallb (fun pos => negb (eqb (nth_error w pos) (Some (fst cp))))
                  (snd cp))
       (bannedPos c).

Definition filterByConstraints (c : NormalizedConstraints)
    (wordList : list word) : list word :=
  filter (satisfiesConstraints c) wordList.

(** The feedback a secret gives for a guess, read off the program's own
    simulator. *)
Definition resultOfMark (m : Mark) : ResultKind :=
  match m with
  | Green => Correct
  | Yellow => Present
  | Grey => Absent
  end.

Definition feedbackFor (guess secret : word) : list ResultKind :=
  map resultOfMark (computePattern guess secret).

(** A letter whose collected minimum exceeds its collected maximum. *)
Definition conflict (minCounts maxCounts : list (ascii * nat)) : Prop :=
  exists char min max,
    In (char, max) maxCounts /\ JsMap.get minCounts char = Some min /\ max < min.

(** ** The dictionary cache: [LRUCache] ([utils/lru-cache.ts]) *)

Module LRUCache.
Section Defs.
Context {K V : Type} `{EqDec K}.

Record Item := { value : V; expiry : Z }.

Record t := {
  cache : list (K * Item);
  maxSize : nat;
  ttl : Z
}.

Definition create (maxSize : nat) (ttlMs : Z) : t :=
  {| cache := []; maxSize := maxSize; ttl := ttlMs |}.

Definition withCache (c : t) (m : list (K * Item)) : t :=
  {| cache := m; maxSize := maxSize c; ttl := ttl c |}.

(** [get(key)] at time [now]: the value, if any, and the cache afterwards
    (an expired entry is dropped, a live one moves to the end). *)
Definition get (now : Z) (c : t) (key : K) : option V * t :=
  match JsMap.get (cache c) key with
  | None => (None, c)
  | Some item =>
      if (expiry item <? now)%Z
      then (None, withCache c (JsMap.delete (cache c) key))
      else (Some (value item),
            withCache c (JsMap.set (JsMap.delete (cache c) key) key item))
  end.

(** [set(key, value)] at time [now]. *)
Definition set (now : Z) (c : t) (key : K) (v : V) : t :=
  let cache1 :=
    if JsMap.has (cache c) key then JsMap.delete (cache c) key
    else if maxSize c <=? JsMap.size (cache c) then
      match JsMap.keys (cache c) with
      | firstKey :: _ => JsMap.delete (cache c) firstKey
      | [] => cache c
      end
    else cache c in
  withCache c
    (JsMap.set cache1 key {| value := v; expiry := (now + ttl c)%Z |}).

Definition clear (c : t) : t := withCache c [].

Definition size (c : t) : nat := JsMap.size (cache c).

Definition cleanExpired (now : Z) (c : t) : t :=
  withCache c (filter (fun e => negb (expiry (snd e) <? now)%Z) (cache c)).

End Defs.
End LRUCache.

(** ** Sorting

    [Array.prototype.sort] with a consistent comparator is a stable sort.
    [after x y] says that the comparator is positive on [(x, y)], that is,
    [x] has to come after [y]. *)

Fixpoint insertSorted {A : Type} (after : A -> A -> bool) (x : A)
    (l : list A) : list A :=
  match l with
  | [] => [x]
  | y :: l' =>
      if after x y then y :: insertSorted after x l' else x :: y :: l'
  end.

Definition jsSort {A : Type} (after : A -> A -> bool) (l : list A) : list A :=
  fold_right (insertSorted after) [] l.

(** [arr.slice(0, n)] *)
Definition slice0 {A : Type} (n : nat) (l : list A) : list A := firstn n l.

(** ** The dictionary service: [FreeDictionaryService.validateWords]
       ([services/dictionary.ts]) *)

Definition lowerChar (c : ascii) : ascii :=
  let n := nat_of_ascii c in
  if (65 <=? n) && (n <=? 90) then ascii_of_nat (n + 32) else c.

Definition toLowerCase (w : word) : word := map lowerChar w.

(** What a request comes back with: a response with its HTTP status, or an
    error, which carries the status of the response when there was one (404,
    429) and none for a timeout or a network failure. *)
Inductive Response :=
| Resolved (status : nat)
| Rejected (status : option nat).

Record Network := {
  primary : word -> Response;
  fallback : word -> Response
}.

Definition DictCache := @LRUCache.t word bool.

(** One callback of [uncachedWords.map(async (word) => ...)].  All the
    callbacks of a batch issue their first request before any answer
    arrives, so they read [useFallback] as it was when the batch started
    ([atStart]); their [catch] blocks run when the answers arrive, taken
    here in the order of the requests, and see the flag as the earlier ones
    left it.  The result is [None] when the retry on the fallback API fails,
    which rejects the [Promise.all]. *)
Definition fetchValidity (net : Network) (atStart useFallback : bool)
    (w : word) : option bool * bool :=
  let url := toLowerCase w in
  match (if atStart then fallback net url else primary net url) with
  | Resolved status => (Some (status =? 200), useFallback)
  | Rejected status =>
      if eqb status (Some 429) && negb useFallback
      then (match fallback net url with
            | Resolved s => Some (s =? 200)
            | Rejected _ => None
            end, true)
      else (Some true, useFallback)
  end.

Fixpoint fetchAll (net : Network) (atStart useFallback : bool)
    (ws : list word) : option (list bool) * bool :=
  match ws with
  | [] => (Some [], useFallback)
  | w :: rest =>
      let '(r, uf1) := fetchValidity net atStart useFallback w in
      let '(rs, uf2) := fetchAll net atStart uf1 rest in
      (match r, rs with
       | Some b, Some bs => Some (b :: bs)
       | _, _ => None
       end, uf2)
  end.

Record ValidationState := {
  vsCache : DictCache;
  validWords : list word;
  useFallback : bool
}.

(** [batch.filter((word) => ...)]: cached words are settled at once (the
    valid ones are pushed), the others are kept for the API. *)
Definition checkCached (now : Z) (acc : list word * ValidationState)
    (w : word) : list word * ValidationState :=
  let '(uncached, st) := acc in
  let '(cached, cache') := LRUCache.get now (vsCache st) (toLowerCase w) in
  match cached with
  | Some isValid =>
      (uncached,
       {| vsCache := cache';
          validWords := if isValid then validWords st ++ [w] else validWords st;
          useFallback := useFallback st |})
  | None =>
      (uncached ++ [w],
       {| vsCache := cache'; validWords := validWords st;
          useFallback := useFallback st |})
  end.

(** [uncachedWords.forEach((word, index) => ...)] after the API answered. *)
Definition recordValidation (now : Z) (st : ValidationState)
    (wv : word * bool) : ValidationState :=
  let '(w, isValid) := wv in
  {| vsCache := LRUCache.set now (vsCache st) (toLowerCase w) isValid;
     validWords := if isValid then validWords st ++ [w] else validWords st;
     useFallback := useFallback st |}.

Definition validateBatch (now : Z) (net : Network) (st : ValidationState)
    (batch : list word) : ValidationState :=
  let '(uncachedWords, st1) := fold_left (checkCached now) batch ([], st) in
  match uncachedWords with
  | [] => st1
  | _ =>
      let '(validations, uf) :=
        fetchAll net (useFallback st1) (useFallback st1) uncachedWords in
      let st2 := {| vsCache := vsCache st1; validWords := validWords st1;
                    useFallback := uf |} in
      match validations with
      | Some vs => fold_left (recordValidation now) (combine uncachedWords vs) st2
      | None =>
          fold_left (recordValidation now)
            (map (fun w => (w, true)) uncachedWords) st2
      end
  end.

(** [for (let i = 0; i < words.length; i += batchSize)]: the batches.  For a
    [batchSize] of zero the loop of the source never ends; the model is for
    batch sizes of at least one, where [fuel = words.length] is enough. *)
Fixpoint batchesOf (fuel size : nat) (ws : list word) : list (list word) :=
  match ws, fuel with
  | [], _ => []
  | _, O => []
  | _, S fuel' => firstn size ws :: batchesOf fuel' size (skipn size ws)
  end.

Definition validateWords (now : Z) (net : Network) (cfg : DictionaryConfig)
    (cache : DictCache) (words : list word) : list word * DictCache :=
  let st0 := {| vsCache := LRUCache.cleanExpired now cache;
                validWords := []; useFallback := false |} in
  let st := fold_left (validateBatch now net) 
              (batchesOf (length words) (batchSize cfg) words) st0 in
  (validWords st, vsCache st).

(** ** The bot *)

Record Bot := {
  botConfig : BotConfig;
  botStartingWords : list word;
  letterFrequencies : list (ascii * nat);
  positionFrequencies : list (nat * list (ascii * nat));
  dictionaryService : DictCache
}.

(** Counting letters into a record: [freq[c] = (freq[c] || 0) + 1]. *)
Definition countLetter (freq : list (ascii * nat)) (char : ascii)
    : list (ascii * nat) :=
  JsMap.set freq char (js_or (JsMap.get freq char) 0 + 1).

Definition calculateLetterFrequencies (startingWords : list word)
    : list (ascii * nat) :=
  let freq := fold_left countLetter (concat startingWords) [] in
  fold_left
    (fun freq il =>
       let '(index, letter) := il in
       if truthy (JsMap.get freq letter)
       then JsMap.set freq letter (js_or (JsMap.get freq letter) 0 + (10 - index))
       else freq)
    (indexed (str "EARIOTNSLC")) freq.

(** [initPositionFrequencies]; every starting word is taken to have a
    letter at each of the [wordLength] positions. *)
Definition initPositionFrequencies (wordLength : nat)
    (startingWords : list word) : list (nat * list (ascii * nat)) :=
  for_loop wordLength
    (fun i posFreq =>
       JsMap.set posFreq i
         (fold_left
            (fun freq w =>
               match nth_error w i with
               | Some char => countLetter freq char
               | None => freq
               end)
            startingWords []))
    [].

(** [new EnhancedAIWordleBot()] *)
Definition newBot (cfg : BotConfig) : Bot :=
  {| botConfig := cfg;
     botStartingWords := startingWords cfg;
     letterFrequencies := calculateLetterFrequencies (startingWords cfg);
     positionFrequencies :=
       initPositionFrequencies (wordLength cfg) (startingWords cfg);
     dictionaryService :=
       LRUCache.create (cacheMaxSize (dictionary cfg))
                       (cacheTtl (dictionary cfg)) |}.

Definition withDictionary (bot : Bot) (d : DictCache) : Bot :=
  {| botConfig := botConfig bot;
     botStartingWords := botStartingWords bot;
     letterFrequencies := letterFrequencies bot;
     positionFrequencies := positionFrequencies bot;
     dictionaryService := d |}.

Definition withStartingWords (bot : Bot) (ws : list word) : Bot :=
  {| botConfig := botConfig bot;
     botStartingWords := ws;
     letterFrequencies := letterFrequencies bot;
     positionFrequencies := positionFrequencies bot;
     dictionaryService := dictionaryService bot |}.

Definition positionScore (bot : Bot) (i : nat) (char : ascii) : nat :=
  js_or (match JsMap.get (positionFrequencies bot) i with
         | Some freq => JsMap.get freq char
         | None => None
         end) 0.

Definition letterScore (bot : Bot) (char : ascii) : nat :=
  js_or (JsMap.get (letterFrequencies bot) char) 0.

Definition isVowel (bot : Bot) (char : ascii) : bool :=
  includes (vowels (letterBonuses (botConfig bot))) char.

(** ** Entropy and worst-case bucket *)

(** [Math.log2] and the entropy are taken in exact arithmetic: the values
    below are the real numbers that the doubles of the program round.  They
    rank candidates in the model of [generateNextGuess]; no statement about
    the last bits of a computed entropy is made from them. *)
Definition log2 (x : R) : R := (ln x / ln 2)%R.

(** One iteration of the loop of [partitionByPattern]. *)
Definition addToBucket (guess : word)
    (patterns : list (list Mark * list word)) (secret : word)
    : list (list Mark * list word) :=
  let pattern := computePattern guess secret in
  let patterns1 :=
    if JsMap.has patterns pattern then patterns
    else JsMap.set patterns pattern [] in
  match JsMap.get patterns1 pattern with
  | Some bucket => JsMap.set patterns1 pattern (bucket ++ [secret])
  | None => patterns1
  end.

Definition partitionByPattern (guess : word) (secrets : list word)
    : list (list Mark * list word) :=
  fold_left (addToBucket guess) secrets [].

Definition entropyOf (guess : word) (secrets : list word) : R :=
  let patterns := partitionByPattern guess secrets in
  let totalSize := length secrets in
  fold_left
    (fun entropy pb =>
       let p := (INR (length (snd pb)) / INR totalSize)%R in
       (entropy - p * log2 p)%R)
    patterns 0%R.

Definition worstCaseBucket (guess : word) (secrets : list word) : nat :=
  fold_left (fun maxSize pb => Nat.max maxSize (length (snd pb)))
            (partitionByPattern guess secrets) 0.

(** ** Candidate scorer: [scoreWord] *)

Definition Rltb (x y : R) : bool := if Rlt_dec x y then true else false.

Definition uniqueLetters (w : word) : list ascii := fold_left JsSet.add w [].

(** The loop over the positions of the word. *)
Definition scorePosition (bot : Bot) (w : word) (i : nat) (score : R) : R :=
  match nth_error w i with
  | None => score
  | Some char =>
      let cfg := botConfig bot in
      let s1 := (score + INR (positionScore bot i char) * 2)%R in
      let s2 := (s1 + INR (letterScore bot char))%R in
      let s3 :=
        if (i =? 0) && includes (commonStart (letterBonuses cfg)) char
        then (s2 + INR (startBonus (scoring cfg)))%R else s2 in
      let s4 :=
        if (i =? length w - 1) && includes (commonEnd (letterBonuses cfg)) char
        then (s3 + INR (commonEndBonus (scoring cfg)))%R else s3 in
      if includes (vowels (letterBonuses cfg)) char
      then (s4 + INR (vowelBonus (scoring cfg))
                 * (if (i =? 1) || (i =? 2) then 15 / 10 else 1))%R
      else s4
  end.

(** The adjustments made when an analysis is given. *)
Definition scoreDuplicates (c : NormalizedConstraints) (score : R)
    (entry : ascii * nat) : R :=
  let '(char, count) := entry in
  let minRequired := js_or (JsMap.get (minCounts c) char) 0 in
  let maxAllowed := JsMap.get (maxCounts c) char in
  let s1 :=
    if 1 <? count then
      if count <=? minRequired then (score + 2)%R
      else (score - 5 * (INR count - INR (js_or (Some minRequired) 1)))%R
    else score in
  match maxAllowed with
  | Some maxA =>
      if maxA <? count then (s1 - 10 * (INR count - INR maxA))%R else s1
  | None => s1
  end.

Definition scoreWithConstraints (c : NormalizedConstraints) (w : word)
    (score : R) : R :=
  let s1 :=
    fold_left
      (fun s char => if negb (JsSet.has (testedLetters c) char)
                     then (s + 8)%R else s)
      (uniqueLetters w) score in
  fold_left (scoreDuplicates c) (fold_left countLetter w []) s1.

(** The adjustment made when a non-empty candidate list is given. *)
Definition scoreWithCandidates (w : word) (candidates : list word)
    (score : R) : R :=
  match candidates with
  | [] => score
  | _ =>
      if length candidates <=? 20
      then (score + (if in_dec eq_dec w candidates then 15 else 0))%R
      else (score + entropyOf w candidates * 10)%R
  end.

(** Errors of [normalizeConstraints] passing through the callers. *)
Definition bind {E A B : Type} (m : E + A) (f : A -> E + B) : E + B :=
  match m with
  | inl e => inl e
  | inr a => f a
  end.

Fixpoint mapM {E A B : Type} (f : A -> E + B) (l : list A) : E + list B :=
  match l with
  | [] => inr []
  | x :: l' => bind (f x) (fun y => bind (mapM f l') (fun ys => inr (y :: ys)))
  end.

Definition includesWord (l : list word) (w : word) : bool :=
  if in_dec eq_dec w l then true else false.

Definition baseScore (bot : Bot) (w : word) : R :=
  for_loop (length w) (scorePosition bot w) 0%R.

Definition scoreWord (bot : Bot) (w : word) (analysis : option GuessAnalysis)
    (candidates : option (list word)) : ConstraintError + R :=
  let withCandidates score :=
    match candidates with
    | Some cs => scoreWithCandidates w cs score
    | None => score
    end in
  match analysis with
  | Some a =>
      bind (normalizeConstraints (botConfig bot) a)
           (fun c => inr (withCandidates (scoreWithConstraints c w (baseScore bot w))))
  | None => inr (withCandidates (baseScore bot w))
  end.

(** [getBestStartingWord]: the starting words are sorted in place by
    [scoreWord(b) - scoreWord(a)], and the first one is returned
    ([undefined] when there is none).  The bot reads its starting words
    through [botStartingWords] only.  In the source that array is also the
    array of the configuration object, which the sort therefore re-orders
    as well; [botConfig] keeps the list as configured, so what a bot
    created afterwards from the same configuration object would see is not
    shown by the model. *)
Definition getBestStartingWord (bot : Bot) : option word * Bot :=
  let sorted :=
    jsSort (fun a b => Rltb (baseScore bot a) (baseScore bot b))
           (botStartingWords bot) in
  (hd_error sorted, withStartingWords bot sorted).

(** Sorting scored words by [b.score - a.score]. *)
Definition sortByScore (l : list (word * R)) : list (word * R) :=
  jsSort (fun a b => Rltb (snd a) (snd b)) l.

Section Environment.
(** The time returned by [Date.now()] and the two dictionary APIs. *)
Variable now : Z.
Variable net : Network.

Definition validate (bot : Bot) (words : list word) : list word * Bot :=
  let '(valid, d) :=
    validateWords now net (dictionary (botConfig bot))
                  (dictionaryService bot) words in
  (valid, withDictionary bot d).

(** *** [generateWordCombinations] *)

Definition isValidCandidate (analysis : GuessAnalysis) (w : word) : bool :=
  forallb (fun pc => eqb (nth_error w (fst pc)) (Some (snd pc)))
          (positions analysis)
  && forallb (fun char => includes w char) (present analysis)
  && forallb (fun char => negb (includes w char)) (absent analysis)
  && existsb (fun c => includes (str "AEIOU") c) w.

Definition buildCombination (bot : Bot) (pattern : list (option ascii))
    (analysis : GuessAnalysis) (wordPattern : word) : word :=
  for_loop (wordLength (botConfig bot))
    (fun i w =>
       match nth i pattern None with
       | Some known => w ++ [known]
       | None =>
           let isVowelPosition := eqb (nth_error wordPattern i) (Some "V"%char) in
           let letterPool :=
             filter (fun c => negb (JsSet.has (absent analysis) c))
                    (if isVowelPosition then str "AEIOU"
                     else str "BCDFGHJKLMNPQRSTVWXYZ") in
           match jsSort (fun a b => letterScore bot a <? letterScore bot b)
                        letterPool with
           | letter :: _ => w ++ [letter]
           | [] => w
           end
       end)
    [].

Definition generateWordCombinations (bot : Bot) (pattern : list (option ascii))
    (analysis : GuessAnalysis) : list word * Bot :=
  let patterns :=
    [str "CVCVC"; str "CCVCV"; str "CVCCV"; str "CVCCC"; str "CCVCC"] in
  let possibleWords :=
    filter (fun w => (length w =? wordLength (botConfig bot))
                     && isValidCandidate analysis w)
           (map (buildCombination bot pattern analysis) patterns) in
  validate bot possibleWords.

(** *** [filterWords] *)

Definition filterWords (bot : Bot) (analysis : GuessAnalysis)
    (wordList : option (list word)) : ConstraintError + (list word * Bot) :=
  bind (normalizeConstraints (botConfig bot) analysis) (fun constraints =>
    let wordList :=
      match wordList with
      | Some l => l
      | None => botStartingWords bot
      end in
    let '(filteredWords, bot1) :=
      validate bot (filterByConstraints constraints wordList) in
    match filteredWords with
    | [] =>
        let pattern :=
          fold_left (fun p pc => array_put None p (fst pc) (Some (snd pc)))
                    (positions analysis)
                    (repeat None (wordLength (botConfig bot))) in
        inr (generateWordCombinations bot1 pattern analysis)
    | _ => inr (filteredWords, bot1)
    end).

(** *** [enumerateCandidates]: the beam search *)

Definition scorePartial (bot : Bot) (partial : word) : nat :=
  for_loop (length partial)
    (fun i score =>
       match nth_error partial i with
       | Some char => score + positionScore bot i char * 2 + letterScore bot char
       | None => score
       end)
    0.

Definition isPossiblePrefix (bot : Bot) (partial : word) : bool :=
  if (3 <=? length partial) && negb (existsb (isVowel bot) partial)
  then false
  else
    let lastThree := skipn (length partial - 3) partial in
    if (length lastThree =? 3)
       && forallb (fun c => negb (isVowel bot c)) lastThree
       && (length partial <? wordLength (botConfig bot))
    then false
    else true.

Definition extendBeam (bot : Bot) (pos : nat) (beam : list (word * nat))
    : list (word * nat) :=
  let posFreq :=
    match JsMap.get (positionFrequencies bot) pos with
    | Some freq => freq
    | None => []
    end in
  let nextBeam :=
    flat_map
      (fun ps =>
         flat_map
           (fun cf =>
              let newPartial := fst ps ++ [fst cf] in
              if isPossiblePrefix bot newPartial
              then [(newPartial, scorePartial bot newPartial)]
              else [])
           posFreq)
      beam in
  slice0 100 (jsSort (fun a b => snd a <? snd b) nextBeam).

Definition enumerateCandidates (bot : Bot) (limit : nat) : list word * Bot :=
  let beam :=
    for_loop (wordLength (botConfig bot)) (extendBeam bot) [([], 0)] in
  let candidates := map fst beam in
  let '(validCandidates, bot1) := validate bot candidates in
  (slice0 limit validCandidates, bot1).

(** *** Guess selector: [generateNextGuess] *)

Definition matchesAnalysis (analysis : GuessAnalysis) (w : word) : bool :=
  forallb (fun p => includes w p) (present analysis)
  && forallb
       (fun a => negb (negb (JsSet.has (present analysis) a)
                       && negb (JsSet.has (correct analysis) a)
                       && includes w a))
       (absent analysis)
  && forallb (fun pc => eqb (nth_error w (fst pc)) (Some (snd pc)))
             (positions analysis)
  && forallb
       (fun cl =>
          let count := matchCount w (fst cl) in
          negb (count <? lcMin (snd cl))
          && match lcMax (snd cl) with
             | Some max => negb (max <? count)
             | None => true
             end)
       (letterCounts analysis).

Definition looseMatch (analysis : GuessAnalysis) (w : word) : bool :=
  forallb (fun p => includes w p) (present analysis)
  && forallb
       (fun a => JsSet.has (present analysis) a
                 || JsSet.has (correct analysis) a
                 || negb (includes w a))
       (absent analysis).

(** The word of the first entry after sorting by descending score. *)
Definition bestScored (scored : list (word * R)) : option word :=
  option_map fst (hd_error (sortByScore scored)).

(** The branch taken when no candidate remains.  The loose candidates are
    sorted in the source with a comparator that calls [scoreWord] on both
    words; their scores are computed once here, which gives the same order
    since [scoreWord] is a function of its arguments. *)
Definition beamFallback (bot : Bot) (analysis : GuessAnalysis)
    (previousGuesses : list word) : ConstraintError + (option word * Bot) :=
  let '(beamCandidates, bot1) := enumerateCandidates bot 300 in
  let validBeam :=
    filter (fun w => negb (includesWord previousGuesses w)
                     && matchesAnalysis analysis w)
           beamCandidates in
  match validBeam with
  | _ :: _ =>
      bind (mapM (fun w =>
                    bind (scoreWord bot1 w (Some analysis) (Some validBeam))
                         (fun score => inr (w, score)))
                 validBeam)
           (fun scored => inr (bestScored scored, bot1))
  | [] =>
      let looseFallback :=
        filter (fun w => negb (includesWord previousGuesses w)
                         && looseMatch analysis w)
               beamCandidates in
      match looseFallback with
      | _ :: _ =>
          bind (mapM (fun w =>
                        bind (scoreWord bot1 w (Some analysis) (Some looseFallback))
                             (fun score => inr (w, score)))
                     looseFallback)
               (fun scored => inr (bestScored scored, bot1))
      | [] => inr (getBestStartingWord bot1)
      end
  end.

(** The entropy strategy, also reached when the two strategies for small
    candidate sets return nothing. *)
Definition entropyStrategy (bot : Bot) (analysis : GuessAnalysis)
    (previousGuesses remainingWords availableWords : list word)
    : ConstraintError + (option word * Bot) :=
  let candidateLimit :=
    Nat.min (if 50 <? length remainingWords then 200 else 100)
            (length availableWords) in
  let topCandidates := slice0 candidateLimit availableWords in
  let entropyWeight :=
    if 50 <? length remainingWords then (8 / 10)%R else (6 / 10)%R in
  bind (mapM (fun w =>
                bind (scoreWord bot w (Some analysis) (Some remainingWords))
                     (fun frequencyScore =>
                        inr (w, (entropyOf w remainingWords * entropyWeight
                                 + frequencyScore * (1 - entropyWeight))%R)))
             (filter (fun w => negb (includesWord previousGuesses w))
                     topCandidates))
       (fun scoredWords =>
          match scoredWords with
          | [] => inr (getBestStartingWord bot)
          | _ => inr (bestScored scoredWords, bot)
          end).

Definition minimaxStrategy (bot : Bot) (analysis : GuessAnalysis)
    (previousGuesses remainingWords availableWords : list word)
    : ConstraintError + (option word * Bot) :=
  let minimaxScores :=
    fold_left
      (fun scores w =>
         if negb (includesWord previousGuesses w)
         then JsMap.set scores w (worstCaseBucket w remainingWords)
         else scores)
      availableWords [] in
  let sortedByMinimax := jsSort (fun a b => snd b <? snd a) minimaxScores in
  match sortedByMinimax with
  | (bestWord, bestScore) :: _ =>
      let tiedForBest :=
        map fst (filter (fun e => snd e =? bestScore) sortedByMinimax) in
      if 1 <? length tiedForBest then
        bind (mapM (fun w =>
                      bind (scoreWord bot w (Some analysis) (Some remainingWords))
                           (fun frequencyScore =>
                              inr (w, (entropyOf w remainingWords * (7 / 10)
                                       + frequencyScore * (3 / 10))%R)))
                   tiedForBest)
             (fun scored => inr (bestScored scored, bot))
      else inr (Some bestWord, bot)
  | [] =>
      entropyStrategy bot analysis previousGuesses remainingWords availableWords
  end.

(** The decision over a non-empty candidate set. *)
Definition selectGuess (bot : Bot) (analysis : GuessAnalysis)
    (previousGuesses remainingWords : list word)
    : ConstraintError + (option word * Bot) :=
  let '(allAvailableWords, bot1) := enumerateCandidates bot 500 in
  let availableWords :=
    filter (fun w => negb (includesWord previousGuesses w)) allAvailableWords in
  if length remainingWords <=? 2 then
    match filter (fun w => negb (includesWord previousGuesses w))
                 remainingWords with
    | w :: _ => inr (Some w, bot1)
    | [] =>
        entropyStrategy bot1 analysis previousGuesses remainingWords
                        availableWords
    end
  else if length remainingWords <=? 20 then
    minimaxStrategy bot1 analysis previousGuesses remainingWords availableWords
  else
    entropyStrategy bot1 analysis previousGuesses remainingWords availableWords.

Definition generateNextGuess (bot : Bot) (analysis : GuessAnalysis)
    (previousGuesses : list word) (candidates : option (list word))
    : ConstraintError + (option word * Bot) :=
  bind (match candidates with
        | Some remainingWords => inr (remainingWords, bot)
        | None => filterWords bot analysis None
        end)
       (fun rb =>
          let '(remainingWords, bot1) := rb in
          if length remainingWords =? 0
          then beamFallback bot1 analysis previousGuesses
          else selectGuess bot1 analysis previousGuesses remainingWords).

End Environment.

(** [Subseq l1 l2]: [l1] is obtained from [l2] by dropping elements, the
    others keeping their order. *)
Inductive Subseq {A : Type} : list A -> list A -> Prop :=
| Subseq_nil : Subseq [] []
| Subseq_skip x l1 l2 : Subseq l1 l2 -> Subseq l1 (x :: l2)
| Subseq_take x l1 l2 : Subseq l1 l2 -> Subseq (x :: l1) (x :: l2).

(** A dictionary that answers every request with status 200. *)
Definition alwaysFound : Network :=
  {| primary := fun _ => Resolved 200; fallback := fun _ => Resolved 200 |}.

(** Twice the base score, which is an integer: the vowel bonus counts three
    times at positions 1 and 2 and twice elsewhere.  It decides comparisons
    between base scores by computation. *)
Definition scorePosition2 (bot : Bot) (w : word) (i : nat) (score : Z) : Z :=
  match nth_error w i with
  | None => score
  | Some char =>
      let cfg := botConfig bot in
      let s1 := (score + 2 * (Z.of_nat (positionScore bot i char) * 2))%Z in
      let s2 := (s1 + 2 * Z.of_nat (letterScore bot char))%Z in
      let s3 :=
        if (i =? 0) && includes (commonStart (letterBonuses cfg)) char
        then (s2 + 2 * Z.of_nat (startBonus (scoring cfg)))%Z else s2 in
      let s4 :=
        if (i =? length w - 1) && includes (commonEnd (letterBonuses cfg)) char
        then (s3 + 2 * Z.of_nat (commonEndBonus (scoring cfg)))%Z else s3 in
      if includes (vowels (letterBonuses cfg)) char
      then (s4 + Z.of_nat (vowelBonus (scoring cfg))
                 * (if Nat.eqb i 1 || Nat.eqb i 2 then 3 else 2))%Z
      else s4
  end.

Definition baseScore2 (bot : Bot) (w : word) : Z :=
  for_loop (length w) (scorePosition2 bot w) 0%Z.

(** Auxiliary notions for the entropy bounds: the sum of a list of reals,
    the term [k * log2 k] of a bucket of size [k], and the sizes of the
    buckets of a partition. *)
Definition sumR (l : list R) : R := fold_right Rplus 0%R l.

Definition xlog2 (k : nat) : R := (INR k * log2 (INR k))%R.

Definition bucketSizes {K : Type} (patterns : list (K * list word)) : list nat :=
  map (fun pb => length (snd pb)) patterns.

(** What the partition looks like after the secrets in [pre]. *)
Definition partition_inv (guess : word) (pre : list word)
    (m : list (list Mark * list word)) : Prop :=
  list_sum (bucketSizes m) = length pre /\
  Forall (fun k => 1 <= k) (bucketSizes m) /\
  (Forall (fun k => k = 1) (bucketSizes m)
     <-> NoDup (map (computePattern guess) pre)) /\
  (forall k, JsMap.get m k <> None <-> In k (map (computePattern guess) pre)).


(** The result shown for the first occurrence of a letter in the guess. *)
Definition firstResult (fb : list (ascii * ResultKind)) (char : ascii)
    : option ResultKind :=
  option_map snd (find (fun gr => eqb (fst gr) char) fb).

(** ** The win condition: [checkWin] *)

(** [results.every((result) => result.result === "correct")] *)
Definition checkWin (results : list ResultKind) : bool :=
  forallb (fun result => eqb result Correct) results.

(** State of the second pass of [computePattern] after the positions below
    [i]: the green tiles are those of the first pass, and a letter that still
    has occurrences left in the working multiset has no grey tile so far. *)
Definition pass2_exact (guess secret : word) (i : nat)
    (st : list Mark * list (ascii * nat)) : Prop :=
  pass2_inv guess secret st /\
  (forall j, nth j (fst st) Grey = Green <->
             (j < length guess /\ nth_error guess j = nth_error secret j)) /\
  (forall c, cnt (snd st) c = 0 \/
             forall j, j < i -> nth_error guess j = Some c ->
                       nth j (fst st) Grey <> Grey).

(** The secrets of a pool that give the pattern [pattern] for [guess], in
    the order of the pool. *)
Definition samePattern (guess : word) (pattern : list Mark)
    (secrets : list word) : list word :=
  filter (fun secret => eqb (computePattern guess secret) pattern) secrets.

(** What [partitionByPattern] has built after the secrets in [pre]. *)
Definition partition_exact (guess : word) (pre : list word)
    (m : list (list Mark * list word)) : Prop :=
  NoDup (JsMap.keys m) /\
  forall pattern,
    JsMap.get m pattern
    = match samePattern guess pattern pre with
      | [] => None
      | bucket => Some bucket
      end.

(** The keys of the [Map] inside a cache are distinct, as they are in every
    cache built from [create] by the operations of the class. *)
Definition distinctKeys {K V : Type} (c : @LRUCache.t K V) : Prop :=
  NoDup (JsMap.keys (LRUCache.cache c)).

(** ** The dictionary service: [FreeDictionaryService.isValidWord]

    The cache is read at time [now]; the answer of an API is cached when it
    arrives, at time [answered]. *)
Definition isValidWord (now answered : Z) (net : Network) (cache : DictCache)
    (w : word) : bool * DictCache :=
  let normalizedWord := toLowerCase w in
  let '(cached, cache1) := LRUCache.get now cache normalizedWord in
  match cached with
  | Some isValid => (isValid, cache1)
  | None =>
      match primary net normalizedWord with
      | Resolved status =>
          let isValid := status =? 200 in
          (isValid, LRUCache.set answered cache1 normalizedWord isValid)
      | Rejected status =>
          if eqb status (Some 429) then
            match fallback net (toLowerCase w) with
            | Resolved s =>
                let isValid := s =? 200 in
                (isValid, LRUCache.set answered cache1 normalizedWord isValid)
            | Rejected _ => (true, cache1)
            end
          else if eqb status (Some 404) then
            (false, LRUCache.set answered cache1 normalizedWord false)
          else (true, cache1)
      end
  end.

(** No entry of the cache says that a word is invalid. *)
Definition noNegativeEntry (c : DictCache) : Prop :=
  Forall (fun e => LRUCache.value (snd e) = true) (LRUCache.cache c).

(** A network on which no request is answered with a status other than 200:
    a request either fails (not found, rate limit, timeout, no connection)
    or resolves with 200. *)
Definition neverRefuses (net : Network) : Prop :=
  forall url status,
    (primary net url = Resolved status -> status = 200) /\
    (fallback net url = Resolved status -> status = 200).

(** A dictionary that knows no word: every request fails with 404. *)
Definition neverFound : Network :=
  {| primary := fun _ => Rejected (Some 404);
     fallback := fun _ => Rejected (Some 404) |}.

(** The entries that the first pass of [analyzeResults] puts into
    [analysis.positions]: the indices with a correct result, in order, each
    with its letter. *)
Definition greenEntries (l : list (nat * (ascii * ResultKind)))
    : list (nat * ascii) :=
  map (fun e => (fst e, fst (snd e)))
      (filter (fun e => eqb (snd (snd e)) Correct) l).

(** A letter that [positionFrequencies] records at a position: for a bot
    made by [newBot], a letter that some starting word has there. *)
Definition seenAt (bot : Bot) (i : nat) (char : ascii) : Prop :=
  exists freq count,
    JsMap.get (positionFrequencies bot) i = Some freq /\
    JsMap.get freq char = Some count.

(** The bonus that [calculateLetterFrequencies] gives to a common letter:
    10 for E, 9 for A, 8 for R, 7 for I, 6 for O, 5 for T, 4 for N, 3 for S,
    2 for L, 1 for C and nothing for the other letters. *)
Definition commonLetterBonus (char : ascii) : nat :=
  list_sum
    (map (fun il => if eqb (snd il) char then 10 - fst il else 0)
         (indexed (str "EARIOTNSLC"))).

(** ** Playing a game: [makeGuess] and [playGame]

    The outside world is a state [W] that moves on when the bot waits for
    it: a request to the game API either yields the data of the response or
    fails, and leaves the world in a new state; [delay] lets time pass.  The
    clock and the dictionary APIs are read off the state of the world (one
    reading stands for the reads that have no [await] between them; a call
    of [generateNextGuess] sees the world as it is after the answer of the
    game API).  The data of a response are the [result] fields of its
    entries.  Console output is not modelled. *)

Inductive GameType := Daily | RandomGame | WordGame.

#[global] Instance GameType_EqDec : EqDec GameType.
Proof. intros x y; unfold EqDec; decide equality. Defined.

(** The request that [makeGuess] sends: the game type selects the URL, the
    rest are the query parameters. *)
Record GuessRequest := {
  reqType : GameType;
  reqGuess : option word;
  reqSize : nat;
  reqSeed : option nat
}.

(** What can end a game early: the error thrown by [makeGuess], the
    [TypeError] raised when a guess or one of its results is [undefined],
    and the error of [normalizeConstraints]. *)
Inductive GameError :=
| ApiCallFailed (retries : nat)
| UndefinedRead
| ConstraintFailure (e : ConstraintError).

Record GameData := {
  gdId : Z;
  gdType : GameType;
  gdSize : nat;
  gdSeed : option nat;
  gdStartTime : Z;
  gdEndTime : option Z;
  gdDuration : option Z;
  gdGuesses : list (option word);
  gdResults : list (list ResultKind);
  gdSuccess : bool;
  gdAttempts : nat;
  gdError : option GameError
}.

(** [gameData.results.push(result); gameData.guesses.push(currentGuess);
    gameData.attempts = attempt] *)
Definition recordAttempt (gd : GameData) (guess : option word)
    (result : list ResultKind) (attempt : nat) : GameData :=
  {| gdId := gdId gd; gdType := gdType gd; gdSize := gdSize gd;
     gdSeed := gdSeed gd; gdStartTime := gdStartTime gd;
     gdEndTime := gdEndTime gd; gdDuration := gdDuration gd;
     gdGuesses := gdGuesses gd ++ [guess];
     gdResults := gdResults gd ++ [result];
     gdSuccess := gdSuccess gd; gdAttempts := attempt;
     gdError := gdError gd |}.

Definition withSuccess (gd : GameData) : GameData :=
  {| gdId := gdId gd; gdType := gdType gd; gdSize := gdSize gd;
     gdSeed := gdSeed gd; gdStartTime := gdStartTime gd;
     gdEndTime := gdEndTime gd; gdDuration := gdDuration gd;
     gdGuesses := gdGuesses gd; gdResults := gdResults gd;
     gdSuccess := true; gdAttempts := gdAttempts gd;
     gdError := gdError gd |}.

Definition withError (gd : GameData) (e : GameError) : GameData :=
  {| gdId := gdId gd; gdType := gdType gd; gdSize := gdSize gd;
     gdSeed := gdSeed gd; gdStartTime := gdStartTime gd;
     gdEndTime := gdEndTime gd; gdDuration := gdDuration gd;
     gdGuesses := gdGuesses gd; gdResults := gdResults gd;
     gdSuccess := gdSuccess gd; gdAttempts := gdAttempts gd;
     gdError := Some e |}.

(** [gameData.endTime = new Date(); gameData.duration = endTime - startTime] *)
Definition withEndTime (gd : GameData) (endTime : Z) : GameData :=
  {| gdId := gdId gd; gdType := gdType gd; gdSize := gdSize gd;
     gdSeed := gdSeed gd; gdStartTime := gdStartTime gd;
     gdEndTime := Some endTime;
     gdDuration := Some (endTime - gdStartTime gd)%Z;
     gdGuesses := gdGuesses gd; gdResults := gdResults gd;
     gdSuccess := gdSuccess gd; gdAttempts := gdAttempts gd;
     gdError := gdError gd |}.

(** The guesses of a game that are strings: what [previousGuesses.includes]
    can find. *)
Definition definedGuesses (guesses : list (option word)) : list word :=
  flat_map (fun g => match g with Some w => [w] | None => [] end) guesses.

(** [displayResults] reads [guess.length] and [results[i].result] for every
    position of the guess: it raises a [TypeError] ([false]) when the guess
    is [undefined] or has more letters than there are results. *)
Definition displayResults (guess : option word) (results : list ResultKind)
    : bool :=
  match guess with
  | None => false
  | Some g => length g <=? length results
  end.

(** [!nextGuess]: [undefined] and the empty string are falsy. *)
Definition noGuess (nextGuess : option word) : bool :=
  match nextGuess with
  | None | Some [] => true
  | Some (_ :: _) => false
  end.

Section Game.
Variable W : Type.
Variable clock : W -> Z.
Variable dictionaryApis : W -> Network.
Variable gameApi : W -> GuessRequest -> option (list ResultKind) * W.
Variable delay : Z -> W -> W.
(** [config.api.retries] and [config.game.delayBetweenGuesses] *)
Variable retries : nat.
Variable delayBetweenGuesses : Z.

(** The loop of [makeGuess] from the attempt [attempt] on, with [remaining]
    attempts left; [None] is the error thrown after the last attempt. *)
Fixpoint makeGuessFrom (remaining attempt : nat) (w : W) (req : GuessRequest)
    : option (list ResultKind) * W :=
  match remaining with
  | O => (None, w)
  | S remaining' =>
      match gameApi w req with
      | (Some data, w1) => (Some data, w1)
      | (None, w1) =>
          makeGuessFrom remaining' (S attempt)
            (if attempt <? retries
             then delay (1000 * Z.of_nat attempt) w1 else w1)
            req
      end
  end.

Definition makeGuess (w : W) (guess : option word) (gameType : GameType)
    (size : nat) (seed : option nat) : option (list ResultKind) * W :=
  makeGuessFrom retries 1 w
    {| reqType := gameType; reqGuess := guess; reqSize := size;
       reqSeed := if truthy seed && eqb gameType RandomGame
                  then seed else None |}.

(** The loop of [playGame] from the attempt [attempt] on, with [remaining]
    attempts left. *)
Fixpoint playRounds (gameType : GameType) (size : nat) (seed : option nat)
    (remaining attempt : nat) (bot : Bot) (w : W) (currentGuess : option word)
    (gd : GameData) : GameData * Bot * W :=
  match remaining with
  | O => (gd, bot, w)
  | S remaining' =>
      match makeGuess w currentGuess gameType size seed with
      | (None, w1) => (withError gd (ApiCallFailed retries), bot, w1)
      | (Some result, w1) =>
          let gd1 := recordAttempt gd currentGuess result attempt in
          if negb (displayResults currentGuess result)
          then (withError gd1 UndefinedRead, bot, w1)
          else if checkWin result then (withSuccess gd1, bot, w1)
          else
            match currentGuess with
            | None => (withError gd1 UndefinedRead, bot, w1)
            | Some guess =>
                match generateNextGuess (clock w1) (dictionaryApis w1) bot
                        (analyzeResults guess result)
                        (definedGuesses (gdGuesses gd1)) None with
                | inl e => (withError gd1 (ConstraintFailure e), bot, w1)
                | inr (nextGuess, bot1) =>
                    if noGuess nextGuess then (gd1, bot1, w1)
                    else playRounds gameType size seed remaining' (S attempt)
                           bot1 (delay delayBetweenGuesses w1) nextGuess gd1
                end
            end
      end
  end.

(** [playGame]: the game played, the bot afterwards with its history of
    games, and the world afterwards. *)
Definition playGame (bot : Bot) (gameHistory : list GameData) (w : W)
    (gameType : GameType) (size : nat) (seed : option nat)
    : GameData * (Bot * list GameData) * W :=
  let gameData :=
    {| gdId := clock w; gdType := gameType; gdSize := size;
       gdSeed := if truthy seed then seed else None;
       gdStartTime := clock w; gdEndTime := None; gdDuration := None;
       gdGuesses := []; gdResults := []; gdSuccess := false;
       gdAttempts := 0; gdError := None |} in
  let '(currentGuess, bot0) := getBestStartingWord bot in
  let '(played, bot1, w1) :=
    playRounds gameType size seed (maxAttempts (botConfig bot)) 1 bot0 w
               currentGuess gameData in
  let finished := withEndTime played (clock w1) in
  (finished, (bot1, gameHistory ++ [finished]), w1).

End Game.

(** A game server that holds the word [secret] and answers every request
    that carries a guess with the feedback of the simulator; its state is
    the number of requests answered. *)
Definition simulatorApi (secret : word) (w : nat) (req : GuessRequest)
    : option (list ResultKind) * nat :=
  match reqGuess req with
  | Some guess => (Some (feedbackFor guess secret), S w)
  | None => (None, S w)
  end.

(** A scripted world for [makeGuess]: the outcomes of the coming requests
    (an empty script fails), the requests received so far and the time
    waited in [delay]. *)
Record Script := {
  pending : list (option (list ResultKind));
  received : list GuessRequest;
  waited : Z
}.

Definition scriptApi (s : Script) (req : GuessRequest)
    : option (list ResultKind) * Script :=
  match pending s with
  | [] =>
      (None, {| pending := []; received := received s ++ [req];
                waited := waited s |})
  | outcome :: rest =>
      (outcome, {| pending := rest; received := received s ++ [req];
                   waited := waited s |})
  end.

Definition scriptDelay (ms : Z) (s : Script) : Script :=
  {| pending := pending s; received := received s;
     waited := (waited s + ms)%Z |}.

(** ** Statistics: [getAnalytics] *)

Record PerformanceAnalytics := {
  totalGames : nat;
  winRate : R;
  averageAttempts : R;
  averageGameTime : R;
  bestPerformance : option nat;
  worstPerformance : nat
}.

(** [Math.min(...xs)] and [Math.max(...xs)] on the attempts of the games of
    a list; [getAnalytics] calls them on non-empty lists only (on the empty
    list they give [Infinity] and [-Infinity], which the value 0 stands for
    here). *)
Definition mathMin (xs : list nat) : nat :=
  match xs with
  | [] => 0
  | x :: rest => fold_left Nat.min rest x
  end.

Definition mathMax (xs : list nat) : nat :=
  match xs with
  | [] => 0
  | x :: rest => fold_left Nat.max rest x
  end.

Definition getAnalytics (gameHistory : list GameData) : PerformanceAnalytics :=
  match gameHistory with
  | [] =>
      {| totalGames := 0; winRate := 0; averageAttempts := 0;
         averageGameTime := 0; bestPerformance := None;
         worstPerformance := 0 |}
  | _ :: _ =>
      let successfulGames := filter gdSuccess gameHistory in
      {| totalGames := length gameHistory;
         winRate :=
           (INR (length successfulGames) / INR (length gameHistory) * 100)%R;
         averageAttempts :=
           if 0 <? length successfulGames
           then (INR (fold_left (fun sum g => (sum + gdAttempts g)%nat)
                                successfulGames 0%nat)
                 / INR (length successfulGames))%R
           else 0%R;
         averageGameTime :=
           (IZR (fold_left
                   (fun sum g =>
                      (sum + match gdDuration g with
                             | Some d => d
                             | None => 0
                             end)%Z)
                   gameHistory 0%Z)
            / INR (length gameHistory))%R;
         bestPerformance :=
           if 0 <? length successfulGames
           then Some (mathMin (map gdAttempts successfulGames))
           else None;
         worstPerformance := mathMax (map gdAttempts gameHistory) |}
  end.

(** A game that ended with the error of [normalizeConstraints]. *)
Definition constraintFailure (gd : GameData) : Prop :=
  exists e, gdError gd = Some (ConstraintFailure e).

(** ** A first call of [validateWords] and its repetition

    The entry that [cache.set] stores for a word and its verdict at time
    [now], and what a run of [validateWords] has reached after settling the
    words of [done] with the verdicts paired with them, when none of them
    was in the cache [c0] it started from: the valid ones were pushed in
    order, every key of the cache was in [c0] or belongs to one of these
    words and, as long as the cache has room for them, the new entries
    follow those of [c0] in order. *)
Definition storedEntry (now : Z) (c : DictCache) (wv : word * bool)
    : word * @LRUCache.Item bool :=
  (toLowerCase (fst wv),
   {| LRUCache.value := snd wv;
      LRUCache.expiry := (now + LRUCache.ttl c)%Z |}).

Definition coldRun (now : Z) (c0 : DictCache) (done : list (word * bool))
    (st : ValidationState) : Prop :=
  validWords st = map fst (filter snd done) /\
  (forall key, JsMap.get (LRUCache.cache (vsCache st)) key <> None ->
     JsMap.get (LRUCache.cache c0) key <> None \/
     In key (map toLowerCase (map fst done))) /\
  LRUCache.maxSize (vsCache st) = LRUCache.maxSize c0 /\
  LRUCache.ttl (vsCache st) = LRUCache.ttl c0 /\
  (LRUCache.size c0 + length done <= LRUCache.maxSize c0 ->
   LRUCache.cache (vsCache st)
   = LRUCache.cache c0 ++ map (storedEntry now c0) done).

(** The verdict that a run paired with a word. *)
Definition verdictIn (done : list (word * bool)) (w : word) : bool :=
  existsb (fun wv => eqb (fst wv) w && snd wv) done.

(** A dictionary that answers 200 to every request, except 204 from its
    primary API for the word [stare]. *)
Definition emptyAnswerForStare : Network :=
  {| primary := fun w => if eqb w (str "stare") then Resolved 204
                         else Resolved 200;
     fallback := fun _ => Resolved 200 |}.
(** * Properties *)

Lemma eqb_true {A} `{EqDec A} (x y : A) : eqb x y = true <-> x = y.
Proof. unfold eqb; destruct (eq_dec x y); split; congruence. Qed.

Lemma eqb_false {A} `{EqDec A} (x y : A) : eqb x y = false <-> x <> y.
Proof. unfold eqb; destruct (eq_dec x y); split; congruence. Qed.

Lemma eqb_refl {A} `{EqDec A} (x : A) : eqb x x = true.
Proof. apply eqb_true; reflexivity. Qed.

Module JsMapFacts.
Section Facts.
Context {K V : Type} `{EqDec K}.
Import JsMap.
Implicit Types (m : list (K * V)) (k : K) (v : V).

Lemma get_set_eq m k v : get (set m k v) k = Some v.
Proof.
  induction m as [|[k' v'] m IH]; simpl.
  - destruct (eq_dec k k); congruence.
  - destruct (eq_dec k k') as [e|n]; simpl.
    + destruct (eq_dec k k); congruence.
    + destruct (eq_dec k k'); congruence.
Qed.

Lemma get_set_neq m k k' v : k' <> k -> get (set m k v) k' = get m k'.
Proof.
  intros Hne. induction m as [|[k1 v1] m IH]; simpl.
  - destruct (eq_dec k' k); congruence.
  - destruct (eq_dec k k1) as [e|n]; simpl.
    + subst. destruct (eq_dec k' k1); congruence.
    + destruct (eq_dec k' k1); congruence.
Qed.

Lemma get_In m k v : get m k = Some v -> In (k, v) m.
Proof.
  induction m as [|[k' v'] m IH]; simpl; [discriminate|].
  destruct (eq_dec k k'); intros E.
  - inversion E; subst; auto.
  - auto.
Qed.

Lemma get_None_delete m k : get (delete m k) k = None.
Proof.
  induction m as [|[k' v'] m IH]; simpl; auto.
  destruct (eq_dec k k') as [e|n]; auto. simpl.
  destruct (eq_dec k k'); congruence.
Qed.

Lemma delete_length_le m k : length (delete m k) <= length m.
Proof.
  induction m as [|[k' v'] m IH]; simpl; auto.
  destruct (eq_dec k k'); simpl; lia.
Qed.

Lemma delete_absent m k : get m k = None -> delete m k = m.
Proof.
  induction m as [|[k' v'] m IH]; simpl; auto.
  destruct (eq_dec k k'); [discriminate|]. intros E. now rewrite IH.
Qed.

Lemma set_absent m k v : get m k = None -> set m k v = m ++ [(k, v)].
Proof.
  induction m as [|[k' v'] m IH]; simpl; auto.
  destruct (eq_dec k k'); [discriminate|]. intros E. now rewrite IH.
Qed.
Lemma get_app m m' k :
  get (m ++ m') k
  = match get m k with
    | Some v => Some v
    | None => get m' k
    end.
Proof.
  induction m as [|[k1 v1] m IH]; simpl; [reflexivity|].
  destruct (eq_dec k k1); [reflexivity|exact IH].
Qed.

Lemma In_set_inv m k v kv :
  In kv (set m k v) -> kv = (k, v) \/ In kv m.
Proof.
  induction m as [|[k1 v1] m IH]; simpl.
  - intros [E|[]]; auto.
  - destruct (eq_dec k k1); simpl; intros [E|Hin]; auto.
    destruct (IH Hin); auto.
Qed.

End Facts.
End JsMapFacts.

Module JsSetFacts.
Section Facts.
Context {A : Type} `{EqDec A}.
Import JsSet.
Implicit Types (s : list A) (x y : A).

Lemma has_true s x : has s x = true <-> In x s.
Proof. unfold has; destruct (in_dec eq_dec x s); split; congruence. Qed.

Lemma has_false s x : has s x = false <-> ~ In x s.
Proof. unfold has; destruct (in_dec eq_dec x s); split; congruence. Qed.

Lemma In_add s x y : In y (add s x) <-> In y s \/ y = x.
Proof.
  unfold add. destruct (in_dec eq_dec x s).
  - split; [auto|]. intros [?| ->]; auto.
  - rewrite in_app_iff; simpl. intuition congruence.
Qed.
End Facts.
End JsSetFacts.

(** ** Loops and arrays *)

Lemma fold_seq_inv {St : Type} (P : nat -> St -> Prop)
    (body : nat -> St -> St) (k : nat) :
  forall a s,
    P a s ->
    (forall i s, a <= i < a + k -> P i s -> P (S i) (body i s)) ->
    P (a + k) (fold_left (fun acc i => body i acc) (seq a k) s).
Proof.
  induction k as [|k IH]; intros a s H0 Hstep; simpl.
  - now rewrite Nat.add_0_r.
  - replace (a + S k) with (S a + k) by lia.
    apply IH.
    + apply Hstep; [lia | exact H0].
    + intros i s' Hi. apply Hstep. lia.
Qed.

Lemma for_loop_inv {St : Type} (P : nat -> St -> Prop) (n : nat)
    (body : nat -> St -> St) (s : St) :
  P 0 s ->
  (forall i s, i < n -> P i s -> P (S i) (body i s)) ->
  P n (for_loop n body s).
Proof.
  intros H0 Hstep. unfold for_loop.
  apply (@fold_seq_inv St P body n 0 s H0).
  intros i s' Hi. apply Hstep. lia.
Qed.

Lemma fold_left_prefix_inv {A B : Type} (P : list B -> A -> Prop)
    (f : A -> B -> A) (l : list B) (init : A) :
  P [] init ->
  (forall pre x acc, P pre acc -> P (pre ++ [x]) (f acc x)) ->
  P l (fold_left f l init).
Proof.
  intros H0 Hstep.
  assert (Hgen : forall l pre acc, P pre acc -> P (pre ++ l) (fold_left f l acc)).
  { clear l H0. induction l as [|x l IH]; intros pre acc Hp; simpl.
    - now rewrite app_nil_r.
    - replace (pre ++ x :: l) with ((pre ++ [x]) ++ l)
        by (rewrite <- app_assoc; reflexivity).
      apply IH, Hstep, Hp. }
  apply (Hgen l [] init H0).
Qed.

Lemma array_set_length {A : Type} (l : list A) i v :
  length (array_set l i v) = length l.
Proof.
  revert i; induction l as [|h t IH]; intros [|i]; simpl; auto.
Qed.

Lemma nth_array_set_eq {A : Type} (l : list A) i v d :
  i < length l -> nth i (array_set l i v) d = v.
Proof.
  revert i; induction l as [|h t IH]; intros [|i]; simpl; intros Hi;
    try lia; auto. apply IH; lia.
Qed.

Lemma nth_array_set_neq {A : Type} (l : list A) i j v d :
  i <> j -> nth j (array_set l i v) d = nth j l d.
Proof.
  revert i j; induction l as [|h t IH]; intros [|i] [|j]; simpl; intros Hij;
    try congruence; auto.
Qed.

Lemma firstn_S_nth_error {A : Type} (l : list A) i x :
  nth_error l i = Some x -> firstn (S i) l = firstn i l ++ [x].
Proof.
  revert i; induction l as [|h t IH]; intros [|i]; simpl; try discriminate.
  - intros E; inversion E; reflexivity.
  - intros E. f_equal. apply IH, E.
Qed.

Lemma count_occ_firstn_S (l : word) i c :
  count_occ ascii_dec (firstn i l) c <= count_occ ascii_dec (firstn (S i) l) c.
Proof.
  revert i; induction l as [|h t IH]; intros [|i]; auto; try lia.
  - simpl. lia.
  - specialize (IH i). change (firstn (S (S i)) (h :: t)) with (h :: firstn (S i) t).
    change (firstn (S i) (h :: t)) with (h :: firstn i t).
    cbn [count_occ]. destruct (ascii_dec h c); lia.
Qed.

Lemma count_occ_firstn_le (l : word) i c :
  count_occ ascii_dec (firstn i l) c <= count_occ ascii_dec l c.
Proof.
  revert i; induction l as [|h t IH]; intros [|i]; simpl; auto; try lia.
  specialize (IH i). destruct (ascii_dec h c); lia.
Qed.

(** ** The working multiset of [computePattern] *)

Lemma js_or_Some_0 v : js_or (Some v) 0 = v.
Proof. destruct v; reflexivity. Qed.

Lemma js_or_1_pred x : js_or x 1 - 1 = js_or x 0 - 1.
Proof. destruct x as [[|v]|]; reflexivity. Qed.

Lemma cnt_set_eq m c v : cnt (JsMap.set m c v) c = v.
Proof. unfold cnt. rewrite JsMapFacts.get_set_eq. apply js_or_Some_0. Qed.

Lemma cnt_set_neq m c c' v : c' <> c -> cnt (JsMap.set m c v) c' = cnt m c'.
Proof. intros Hne. unfold cnt. now rewrite JsMapFacts.get_set_neq. Qed.

Lemma countSecretLetters_from (secret : word) : forall m c,
  cnt (fold_left
         (fun secretLetters char =>
            JsMap.set secretLetters char
              (js_or (JsMap.get secretLetters char) 0 + 1)) secret m) c
  = cnt m c + count_occ ascii_dec secret c.
Proof.
  induction secret as [|h t IH]; intros m c; simpl; [lia|].
  rewrite IH. destruct (ascii_dec h c) as [->|Hne].
  - rewrite cnt_set_eq. unfold cnt. lia.
  - rewrite cnt_set_neq by congruence. lia.
Qed.

Lemma cnt_countSecretLetters secret c :
  cnt (countSecretLetters secret) c = count_occ ascii_dec secret c.
Proof. unfold countSecretLetters. now rewrite countSecretLetters_from. Qed.

(** ** Counting tiles *)

Lemma countMark_repeat_Grey mk c guess n :
  mk <> Grey -> countMark mk c guess (repeat Grey n) = 0.
Proof.
  intros Hmk. unfold countMark.
  revert n; induction guess as [|g gs IH]; intros [|n]; simpl; auto.
  replace (eqb Grey mk) with false
    by (symmetry; apply eqb_false; congruence).
  rewrite andb_false_r. apply IH.
Qed.

Lemma countMark_array_set mk mk' c (guess : word) :
  forall (res : list Mark) i g,
    nth_error guess i = Some g ->
    i < length res ->
    nth i res Grey = Grey ->
    mk <> Grey ->
    countMark mk c guess (array_set res i mk')
    = countMark mk c guess res + (if eqb g c && eqb mk' mk then 1 else 0).
Proof.
  unfold countMark.
  induction guess as [|h gs IH]; intros [|r res] [|i] g Hg Hi Hgrey Hmk;
    simpl in *; try discriminate; try lia.
  - inversion Hg; subst h r.
    replace (eqb Grey mk) with false
      by (symmetry; apply eqb_false; congruence).
    rewrite andb_false_r.
    destruct (eqb g c && eqb mk' mk); simpl; lia.
  - specialize (IH res i g Hg ltac:(lia) Hgrey Hmk).
    destruct (eqb h c && eqb r mk); simpl; lia.
Qed.

(** ** The two passes of [computePattern] *)

Section Simulator.
Variables guess secret : word.

Let n := length guess.
Let pass1_inv := pass1_inv guess secret.
Let pass2_inv := pass2_inv guess secret.

Lemma pass1_step i st :
  i < n -> pass1_inv i st -> pass1_inv (S i) (markCorrect guess secret i st).
Proof.
  intros Hi (Hlen & Hgrey & Hy & Hcnt & Hpre).
  destruct st as [res m]; simpl in *.
  unfold markCorrect.
  destruct (nth_error guess i) as [g|] eqn:Hg.
  2:{ apply nth_error_None in Hg. unfold n in Hi. lia. }
  destruct (eqb (Some g) (nth_error secret i)) eqn:Hhit.
  - apply eqb_true in Hhit. symmetry in Hhit.
    assert (Hgi : nth i res Grey = Grey) by (apply Hgrey; lia).
    assert (Hfirst := firstn_S_nth_error secret i g Hhit).
    assert (Hle := count_occ_firstn_le secret (S i) g).
    assert (HS : count_occ ascii_dec (firstn (S i) secret) g
                 = S (count_occ ascii_dec (firstn i secret) g)).
    { rewrite Hfirst, count_occ_app. simpl.
      destruct (ascii_dec g g); [lia | congruence]. }
    repeat split; cbn [fst snd].
    + now rewrite array_set_length.
    + intros j Hj. rewrite nth_array_set_neq by lia. apply Hgrey. lia.
    + intros c. rewrite (countMark_array_set Yellow Green c guess res i g Hg)
        by (try lia; congruence).
      rewrite Hy. replace (eqb Green Yellow) with false by reflexivity.
      now rewrite andb_false_r.
    + intros c. rewrite (countMark_array_set Green Green c guess res i g Hg)
        by (try lia; congruence).
      rewrite eqb_refl, andb_true_r.
      destruct (eqb g c) eqn:Hgc.
      * apply eqb_true in Hgc; subst c. cbv iota.
        rewrite cnt_set_eq, js_or_1_pred. fold (cnt m g).
        specialize (Hcnt g). specialize (Hpre g). lia.
      * apply eqb_false in Hgc. cbv iota.
        rewrite cnt_set_neq by congruence. specialize (Hcnt c). lia.
    + intros c. rewrite (countMark_array_set Green Green c guess res i g Hg)
        by (try lia; congruence).
      rewrite eqb_refl, andb_true_r.
      destruct (eqb g c) eqn:Hgc.
      * apply eqb_true in Hgc; subst c. cbv iota. specialize (Hpre g). lia.
      * cbv iota. specialize (Hpre c). pose proof (count_occ_firstn_S secret i c). lia.
  - repeat split; cbn [fst snd]; auto.
    + intros j Hj. apply Hgrey. lia.
    + intros c. specialize (Hpre c).
      pose proof (count_occ_firstn_S secret i c). lia.
Qed.

Lemma pass1_holds :
  pass1_inv n (for_loop n (markCorrect guess secret)
                 (repeat Grey n, countSecretLetters secret)).
Proof.
  apply for_loop_inv.
  - repeat split; simpl.
    + apply repeat_length.
    + intros j _. apply nth_repeat.
    + intros c. apply countMark_repeat_Grey; congruence.
    + intros c. rewrite cnt_countSecretLetters, countMark_repeat_Grey; [lia|congruence].
    + intros c. rewrite countMark_repeat_Grey; [lia|congruence].
  - intros i st. apply pass1_step.
Qed.

Lemma pass2_step i st :
  i < n -> pass2_inv st -> pass2_inv (markPresent guess i st).
Proof.
  intros Hi (Hlen & Hcnt).
  destruct st as [res m]; simpl in *.
  unfold markPresent.
  destruct (nth_error guess i) as [g|] eqn:Hg; [|split; auto].
  destruct (eqb (nth i res Grey) Grey && (0 <? js_or (JsMap.get m g) 0)) eqn:Hc;
    [|split; auto].
  apply andb_true_iff in Hc. destruct Hc as [Hgrey Hpos].
  apply eqb_true in Hgrey. apply Nat.ltb_lt in Hpos. fold (cnt m g) in *.
  split; simpl.
  - now rewrite array_set_length.
  - intros c.
    rewrite (countMark_array_set Green Yellow c guess res i g Hg)
      by (try lia; congruence).
    rewrite (countMark_array_set Yellow Yellow c guess res i g Hg)
      by (try lia; congruence).
    replace (eqb Yellow Green) with false by reflexivity.
    rewrite andb_false_r, eqb_refl, andb_true_r.
    destruct (eqb g c) eqn:Hgc.
    + apply eqb_true in Hgc; subst c. cbv iota. rewrite cnt_set_eq.
      specialize (Hcnt g). lia.
    + apply eqb_false in Hgc. cbv iota. rewrite cnt_set_neq by congruence.
      specialize (Hcnt c). lia.
Qed.

Lemma pass2_holds :
  pass2_inv (for_loop n (markPresent guess)
               (for_loop n (markCorrect guess secret)
                  (repeat Grey n, countSecretLetters secret))).
Proof.
  apply (for_loop_inv (fun _ => pass2_inv)).
  - destruct pass1_holds as (Hlen & _ & Hy & Hcnt & _).
    split; [exact Hlen|]. intros c. rewrite Hy, Hcnt. lia.
  - intros i st. apply pass2_step.
Qed.

End Simulator.

(** C2. For every guess, every secret and every letter, the positions of
    that letter that [computePattern] marks correct (green) plus those it
    marks present (yellow) are at most the occurrences of the letter in the
    secret.  The bound holds for words of any lengths, in particular for a
    guess and a secret of equal length. *)
Theorem computePattern_no_overcount (guess secret : word) (c : ascii) :
  countMark Green c guess (computePattern guess secret)
  + countMark Yellow c guess (computePattern guess secret)
  <= count_occ ascii_dec secret c.
Proof.
  unfold computePattern.
  destruct (pass2_holds guess secret) as [_ Hcnt].
  specialize (Hcnt c). lia.
Qed.

(** *** A guess equal to the secret *)

Lemma markCorrect_same (w : word) i st :
  i < length w ->
  length (fst st) = length w /\ (forall j, j < i -> nth j (fst st) Grey = Green) ->
  length (fst (markCorrect w w i st)) = length w /\
  (forall j, j < S i -> nth j (fst (markCorrect w w i st)) Grey = Green).
Proof.
  intros Hi [Hlen Hgreen]. destruct st as [res m]; simpl in *.
  unfold markCorrect.
  destruct (nth_error w i) as [g|] eqn:Hg.
  2:{ apply nth_error_None in Hg. lia. }
  rewrite eqb_refl. simpl. split.
  - now rewrite array_set_length.
  - intros j Hj. destruct (Nat.eq_dec i j) as [->|Hne].
    + apply nth_array_set_eq. lia.
    + rewrite nth_array_set_neq by exact Hne. apply Hgreen. lia.
Qed.

Lemma markPresent_all_green (w : word) i st :
  i < length w ->
  length (fst st) = length w /\
  (forall j, j < length w -> nth j (fst st) Grey = Green) ->
  length (fst (markPresent w i st)) = length w /\
  (forall j, j < length w -> nth j (fst (markPresent w i st)) Grey = Green).
Proof.
  intros Hi [Hlen Hgreen]. destruct st as [res m]; simpl in *.
  unfold markPresent.
  destruct (nth_error w i) as [g|]; [|split; auto].
  rewrite (Hgreen i Hi). simpl. split; auto.
Qed.

(** C4. Guessing a word against itself gives a pattern that is correct
    (green) at every position. *)
Theorem computePattern_self (w : word) :
  computePattern w w = repeat Green (length w).
Proof.
  unfold computePattern.
  set (p1 := for_loop (length w) (markCorrect w w) _).
  assert (H1 : length (fst p1) = length w /\
               forall j, j < length w -> nth j (fst p1) Grey = Green).
  { unfold p1.
    apply (for_loop_inv (fun i st =>
             length (fst st) = length w /\
             forall j, j < i -> nth j (fst st) Grey = Green)).
    - simpl. split; [apply repeat_length | intros j Hj; lia].
    - intros i st Hi. apply markCorrect_same, Hi. }
  assert (H2 : length (fst (for_loop (length w) (markPresent w) p1)) = length w /\
               forall j, j < length w ->
                 nth j (fst (for_loop (length w) (markPresent w) p1)) Grey = Green).
  { apply (for_loop_inv (fun _ st =>
             length (fst st) = length w /\
             forall j, j < length w -> nth j (fst st) Grey = Green)).
    - exact H1.
    - intros i st Hi. apply markPresent_all_green, Hi. }
  destruct H2 as [Hlen Hgreen].
  apply (nth_ext _ _ Grey Grey).
  - now rewrite repeat_length.
  - intros j Hj. rewrite Hgreen by lia. rewrite nth_repeat_lt; [reflexivity|lia].
Qed.

Example computePattern_speed_abide :
  computePattern (str "SPEED") (str "ABIDE") = [Grey; Grey; Yellow; Grey; Yellow].
Proof. reflexivity. Qed.

Example computePattern_green_first :
  computePattern (str "EERIE") (str "STEEL") = [Yellow; Yellow; Grey; Grey; Grey].
Proof. reflexivity. Qed.

(** ** Feedback interpreter and constraint model *)

Example analyze_starr :
  let a := analyzeResults (str "STARR")
             [Correct; Present; Absent; Correct; Absent] in
  correct a = str "SR" /\ present a = str "T" /\ absent a = str "A" /\
  positions a = [(0, "S"%char); (3, "R"%char)] /\
  JsMap.get (letterCounts a) "R"%char = Some {| lcMin := 1; lcMax := None |} /\
  JsMap.get (letterCounts a) "A"%char = Some {| lcMin := 0; lcMax := Some 0 |}.
Proof. repeat split. Qed.

Example filter_forbidden_XZ :
  let a := {| correct := []; present := []; absent := str "XZ";
              positions := []; letterCounts := []; constraints := [] |} in
  let pool := [str "STARE"; str "CRANE"; str "SLATE"; str "TRACE"] in
  filterByConstraints (collectConstraints 5 a) pool = pool.
Proof. reflexivity. Qed.

Example filter_greens_S_R :
  let a := {| correct := []; present := []; absent := [];
              positions := [(0, "S"%char); (3, "R"%char)];
              letterCounts := []; constraints := [] |} in
  filterByConstraints (collectConstraints 5 a)
    [str "STARE"; str "CRANE"; str "SLATE"; str "TRACE"] = [str "STARE"].
Proof. reflexivity. Qed.

Example filter_present_T_E :
  let a := {| correct := []; present := str "TE"; absent := [];
              positions := []; letterCounts := []; constraints := [] |} in
  filterByConstraints (collectConstraints 5 a)
    [str "STARE"; str "CRANE"; str "SLATE"; str "TRACE"; str "AUDIO"] = [].
Proof. reflexivity. Qed.

Lemma validateCounts_Some minC entries e :
  validateCounts minC entries = Some e ->
  exists char max,
    In (char, max) entries /\ max < js_or (JsMap.get minC char) 0 /\
    e = ImpossibleConstraints char (js_or (JsMap.get minC char) 0) max.
Proof.
  induction entries as [|[char max] rest IH]; simpl; [discriminate|].
  destruct (max <? js_or (JsMap.get minC char) 0) eqn:Hlt.
  - intros E; inversion E; subst. apply Nat.ltb_lt in Hlt.
    exists char, max; auto.
  - intros E. destruct (IH E) as (c & m & Hin & Hlt' & He).
    exists c, m; auto.
Qed.

Lemma validateCounts_None minC entries :
  validateCounts minC entries = None ->
  forall char max, In (char, max) entries ->
    js_or (JsMap.get minC char) 0 <= max.
Proof.
  induction entries as [|[char max] rest IH]; simpl; [tauto|].
  destruct (max <? js_or (JsMap.get minC char) 0) eqn:Hlt; [discriminate|].
  intros E c m [Heq|Hin].
  - inversion Heq; subst. apply Nat.ltb_ge in Hlt. exact Hlt.
  - apply IH; assumption.
Qed.

Lemma js_or_0_gt x k : k < js_or x 0 -> x = Some (js_or x 0).
Proof. destruct x as [[|v]|]; simpl; intros; try lia; reflexivity. Qed.

Lemma conflict_iff_validateCounts minC maxC :
  conflict minC maxC <-> exists e, validateCounts minC maxC = Some e.
Proof.
  split.
  - intros (char & mn & mx & Hin & Hget & Hlt).
    destruct (validateCounts minC maxC) as [e|] eqn:Hv; [eauto|].
    pose proof (validateCounts_None _ _ Hv _ _ Hin) as Hle.
    rewrite Hget in Hle. destruct mn; simpl in Hle; lia.
  - intros [e Hv]. destruct (validateCounts_Some _ _ _ Hv) as (c & m & Hin & Hlt & _).
    exists c, (js_or (JsMap.get minC c) 0), m. repeat split; auto.
    eapply js_or_0_gt; eauto.
Qed.

Example validateCounts_raises :
  validateCounts [("E"%char, 2)] [("E"%char, 1)]
  = Some (ImpossibleConstraints "E"%char 2 1).
Proof. reflexivity. Qed.

(** The maxima that [normalizeConstraints] collects are copies of the
    minima, so its own validation never fires. *)
Lemma processAbsent_minCounts c char :
  minCounts (processAbsent c char) = minCounts c.
Proof. unfold processAbsent. destruct (negb _); reflexivity. Qed.

Lemma processAbsent_max_is_min l : forall c,
  (forall char mx, In (char, mx) (maxCounts c) ->
     mx = js_or (JsMap.get (minCounts c) char) 0) ->
  forall char mx, In (char, mx) (maxCounts (fold_left processAbsent l c)) ->
     mx = js_or (JsMap.get (minCounts (fold_left processAbsent l c)) char) 0.
Proof.
  induction l as [|a l IH]; intros c Hc; simpl; [exact Hc|].
  apply IH. intros char mx. rewrite processAbsent_minCounts.
  unfold processAbsent. destruct (negb _); simpl; [apply Hc|].
  intros Hin. apply JsMapFacts.In_set_inv in Hin. destruct Hin as [E|Hin].
  - inversion E; subst; reflexivity.
  - apply Hc, Hin.
Qed.

Lemma fold_processGreen_maxCounts l : forall c,
  maxCounts (fold_left processGreen l c) = maxCounts c.
Proof.
  induction l as [|[p ch] l IH]; intros c; simpl; [reflexivity|].
  now rewrite IH.
Qed.

Lemma fold_processPresent_maxCounts n a l : forall c,
  maxCounts (fold_left (processPresent n a) l c) = maxCounts c.
Proof.
  induction l as [|ch l IH]; intros c; simpl; [reflexivity|].
  now rewrite IH.
Qed.

Lemma collectConstraints_max_is_min n analysis char mx :
  In (char, mx) (maxCounts (collectConstraints n analysis)) ->
  mx = js_or (JsMap.get (minCounts (collectConstraints n analysis)) char) 0.
Proof.
  unfold collectConstraints. apply processAbsent_max_is_min.
  intros c m. rewrite fold_processPresent_maxCounts, fold_processGreen_maxCounts.
  simpl. tauto.
Qed.

Lemma normalizeConstraints_total cfg analysis :
  normalizeConstraints cfg analysis
  = inr (collectConstraints (wordLength cfg) analysis).
Proof.
  unfold normalizeConstraints.
  destruct (validateCounts _ _) as [e|] eqn:Hv; [|reflexivity].
  destruct (validateCounts_Some _ _ _ Hv) as (c & m & Hin & Hlt & _).
  apply collectConstraints_max_is_min in Hin. lia.
Qed.

(** C3. Guess SPEED with results absent, absent, present, absent, present
    (what the secret ABIDE gives): the letter E is present at position 2 and
    absent at position 3, so one occurrence of E is confirmed.  The first
    pass of [analyzeResults] records the bounds min 1 and max 1 for E, the
    second pass replaces them by min 1 and no max, E is not among the absent
    letters, and [normalizeConstraints] therefore leaves the maximum count
    of E undefined. *)
Theorem duplicate_letter_max_not_set :
  let fb := feedback (str "SPEED") [Absent; Absent; Present; Absent; Present] in
  let a := analyzeResults (str "SPEED")
             [Absent; Absent; Present; Absent; Present] in
  knownCount fb "E"%char = 1 /\
  JsMap.get (letterCounts (fold_left (collectResult fb) (indexed fb) emptyAnalysis))
            "E"%char = Some {| lcMin := 1; lcMax := Some 1 |} /\
  JsMap.get (letterCounts a) "E"%char = Some {| lcMin := 1; lcMax := None |} /\
  absent a = str "SP" /\
  exists c, normalizeConstraints config a = inr c /\
            JsMap.get (minCounts c) "E"%char = Some 1 /\
            JsMap.get (maxCounts c) "E"%char = None /\
            maxCounts c = [].
Proof.
  repeat split.
  eexists. repeat split.
Qed.

(** C1. Guess STARE against the secret CRANE: the feedback is absent,
    absent, correct, present, correct.  The constraints built from it ban
    the present letter R at every position that is not a green R, so CRANE
    itself, which has R at position 1, fails the filter predicate and is
    removed from the starting-word pool that contains it; [filterWords] on
    that pool (fresh bot, dictionary answering 200 to every request) then
    returns synthesized words, and CRANE is not among them. *)
Theorem filter_excludes_secret :
  let guess := str "STARE" in
  let secret := str "CRANE" in
  let a := analyzeResults guess (feedbackFor guess secret) in
  feedbackFor guess secret = [Absent; Absent; Correct; Present; Correct] /\
  In secret (startingWords config) /\
  (exists c, normalizeConstraints config a = inr c /\
             JsMap.get (bannedPos c) "R"%char = Some [0; 1; 2; 3; 4] /\
             satisfiesConstraints c secret = false /\
             filterByConstraints c (startingWords config) = []) /\
  exists result bot',
    filterWords 0%Z alwaysFound (newBot config) a (Some (startingWords config))
      = inr (result, bot') /\
    ~ In secret result.
Proof.
  repeat split.
  - simpl. tauto.
  - eexists. repeat split.
  - do 2 eexists. split; [vm_compute; reflexivity|].
    simpl. intros H.
    repeat (destruct H as [H|H]; [discriminate H|]). exact H.
Qed.

(** ** The letter counts of [analyzeResults], in general *)

Lemma map_snd_indexed {A : Type} (l : list A) : map snd (indexed l) = l.
Proof.
  unfold indexed. generalize 0. induction l as [|x l IH]; intros n; simpl.
  - reflexivity.
  - f_equal. apply IH.
Qed.

Lemma knownCount_snoc fb g r char :
  knownCount (fb ++ [(g, r)]) char
  = knownCount fb char + (if eqb g char && isCorrectOrPresent r then 1 else 0).
Proof.
  unfold knownCount. rewrite filter_app, length_app. simpl.
  destruct (eqb g char && isCorrectOrPresent r); reflexivity.
Qed.

(** The positions grouped by [groupResult], counted. *)
Lemma groupResult_counts (l : list (nat * (ascii * ResultKind))) :
  let charResults := fold_left groupResult l [] in
  forall char,
    (JsMap.get charResults char = None -> knownCount (map snd l) char = 0) /\
    (forall info, JsMap.get charResults char = Some info ->
       length (crCorrect info) + length (crPresent info)
       = knownCount (map snd l) char).
Proof.
  apply (fold_left_prefix_inv
           (fun pre cr =>
              forall char,
                (JsMap.get cr char = None -> knownCount (map snd pre) char = 0) /\
                (forall info, JsMap.get cr char = Some info ->
                   length (crCorrect info) + length (crPresent info)
                   = knownCount (map snd pre) char))).
  - intros char. split; [reflexivity|discriminate].
  - intros pre [i [g r]] cr IH char.
    rewrite map_app. simpl map. rewrite knownCount_snoc.
    unfold groupResult.
    destruct (eq_dec char g) as [->|Hne].
    + rewrite JsMapFacts.get_set_eq. rewrite eqb_refl. simpl andb.
      split; [discriminate|]. intros info E. inversion E; subst info; clear E.
      destruct (IH g) as [Hnone Hsome].
      destruct (JsMap.get cr g) as [info0|] eqn:Hget.
      * specialize (Hsome info0 eq_refl).
        destruct r; simpl; rewrite ?length_app; simpl; lia.
      * specialize (Hnone eq_refl).
        destruct r; simpl; lia.
    + rewrite JsMapFacts.get_set_neq by exact Hne.
      replace (eqb g char) with false
        by (symmetry; apply eqb_false; congruence).
      simpl. rewrite Nat.add_0_r. apply IH.
Qed.

Lemma JsMap_set_keys_NoDup {K V : Type} `{EqDec K} (m : list (K * V)) k v :
  NoDup (map fst m) -> NoDup (map fst (JsMap.set m k v)).
Proof.
  induction m as [|[k1 v1] m IH]; simpl; intros Hnd.
  - constructor; [tauto|constructor].
  - inversion Hnd as [|? ? Hnot Hnd']; subst.
    destruct (eq_dec k k1) as [->|Hne]; simpl.
    + constructor; assumption.
    + constructor; [|apply IH, Hnd'].
      intros Hin. apply in_map_iff in Hin. destruct Hin as ([k2 v2] & E & Hin).
      simpl in E; subst k2.
      apply JsMapFacts.In_set_inv in Hin. destruct Hin as [E|Hin].
      * inversion E; congruence.
      * apply Hnot. apply in_map_iff. exists (k1, v2). auto.
Qed.

Lemma groupResult_keys_NoDup (l : list (nat * (ascii * ResultKind))) :
  NoDup (map fst (fold_left groupResult l [])).
Proof.
  apply (fold_left_prefix_inv (fun _ cr => NoDup (map fst cr))).
  - constructor.
  - intros pre [i [g r]] cr IH. unfold groupResult.
    apply JsMap_set_keys_NoDup, IH.
Qed.

Lemma buildLetterCount_other entries char : forall counts,
  (forall e, In e entries -> fst e <> char) ->
  JsMap.get (fold_left buildLetterCount entries counts) char
  = JsMap.get counts char.
Proof.
  induction entries as [|[c info] entries IH]; intros counts Hne; simpl;
    [reflexivity|].
  rewrite IH by (intros e He; apply Hne; right; exact He).
  assert (Hc : char <> c) by (intros ->; apply (Hne (c, info)); [left|]; reflexivity).
  unfold buildLetterCount.
  destruct (_ && _ && _); destruct (_ || _);
    rewrite ?JsMapFacts.get_set_neq by exact Hc; reflexivity.
Qed.

Lemma buildLetterCount_hit entries char info : forall counts,
  NoDup (map fst entries) ->
  In (char, info) entries ->
  0 < length (crCorrect info) + length (crPresent info) ->
  JsMap.get (fold_left buildLetterCount entries counts) char
  = Some {| lcMin := length (crCorrect info) + length (crPresent info);
            lcMax := None |}.
Proof.
  induction entries as [|[c i0] entries IH]; intros counts Hnd Hin Hpos;
    [contradiction|].
  inversion Hnd as [|? ? Hnot Hnd']; subst. simpl.
  destruct Hin as [E|Hin].
  - inversion E; subst c i0; clear E.
    rewrite buildLetterCount_other.
    + unfold buildLetterCount.
      replace ((0 <? length (crCorrect info)) || (0 <? length (crPresent info)))
        with true.
      2:{ symmetry. apply orb_true_iff.
          destruct (length (crCorrect info)); [right|left]; apply Nat.ltb_lt; lia. }
      replace ((0 <? length (crAbsent info)) && (length (crCorrect info) =? 0)
               && (length (crPresent info) =? 0)) with false.
      2:{ symmetry. apply andb_false_iff.
          destruct (length (crPresent info)) eqn:Hp; [left|right; reflexivity].
          apply andb_false_iff. right. apply Nat.eqb_neq. lia. }
      apply JsMapFacts.get_set_eq.
    + intros e He Heq. apply Hnot. apply in_map_iff. exists e. auto.
  - apply IH; assumption.
Qed.

(** Whatever the feedback, a letter of the guess with a correct or present
    result ends with its minimum set to the number of those results and with
    no maximum: the bounds recorded by the first pass are overwritten. *)
Lemma analyzeResults_max_overwritten guess results char :
  0 < knownCount (feedback guess results) char ->
  JsMap.get (letterCounts (analyzeResults guess results)) char
  = Some {| lcMin := knownCount (feedback guess results) char; lcMax := None |}.
Proof.
  intros Hpos. unfold analyzeResults. cbn [letterCounts].
  set (fb := feedback guess results) in *.
  destruct (groupResult_counts (indexed fb) char) as [Hnone Hsome].
  rewrite map_snd_indexed in Hnone, Hsome.
  destruct (JsMap.get (fold_left groupResult (indexed fb) []) char)
    as [info|] eqn:Hget.
  - specialize (Hsome info eq_refl). rewrite <- Hsome.
    apply buildLetterCount_hit.
    + apply groupResult_keys_NoDup.
    + apply JsMapFacts.get_In, Hget.
    + lia.
  - specialize (Hnone eq_refl). lia.
Qed.

(** *** Which letters get a maximum count *)

Lemma firstResult_snoc fb g r char :
  firstResult (fb ++ [(g, r)]) char
  = match firstResult fb char with
    | Some x => Some x
    | None => if eqb g char then Some r else None
    end.
Proof.
  unfold firstResult. induction fb as [|[g0 r0] fb IH]; simpl.
  - destruct (eqb g char); reflexivity.
  - destruct (eqb g0 char); [reflexivity|exact IH].
Qed.

Lemma firstResult_hit fb char r :
  firstResult fb char = Some r -> isCorrectOrPresent r = true ->
  0 < knownCount fb char.
Proof.
  unfold firstResult, knownCount.
  induction fb as [|[g0 r0] fb IH]; simpl; [discriminate|].
  destruct (eqb g0 char) eqn:Hg; simpl.
  - intros E Hr. inversion E; subst. rewrite Hr. simpl. lia.
  - intros E Hr. exact (IH E Hr).
Qed.

Lemma firstResult_None fb char :
  firstResult fb char = None -> knownCount fb char = 0.
Proof.
  unfold firstResult, knownCount.
  induction fb as [|[g0 r0] fb IH]; simpl; [reflexivity|].
  destruct (eqb g0 char) eqn:Hg; simpl; [discriminate|exact IH].
Qed.

(** The sets collected by the first pass of [analyzeResults]. *)
Lemma collectResult_sets fb0 (l : list (nat * (ascii * ResultKind))) :
  let a := fold_left (collectResult fb0) l emptyAnalysis in
  forall ch,
    ((In ch (correct a) \/ In ch (present a)) <-> 0 < knownCount (map snd l) ch) /\
    (In ch (absent a) <-> firstResult (map snd l) ch = Some Absent).
Proof.
  apply (fold_left_prefix_inv
           (fun pre a =>
              forall ch,
                ((In ch (correct a) \/ In ch (present a))
                   <-> 0 < knownCount (map snd pre) ch) /\
                (In ch (absent a) <-> firstResult (map snd pre) ch = Some Absent))).
  - intros ch. simpl. unfold knownCount, firstResult. simpl.
    split; split; try tauto; try lia; discriminate.
  - intros pre [i [g r]] a IH ch.
    rewrite map_app. simpl map. rewrite knownCount_snoc, firstResult_snoc.
    destruct (IH ch) as [Hhit Habs]. destruct (IH g) as [Hhitg Habsg].
    assert (Hfirst : forall x, firstResult (map snd pre) ch = Some x ->
                               x <> Absent -> 0 < knownCount (map snd pre) ch).
    { intros x Hx Hne. apply (firstResult_hit _ _ x Hx). destruct x; simpl; congruence. }
    unfold collectResult.
    destruct r; cbn [correct present absent isCorrectOrPresent].
    + (* correct *)
      rewrite JsSetFacts.In_add, andb_true_r.
      destruct (eqb g ch) eqn:Hg.
      * apply eqb_true in Hg; subst g. split; [split; [lia|tauto]|].
        rewrite Habs. destruct (firstResult (map snd pre) ch) as [x|] eqn:Hf;
          [tauto|]. split; discriminate.
      * apply eqb_false in Hg. rewrite Nat.add_0_r. split.
        -- rewrite <- Hhit. split; [intros [[?|?]|?]; auto; congruence | tauto].
        -- rewrite Habs. destruct (firstResult (map snd pre) ch); tauto.
    + (* present *)
      rewrite JsSetFacts.In_add, andb_true_r.
      destruct (eqb g ch) eqn:Hg.
      * apply eqb_true in Hg; subst g. split; [split; [lia|tauto]|].
        rewrite Habs. destruct (firstResult (map snd pre) ch) as [x|] eqn:Hf;
          [tauto|]. split; discriminate.
      * apply eqb_false in Hg. rewrite Nat.add_0_r. split.
        -- rewrite <- Hhit. split; [intros [?|[?|?]]; auto; congruence | tauto].
        -- rewrite Habs. destruct (firstResult (map snd pre) ch); tauto.
    + (* absent *)
      rewrite andb_false_r, Nat.add_0_r.
      destruct (negb (JsSet.has (correct a) g) && negb (JsSet.has (present a) g))
        eqn:Hnew; cbn [correct present absent].
      * apply andb_true_iff in Hnew. destruct Hnew as [Hc Hp].
        apply negb_true_iff, JsSetFacts.has_false in Hc.
        apply negb_true_iff, JsSetFacts.has_false in Hp.
        split; [exact Hhit|].
        rewrite JsSetFacts.In_add.
        destruct (eqb g ch) eqn:Hg.
        -- apply eqb_true in Hg; subst g.
           destruct (firstResult (map snd pre) ch) as [x|] eqn:Hf.
           ++ split; [|tauto]. intros _. destruct x; try reflexivity;
                exfalso; assert (0 < knownCount (map snd pre) ch)
                  by (apply (Hfirst _ eq_refl); discriminate);
                tauto.
           ++ tauto.
        -- apply eqb_false in Hg. rewrite Habs.
           destruct (firstResult (map snd pre) ch); split; try tauto;
             intros [?|?]; congruence.
      * split; [exact Hhit|]. rewrite Habs.
        destruct (firstResult (map snd pre) ch) as [x|] eqn:Hf; [tauto|].
        destruct (eqb g ch) eqn:Hg; [|split; discriminate].
        apply eqb_true in Hg; subst g. exfalso.
        apply firstResult_None in Hf.
        apply andb_false_iff in Hnew.
        assert (In ch (correct a) \/ In ch (present a)).
        { destruct Hnew as [Hn|Hn]; apply negb_false_iff in Hn;
            apply JsSetFacts.has_true in Hn; tauto. }
        apply Hhit in H. lia.
Qed.

Lemma analyzeResults_absent guess results ch :
  In ch (absent (analyzeResults guess results))
  <-> firstResult (feedback guess results) ch = Some Absent.
Proof.
  unfold analyzeResults. cbn [absent].
  destruct (collectResult_sets (feedback guess results)
              (indexed (feedback guess results)) ch) as [_ Habs].
  rewrite map_snd_indexed in Habs. exact Habs.
Qed.

Lemma processAbsent_maxCounts_keys l char mx : forall c,
  In (char, mx) (maxCounts (fold_left processAbsent l c)) ->
  In (char, mx) (maxCounts c) \/ In char l.
Proof.
  induction l as [|a l IH]; intros c; simpl; [tauto|].
  intros Hin. apply IH in Hin. destruct Hin as [Hin|Hin]; [|tauto].
  unfold processAbsent in Hin. destruct (negb _); cbn [maxCounts] in Hin; [tauto|].
  apply JsMapFacts.In_set_inv in Hin. destruct Hin as [E|Hin]; [|tauto].
  inversion E; subst. tauto.
Qed.

Lemma collectConstraints_max_only_absent n analysis char :
  ~ In char (absent analysis) ->
  JsMap.get (maxCounts (collectConstraints n analysis)) char = None.
Proof.
  intros Hn.
  destruct (JsMap.get (maxCounts (collectConstraints n analysis)) char)
    as [mx|] eqn:Hget; [exfalso|reflexivity].
  apply JsMapFacts.get_In in Hget. unfold collectConstraints in Hget.
  apply processAbsent_maxCounts_keys in Hget.
  rewrite fold_processPresent_maxCounts, fold_processGreen_maxCounts in Hget.
  simpl in Hget. tauto.
Qed.

(** Whenever the first result of a letter in the guess is correct or
    present, no maximum is kept for it, neither in the letter counts of the
    analysis nor in the normalized constraints, whatever the later results
    for that letter are. *)
Lemma first_hit_leaves_no_max cfg guess results char r :
  firstResult (feedback guess results) char = Some r ->
  r <> Absent ->
  let analysis := analyzeResults guess results in
  JsMap.get (letterCounts analysis) char
  = Some {| lcMin := knownCount (feedback guess results) char; lcMax := None |} /\
  exists c, normalizeConstraints cfg analysis = inr c /\
            JsMap.get (maxCounts c) char = None.
Proof.
  intros Hfirst Hr analysis. split.
  - apply analyzeResults_max_overwritten.
    apply (firstResult_hit _ _ r Hfirst). destruct r; simpl; congruence.
  - exists (collectConstraints (wordLength cfg) analysis).
    split; [apply normalizeConstraints_total|].
    apply collectConstraints_max_only_absent.
    unfold analysis. rewrite analyzeResults_absent, Hfirst. congruence.
Qed.

Lemma collectResult_present fb0 (l : list (nat * (ascii * ResultKind))) ch :
  In ch (present (fold_left (collectResult fb0) l emptyAnalysis))
  <-> In (ch, Present) (map snd l).
Proof.
  apply (fold_left_prefix_inv
           (fun pre a => In ch (present a) <-> In (ch, Present) (map snd pre))).
  - simpl. tauto.
  - intros pre [i [g r]] a IH. rewrite map_app, in_app_iff. simpl map.
    unfold collectResult. destruct r; cbn [present].
    + rewrite IH. simpl. intuition congruence.
    + rewrite JsSetFacts.In_add, IH. simpl. intuition congruence.
    + destruct (_ && _); cbn [present]; rewrite IH; simpl; intuition congruence.
Qed.

(** ** One present letter empties the filter *)

Section PresentLetter.
Variable n : nat.
Variable analysis : GuessAnalysis.

(** Number of green positions recorded for a letter. *)
Let greenCount (char : ascii) : nat :=
  length (filter (fun pc => eqb (snd pc) char) (positions analysis)).

Let c0 : NormalizedConstraints :=
  {| greens := repeat SNull n; minCounts := []; maxCounts := [];
     bannedPos := []; forbidden := []; testedLetters := [] |}.

Let c1 := fold_left processGreen (positions analysis) c0.
Let c2 := fold_left (processPresent n analysis) (present analysis) c1.

Lemma slot_get_array_put_eq (a : list Slot) i v :
  slot_get (array_put SUndefined a i v) i = v.
Proof.
  unfold slot_get. revert a; induction i as [|i IH]; intros [|h t]; simpl; auto.
Qed.

Lemma slot_get_array_put_neq (a : list Slot) i j v :
  i <> j -> slot_get (array_put SUndefined a i v) j = slot_get a j.
Proof.
  unfold slot_get. revert a j; induction i as [|i IH]; intros [|h t] [|j] Hij;
    simpl; try congruence; auto.
  - destruct j; reflexivity.
  - rewrite IH by congruence. destruct j; reflexivity.
Qed.

Lemma count_green_array_put (a : list Slot) i ch char :
  length (filter (fun s => eqb s (SChar char)) (array_put SUndefined a i (SChar ch)))
  <= length (filter (fun s => eqb s (SChar char)) a)
     + (if eqb ch char then 1 else 0).
Proof.
  revert a; induction i as [|i IH]; intros [|h t]; simpl.
  - destruct (eqb (SChar ch) (SChar char)) eqn:E; simpl.
    + apply eqb_true in E. inversion E; subst. rewrite eqb_refl. lia.
    + lia.
  - destruct (eqb (SChar ch) (SChar char)) eqn:E; simpl.
    + apply eqb_true in E. inversion E; subst. rewrite eqb_refl.
      destruct (eqb h (SChar char)); simpl; lia.
    + destruct (eqb h (SChar char)); simpl; lia.
  - specialize (IH []).
    destruct (eqb SUndefined (SChar char)) eqn:E;
      [apply eqb_true in E; discriminate E | exact IH].
  - specialize (IH t). destruct (eqb h (SChar char)); simpl; lia.
Qed.

(** After the greens: minimum counts, slots and their number. *)
Lemma greens_processed :
  (forall char, cnt (minCounts c1) char = greenCount char) /\
  (forall i, slot_get (greens c1) i = SNull -> JsMap.get (positions analysis) i = None) /\
  (forall char,
     length (filter (fun s => eqb s (SChar char)) (greens c1)) <= greenCount char) /\
  bannedPos c1 = [].
Proof.
  unfold c1, greenCount.
  apply (fold_left_prefix_inv
           (fun pre c =>
              (forall char, cnt (minCounts c) char
                            = length (filter (fun pc => eqb (snd pc) char) pre)) /\
              (forall i, slot_get (greens c) i = SNull -> JsMap.get pre i = None) /\
              (forall char,
                 length (filter (fun s => eqb s (SChar char)) (greens c))
                 <= length (filter (fun pc => eqb (snd pc) char) pre)) /\
              bannedPos c = [])).
  - unfold c0. simpl. repeat split; auto.
    intros char. clear. induction n; simpl; auto.
  - intros pre [pos ch] c (Hmin & Hnull & Hcount & Hban).
    unfold processGreen. cbn [minCounts greens bannedPos].
    repeat split; auto.
    + intros char. rewrite filter_app, length_app. simpl.
      destruct (eq_dec char ch) as [->|Hne].
      * rewrite cnt_set_eq, eqb_refl. simpl. fold (cnt (minCounts c) ch).
        rewrite Hmin. lia.
      * rewrite cnt_set_neq by exact Hne.
        replace (eqb ch char) with false by (symmetry; apply eqb_false; congruence).
        simpl. rewrite Hmin. lia.
    + intros i Hi. unfold slot_set in Hi. rewrite JsMapFacts.get_app.
      destruct (Nat.eq_dec pos i) as [->|Hne].
      * rewrite slot_get_array_put_eq in Hi. discriminate.
      * rewrite slot_get_array_put_neq in Hi by exact Hne.
        rewrite (Hnull i Hi). simpl. destruct (eq_dec i pos); congruence.
    + intros char. unfold slot_set. rewrite filter_app, length_app. simpl.
      pose proof (count_green_array_put (greens c) pos ch char) as Hput.
      specialize (Hcount char).
      destruct (eqb ch char); simpl; lia.
Qed.

Lemma banned_loop (cond : nat -> bool) (s0 : list nat) j :
  j < n -> cond j = true ->
  In j (for_loop n (fun i s => if cond i then JsSet.add s i else s) s0).
Proof.
  intros Hj Hc.
  apply (for_loop_inv
           (fun i s => (j < i -> In j s))
           n (fun i s => if cond i then JsSet.add s i else s) s0);
    [lia | | exact Hj].
  intros i s Hi IH Hlt.
  destruct (Nat.eq_dec i j) as [->|Hne].
  - rewrite Hc. apply JsSetFacts.In_add. right; reflexivity.
  - assert (Hin : In j s) by (apply IH; lia).
    destruct (cond i); [apply JsSetFacts.In_add; left|]; exact Hin.
Qed.

(** After the present letters. *)
Lemma present_processed :
  greens c2 = greens c1 /\
  forall ch, In ch (present analysis) ->
    greenCount ch + 1 <= cnt (minCounts c2) ch /\
    exists s, JsMap.get (bannedPos c2) ch = Some s /\
      forall i, i < n -> slot_get (greens c1) i <> SChar ch ->
                JsMap.get (positions analysis) i <> Some ch -> In i s.
Proof.
  destruct greens_processed as (Hmin1 & _ & _ & _).
  assert (Hinv :
    greens c2 = greens c1 /\
    (forall ch, cnt (minCounts c1) ch <= cnt (minCounts c2) ch) /\
    forall ch, In ch (present analysis) ->
      greenCount ch + 1 <= cnt (minCounts c2) ch /\
      exists s, JsMap.get (bannedPos c2) ch = Some s /\
        forall i, i < n -> slot_get (greens c1) i <> SChar ch ->
                  JsMap.get (positions analysis) i <> Some ch -> In i s).
  { unfold c2.
    apply (fold_left_prefix_inv
             (fun pre c =>
                greens c = greens c1 /\
                (forall ch, cnt (minCounts c1) ch <= cnt (minCounts c) ch) /\
                forall ch, In ch pre ->
                  greenCount ch + 1 <= cnt (minCounts c) ch /\
                  exists s, JsMap.get (bannedPos c) ch = Some s /\
                    forall i, i < n -> slot_get (greens c1) i <> SChar ch ->
                      JsMap.get (positions analysis) i <> Some ch -> In i s)).
    - split; [reflexivity|]. split; [intros ch0; lia|]. intros ch0 [].
    - intros pre x c (Hg & Hmono & Hpre).
      unfold processPresent. cbn [greens minCounts bannedPos].
      fold (cnt (minCounts c) x). fold (greenCount x).
      split; [exact Hg|]. split.
      + intros ch. destruct (eq_dec ch x) as [->|Hne].
        * rewrite cnt_set_eq. specialize (Hmono x). lia.
        * rewrite cnt_set_neq by exact Hne. apply Hmono.
      + intros ch Hin. destruct (eq_dec ch x) as [->|Hne].
        * rewrite cnt_set_eq, JsMapFacts.get_set_eq. split.
          -- specialize (Hmono x). rewrite Hmin1 in Hmono. lia.
          -- eexists. split; [reflexivity|].
             intros i Hi Hslot Hpos. apply banned_loop; [exact Hi|].
             rewrite Hg. apply andb_true_iff. split; apply negb_true_iff.
             ++ apply eqb_false. exact Hslot.
             ++ apply eqb_false. exact Hpos.
        * rewrite cnt_set_neq, JsMapFacts.get_set_neq by exact Hne.
          apply Hpre. apply in_app_or in Hin.
          destruct Hin as [Hin|[E|[]]]; [exact Hin|congruence]. }
  destruct Hinv as (Hg & _ & Hall). split; assumption.
Qed.

Lemma fold_processAbsent_fields l : forall c,
  greens (fold_left processAbsent l c) = greens c /\
  minCounts (fold_left processAbsent l c) = minCounts c /\
  bannedPos (fold_left processAbsent l c) = bannedPos c.
Proof.
  induction l as [|a l IH]; intros c; simpl; [auto|].
  destruct (IH (processAbsent c a)) as (-> & -> & ->).
  unfold processAbsent. destruct (negb _); auto.
Qed.

Lemma count_occ_le_greens (w : word) char : forall g : list Slot,
  (forall i, nth_error w i = Some char -> slot_get g i = SChar char) ->
  count_occ ascii_dec w char
  <= length (filter (fun s => eqb s (SChar char)) g).
Proof.
  induction w as [|x w IH]; intros g Hg; simpl; [lia|].
  destruct g as [|s g].
  - destruct (ascii_dec x char) as [->|Hne].
    + specialize (Hg 0 eq_refl). discriminate Hg.
    + apply (IH []). intros i Hi. specialize (Hg (S i) Hi).
      unfold slot_get in *. destruct i; discriminate Hg.
  - assert (Hrest : count_occ ascii_dec w char
                    <= length (filter (fun s => eqb s (SChar char)) g)).
    { apply IH. intros i Hi. exact (Hg (S i) Hi). }
    simpl. destruct (ascii_dec x char) as [->|Hne].
    + specialize (Hg 0 eq_refl). unfold slot_get in Hg. simpl in Hg. subst s.
      rewrite eqb_refl. simpl. lia.
    + destruct (eqb s (SChar char)); simpl; lia.
Qed.

(** With a present letter in the analysis, the filter predicate rejects
    every word of at most [wordLength] letters: the letter is required once
    more than it is green, and banned wherever it is not green. *)
Lemma present_letter_rejects_all char (w : word) :
  In char (present analysis) ->
  length w <= n ->
  satisfiesConstraints (collectConstraints n analysis) w = false.
Proof.
  intros Hpresent Hlen.
  destruct (satisfiesConstraints (collectConstraints n analysis) w) eqn:Hsat;
    [exfalso|reflexivity].
  unfold satisfiesConstraints in Hsat.
  repeat (apply andb_true_iff in Hsat; destruct Hsat as [Hsat ?]).
  rename H into Hbanned, H0 into Hmax, H1 into Hmin, H2 into Hgreens.
  unfold collectConstraints in *. fold c0 in Hbanned, Hmin, Hgreens.
  fold c1 in Hbanned, Hmin, Hgreens. fold c2 in Hbanned, Hmin, Hgreens.
  destruct (fold_processAbsent_fields (absent analysis) c2) as (Eg & Em & Eb).
  rewrite Eb in Hbanned. rewrite Em in Hmin. rewrite Eg in Hgreens.
  destruct greens_processed as (_ & Hnull & Hcount & _).
  destruct present_processed as (Hg2 & Hp).
  destruct (Hp char Hpresent) as (Hm & s & Hs & Hcover).
  rewrite Hg2 in Hgreens.
  rewrite forallb_forall in Hgreens, Hmin, Hbanned.
  (* every occurrence of the letter in the word is on a green of it *)
  assert (Hocc : forall i, nth_error w i = Some char ->
                           slot_get (greens c1) i = SChar char).
  { intros i Hi.
    assert (Hi' : i < length w) by (apply nth_error_Some; congruence).
    specialize (Hgreens i (proj2 (in_seq _ _ _) (conj (Nat.le_0_l i) Hi'))).
    rewrite Hi in Hgreens.
    destruct (eq_dec (slot_get (greens c1) i) (SChar char)) as [E|Hne]; [exact E|].
    exfalso.
    apply negb_true_iff, andb_false_iff in Hgreens.
    destruct Hgreens as [Hn|Hn]; apply negb_false_iff, eqb_true in Hn.
    - assert (Hin : In i s).
      { apply Hcover; [lia | exact Hne | rewrite (Hnull i Hn); discriminate]. }
      apply JsMapFacts.get_In in Hs.
      specialize (Hbanned (char, s) Hs). cbn [fst snd] in Hbanned.
      rewrite forallb_forall in Hbanned. specialize (Hbanned i Hin).
      rewrite Hi, eqb_refl in Hbanned. discriminate.
    - congruence. }
  pose proof (count_occ_le_greens w char (greens c1) Hocc) as Hle.
  specialize (Hcount char).
  assert (Hget : JsMap.get (minCounts c2) char = Some (cnt (minCounts c2) char)).
  { unfold cnt. apply (js_or_0_gt _ (greenCount char)). fold (cnt (minCounts c2) char).
    lia. }
  apply JsMapFacts.get_In in Hget.
  specialize (Hmin _ Hget). cbn [fst snd] in Hmin.
  apply negb_true_iff, Nat.ltb_ge in Hmin. unfold matchCount in Hmin. lia.
Qed.

End PresentLetter.

(** For the analysis of any feedback that shows a present letter, no word of
    the configured length passes the filter predicate, the secret
    included. *)
Lemma present_result_empties_filter cfg guess results char (w : word) :
  In (char, Present) (feedback guess results) ->
  length w <= wordLength cfg ->
  exists c,
    normalizeConstraints cfg (analyzeResults guess results) = inr c /\
    satisfiesConstraints c w = false.
Proof.
  intros Hin Hlen. eexists. split; [apply normalizeConstraints_total|].
  apply (present_letter_rejects_all (wordLength cfg) _ char); [|exact Hlen].
  unfold analyzeResults. cbn [present].
  destruct (collectResult_present (feedback guess results)
              (indexed (feedback guess results)) char) as [_ Hp].
  apply Hp. rewrite map_snd_indexed. exact Hin.
Qed.
(** ** The LRU cache *)

Section JsMapSize.
Context {K V : Type} `{EqDec K}.
Implicit Types (m : list (K * V)) (k : K) (v : V).

Lemma JsMap_delete_present m k v :
  JsMap.get m k = Some v -> length (JsMap.delete m k) < length m.
Proof.
  induction m as [|[k' v'] m IH]; simpl; [discriminate|].
  destruct (eq_dec k k'); intros E.
  - pose proof (JsMapFacts.delete_length_le m k). lia.
  - simpl. specialize (IH E). lia.
Qed.

Lemma JsMap_get_delete_other m k k' :
  JsMap.get m k = None -> JsMap.get (JsMap.delete m k') k = None.
Proof.
  induction m as [|[k1 v1] m IH]; simpl; auto.
  destruct (eq_dec k k1); [discriminate|]. intros E.
  destruct (eq_dec k' k1); simpl; auto.
  destruct (eq_dec k k1); [contradiction|auto].
Qed.

Lemma JsMap_set_absent_length m k v :
  JsMap.get m k = None -> length (JsMap.set m k v) = S (length m).
Proof.
  intros E. rewrite JsMapFacts.set_absent by exact E.
  rewrite length_app. simpl. lia.
Qed.

Lemma JsMap_first_key_present m k rest :
  JsMap.keys m = k :: rest -> exists v, JsMap.get m k = Some v.
Proof.
  destruct m as [|[k' v'] m]; simpl; [discriminate|].
  intros E; inversion E; subst. destruct (eq_dec k k); [eauto|congruence].
Qed.
End JsMapSize.

Section LRU.
Context {K V : Type} `{EqDec K}.
Implicit Types (c : @LRUCache.t K V) (key : K) (v : V).

Lemma LRUCache_set_maxSize now c key v :
  LRUCache.maxSize (LRUCache.set now c key v) = LRUCache.maxSize c.
Proof. reflexivity. Qed.

(** C10 (as amended). For a cache whose [maxSize] is at least one, [set]
    keeps the number of entries within [maxSize]: it leaves [maxSize]
    unchanged, a cache that holds at most [maxSize] entries holds at most
    [maxSize] entries afterwards, overwriting a key that is already cached
    does not grow the cache, and inserting a new key into a cache that is at
    capacity removes the oldest entry (the first key in insertion order)
    before the new entry is appended. *)
Theorem LRUCache_set_bounded now c key v :
  1 <= LRUCache.maxSize c ->
  LRUCache.size c <= LRUCache.maxSize c ->
  LRUCache.size (LRUCache.set now c key v) <= LRUCache.maxSize c /\
  LRUCache.maxSize (LRUCache.set now c key v) = LRUCache.maxSize c /\
  (JsMap.has (LRUCache.cache c) key = true ->
   LRUCache.size (LRUCache.set now c key v) <= LRUCache.size c) /\
  (JsMap.has (LRUCache.cache c) key = false ->
   LRUCache.size c = LRUCache.maxSize c ->
   exists firstKey rest,
     JsMap.keys (LRUCache.cache c) = firstKey :: rest /\
     LRUCache.cache (LRUCache.set now c key v)
     = JsMap.delete (LRUCache.cache c) firstKey
       ++ [(key, {| LRUCache.value := v;
                    LRUCache.expiry := (now + LRUCache.ttl c)%Z |})]).
Proof.
  intros Hpos Hsize. unfold LRUCache.size, LRUCache.set, JsMap.size in *.
  cbn [LRUCache.cache LRUCache.withCache LRUCache.maxSize].
  unfold JsMap.has.
  destruct (JsMap.get (LRUCache.cache c) key) as [item|] eqn:Hget.
  - pose proof (JsMap_delete_present _ _ _ Hget) as Hlt.
    rewrite JsMap_set_absent_length by apply JsMapFacts.get_None_delete.
    repeat split; try lia; try discriminate.
  - split; [|split; [reflexivity|split; [discriminate|]]].
    + destruct (LRUCache.maxSize c <=? length (LRUCache.cache c)) eqn:Hfull.
      * apply Nat.leb_le in Hfull.
        destruct (JsMap.keys (LRUCache.cache c)) as [|firstKey rest] eqn:Hkeys.
        -- unfold JsMap.keys in Hkeys. apply map_eq_nil in Hkeys.
           rewrite Hkeys in *. simpl in *. lia.
        -- destruct (JsMap_first_key_present _ _ _ Hkeys) as [it Hfirst].
           pose proof (JsMap_delete_present _ _ _ Hfirst) as Hlt.
           rewrite JsMap_set_absent_length
             by (apply JsMap_get_delete_other; exact Hget).
           lia.
      * apply Nat.leb_gt in Hfull.
        rewrite JsMap_set_absent_length by exact Hget. lia.
    + intros _ Hfull.
      replace (LRUCache.maxSize c <=? length (LRUCache.cache c)) with true
        by (symmetry; apply Nat.leb_le; lia).
      destruct (JsMap.keys (LRUCache.cache c)) as [|firstKey rest] eqn:Hkeys.
      * unfold JsMap.keys in Hkeys. apply map_eq_nil in Hkeys.
        rewrite Hkeys in *. simpl in *. lia.
      * exists firstKey, rest. split; [reflexivity|].
        apply JsMapFacts.set_absent, JsMap_get_delete_other, Hget.
Qed.

End LRU.

Lemma LRUCache_set_bounded_witness :
  let c := LRUCache.set 0%Z
             (LRUCache.set 0%Z (LRUCache.create 2 10%Z) (str "stare") true)
             (str "crane") true in
  LRUCache.size (LRUCache.set 5%Z c (str "slate") false) <= LRUCache.maxSize c /\
  LRUCache.maxSize (LRUCache.set 5%Z c (str "slate") false) = LRUCache.maxSize c /\
  (JsMap.has (LRUCache.cache c) (str "slate") = true ->
   LRUCache.size (LRUCache.set 5%Z c (str "slate") false) <= LRUCache.size c) /\
  (JsMap.has (LRUCache.cache c) (str "slate") = false ->
   LRUCache.size c = LRUCache.maxSize c ->
   exists firstKey rest,
     JsMap.keys (LRUCache.cache c) = firstKey :: rest /\
     LRUCache.cache (LRUCache.set 5%Z c (str "slate") false)
     = JsMap.delete (LRUCache.cache c) firstKey
       ++ [(str "slate", {| LRUCache.value := false;
                            LRUCache.expiry := (5 + LRUCache.ttl c)%Z |})]).
Proof.
  intros c. apply (LRUCache_set_bounded 5%Z c (str "slate") false).
  - unfold c. simpl. lia.
  - unfold c. vm_compute. lia.
Defined.

Example LRUCache_evicts_oldest :
  let c := LRUCache.set 0%Z
             (LRUCache.set 0%Z (LRUCache.create 2 10%Z) (str "stare") true)
             (str "crane") true in
  JsMap.keys (LRUCache.cache (LRUCache.set 5%Z c (str "slate") false))
  = [str "crane"; str "slate"].
Proof. reflexivity. Qed.

(** C10, counterexample: a cache created with [maxSize] 0 holds one entry
    after the first [set], because there is no oldest entry to evict. *)
Lemma LRUCache_set_zero_capacity :
  let c := LRUCache.create (K:=word) (V:=bool) 0 10%Z in
  LRUCache.size c <= LRUCache.maxSize c /\
  ~ (LRUCache.size (LRUCache.set 0%Z c (str "stare") true)
     <= LRUCache.maxSize (LRUCache.set 0%Z c (str "stare") true)).
Proof. vm_compute. split; [constructor | intros Hle; inversion Hle]. Qed.

(** ** The candidate filter *)

Lemma filter_Subseq {A : Type} (p : A -> bool) (l : list A) :
  Subseq (filter p l) l.
Proof.
  induction l as [|x l IH]; simpl; [constructor|].
  destruct (p x); constructor; exact IH.
Qed.

Lemma Subseq_In {A : Type} (l1 l2 : list A) :
  Subseq l1 l2 -> forall x, In x l1 -> In x l2.
Proof.
  induction 1; simpl; intros y Hy; auto.
  destruct Hy; auto.
Qed.

(** *** What the dictionary service returns *)

Lemma checkCached_incl now batch : forall uncached st uncached' st' (P : word -> Prop),
  fold_left (checkCached now) batch (uncached, st) = (uncached', st') ->
  (forall w, In w uncached -> P w) ->
  (forall w, In w (validWords st) -> P w) ->
  (forall w, In w batch -> P w) ->
  (forall w, In w uncached' -> P w) /\ (forall w, In w (validWords st') -> P w).
Proof.
  induction batch as [|x batch IH]; intros uncached st uncached' st' P Hf Hu Hv Hb.
  - simpl in Hf. inversion Hf; subst. auto.
  - cbn [fold_left] in Hf.
    destruct (checkCached now (uncached, st) x) as [u1 st1] eqn:Hstep.
    unfold checkCached in Hstep.
    destruct (LRUCache.get now (vsCache st) (toLowerCase x)) as [cached cache'].
    destruct cached as [isValid|]; inversion Hstep; subst u1 st1; clear Hstep.
    + eapply IH; [exact Hf| exact Hu | | intros w Hw; apply Hb; right; exact Hw].
      cbn [validWords]. destruct isValid; [|exact Hv].
      intros w Hw. apply in_app_iff in Hw. destruct Hw as [Hw|[<-|[]]]; auto.
      apply Hb; left; reflexivity.
    + eapply IH; [exact Hf| | exact Hv | intros w Hw; apply Hb; right; exact Hw].
      intros w Hw. apply in_app_iff in Hw. destruct Hw as [Hw|[<-|[]]]; auto.
      apply Hb; left; reflexivity.
Qed.

Lemma recordValidation_incl now (P : word -> Prop) wvs : forall st,
  (forall w, In w (validWords st) -> P w) ->
  (forall wv, In wv wvs -> P (fst wv)) ->
  forall w, In w (validWords (fold_left (recordValidation now) wvs st)) -> P w.
Proof.
  induction wvs as [|[x v] wvs IH]; intros st Hv Hw; simpl; [exact Hv|].
  apply IH.
  - simpl. destruct v; [|exact Hv].
    intros w Hin. apply in_app_iff in Hin. destruct Hin as [Hin|[<-|[]]]; auto.
    apply (Hw (x, true)). left; reflexivity.
  - intros wv Hin. apply Hw. right; exact Hin.
Qed.

Lemma validateBatch_incl now net (P : word -> Prop) st batch :
  (forall w, In w (validWords st) -> P w) ->
  (forall w, In w batch -> P w) ->
  forall w, In w (validWords (validateBatch now net st batch)) -> P w.
Proof.
  intros Hv Hb. unfold validateBatch.
  destruct (fold_left (checkCached now) batch ([], st)) as [uncached st1] eqn:Hc.
  destruct (checkCached_incl now batch [] st uncached st1 P Hc) as [Hu Hv1]; auto.
  { intros w []. }
  destruct uncached as [|u uncached]; [exact Hv1|].
  destruct (fetchAll net (useFallback st1) (useFallback st1) (u :: uncached))
    as [validations uf].
  destruct validations as [vs|]; apply recordValidation_incl;
    cbn [validWords]; auto.
  - intros [w v] Hin. apply in_combine_l in Hin. cbn [fst]. auto.
  - intros wv Hin. apply in_map_iff in Hin. destruct Hin as (w & <- & Hin).
    cbn [fst]. auto.
Qed.

Lemma batchesOf_incl fuel size : forall ws batch w,
  In batch (batchesOf fuel size ws) -> In w batch -> In w ws.
Proof.
  induction fuel as [|fuel IH]; intros ws batch w Hb Hw.
  - destruct ws; simpl in Hb; contradiction.
  - destruct ws as [|x ws]; [simpl in Hb; contradiction|].
    cbn [batchesOf] in Hb. destruct Hb as [<-|Hb].
    + rewrite <- (firstn_skipn size (x :: ws)). apply in_or_app. left; exact Hw.
    + rewrite <- (firstn_skipn size (x :: ws)). apply in_or_app. right.
      eapply IH; eauto.
Qed.

(** With a batch size of at least one the loop over the batches ends, and
    the batches are the words in order. *)
Lemma batchesOf_concat size : 1 <= size ->
  forall fuel ws, length ws <= fuel -> concat (batchesOf fuel size ws) = ws.
Proof.
  intros Hsize. induction fuel as [|fuel IH]; intros ws Hlen.
  - destruct ws; [reflexivity | simpl in Hlen; lia].
  - destruct ws as [|x ws]; [reflexivity|].
    cbn [batchesOf concat]. rewrite IH.
    + apply firstn_skipn.
    + rewrite length_skipn. cbn [length] in *. lia.
Qed.

Lemma validateBatches_incl now net (P : word -> Prop) batches : forall st,
  (forall w, In w (validWords st) -> P w) ->
  (forall batch w, In batch batches -> In w batch -> P w) ->
  forall w, In w (validWords (fold_left (validateBatch now net) batches st)) -> P w.
Proof.
  induction batches as [|b batches IH]; intros st Hv Hb; simpl; [exact Hv|].
  apply IH.
  - apply validateBatch_incl; [exact Hv|]. intros w Hw. apply (Hb b); simpl; auto.
  - intros batch w Hin Hw. apply (Hb batch); simpl; auto.
Qed.

Lemma validateWords_incl now net cfg cache words w :
  In w (fst (validateWords now net cfg cache words)) -> In w words.
Proof.
  unfold validateWords; simpl.
  apply (validateBatches_incl now net (fun w => In w words)).
  - simpl. intros x [].
  - intros batch x Hb Hx. eapply batchesOf_incl; eauto.
Qed.

Lemma validate_incl now net bot words w :
  In w (fst (validate now net bot words)) -> In w words.
Proof.
  unfold validate.
  destruct (validateWords now net (dictionary (botConfig bot))
              (dictionaryService bot) words) as [valid d] eqn:Hv.
  simpl. intros Hin. apply (validateWords_incl now net (dictionary (botConfig bot))
                              (dictionaryService bot) words).
  rewrite Hv. exact Hin.
Qed.

Lemma validate_bot now net bot words :
  botConfig (snd (validate now net bot words)) = botConfig bot /\
  botStartingWords (snd (validate now net bot words)) = botStartingWords bot.
Proof.
  unfold validate. destruct (validateWords _ _ _ _ _); simpl. auto.
Qed.

Lemma generateWordCombinations_bot now net bot pattern analysis :
  botConfig (snd (generateWordCombinations now net bot pattern analysis))
  = botConfig bot /\
  botStartingWords (snd (generateWordCombinations now net bot pattern analysis))
  = botStartingWords bot.
Proof. unfold generateWordCombinations. apply validate_bot. Qed.

(** C8, counterexample.  A fresh bot and a dictionary that answers 200 to
    every request; no constraints.  After CRANE has been validated once (and
    cached), filtering the pool STARE, CRANE returns CRANE before STARE, and
    the same call made again returns STARE before CRANE.  Filtering the
    empty pool returns five synthesized words. *)
Lemma filterWords_reorders :
  let pool := [str "STARE"; str "CRANE"] in
  exists bot1 bot2 bot3 bot4,
    filterWords 0%Z alwaysFound (newBot config) emptyAnalysis (Some [str "CRANE"])
      = inr ([str "CRANE"], bot1) /\
    filterWords 0%Z alwaysFound bot1 emptyAnalysis (Some pool)
      = inr ([str "CRANE"; str "STARE"], bot2) /\
    ~ Subseq [str "CRANE"; str "STARE"] pool /\
    filterWords 0%Z alwaysFound bot2 emptyAnalysis (Some pool)
      = inr ([str "STARE"; str "CRANE"], bot3) /\
    filterWords 0%Z alwaysFound (newBot config) emptyAnalysis (Some [])
      = inr ([str "RARAR"; str "RRARA"; str "RARRA"; str "RARRR"; str "RRARR"],
             bot4).
Proof.
  intros pool. do 4 eexists. split; [vm_compute; reflexivity|].
  split; [vm_compute; reflexivity|].
  split; [|split; vm_compute; reflexivity].
  unfold pool. intros Hs.
  repeat match goal with
         | H : Subseq _ _ |- _ => inversion H; clear H; subst
         end.
Qed.

(** ** Scores *)

Lemma fold_left_rel {A B C : Type} (Rel : A -> B -> Prop)
    (f : A -> C -> A) (g : B -> C -> B) (l : list C) :
  (forall a b x, Rel a b -> Rel (f a x) (g b x)) ->
  forall a b, Rel a b -> Rel (fold_left f l a) (fold_left g l b).
Proof.
  intros Hstep. induction l as [|x l IH]; intros a b Hab; simpl; auto.
Qed.

Lemma scorePosition2_spec bot w i z s :
  IZR z = (2 * s)%R ->
  IZR (scorePosition2 bot w i z) = (2 * scorePosition bot w i s)%R.
Proof.
  intros Hz. unfold scorePosition2, scorePosition.
  destruct (nth_error w i) as [char|]; [|exact Hz].
  cbv zeta.
  repeat match goal with
         | |- context [if ?b then _ else _] => destruct b
         end;
    repeat (rewrite ?plus_IZR, ?mult_IZR, <- ?INR_IZR_INZ);
    rewrite Hz; lra.
Qed.

Lemma baseScore2_spec bot w : IZR (baseScore2 bot w) = (2 * baseScore bot w)%R.
Proof.
  unfold baseScore2, baseScore, for_loop.
  apply (fold_left_rel (fun z s => IZR z = (2 * s)%R)).
  - intros z s i. apply scorePosition2_spec.
  - lra.
Qed.

Lemma Rltb_baseScore bot a b :
  Rltb (baseScore bot a) (baseScore bot b)
  = (baseScore2 bot a <? baseScore2 bot b)%Z.
Proof.
  unfold Rltb. destruct (Rlt_dec (baseScore bot a) (baseScore bot b)) as [Hlt|Hge].
  - symmetry. apply Z.ltb_lt. apply lt_IZR. rewrite !baseScore2_spec. lra.
  - symmetry. apply Z.ltb_ge. apply le_IZR. rewrite !baseScore2_spec. lra.
Qed.

Lemma jsSort_ext {A : Type} (f g : A -> A -> bool) (l : list A) :
  (forall a b, f a b = g a b) -> jsSort f l = jsSort g l.
Proof.
  intros Hfg. unfold jsSort. induction l as [|x l IH]; simpl; [reflexivity|].
  rewrite IH. generalize (fold_right (insertSorted g) [] l). intros s.
  induction s as [|y s IHs]; simpl; [reflexivity|].
  rewrite Hfg, IHs. reflexivity.
Qed.

Lemma getBestStartingWord_computed bot :
  getBestStartingWord bot
  = let sorted :=
      jsSort (fun a b => (baseScore2 bot a <? baseScore2 bot b)%Z)
             (botStartingWords bot) in
    (hd_error sorted, withStartingWords bot sorted).
Proof.
  unfold getBestStartingWord.
  rewrite (jsSort_ext _ (fun a b => (baseScore2 bot a <? baseScore2 bot b)%Z))
    by (intros a b; apply Rltb_baseScore).
  reflexivity.
Qed.

Example best_starting_word :
  fst (getBestStartingWord (newBot config)) = Some (str "ARISE") /\
  baseScore2 (newBot config) (str "ARISE") = 433%Z /\
  baseScore2 (newBot config) (str "STARE") = 421%Z.
Proof. rewrite getBestStartingWord_computed. vm_compute. auto. Qed.

(** ** The guess selector *)

Lemma hd_filter_split {A : Type} (p : A -> bool) (l : list A) (x : A) :
  hd_error (filter p l) = Some x ->
  exists pre post,
    l = pre ++ x :: post /\ p x = true /\ forall y, In y pre -> p y = false.
Proof.
  induction l as [|a l IH]; simpl; [discriminate|].
  destruct (p a) eqn:Hpa.
  - simpl. intros E; inversion E; subst.
    exists [], l. repeat split; auto. intros y [].
  - intros E. destruct (IH E) as (pre & post & -> & Hx & Hpre).
    exists (a :: pre), post. repeat split; auto.
    intros y [<-|Hy]; auto.
Qed.

Lemma includesWord_true l w : includesWord l w = true <-> In w l.
Proof. unfold includesWord. destruct (in_dec eq_dec w l); split; congruence. Qed.

Lemma includesWord_false l w : includesWord l w = false <-> ~ In w l.
Proof. unfold includesWord. destruct (in_dec eq_dec w l); split; congruence. Qed.

(** C5. When the candidate set that [generateNextGuess] works with (the
    list passed in, or else the result of [filterWords]) has at most two
    words and one of them has not been guessed, the guess returned is the
    first candidate that is not among the previous guesses: every candidate
    before it has been guessed.  The choice involves no score.  (The beam
    search that precedes the choice validates its words in batches, which
    ends for a batch size of at least one.) *)
Theorem endgame_returns_first_unguessed (now : Z) (net : Network) (bot : Bot)
    (analysis : GuessAnalysis) (previousGuesses : list word)
    (candidates : option (list word)) (remainingWords : list word)
    (bot1 : Bot) :
  1 <= batchSize (dictionary (botConfig bot1)) ->
  match candidates with
  | Some given => inr (given, bot)
  | None => filterWords now net bot analysis None
  end = inr (remainingWords, bot1) ->
  length remainingWords <= 2 ->
  (exists x, In x remainingWords /\ ~ In x previousGuesses) ->
  exists w pre post bot',
    generateNextGuess now net bot analysis previousGuesses candidates
      = inr (Some w, bot') /\
    remainingWords = pre ++ w :: post /\
    ~ In w previousGuesses /\
    (forall y, In y pre -> In y previousGuesses).
Proof.
  intros Hbatch Hrem Hlen (x & Hx & Hnew).
  unfold generateNextGuess. rewrite Hrem. cbn [bind].
  destruct remainingWords as [|r0 rest] eqn:Hr; [contradiction|].
  rewrite <- Hr in *. replace (length remainingWords =? 0) with false
    by (rewrite Hr; reflexivity).
  unfold selectGuess.
  destruct (enumerateCandidates now net bot1 500) as [allAvailable bot2].
  replace (length remainingWords <=? 2) with true
    by (symmetry; apply Nat.leb_le; exact Hlen).
  destruct (filter (fun w => negb (includesWord previousGuesses w)) remainingWords)
    as [|w ws] eqn:Hf.
  - exfalso.
    assert (Hin : In x (filter (fun w => negb (includesWord previousGuesses w))
                          remainingWords)).
    { apply filter_In. split; [exact Hx|].
      apply negb_true_iff, includesWord_false, Hnew. }
    rewrite Hf in Hin. contradiction.
  - destruct (hd_filter_split (fun w => negb (includesWord previousGuesses w))
                remainingWords w) as (pre & post & Hsplit & Hw & Hpre).
    { rewrite Hf. reflexivity. }
    exists w, pre, post, bot2. repeat split; auto.
    + apply includesWord_false, negb_true_iff, Hw.
    + intros y Hy. apply includesWord_true.
      specialize (Hpre y Hy). apply negb_false_iff in Hpre. exact Hpre.
Qed.

Lemma endgame_returns_first_unguessed_witness :
  exists w pre post bot',
    generateNextGuess 0%Z alwaysFound (newBot config)
      {| correct := str "STAR"; present := []; absent := [];
         positions := [(0, "S"%char); (1, "T"%char); (2, "A"%char); (3, "R"%char)];
         letterCounts := []; constraints := [] |}
      [str "STARE"] (Some [str "STARE"; str "STARK"])
      = inr (Some w, bot') /\
    [str "STARE"; str "STARK"] = pre ++ w :: post /\
    ~ In w [str "STARE"] /\
    (forall y, In y pre -> In y [str "STARE"]).
Proof.
  apply (endgame_returns_first_unguessed 0%Z alwaysFound (newBot config) _
           [str "STARE"] (Some [str "STARE"; str "STARK"])
           [str "STARE"; str "STARK"] (newBot config)).
  - simpl. lia.
  - reflexivity.
  - simpl. lia.
  - exists (str "STARK"). split; [simpl; auto|].
    simpl. intros [H|[]]. discriminate H.
Defined.

(** C9. The input of the repository's test "handles ARISE->yellow A,S case
    correctly": guess ARISE with A and S present and R, I, E absent, on a
    fresh bot, with a dictionary that answers 200 to every request.  No
    starting word passes the filter and no synthesized word is acceptable,
    so no candidate remains; all hundred words of the beam end with E, so
    none of them matches the analysis, strictly or loosely; the selector
    falls back to the best starting word, which is ARISE, the word already
    guessed. *)
Theorem fallback_repeats_previous_guess :
  let analysis :=
    analyzeResults (str "ARISE") [Present; Absent; Absent; Present; Absent] in
  let previousGuesses := [str "ARISE"] in
  exists bot',
    generateNextGuess 0%Z alwaysFound (newBot config) analysis
      previousGuesses None = inr (Some (str "ARISE"), bot') /\
    In (str "ARISE") previousGuesses.
Proof.
  intros analysis previousGuesses.
  unfold generateNextGuess.
  destruct (filterWords 0%Z alwaysFound (newBot config) analysis None)
    as [e|[remainingWords bot1]] eqn:HF;
    vm_compute in HF; [discriminate HF|].
  injection HF as <- <-. cbn [bind length Nat.eqb].
  unfold beamFallback.
  match goal with
  | |- context [enumerateCandidates ?n ?t ?b 300] =>
      destruct (enumerateCandidates n t b 300) as [beam bot2] eqn:HB
  end.
  vm_compute in HB. injection HB as <- <-.
  match goal with
  | |- context [filter ?p ?l] =>
      replace (filter p l) with (@nil word) by (vm_compute; reflexivity)
  end.
  match goal with
  | |- context [filter ?p ?l] =>
      replace (filter p l) with (@nil word) by (vm_compute; reflexivity)
  end.
  rewrite getBestStartingWord_computed.
  eexists. split; [|simpl; auto].
  vm_compute. reflexivity.
Qed.

(** *** Which branches can return a word already guessed *)

Lemma insertSorted_In {A : Type} (after : A -> A -> bool) (x : A) (l : list A) y :
  In y (insertSorted after x l) -> y = x \/ In y l.
Proof.
  induction l as [|a l IH]; simpl.
  - intros [<-|[]]; auto.
  - destruct (after x a); simpl.
    + intros [<-|Hin]; auto. destruct (IH Hin); auto.
    + intros [<-|[<-|Hin]]; auto.
Qed.

Lemma jsSort_In {A : Type} (after : A -> A -> bool) (l : list A) y :
  In y (jsSort after l) -> In y l.
Proof.
  unfold jsSort. induction l as [|a l IH]; simpl; [tauto|].
  intros Hin. apply insertSorted_In in Hin. destruct Hin as [->|Hin]; auto.
Qed.

Lemma bestScored_In scored w :
  bestScored scored = Some w -> In w (map fst scored).
Proof.
  unfold bestScored, sortByScore.
  destruct (jsSort _ scored) as [|[w0 s0] rest] eqn:Hs; simpl; [discriminate|].
  intros E; inversion E; subst.
  apply in_map_iff. exists (w, s0). split; [reflexivity|].
  apply (jsSort_In (fun a b => Rltb (snd a) (snd b))). rewrite Hs. left; reflexivity.
Qed.

Lemma mapM_scored {E : Type} (score : word -> E + R) (g : word -> R -> R)
    (ws : list word) :
  forall scored,
    mapM (fun w => bind (score w) (fun s => inr (w, g w s))) ws = inr scored ->
    map fst scored = ws.
Proof.
  induction ws as [|w ws IH]; simpl; intros scored Hs.
  - inversion Hs; reflexivity.
  - destruct (score w) as [e|s]; simpl in Hs; [discriminate|].
    destruct (mapM _ ws) as [e|rest]; simpl in Hs; [discriminate|].
    inversion Hs; subst. simpl. f_equal. apply IH. reflexivity.
Qed.

Lemma not_guessed_filter previousGuesses (l : list word) w :
  In w (filter (fun w => negb (includesWord previousGuesses w)) l) ->
  ~ In w previousGuesses.
Proof.
  intros Hin. apply filter_In in Hin. destruct Hin as [_ Hn].
  apply includesWord_false, negb_true_iff, Hn.
Qed.

Lemma entropyStrategy_not_repeated bot analysis previousGuesses remainingWords
    availableWords w bot' :
  entropyStrategy bot analysis previousGuesses remainingWords availableWords
    = inr (Some w, bot') ->
  ~ In w previousGuesses \/ (Some w, bot') = getBestStartingWord bot.
Proof.
  unfold entropyStrategy.
  match goal with
  | |- bind (mapM ?f ?top) _ = _ -> _ =>
      destruct (mapM f top) as [e|scored] eqn:Hs; simpl; [discriminate|]
  end.
  apply (mapM_scored
           (fun w => scoreWord bot w (Some analysis) (Some remainingWords))
           (fun w frequencyScore =>
              (entropyOf w remainingWords
               * (if 50 <? length remainingWords then 8 / 10 else 6 / 10)
               + frequencyScore
                 * (1 - (if 50 <? length remainingWords then 8 / 10 else 6 / 10)))%R))
    in Hs.
  destruct scored as [|s0 rest].
  - intros E. right. inversion E. reflexivity.
  - intros E. inversion E; subst. left.
    match goal with
    | Hb : bestScored _ = Some w |- _ => apply bestScored_In in Hb; rewrite Hs in Hb;
        eapply not_guessed_filter; exact Hb
    end.
Qed.

Lemma minimaxScores_not_guessed previousGuesses remainingWords availableWords :
  forall scores,
    (forall e, In e scores -> ~ In (fst e) previousGuesses) ->
    forall e,
      In e (fold_left
              (fun scores w =>
                 if negb (includesWord previousGuesses w)
                 then JsMap.set scores w (worstCaseBucket w remainingWords)
                 else scores)
              availableWords scores) ->
      ~ In (fst e) previousGuesses.
Proof.
  induction availableWords as [|a l IH]; intros scores Hs e; simpl; [apply Hs|].
  apply IH. destruct (negb (includesWord previousGuesses a)) eqn:Ha; [|exact Hs].
  intros e' Hin. apply JsMapFacts.In_set_inv in Hin. destruct Hin as [->|Hin].
  - simpl. apply includesWord_false, negb_true_iff, Ha.
  - apply Hs, Hin.
Qed.

Lemma minimaxStrategy_not_repeated bot analysis previousGuesses remainingWords
    availableWords w bot' :
  minimaxStrategy bot analysis previousGuesses remainingWords availableWords
    = inr (Some w, bot') ->
  ~ In w previousGuesses \/ (Some w, bot') = getBestStartingWord bot.
Proof.
  unfold minimaxStrategy.
  set (scores := fold_left _ availableWords []).
  assert (Hscores : forall e, In e scores -> ~ In (fst e) previousGuesses).
  { apply minimaxScores_not_guessed. intros e []. }
  set (sorted := jsSort (fun a b => snd b <? snd a) scores).
  assert (Hsorted : forall e, In e sorted -> ~ In (fst e) previousGuesses).
  { intros e He. apply Hscores. eapply jsSort_In. exact He. }
  destruct sorted as [|[bestWord bestScore] rest] eqn:Hsort.
  - apply entropyStrategy_not_repeated.
  - destruct (1 <? length _) eqn:Htied.
    + match goal with
      | |- bind (mapM ?f ?tied) _ = _ -> _ =>
          destruct (mapM f tied) as [e|scored] eqn:Hs; simpl; [discriminate|]
      end.
      apply (mapM_scored
               (fun w => scoreWord bot w (Some analysis) (Some remainingWords))
               (fun w frequencyScore =>
                  (entropyOf w remainingWords * (7 / 10)
                   + frequencyScore * (3 / 10))%R)) in Hs.
      intros E. inversion E; subst. left.
      match goal with
      | Hb : bestScored _ = Some w |- _ =>
          apply bestScored_In in Hb; rewrite Hs in Hb;
          apply in_map_iff in Hb; destruct Hb as (e & <- & Hin);
          apply filter_In in Hin; destruct Hin as [Hin _];
          apply Hsorted, Hin
      end.
    + intros E. inversion E; subst. left.
      apply (Hsorted (w, bestScore)). left; reflexivity.
Qed.

Lemma beamFallback_not_repeated now net bot analysis previousGuesses w bot' :
  beamFallback now net bot analysis previousGuesses = inr (Some w, bot') ->
  ~ In w previousGuesses
  \/ (Some w, bot')
     = getBestStartingWord (snd (enumerateCandidates now net bot 300)).
Proof.
  unfold beamFallback.
  destruct (enumerateCandidates now net bot 300) as [beam bot1]. cbn [snd].
  set (validBeam := filter _ beam).
  assert (Hvalid : forall x, In x validBeam -> ~ In x previousGuesses).
  { intros x Hx. apply filter_In in Hx. destruct Hx as [_ Hx].
    apply andb_true_iff in Hx. destruct Hx as [Hx _].
    apply includesWord_false, negb_true_iff, Hx. }
  destruct validBeam as [|v0 vrest] eqn:Hvb.
  - match goal with
    | |- context [match filter ?p beam with _ => _ end] =>
        set (loose := filter p beam)
    end.
    assert (Hloose : forall x, In x loose -> ~ In x previousGuesses).
    { intros x Hx. apply filter_In in Hx. destruct Hx as [_ Hx].
      apply andb_true_iff in Hx. destruct Hx as [Hx _].
      apply includesWord_false, negb_true_iff, Hx. }
    destruct loose as [|l0 lrest] eqn:Hl.
    + intros E. inversion E. right. reflexivity.
    + match goal with
      | |- bind (mapM ?f ?ws) _ = _ -> _ =>
          destruct (mapM f ws) as [e|scored] eqn:Hs; simpl; [discriminate|]
      end.
      apply (mapM_scored
               (fun w => scoreWord bot1 w (Some analysis) (Some (l0 :: lrest)))
               (fun _ score => score)) in Hs.
      intros E. inversion E; subst. left.
      match goal with
      | Hb : bestScored _ = Some w |- _ =>
          apply bestScored_In in Hb; rewrite Hs in Hb; apply Hloose, Hb
      end.
  - match goal with
    | |- bind (mapM ?f ?ws) _ = _ -> _ =>
        destruct (mapM f ws) as [e|scored] eqn:Hs; simpl; [discriminate|]
    end.
    apply (mapM_scored
             (fun w => scoreWord bot1 w (Some analysis) (Some (v0 :: vrest)))
             (fun _ score => score)) in Hs.
    intros E. inversion E; subst. left.
    match goal with
    | Hb : bestScored _ = Some w |- _ =>
        apply bestScored_In in Hb; rewrite Hs in Hb; apply Hvalid, Hb
    end.
Qed.

Lemma selectGuess_not_repeated now net bot analysis previousGuesses
    remainingWords w bot' :
  selectGuess now net bot analysis previousGuesses remainingWords
    = inr (Some w, bot') ->
  ~ In w previousGuesses
  \/ (Some w, bot')
     = getBestStartingWord (snd (enumerateCandidates now net bot 500)).
Proof.
  unfold selectGuess.
  destruct (enumerateCandidates now net bot 500) as [allAvailable bot1].
  cbn [snd].
  destruct (length remainingWords <=? 2).
  - destruct (filter _ remainingWords) as [|x rest] eqn:Hf.
    + apply entropyStrategy_not_repeated.
    + intros E. inversion E; subst. left.
      eapply not_guessed_filter. rewrite Hf. left; reflexivity.
  - destruct (length remainingWords <=? 20).
    + apply minimaxStrategy_not_repeated.
    + apply entropyStrategy_not_repeated.
Qed.

(** Every branch of [generateNextGuess] except the last resort returns a
    word that has not been guessed: a guess that repeats a previous one is
    the result of [getBestStartingWord]. *)
Lemma generateNextGuess_repeats_only_by_fallback now net bot analysis
    previousGuesses candidates w bot' :
  generateNextGuess now net bot analysis previousGuesses candidates
    = inr (Some w, bot') ->
  In w previousGuesses ->
  exists b, (Some w, bot') = getBestStartingWord b.
Proof.
  unfold generateNextGuess. intros Hg Hin.
  destruct (match candidates with
            | Some remainingWords => inr (remainingWords, bot)
            | None => filterWords now net bot analysis None
            end) as [e|[remainingWords bot1]]; simpl in Hg; [discriminate|].
  destruct (length remainingWords =? 0).
  - apply beamFallback_not_repeated in Hg. destruct Hg as [Hn|Hb]; [tauto|eauto].
  - apply selectGuess_not_repeated in Hg. destruct Hg as [Hn|Hb]; [tauto|eauto].
Qed.

(** ** Entropy of the partition by feedback pattern *)

Section Buckets.
Context {K : Type} `{EqDec K}.
Implicit Types (m : list (K * list word)) (k : K) (b : list word).

Lemma JsMap_get_app m m' k :
  JsMap.get (m ++ m') k
  = match JsMap.get m k with
    | Some v => Some v
    | None => JsMap.get m' k
    end.
Proof.
  induction m as [|[k1 v1] m IH]; simpl; [reflexivity|].
  destruct (eq_dec k k1); [reflexivity|exact IH].
Qed.

Lemma JsMap_set_last m k b b' :
  JsMap.get m k = None -> JsMap.set (m ++ [(k, b)]) k b' = m ++ [(k, b')].
Proof.
  induction m as [|[k1 v1] m IH]; simpl.
  - destruct (eq_dec k k); congruence.
  - destruct (eq_dec k k1); [discriminate|]. intros E. now rewrite IH.
Qed.

Lemma JsMap_set_In m k b : In (k, b) (JsMap.set m k b).
Proof.
  induction m as [|[k1 v1] m IH]; simpl; auto.
  destruct (eq_dec k k1); simpl; auto.
Qed.

Lemma bucketSizes_set m k b b' :
  JsMap.get m k = Some b ->
  list_sum (bucketSizes (JsMap.set m k b')) + length b
  = list_sum (bucketSizes m) + length b'.
Proof.
  unfold bucketSizes.
  induction m as [|[k1 v1] m IH]; simpl; [discriminate|].
  destruct (eq_dec k k1); simpl; intros E.
  - inversion E; subst. lia.
  - specialize (IH E). lia.
Qed.

End Buckets.

Lemma addToBucket_spec guess patterns secret :
  addToBucket guess patterns secret
  = match JsMap.get patterns (computePattern guess secret) with
    | Some bucket =>
        JsMap.set patterns (computePattern guess secret) (bucket ++ [secret])
    | None => patterns ++ [(computePattern guess secret, [secret])]
    end.
Proof.
  unfold addToBucket, JsMap.has.
  destruct (JsMap.get patterns (computePattern guess secret)) as [b|] eqn:Hget.
  - rewrite Hget. reflexivity.
  - rewrite JsMapFacts.get_set_eq.
    rewrite (JsMapFacts.set_absent patterns _ [] Hget).
    rewrite JsMap_set_last by exact Hget. reflexivity.
Qed.

Lemma NoDup_snoc {A : Type} (l : list A) (x : A) :
  NoDup (l ++ [x]) <-> NoDup l /\ ~ In x l.
Proof.
  split.
  - intros Hnd.
    assert (Hp : Permutation (l ++ [x]) (x :: l))
      by (symmetry; apply Permutation_cons_append).
    apply (Permutation_NoDup Hp) in Hnd. inversion Hnd; subst. auto.
  - intros [Hnd Hx].
    apply (Permutation_NoDup (Permutation_cons_append l x)).
    constructor; assumption.
Qed.

Lemma partition_inv_step guess pre m s :
  partition_inv guess pre m ->
  partition_inv guess (pre ++ [s]) (addToBucket guess m s).
Proof.
  intros (Hsum & Hpos & Hones & Hkeys).
  rewrite addToBucket_spec. unfold partition_inv.
  set (k := computePattern guess s).
  rewrite map_app. simpl map. fold k.
  destruct (JsMap.get m k) as [b|] eqn:Hget.
  - assert (Hk : In k (map (computePattern guess) pre))
      by (apply Hkeys; congruence).
    assert (Hb : 1 <= length b).
    { apply JsMapFacts.get_In in Hget.
      rewrite Forall_forall in Hpos. apply Hpos.
      unfold bucketSizes. apply in_map_iff. exists (k, b). auto. }
    repeat split.
    + pose proof (bucketSizes_set m k b (b ++ [s]) Hget) as E.
      rewrite !length_app in *. simpl in *. lia.
    + apply Forall_forall. intros x Hx. unfold bucketSizes in Hx.
      apply in_map_iff in Hx. destruct Hx as (kb & <- & Hin).
      apply JsMapFacts.In_set_inv in Hin. destruct Hin as [->|Hin].
      * simpl. rewrite length_app. simpl. lia.
      * rewrite Forall_forall in Hpos. apply Hpos.
        unfold bucketSizes. apply in_map_iff. eauto.
    + intros Hall. exfalso. rewrite Forall_forall in Hall.
      assert (E : length (b ++ [s]) = 1).
      { apply Hall. unfold bucketSizes. apply in_map_iff.
        exists (k, b ++ [s]). split; [reflexivity|apply JsMap_set_In]. }
      rewrite length_app in E. simpl in E. lia.
    + intros Hnd. exfalso. apply NoDup_snoc in Hnd. tauto.
    + intros Hne. apply in_or_app.
      destruct (eq_dec k0 k) as [->|Hneq]; [right; left; reflexivity|].
      left. apply Hkeys. rewrite JsMapFacts.get_set_neq in Hne by exact Hneq.
      exact Hne.
    + intros Hin. destruct (eq_dec k0 k) as [->|Hneq].
      * rewrite JsMapFacts.get_set_eq. discriminate.
      * rewrite JsMapFacts.get_set_neq by exact Hneq. apply Hkeys.
        apply in_app_or in Hin. destruct Hin as [Hin|[E|[]]]; congruence.
  - assert (Hk : ~ In k (map (computePattern guess) pre)).
    { intros Hin. apply Hkeys in Hin. congruence. }
    unfold bucketSizes in *. rewrite map_app. simpl map.
    repeat split.
    + rewrite list_sum_app, length_app. simpl. lia.
    + apply Forall_app. split; [exact Hpos|]. repeat constructor.
    + intros Hall. apply Forall_app in Hall. apply NoDup_snoc. tauto.
    + intros Hnd. apply NoDup_snoc in Hnd. apply Forall_app.
      split; [tauto|]. repeat constructor.
    + intros Hne. rewrite JsMap_get_app in Hne. apply in_or_app.
      destruct (JsMap.get m k0) eqn:Hg0.
      * left. apply Hkeys. congruence.
      * right. simpl in Hne. destruct (eq_dec k0 k); [left; congruence|congruence].
    + intros Hin. rewrite JsMap_get_app.
      apply in_app_or in Hin. destruct Hin as [Hin|[E|[]]].
      * apply Hkeys in Hin. destruct (JsMap.get m k0); congruence.
      * subst k0. rewrite Hget. simpl. destruct (eq_dec k k); congruence.
Qed.

Lemma partitionByPattern_inv guess secrets :
  partition_inv guess secrets (partitionByPattern guess secrets).
Proof.
  unfold partitionByPattern.
  apply (fold_left_prefix_inv (partition_inv guess)).
  - repeat split; simpl; try constructor; try tauto; try congruence.
  - intros pre x acc. apply partition_inv_step.
Qed.

(** *** Logarithms *)

Lemma ln2_pos : (0 < ln 2)%R.
Proof. pose proof ln_lt_2. lra. Qed.

Lemma log2_1 : log2 1 = 0%R.
Proof. unfold log2. rewrite ln_1. unfold Rdiv. apply Rmult_0_l. Qed.

Lemma log2_div x y :
  (0 < x)%R -> (0 < y)%R -> log2 (x / y) = (log2 x - log2 y)%R.
Proof.
  intros Hx Hy. unfold log2. unfold Rdiv at 2.
  rewrite ln_mult by (try apply Rinv_0_lt_compat; assumption).
  rewrite ln_Rinv by assumption.
  pose proof ln2_pos. field. lra.
Qed.

Lemma log2_lt x y : (0 < x)%R -> (x < y)%R -> (log2 x < log2 y)%R.
Proof.
  intros Hx Hxy. unfold log2. pose proof ln2_pos.
  apply Rmult_lt_compat_r; [apply Rinv_0_lt_compat; assumption|].
  apply ln_increasing; assumption.
Qed.

Lemma log2_le x y : (0 < x)%R -> (x <= y)%R -> (log2 x <= log2 y)%R.
Proof.
  intros Hx [Hlt | ->]; [left; apply log2_lt; assumption | right; reflexivity].
Qed.

Lemma INR_ge_1 k : 1 <= k -> (1 <= INR k)%R.
Proof. intros Hk. change 1%R with (INR 1). apply le_INR. exact Hk. Qed.

Lemma xlog2_nonneg k : 1 <= k -> (0 <= xlog2 k)%R.
Proof.
  intros Hk. unfold xlog2. pose proof (INR_ge_1 k Hk).
  apply Rmult_le_pos; [lra|].
  rewrite <- log2_1. apply log2_le; lra.
Qed.

Lemma xlog2_zero k : 1 <= k -> (xlog2 k = 0%R <-> k = 1).
Proof.
  intros Hk. split.
  - intros E. destruct (Nat.eq_dec k 1) as [|Hne]; [assumption|exfalso].
    assert (H2 : (1 < INR k)%R).
    { change 1%R with (INR 1). apply lt_INR. lia. }
    assert (Hpos : (0 < log2 (INR k))%R).
    { rewrite <- log2_1. apply log2_lt; lra. }
    unfold xlog2 in E.
    assert (0 < INR k * log2 (INR k))%R by (apply Rmult_lt_0_compat; lra).
    lra.
  - intros ->. unfold xlog2. simpl. rewrite log2_1. lra.
Qed.

Lemma xlog2_le k n : 1 <= k -> k <= n -> (xlog2 k <= INR k * log2 (INR n))%R.
Proof.
  intros Hk Hkn. unfold xlog2. pose proof (INR_ge_1 k Hk).
  apply Rmult_le_compat_l; [lra|].
  apply log2_le; [lra|]. apply le_INR. exact Hkn.
Qed.

Lemma sum_xlog2_nonneg ks :
  Forall (fun k => 1 <= k) ks -> (0 <= sumR (map xlog2 ks))%R.
Proof.
  induction 1 as [|k ks Hk _ IH]; simpl; [lra|].
  pose proof (xlog2_nonneg k Hk). lra.
Qed.

Lemma sum_xlog2_zero ks :
  Forall (fun k => 1 <= k) ks ->
  (sumR (map xlog2 ks) = 0%R <-> Forall (fun k => k = 1) ks).
Proof.
  induction 1 as [|k ks Hk Hks IH]; simpl.
  - split; [constructor|reflexivity].
  - pose proof (xlog2_nonneg k Hk). pose proof (sum_xlog2_nonneg ks Hks).
    split.
    + intros E. constructor.
      * apply xlog2_zero; [exact Hk|lra].
      * apply IH. lra.
    + intros Hall. inversion Hall; subst.
      rewrite (proj2 (xlog2_zero 1 (le_n 1)) eq_refl).
      rewrite (proj2 IH) by assumption. lra.
Qed.

Lemma sum_xlog2_le n ks :
  Forall (fun k => 1 <= k) ks ->
  (forall k, In k ks -> k <= n) ->
  (sumR (map xlog2 ks) <= INR (list_sum ks) * log2 (INR n))%R.
Proof.
  induction 1 as [|k ks Hk Hks IH]; intros Hle; simpl.
  - lra.
  - rewrite plus_INR.
    pose proof (xlog2_le k n Hk (Hle k (or_introl eq_refl))).
    assert (IH' := IH (fun x Hx => Hle x (or_intror Hx))).
    lra.
Qed.

Lemma In_le_list_sum ks k : In k ks -> k <= list_sum ks.
Proof.
  induction ks as [|x ks IH]; simpl; [tauto|].
  intros [->|Hin]; [lia|]. specialize (IH Hin). lia.
Qed.

(** The entropy loop, in closed form. *)
Lemma entropy_fold n ks : 1 <= n -> Forall (fun k => 1 <= k) ks ->
  forall a,
    fold_left
      (fun entropy k =>
         (entropy - INR k / INR n * log2 (INR k / INR n))%R) ks a
    = (a + INR (list_sum ks) / INR n * log2 (INR n)
         - sumR (map xlog2 ks) / INR n)%R.
Proof.
  intros Hn Hks. pose proof (INR_ge_1 n Hn) as HnR.
  induction Hks as [|k ks Hk Hks IH]; intros a; simpl.
  - unfold Rdiv. lra.
  - rewrite IH. rewrite plus_INR. pose proof (INR_ge_1 k Hk) as HkR.
    rewrite log2_div by lra. unfold xlog2. field. lra.
Qed.

Lemma fold_left_map {A B C : Type} (f : A -> C -> A) (g : B -> C) (l : list B) :
  forall a, fold_left (fun acc x => f acc (g x)) l a = fold_left f (map g l) a.
Proof. induction l as [|x l IH]; intros a; simpl; auto. Qed.

Lemma entropyOf_closed_form guess secrets :
  secrets <> [] ->
  entropyOf guess secrets
  = (log2 (INR (length secrets))
     - sumR (map xlog2 (bucketSizes (partitionByPattern guess secrets)))
       / INR (length secrets))%R.
Proof.
  intros Hne.
  assert (Hn : 1 <= length secrets) by (destruct secrets; simpl; [congruence|lia]).
  destruct (partitionByPattern_inv guess secrets) as (Hsum & Hpos & _ & _).
  unfold entropyOf.
  rewrite (fold_left_map
             (fun entropy k =>
                (entropy - INR k / INR (length secrets)
                           * log2 (INR k / INR (length secrets)))%R)
             (fun pb => length (snd pb))).
  fold (bucketSizes (partitionByPattern guess secrets)).
  rewrite (entropy_fold (length secrets) _ Hn Hpos). rewrite Hsum.
  pose proof (INR_ge_1 _ Hn). field. lra.
Qed.

(** The entropy formula in exact arithmetic.  With real numbers in place of
    the doubles of the program and the exact logarithm in place of
    [Math.log2], the entropy of the partition of a non-empty pool of [n]
    secrets lies between 0 and [log2 n] and equals [log2 n] exactly when the
    secrets give pairwise distinct patterns for the guess.  The doubles that
    the program computes are roundings of this value and need not obey the
    same bounds to the last bit. *)
Lemma entropyOf_exact_bounds (guess : word) (secrets : list word) :
  secrets <> [] ->
  (0 <= entropyOf guess secrets <= log2 (INR (length secrets)))%R /\
  (entropyOf guess secrets = log2 (INR (length secrets))
   <-> NoDup (map (computePattern guess) secrets)).
Proof.
  intros Hne.
  assert (Hn : 1 <= length secrets) by (destruct secrets; simpl; [congruence|lia]).
  pose proof (INR_ge_1 _ Hn) as HnR.
  destruct (partitionByPattern_inv guess secrets) as (Hsum & Hpos & Hones & _).
  rewrite (entropyOf_closed_form guess secrets Hne).
  set (ks := bucketSizes (partitionByPattern guess secrets)) in *.
  set (n := length secrets) in *.
  pose proof (sum_xlog2_nonneg ks Hpos) as HD0.
  assert (HDn : (sumR (map xlog2 ks) <= INR n * log2 (INR n))%R).
  { rewrite <- Hsum at 1. apply sum_xlog2_le; [exact Hpos|].
    intros k Hk. rewrite <- Hsum. apply In_le_list_sum, Hk. }
  assert (Hquot : (0 <= sumR (map xlog2 ks) / INR n <= log2 (INR n))%R).
  { split.
    - apply Rmult_le_pos; [exact HD0|]. left. apply Rinv_0_lt_compat. lra.
    - apply (Rmult_le_reg_l (INR n)); [lra|].
      replace (INR n * (sumR (map xlog2 ks) / INR n))%R
        with (sumR (map xlog2 ks)) by (field; lra).
      exact HDn. }
  split; [lra|].
  rewrite <- Hones. rewrite <- (sum_xlog2_zero ks Hpos).
  split.
  - intros E.
    assert (Hz : (sumR (map xlog2 ks) / INR n = 0)%R) by lra.
    apply (Rmult_eq_reg_r (/ INR n)); [|apply Rinv_neq_0_compat; lra].
    unfold Rdiv in Hz. rewrite Hz. lra.
  - intros ->. unfold Rdiv. lra.
Qed.

Example entropyOf_exact_two_secrets :
  (0 <= entropyOf (str "STARE") [str "CRANE"; str "SLATE"]
     <= log2 (INR (length [str "CRANE"; str "SLATE"])))%R /\
  (entropyOf (str "STARE") [str "CRANE"; str "SLATE"]
     = log2 (INR (length [str "CRANE"; str "SLATE"]))
   <-> NoDup (map (computePattern (str "STARE")) [str "CRANE"; str "SLATE"])).
Proof.
  apply (entropyOf_exact_bounds (str "STARE") [str "CRANE"; str "SLATE"]).
  discriminate.
Qed.

(** * Further properties of the program *)

(** ** The simulator: which tiles are green, and how many are coloured *)

Lemma pass1_green guess secret :
  let st := for_loop (length guess) (markCorrect guess secret)
              (repeat Grey (length guess), countSecretLetters secret) in
  forall j, nth j (fst st) Grey = Green <->
            (j < length guess /\ nth_error guess j = nth_error secret j).
Proof.
  intros st.
  assert (H : length (fst st) = length guess /\
              (forall j, length guess <= j -> nth j (fst st) Grey = Grey) /\
              forall j, j < length guess ->
                (nth j (fst st) Grey = Green <->
                 nth_error guess j = nth_error secret j)).
  { unfold st.
    apply (for_loop_inv (fun i st =>
             length (fst st) = length guess /\
             (forall j, i <= j -> nth j (fst st) Grey = Grey) /\
             forall j, j < i ->
               (nth j (fst st) Grey = Green <->
                nth_error guess j = nth_error secret j))).
    - cbn [fst]. split; [apply repeat_length|]. split.
      + intros j _. apply nth_repeat.
      + intros j Hj. lia.
    - intros i [res m] Hi (Hlen & Hgrey & Hgreen). cbn [fst] in *.
      unfold markCorrect.
      destruct (nth_error guess i) as [g|] eqn:Hg.
      2:{ apply nth_error_None in Hg. lia. }
      destruct (eqb (Some g) (nth_error secret i)) eqn:Hhit; cbn [fst].
      + apply eqb_true in Hhit.
        split; [now rewrite array_set_length|]. split.
        * intros j Hj. rewrite nth_array_set_neq by lia. apply Hgrey. lia.
        * intros j Hj. destruct (Nat.eq_dec i j) as [<-|Hne].
          -- rewrite nth_array_set_eq by lia. rewrite Hg. tauto.
          -- rewrite nth_array_set_neq by exact Hne. apply Hgreen. lia.
      + apply eqb_false in Hhit.
        split; [exact Hlen|]. split.
        * intros j Hj. apply Hgrey. lia.
        * intros j Hj. destruct (Nat.eq_dec i j) as [<-|Hne].
          -- rewrite Hgrey by lia. rewrite Hg. split; [discriminate|tauto].
          -- apply Hgreen. lia. }
  destruct H as (Hlen & Hgrey & Hgreen).
  intros j. destruct (Nat.lt_ge_cases j (length guess)) as [Hj|Hj].
  - rewrite (Hgreen j Hj). tauto.
  - rewrite (Hgrey j Hj). split; [discriminate | intros [Hlt _]; lia].
Qed.

Lemma pass2_exact_step guess secret i st :
  i < length guess ->
  pass2_exact guess secret i st ->
  pass2_exact guess secret (S i) (markPresent guess i st).
Proof.
  intros Hi (Hinv & Hgreen & Hleft).
  split; [apply pass2_step; assumption|].
  destruct Hinv as [Hlen _].
  destruct st as [res m]; cbn [fst snd] in *.
  unfold markPresent.
  destruct (nth_error guess i) as [g|] eqn:Hg.
  2:{ apply nth_error_None in Hg. lia. }
  fold (cnt m g).
  destruct (eqb (nth i res Grey) Grey) eqn:Hgi; cbn [andb].
  - apply eqb_true in Hgi.
    destruct (0 <? cnt m g) eqn:Hpos; cbn [fst snd].
    + apply Nat.ltb_lt in Hpos. split.
      * intros j. destruct (Nat.eq_dec i j) as [<-|Hne].
        -- rewrite nth_array_set_eq by lia. rewrite <- Hgreen, Hgi.
           split; discriminate.
        -- rewrite nth_array_set_neq by exact Hne. apply Hgreen.
      * intros c. destruct (ascii_dec c g) as [->|Hne].
        -- right. intros j Hj Hgj. destruct (Nat.eq_dec i j) as [<-|Hne].
           ++ rewrite nth_array_set_eq by lia. discriminate.
           ++ rewrite nth_array_set_neq by exact Hne.
              destruct (Hleft g) as [H0|Hall]; [lia|]. apply Hall; [lia|exact Hgj].
        -- rewrite cnt_set_neq by exact Hne.
           destruct (Hleft c) as [H0|Hall]; [left; exact H0|right].
           intros j Hj Hgj. destruct (Nat.eq_dec i j) as [<-|Hnej].
           ++ congruence.
           ++ rewrite nth_array_set_neq by exact Hnej. apply Hall; [lia|exact Hgj].
    + apply Nat.ltb_ge in Hpos. split; [exact Hgreen|].
      intros c. destruct (ascii_dec c g) as [->|Hne]; [left; lia|].
      destruct (Hleft c) as [H0|Hall]; [left; exact H0|right].
      intros j Hj Hgj. destruct (Nat.eq_dec i j) as [<-|Hnej]; [congruence|].
      apply Hall; [lia|exact Hgj].
  - apply eqb_false in Hgi. cbn [fst snd]. split; [exact Hgreen|].
    intros c. destruct (Hleft c) as [H0|Hall]; [left; exact H0|right].
    intros j Hj Hgj. destruct (Nat.eq_dec i j) as [<-|Hnej]; [exact Hgi|].
    apply Hall; [lia|exact Hgj].
Qed.

Lemma pass2_exact_holds guess secret :
  pass2_exact guess secret (length guess)
    (for_loop (length guess) (markPresent guess)
       (for_loop (length guess) (markCorrect guess secret)
          (repeat Grey (length guess), countSecretLetters secret))).
Proof.
  apply (for_loop_inv (pass2_exact guess secret)).
  - split; [|split].
    + destruct (pass1_holds guess secret) as (Hlen & _ & Hy & Hcnt & _).
      split; [exact Hlen|]. intros c. rewrite Hy, Hcnt. lia.
    + apply pass1_green.
    + intros c. right. intros j Hj. lia.
  - intros i st. apply pass2_exact_step.
Qed.

Lemma computePattern_length guess secret :
  length (computePattern guess secret) = length guess.
Proof.
  unfold computePattern. destruct (pass2_holds guess secret) as [Hlen _].
  exact Hlen.
Qed.

Lemma computePattern_green guess secret i :
  nth_error (computePattern guess secret) i = Some Green <->
  (i < length guess /\ nth_error guess i = nth_error secret i).
Proof.
  destruct (pass2_exact_holds guess secret) as (_ & Hgreen & _).
  fold (computePattern guess secret) in Hgreen.
  pose proof (computePattern_length guess secret) as Hlen.
  rewrite <- Hgreen. split.
  - intros H. apply nth_error_nth. exact H.
  - intros H.
    assert (Hi : i < length (computePattern guess secret)).
    { destruct (Nat.lt_ge_cases i (length (computePattern guess secret)))
        as [Hlt|Hge]; [exact Hlt|].
      rewrite nth_overflow in H by exact Hge. discriminate. }
    rewrite (nth_error_nth' _ Grey Hi). now f_equal.
Qed.

Lemma countMark_total c (guess : word) : forall p : list Mark,
  length p = length guess ->
  countMark Grey c guess p + countMark Green c guess p
  + countMark Yellow c guess p = count_occ ascii_dec guess c.
Proof.
  unfold countMark.
  induction guess as [|g gs IH]; intros [|mk p] Hlen; try discriminate;
    [reflexivity|].
  injection Hlen as Hlen. specialize (IH p Hlen).
  cbn [combine filter fst snd count_occ].
  destruct (ascii_dec g c) as [->|Hne].
  - rewrite eqb_refl. cbn [andb].
    destruct mk; cbn [eqb]; simpl; lia.
  - replace (eqb g c) with false by (symmetry; apply eqb_false; exact Hne).
    cbn [andb]. lia.
Qed.

Lemma countMark_no_grey c (guess : word) : forall p : list Mark,
  (forall j, nth_error guess j = Some c -> nth j p Grey <> Grey) ->
  countMark Grey c guess p = 0.
Proof.
  unfold countMark.
  induction guess as [|g gs IH]; intros [|mk p] Hno; try reflexivity.
  cbn [combine filter fst snd].
  destruct (eqb g c && eqb mk Grey) eqn:E.
  - apply andb_true_iff in E. destruct E as [E1 E2].
    apply eqb_true in E1, E2. subst.
    exfalso. apply (Hno 0); reflexivity.
  - apply IH. intros j Hj. apply (Hno (S j)). exact Hj.
Qed.

(** X1. The pattern of [computePattern] has one tile per letter of the
    guess, and the tile at a position is green exactly when the guess and the
    secret have the same letter there. *)
Theorem computePattern_green_positions (guess secret : word) :
  length (computePattern guess secret) = length guess /\
  forall i, nth_error (computePattern guess secret) i = Some Green <->
            (i < length guess /\ nth_error guess i = nth_error secret i).
Proof.
  split; [apply computePattern_length | intros i; apply computePattern_green].
Qed.

Lemma computePattern_coloured guess secret c :
  countMark Green c guess (computePattern guess secret)
  + countMark Yellow c guess (computePattern guess secret)
  = Nat.min (count_occ ascii_dec guess c) (count_occ ascii_dec secret c).
Proof.
  destruct (pass2_exact_holds guess secret) as ((Hlen & Hcnt) & _ & Hleft).
  fold (computePattern guess secret) in *.
  pose proof (countMark_total c guess _ Hlen) as Htot.
  specialize (Hcnt c).
  destruct (Hleft c) as [H0|Hall].
  - lia.
  - assert (Hg : countMark Grey c guess (computePattern guess secret) = 0).
    { apply countMark_no_grey. intros j Hj. apply Hall; [|exact Hj].
      apply nth_error_Some. congruence. }
    lia.
Qed.

(** X2. For every letter, the tiles of that letter that [computePattern]
    colours (green or yellow) are as many as the smaller of its number of
    occurrences in the guess and in the secret: surplus occurrences in the
    guess stay grey, and no occurrence of the secret is left unused while a
    tile of the letter is grey. *)
Theorem computePattern_coloured_count (guess secret : word) (c : ascii) :
  countMark Green c guess (computePattern guess secret)
  + countMark Yellow c guess (computePattern guess secret)
  = Nat.min (count_occ ascii_dec guess c) (count_occ ascii_dec secret c).
Proof. apply computePattern_coloured. Qed.

(** ** The win condition *)

Lemma checkWin_all_green (p : list Mark) :
  checkWin (map resultOfMark p) = true <->
  forall i, i < length p -> nth_error p i = Some Green.
Proof.
  unfold checkWin. induction p as [|mk p IH]; cbn [map forallb length].
  - split; [intros _ i Hi; lia | reflexivity].
  - rewrite andb_true_iff, IH. split.
    + intros [Hmk Hall] [|i] Hi.
      * destruct mk; try discriminate Hmk. reflexivity.
      * apply Hall. lia.
    + intros Hall. split.
      * specialize (Hall 0 ltac:(lia)). injection Hall as ->. reflexivity.
      * intros i Hi. apply (Hall (S i)). lia.
Qed.

Lemma nth_error_firstn_eq {A : Type} (l : list A) : forall s : list A,
  (forall i, i < length l -> nth_error l i = nth_error s i) <->
  firstn (length l) s = l.
Proof.
  induction l as [|x l IH]; intros s; cbn [length firstn].
  - split; [reflexivity | intros _ i Hi; lia].
  - destruct s as [|y s].
    + split.
      * intros H. specialize (H 0 ltac:(lia)). discriminate H.
      * discriminate.
    + cbn [firstn]. split.
      * intros H. f_equal.
        -- specialize (H 0 ltac:(lia)). injection H as ->. reflexivity.
        -- apply IH. intros i Hi. apply (H (S i)). lia.
      * intros E. injection E as -> E. intros [|i] Hi; [reflexivity|].
        cbn [nth_error]. apply IH; [exact E | lia].
Qed.

Lemma checkWin_feedbackFor guess secret :
  checkWin (feedbackFor guess secret) = true <->
  firstn (length guess) secret = guess.
Proof.
  unfold feedbackFor. rewrite checkWin_all_green, <- nth_error_firstn_eq.
  rewrite computePattern_length. split.
  - intros H i Hi. apply (computePattern_green guess secret i), H, Hi.
  - intros H i Hi. apply computePattern_green. split; [exact Hi | apply H, Hi].
Qed.

(** X3. The feedback that the simulator gives for a guess passes [checkWin]
    exactly when the guess is the beginning of the secret; together with
    equal lengths this means that the guess is the secret. *)
Theorem checkWin_iff_guessed (guess secret : word) :
  (checkWin (feedbackFor guess secret) = true <->
   firstn (length guess) secret = guess) /\
  (checkWin (feedbackFor guess secret) && (length guess =? length secret) = true
   <-> guess = secret).
Proof.
  split; [apply checkWin_feedbackFor|].
  rewrite andb_true_iff, checkWin_feedbackFor, Nat.eqb_eq. split.
  - intros [Hpre Hlen]. rewrite Hlen, firstn_all in Hpre. now symmetry.
  - intros ->. split; [apply firstn_all | reflexivity].
Qed.

(** ** The partition of a pool by pattern and its largest bucket *)

Lemma JsMap_keys_set_present {K V : Type} `{EqDec K} (m : list (K * V)) k v v' :
  JsMap.get m k = Some v -> JsMap.keys (JsMap.set m k v') = JsMap.keys m.
Proof.
  unfold JsMap.keys.
  induction m as [|[k1 v1] m IH]; simpl; [discriminate|].
  destruct (eq_dec k k1) as [->|Hne]; simpl; [reflexivity|].
  intros E. now rewrite IH.
Qed.

Lemma JsMap_get_None_keys {K V : Type} `{EqDec K} (m : list (K * V)) k :
  JsMap.get m k = None <-> ~ In k (JsMap.keys m).
Proof.
  unfold JsMap.keys.
  induction m as [|[k1 v1] m IH]; simpl; [tauto|].
  destruct (eq_dec k k1) as [->|Hne].
  - split; [discriminate | intros Hn; exfalso; apply Hn; auto].
  - rewrite IH. split; [intros Hn [E|Hin]; congruence | tauto].
Qed.

Lemma samePattern_snoc guess pattern pre s :
  samePattern guess pattern (pre ++ [s])
  = samePattern guess pattern pre
    ++ (if eqb (computePattern guess s) pattern then [s] else []).
Proof.
  unfold samePattern. rewrite filter_app. reflexivity.
Qed.

Lemma partition_exact_step guess pre m s :
  partition_exact guess pre m ->
  partition_exact guess (pre ++ [s]) (addToBucket guess m s).
Proof.
  intros [Hnd Hget]. rewrite addToBucket_spec.
  set (k := computePattern guess s).
  destruct (JsMap.get m k) as [b|] eqn:Hk.
  - split.
    + now rewrite (JsMap_keys_set_present m k b _ Hk).
    + intros pattern. rewrite samePattern_snoc. fold k.
      destruct (eq_dec pattern k) as [->|Hne].
      * rewrite JsMapFacts.get_set_eq, eqb_refl.
        specialize (Hget k). rewrite Hk in Hget.
        destruct (samePattern guess k pre) as [|x l]; [discriminate|].
        injection Hget as ->. reflexivity.
      * rewrite JsMapFacts.get_set_neq by exact Hne.
        replace (eqb k pattern) with false
          by (symmetry; apply eqb_false; congruence).
        rewrite app_nil_r. apply Hget.
  - split.
    + unfold JsMap.keys in *. rewrite map_app. cbn [map fst].
      apply NoDup_snoc. split; [exact Hnd|].
      apply (JsMap_get_None_keys m k), Hk.
    + intros pattern. rewrite samePattern_snoc. fold k.
      rewrite JsMap_get_app, Hget.
      destruct (eq_dec pattern k) as [->|Hne].
      * rewrite eqb_refl. specialize (Hget k). rewrite Hk in Hget.
        destruct (samePattern guess k pre) as [|x l]; [|discriminate].
        cbn [JsMap.get app]. destruct (eq_dec k k); [reflexivity|congruence].
      * replace (eqb k pattern) with false
          by (symmetry; apply eqb_false; congruence).
        rewrite app_nil_r.
        destruct (samePattern guess pattern pre) as [|x l]; [|reflexivity].
        cbn [JsMap.get]. destruct (eq_dec pattern k); [congruence|reflexivity].
Qed.

Lemma partitionByPattern_exact guess secrets :
  partition_exact guess secrets (partitionByPattern guess secrets).
Proof.
  unfold partitionByPattern.
  apply (fold_left_prefix_inv (partition_exact guess)).
  - split; [constructor | intros pattern; reflexivity].
  - intros pre x acc. apply partition_exact_step.
Qed.

(** X4. [partitionByPattern] splits the pool by pattern: the map has one
    entry per pattern that occurs, and the bucket stored under a pattern is
    the list of the secrets of the pool that give this pattern for the guess,
    in the order of the pool; a pattern that no secret gives has no entry, so
    no bucket is empty. *)
Theorem partitionByPattern_buckets (guess : word) (secrets : list word) :
  NoDup (JsMap.keys (partitionByPattern guess secrets)) /\
  forall pattern,
    JsMap.get (partitionByPattern guess secrets) pattern
    = match samePattern guess pattern secrets with
      | [] => None
      | bucket => Some bucket
      end.
Proof. apply partitionByPattern_exact. Qed.

Lemma fold_max_list_max {A : Type} (f : A -> nat) (l : list A) : forall a,
  fold_left (fun acc x => Nat.max acc (f x)) l a
  = Nat.max a (list_max (map f l)).
Proof.
  induction l as [|x l IH]; intros a; cbn [fold_left map list_max fold_right].
  - lia.
  - rewrite IH. change (fold_right Nat.max 0 (map f l)) with (list_max (map f l)).
    lia.
Qed.

Lemma list_max_ge (l : list nat) x : In x l -> x <= list_max l.
Proof.
  intros Hin. pose proof (proj1 (list_max_le l (list_max l)) (le_n _)) as Hall.
  rewrite Forall_forall in Hall. apply Hall, Hin.
Qed.

Lemma samePattern_length_le guess pattern secrets :
  length (samePattern guess pattern secrets) <= length secrets.
Proof. apply filter_length_le. Qed.

Lemma JsMap_In_get {K V : Type} `{EqDec K} (m : list (K * V)) k v :
  NoDup (JsMap.keys m) -> In (k, v) m -> JsMap.get m k = Some v.
Proof.
  unfold JsMap.keys.
  induction m as [|[k1 v1] m IH]; simpl; [tauto|].
  intros Hnd [E|Hin].
  - injection E as -> ->. destruct (eq_dec k k); congruence.
  - inversion Hnd as [|? ? Hk1 Hnd']; subst.
    destruct (eq_dec k k1) as [->|Hne]; [|apply IH; assumption].
    exfalso. apply Hk1. apply in_map_iff. exists (k1, v). auto.
Qed.

Lemma worstCaseBucket_closed_form guess secrets :
  worstCaseBucket guess secrets
  = list_max
      (map (fun s => length (samePattern guess (computePattern guess s) secrets))
           secrets).
Proof.
  unfold worstCaseBucket.
  destruct (partitionByPattern_exact guess secrets) as [Hnd Hget].
  rewrite (fold_max_list_max (fun pb => length (snd pb))). cbn [Nat.max].
  apply Nat.le_antisymm.
  - apply list_max_le, Forall_forall. intros x Hx.
    apply in_map_iff in Hx. destruct Hx as ([k b] & <- & Hin). cbn [snd].
    apply (JsMap_In_get _ _ _ Hnd) in Hin. rewrite Hget in Hin.
    destruct (samePattern guess k secrets) as [|s l] eqn:Hb; [discriminate|].
    injection Hin as <-.
    assert (Hs : In s (samePattern guess k secrets))
      by (rewrite Hb; left; reflexivity).
    unfold samePattern in Hs. apply filter_In in Hs. destruct Hs as [Hs Hk].
    apply eqb_true in Hk. apply list_max_ge. apply in_map_iff.
    exists s. split; [|exact Hs]. rewrite Hk, Hb. reflexivity.
  - apply list_max_le, Forall_forall. intros x Hx.
    apply in_map_iff in Hx. destruct Hx as (s & <- & Hs).
    set (k := computePattern guess s).
    assert (Hin : In s (samePattern guess k secrets)).
    { unfold samePattern. apply filter_In. split; [exact Hs|apply eqb_refl]. }
    specialize (Hget k).
    destruct (samePattern guess k secrets) as [|s0 l] eqn:Hb; [destruct Hin|].
    apply JsMapFacts.get_In in Hget. apply list_max_ge. apply in_map_iff.
    exists (k, s0 :: l). split; [reflexivity|exact Hget].
Qed.

(** X5. [worstCaseBucket] is the largest number of secrets of the pool that
    share one pattern for the guess: the maximum, over the secrets, of the
    number of secrets with the same pattern.  It is 0 for an empty pool, at
    least 1 otherwise, and never more than the size of the pool. *)
Theorem worstCaseBucket_largest_class (guess : word) (secrets : list word) :
  worstCaseBucket guess secrets
  = list_max
      (map (fun s => length (samePattern guess (computePattern guess s) secrets))
           secrets)
  /\ worstCaseBucket guess secrets <= length secrets
  /\ (worstCaseBucket guess secrets = 0 <-> secrets = []).
Proof.
  pose proof (worstCaseBucket_closed_form guess secrets) as E.
  split; [exact E|]. split.
  - rewrite E. apply list_max_le, Forall_forall. intros x Hx.
    apply in_map_iff in Hx. destruct Hx as (s & <- & _).
    apply samePattern_length_le.
  - split.
    + intros H0. destruct secrets as [|s l]; [reflexivity|]. exfalso.
      assert (Hin : In s (samePattern guess (computePattern guess s) (s :: l))).
      { unfold samePattern. apply filter_In.
        split; [left; reflexivity|apply eqb_refl]. }
      assert (Hle : length (samePattern guess (computePattern guess s) (s :: l))
                    <= worstCaseBucket guess (s :: l)).
      { rewrite E. apply list_max_ge. apply in_map_iff.
        exists s. split; [reflexivity|left; reflexivity]. }
      destruct (samePattern guess (computePattern guess s) (s :: l));
        [destruct Hin | cbn [length] in Hle; lia].
    + intros ->. reflexivity.
Qed.

(** ** The cache: round trip, recency and expiry *)

Section LRUFacts.
Context {K V : Type} `{EqDec K}.
Implicit Types (m : list (K * @LRUCache.Item V)) (c : @LRUCache.t K V)
  (key : K) (v : V).

Lemma JsMap_get_delete_neq m key key' :
  key <> key' -> JsMap.get (JsMap.delete m key') key = JsMap.get m key.
Proof.
  intros Hne. induction m as [|[k1 v1] m IH]; simpl; [reflexivity|].
  destruct (eq_dec key' k1) as [->|Hne1].
  - destruct (eq_dec key k1); [contradiction|exact IH].
  - simpl. destruct (eq_dec key k1); [reflexivity|exact IH].
Qed.

Lemma JsMap_keys_delete m key :
  JsMap.keys (JsMap.delete m key) = remove eq_dec key (JsMap.keys m).
Proof.
  unfold JsMap.keys. induction m as [|[k1 v1] m IH]; simpl; [reflexivity|].
  destruct (eq_dec key k1); simpl; [exact IH | now rewrite IH].
Qed.

Lemma JsMap_keys_filter_incl (p : K * @LRUCache.Item V -> bool) m key :
  In key (JsMap.keys (filter p m)) -> In key (JsMap.keys m).
Proof.
  unfold JsMap.keys. intros Hin. apply in_map_iff in Hin.
  destruct Hin as (e & <- & He). apply filter_In in He.
  apply in_map. tauto.
Qed.

Lemma JsMap_get_filter (p : K * @LRUCache.Item V -> bool) m key :
  NoDup (JsMap.keys m) ->
  JsMap.get (filter p m) key
  = match JsMap.get m key with
    | Some item => if p (key, item) then Some item else None
    | None => None
    end.
Proof.
  induction m as [|[k1 v1] m IH]; intros Hnd; [reflexivity|].
  cbn [JsMap.keys map fst] in Hnd. inversion Hnd as [|? ? Hk1 Hnd']; subst.
  cbn [filter JsMap.get].
  destruct (eq_dec key k1) as [->|Hne].
  - destruct (p (k1, v1)) eqn:Hp.
    + cbn [JsMap.get]. destruct (eq_dec k1 k1); congruence.
    + apply JsMap_get_None_keys. intros Hin.
      apply Hk1. apply (JsMap_keys_filter_incl p). exact Hin.
  - destruct (p (k1, v1)).
    + cbn [JsMap.get]. destruct (eq_dec key k1); [contradiction|].
      apply IH, Hnd'.
    + apply IH, Hnd'.
Qed.

Lemma NoDup_filter_keys (p : K * @LRUCache.Item V -> bool) m :
  NoDup (JsMap.keys m) -> NoDup (JsMap.keys (filter p m)).
Proof.
  induction m as [|[k1 v1] m IH]; intros Hnd; [constructor|].
  cbn [JsMap.keys map fst] in Hnd. inversion Hnd as [|? ? Hk1 Hnd']; subst.
  cbn [filter]. destruct (p (k1, v1)); [|apply IH, Hnd'].
  cbn [JsMap.keys map fst]. constructor; [|apply IH, Hnd'].
  intros Hin. apply Hk1. apply (JsMap_keys_filter_incl p). exact Hin.
Qed.

Lemma NoDup_remove (l : list K) key : NoDup l -> NoDup (remove eq_dec key l).
Proof.
  induction l as [|x l IH]; intros Hnd; [constructor|].
  inversion Hnd; subst. simpl. destruct (eq_dec key x); [auto|].
  constructor; [|auto]. intros Hin. apply in_remove in Hin. tauto.
Qed.

Lemma NoDup_keys_delete m key :
  NoDup (JsMap.keys m) -> NoDup (JsMap.keys (JsMap.delete m key)).
Proof. rewrite JsMap_keys_delete. apply NoDup_remove. Qed.

Lemma NoDup_keys_set m key (item : @LRUCache.Item V) :
  NoDup (JsMap.keys m) -> NoDup (JsMap.keys (JsMap.set m key item)).
Proof.
  intros Hnd. destruct (JsMap.get m key) as [old|] eqn:Hget.
  - now rewrite (JsMap_keys_set_present m key old item Hget).
  - rewrite (JsMapFacts.set_absent m key item Hget).
    unfold JsMap.keys in *. rewrite map_app. cbn [map fst].
    apply NoDup_snoc. split; [exact Hnd|].
    apply (JsMap_get_None_keys m key), Hget.
Qed.

(** The operations of the class keep the keys distinct. *)
Lemma distinctKeys_create maxSize ttl :
  distinctKeys (@LRUCache.create K V maxSize ttl).
Proof. constructor. Qed.

Lemma distinctKeys_set now c key v :
  distinctKeys c -> distinctKeys (LRUCache.set now c key v).
Proof.
  unfold distinctKeys, LRUCache.set. cbn [LRUCache.cache LRUCache.withCache].
  intros Hnd. apply NoDup_keys_set.
  destruct (JsMap.has (LRUCache.cache c) key); [apply NoDup_keys_delete, Hnd|].
  destruct (LRUCache.maxSize c <=? JsMap.size (LRUCache.cache c)); [|exact Hnd].
  destruct (JsMap.keys (LRUCache.cache c)) eqn:E;
    [rewrite E; exact Hnd | apply NoDup_keys_delete; rewrite E; exact Hnd].
Qed.

Lemma distinctKeys_get now c key :
  distinctKeys c -> distinctKeys (snd (LRUCache.get now c key)).
Proof.
  unfold distinctKeys, LRUCache.get. intros Hnd.
  destruct (JsMap.get (LRUCache.cache c) key) as [item|]; [|exact Hnd].
  destruct (LRUCache.expiry item <? now)%Z;
    cbn [snd LRUCache.cache LRUCache.withCache].
  - apply NoDup_keys_delete, Hnd.
  - apply NoDup_keys_set, NoDup_keys_delete, Hnd.
Qed.

Lemma distinctKeys_cleanExpired now c :
  distinctKeys c -> distinctKeys (LRUCache.cleanExpired now c).
Proof.
  unfold distinctKeys, LRUCache.cleanExpired.
  cbn [LRUCache.cache LRUCache.withCache]. apply NoDup_filter_keys.
Qed.

Lemma LRUCache_set_get_key now c key v :
  JsMap.get (LRUCache.cache (LRUCache.set now c key v)) key
  = Some {| LRUCache.value := v; LRUCache.expiry := (now + LRUCache.ttl c)%Z |}.
Proof.
  unfold LRUCache.set. cbn [LRUCache.cache LRUCache.withCache].
  apply JsMapFacts.get_set_eq.
Qed.

(** X6. Reading a key after [set] gives back the value that was stored as
    long as the time of the read is not past the time of the [set] plus the
    time to live, and [undefined] afterwards; this holds whatever the cache
    held before and whatever its capacity. *)
Theorem LRUCache_get_after_set (now later : Z) c key v :
  fst (LRUCache.get later (LRUCache.set now c key v) key)
  = if (now + LRUCache.ttl c <? later)%Z then None else Some v.
Proof.
  unfold LRUCache.get. rewrite LRUCache_set_get_key.
  cbn [LRUCache.expiry LRUCache.value].
  destruct (now + LRUCache.ttl c <? later)%Z; reflexivity.
Qed.

Lemma LRUCache_get_hit now c key v :
  fst (LRUCache.get now c key) = Some v ->
  exists item,
    JsMap.get (LRUCache.cache c) key = Some item /\
    LRUCache.value item = v /\
    (LRUCache.expiry item <? now)%Z = false /\
    LRUCache.cache (snd (LRUCache.get now c key))
    = JsMap.delete (LRUCache.cache c) key ++ [(key, item)] /\
    LRUCache.maxSize (snd (LRUCache.get now c key)) = LRUCache.maxSize c.
Proof.
  unfold LRUCache.get.
  destruct (JsMap.get (LRUCache.cache c) key) as [item|] eqn:Hget;
    [|discriminate].
  destruct (LRUCache.expiry item <? now)%Z eqn:Hexp; [discriminate|].
  cbn [fst snd LRUCache.cache LRUCache.withCache LRUCache.maxSize].
  intros E. injection E as <-. exists item. repeat split; try assumption.
  apply JsMapFacts.set_absent, JsMapFacts.get_None_delete.
Qed.

(** X7. The cache evicts in least-recently-used order: in a cache with room
    for at least two entries, a key that has just been read successfully is
    not the one evicted by the next [set] of another key; its entry is still
    there, unchanged. *)
Theorem LRUCache_read_key_survives (now now' : Z) c key v key' (v' : V) :
  fst (LRUCache.get now c key) = Some v ->
  key' <> key ->
  2 <= LRUCache.maxSize c ->
  JsMap.get
    (LRUCache.cache (LRUCache.set now' (snd (LRUCache.get now c key)) key' v'))
    key
  = JsMap.get (LRUCache.cache c) key.
Proof.
  intros Hhit Hne Hmax.
  destruct (LRUCache_get_hit now c key v Hhit)
    as (item & Hget & _ & _ & Hcache & Hsize).
  set (c1 := snd (LRUCache.get now c key)) in *.
  set (D := JsMap.delete (LRUCache.cache c) key) in *.
  assert (HD : JsMap.get D key = None) by apply JsMapFacts.get_None_delete.
  assert (H1 : JsMap.get (LRUCache.cache c1) key = Some item).
  { rewrite Hcache, JsMapFacts.get_app, HD. cbn [JsMap.get].
    destruct (eq_dec key key); congruence. }
  rewrite Hget, <- H1.
  unfold LRUCache.set. cbn [LRUCache.cache LRUCache.withCache].
  rewrite JsMapFacts.get_set_neq by congruence.
  destruct (JsMap.has (LRUCache.cache c1) key').
  - apply JsMap_get_delete_neq. congruence.
  - destruct (LRUCache.maxSize c1 <=? JsMap.size (LRUCache.cache c1)) eqn:Hfull;
      [|reflexivity].
    apply Nat.leb_le in Hfull. unfold JsMap.size in Hfull.
    rewrite Hsize, Hcache, length_app in Hfull. cbn [length] in Hfull.
    rewrite Hcache.
    destruct D as [|[k0 it0] D']; [cbn [length] in Hfull; lia|].
    cbn [app JsMap.keys map fst].
    apply JsMap_get_delete_neq.
    cbn [JsMap.get] in HD. destruct (eq_dec key k0); [discriminate|assumption].
Qed.

(** X8. [cleanExpired] is transparent to readers: in a cache with distinct
    keys, a read at the time of the clean-up returns the same value after it
    as before.  No entry that is left has expired, and the keys stay
    distinct. *)
Theorem LRUCache_cleanExpired_transparent (now : Z) c key :
  distinctKeys c ->
  fst (LRUCache.get now (LRUCache.cleanExpired now c) key)
  = fst (LRUCache.get now c key)
  /\ Forall (fun e => (now <= LRUCache.expiry (snd e))%Z)
            (LRUCache.cache (LRUCache.cleanExpired now c))
  /\ distinctKeys (LRUCache.cleanExpired now c).
Proof.
  intros Hnd. split; [|split].
  - unfold LRUCache.get, LRUCache.cleanExpired.
    cbn [LRUCache.cache LRUCache.withCache].
    rewrite (JsMap_get_filter _ _ key Hnd).
    destruct (JsMap.get (LRUCache.cache c) key) as [item|]; [|reflexivity].
    cbn [snd]. destruct (LRUCache.expiry item <? now)%Z eqn:Hexp;
      cbn [negb]; [reflexivity|].
    rewrite Hexp. reflexivity.
  - unfold LRUCache.cleanExpired. cbn [LRUCache.cache LRUCache.withCache].
    apply Forall_forall. intros e He. apply filter_In in He.
    destruct He as [_ He]. apply negb_true_iff, Z.ltb_ge in He. exact He.
  - apply distinctKeys_cleanExpired, Hnd.
Qed.

End LRUFacts.

Lemma LRUCache_read_key_survives_witness :
  let c := LRUCache.set 0%Z
             (LRUCache.set 0%Z (LRUCache.create 2 10%Z) (str "stare") true)
             (str "crane") true in
  JsMap.get
    (LRUCache.cache
       (LRUCache.set 5%Z (snd (LRUCache.get 3%Z c (str "stare")))
                     (str "slate") false))
    (str "stare")
  = JsMap.get (LRUCache.cache c) (str "stare").
Proof.
  intros c.
  apply (LRUCache_read_key_survives 3%Z 5%Z c (str "stare") true
           (str "slate") false).
  - reflexivity.
  - discriminate.
  - simpl. lia.
Defined.

Lemma LRUCache_cleanExpired_transparent_witness :
  let c := LRUCache.set 8%Z
             (LRUCache.set 0%Z (LRUCache.create 2 10%Z) (str "stare") true)
             (str "crane") false in
  fst (LRUCache.get 12%Z (LRUCache.cleanExpired 12%Z c) (str "crane"))
  = fst (LRUCache.get 12%Z c (str "crane"))
  /\ Forall (fun e => (12 <= LRUCache.expiry (snd e))%Z)
            (LRUCache.cache (LRUCache.cleanExpired 12%Z c))
  /\ distinctKeys (LRUCache.cleanExpired 12%Z c).
Proof.
  intros c. apply (LRUCache_cleanExpired_transparent 12%Z c (str "crane")).
  unfold c. repeat apply distinctKeys_set. apply distinctKeys_create.
Defined.

(** ** The dictionary service *)



Lemma checkCached_count now w batch : forall uncached st uncached' st',
  fold_left (checkCached now) batch (uncached, st) = (uncached', st') ->
  count_occ (@eq_dec word _) uncached' w + count_occ (@eq_dec word _) (validWords st') w
  <= count_occ (@eq_dec word _) uncached w + count_occ (@eq_dec word _) (validWords st) w + count_occ (@eq_dec word _) batch w.
Proof.
  induction batch as [|x batch IH]; intros uncached st uncached' st' Hf.
  - cbn [fold_left] in Hf. injection Hf as <- <-. cbn [count_occ]. lia.
  - cbn [fold_left] in Hf.
    destruct (checkCached now (uncached, st) x) as [u1 st1] eqn:Hstep.
    specialize (IH _ _ _ _ Hf).
    unfold checkCached in Hstep.
    destruct (LRUCache.get now (vsCache st) (toLowerCase x)) as [cached cache'].
    assert (Hx : count_occ (@eq_dec word _) (x :: batch) w
                 = count_occ (@eq_dec word _) [x] w + count_occ (@eq_dec word _) batch w).
    { cbn [count_occ]. destruct (eq_dec x w); lia. }
    destruct cached as [[|]|]; injection Hstep as <- <-;
      cbn [validWords] in IH; rewrite ?count_occ_app in IH.
    all: rewrite Hx; lia.
Qed.

Lemma recordValidation_count now w wvs : forall st,
  count_occ (@eq_dec word _) (validWords (fold_left (recordValidation now) wvs st)) w
  <= count_occ (@eq_dec word _) (validWords st) w + count_occ (@eq_dec word _) (map fst wvs) w.
Proof.
  induction wvs as [|[x v] wvs IH]; intros st; cbn [fold_left map].
  - cbn [count_occ]. lia.
  - specialize (IH (recordValidation now st (x, v))).
    cbn [recordValidation validWords] in IH |- *.
    assert (Hx : count_occ (@eq_dec word _) (fst (x, v) :: map fst wvs) w
                 = count_occ (@eq_dec word _) [x] w + count_occ (@eq_dec word _) (map fst wvs) w).
    { cbn [count_occ fst]. destruct (eq_dec x w); lia. }
    destruct v; rewrite ?count_occ_app in IH; rewrite Hx; lia.
Qed.

Lemma count_combine_fst {B : Type} w (l : list word) : forall vs : list B,
  count_occ (@eq_dec word _) (map fst (combine l vs)) w <= count_occ (@eq_dec word _) l w.
Proof.
  induction l as [|x l IH]; intros [|v vs]; cbn [combine map count_occ fst];
    try lia.
  specialize (IH vs). destruct (eq_dec x w); lia.
Qed.

Lemma validateBatch_count now net w st batch :
  count_occ (@eq_dec word _) (validWords (validateBatch now net st batch)) w
  <= count_occ (@eq_dec word _) (validWords st) w + count_occ (@eq_dec word _) batch w.
Proof.
  unfold validateBatch.
  destruct (fold_left (checkCached now) batch ([], st)) as [uncached st1] eqn:Hc.
  pose proof (checkCached_count now w batch [] st uncached st1 Hc) as H1.
  cbn [count_occ] in H1.
  destruct uncached as [|u uncached]; [lia|].
  destruct (fetchAll net (useFallback st1) (useFallback st1) (u :: uncached))
    as [validations uf].
  destruct validations as [vs|].
  - etransitivity; [apply recordValidation_count|]. cbn [validWords].
    pose proof (count_combine_fst w (u :: uncached) vs). lia.
  - etransitivity; [apply recordValidation_count|]. cbn [validWords].
    rewrite map_map. cbn [fst]. rewrite map_id. lia.
Qed.

Lemma validateBatches_count now net w batches : forall st,
  count_occ (@eq_dec word _) (validWords (fold_left (validateBatch now net) batches st)) w
  <= count_occ (@eq_dec word _) (validWords st) w + count_occ (@eq_dec word _) (concat batches) w.
Proof.
  induction batches as [|b batches IH]; intros st; cbn [fold_left concat].
  - cbn [count_occ]. lia.
  - specialize (IH (validateBatch now net st b)).
    pose proof (validateBatch_count now net w st b).
    rewrite count_occ_app. lia.
Qed.

(** X9. [validateWords] only selects: for a batch size of at least one (with
    which its loop ends), every word occurs in the result at most as often as
    in the input, whatever the dictionary APIs answer and whatever the cache
    holds.  In particular an empty input gives an empty result. *)
Theorem validateWords_selects (now : Z) (net : Network) (cfg : DictionaryConfig)
    (cache : DictCache) (words : list word) (w : word) :
  1 <= batchSize cfg ->
  count_occ eq_dec (fst (validateWords now net cfg cache words)) w
  <= count_occ eq_dec words w.
Proof.
  intros Hsize. unfold validateWords. cbn [fst].
  etransitivity; [apply validateBatches_count|]. cbn [validWords count_occ].
  rewrite (batchesOf_concat (batchSize cfg) Hsize) by lia. lia.
Qed.

Lemma validateWords_selects_witness :
  count_occ eq_dec
    (fst (validateWords 0%Z alwaysFound (dictionary config)
            (LRUCache.create 2000 604800000%Z)
            [str "CRANE"; str "STARE"; str "CRANE"]))
    (str "CRANE")
  <= count_occ eq_dec [str "CRANE"; str "STARE"; str "CRANE"] (str "CRANE").
Proof.
  apply (validateWords_selects 0%Z alwaysFound (dictionary config)
           (LRUCache.create 2000 604800000%Z)
           [str "CRANE"; str "STARE"; str "CRANE"] (str "CRANE")).
  simpl. lia.
Defined.

(** *** A network that never refuses *)

Section ForallEntries.
Context {K V : Type} `{EqDec K}.
Variable P : K * V -> Prop.

Lemma Forall_JsMap_delete (m : list (K * V)) k :
  Forall P m -> Forall P (JsMap.delete m k).
Proof.
  induction m as [|[k1 v1] m IH]; intros Hall; simpl; [constructor|].
  inversion Hall; subst. destruct (eq_dec k k1); auto.
Qed.

Lemma Forall_JsMap_set (m : list (K * V)) k v :
  Forall P m -> P (k, v) -> Forall P (JsMap.set m k v).
Proof.
  induction m as [|[k1 v1] m IH]; intros Hall Hkv; simpl; [auto|].
  inversion Hall; subst. destruct (eq_dec k k1); auto.
Qed.

Lemma Forall_JsMap_get (m : list (K * V)) k v :
  Forall P m -> JsMap.get m k = Some v -> P (k, v).
Proof.
  intros Hall Hget. rewrite Forall_forall in Hall.
  apply Hall, JsMapFacts.get_In, Hget.
Qed.

End ForallEntries.

Lemma noNegativeEntry_set now (c : DictCache) key :
  noNegativeEntry c -> noNegativeEntry (LRUCache.set now c key true).
Proof.
  unfold noNegativeEntry, LRUCache.set.
  cbn [LRUCache.cache LRUCache.withCache]. intros Hall.
  apply Forall_JsMap_set; [|reflexivity].
  destruct (JsMap.has (LRUCache.cache c) key);
    [apply Forall_JsMap_delete, Hall|].
  destruct (LRUCache.maxSize c <=? JsMap.size (LRUCache.cache c)); [|exact Hall].
  destruct (JsMap.keys (LRUCache.cache c));
    [exact Hall | apply Forall_JsMap_delete, Hall].
Qed.

Lemma noNegativeEntry_get now (c : DictCache) key :
  noNegativeEntry c ->
  (fst (LRUCache.get now c key) = None \/
   fst (LRUCache.get now c key) = Some true) /\
  noNegativeEntry (snd (LRUCache.get now c key)).
Proof.
  unfold noNegativeEntry, LRUCache.get. intros Hall.
  destruct (JsMap.get (LRUCache.cache c) key) as [item|] eqn:Hget;
    [|split; [left; reflexivity|exact Hall]].
  pose proof (Forall_JsMap_get _ _ _ _ Hall Hget) as Hv. cbn [snd] in Hv.
  destruct (LRUCache.expiry item <? now)%Z;
    cbn [fst snd LRUCache.cache LRUCache.withCache].
  - split; [left; reflexivity | apply Forall_JsMap_delete, Hall].
  - split; [right; now rewrite Hv|].
    apply Forall_JsMap_set; [apply Forall_JsMap_delete, Hall | exact Hv].
Qed.

Lemma noNegativeEntry_cleanExpired now (c : DictCache) :
  noNegativeEntry c -> noNegativeEntry (LRUCache.cleanExpired now c).
Proof.
  unfold noNegativeEntry, LRUCache.cleanExpired.
  cbn [LRUCache.cache LRUCache.withCache]. intros Hall.
  apply Forall_forall. intros e He. apply filter_In in He.
  rewrite Forall_forall in Hall. apply Hall. tauto.
Qed.

Lemma fetchValidity_neverRefuses net atStart uf w :
  neverRefuses net ->
  fst (fetchValidity net atStart uf w) = Some true \/
  fst (fetchValidity net atStart uf w) = None.
Proof.
  intros Hnet. unfold fetchValidity.
  destruct (Hnet (toLowerCase w) 0) as [_ _].
  destruct (if atStart then fallback net (toLowerCase w)
            else primary net (toLowerCase w)) as [status|status] eqn:Hresp.
  - left. cbn [fst].
    assert (status = 200) as ->.
    { destruct (Hnet (toLowerCase w) status) as [Hp Hf].
      destruct atStart; auto. }
    reflexivity.
  - destruct (eqb status (Some 429) && negb uf); [|left; reflexivity].
    destruct (fallback net (toLowerCase w)) as [s|s] eqn:Hfb; cbn [fst].
    + left. destruct (Hnet (toLowerCase w) s) as [_ Hf].
      rewrite (Hf Hfb). reflexivity.
    + right. reflexivity.
Qed.

Lemma fetchAll_neverRefuses net atStart : forall ws uf vs,
  neverRefuses net ->
  fst (fetchAll net atStart uf ws) = Some vs ->
  vs = repeat true (length ws).
Proof.
  induction ws as [|w ws IH]; intros uf vs Hnet; cbn [fetchAll].
  - cbn [fst]. intros E. injection E as <-. reflexivity.
  - pose proof (fetchValidity_neverRefuses net atStart uf w Hnet) as Hw.
    destruct (fetchValidity net atStart uf w) as [r uf1].
    specialize (IH uf1).
    destruct (fetchAll net atStart uf1 ws) as [rs uf2].
    cbn [fst] in *. destruct Hw as [-> | ->]; [|discriminate].
    destruct rs as [bs|]; [|discriminate].
    intros E. injection E as <-. cbn [length repeat]. f_equal.
    apply IH; [exact Hnet|reflexivity].
Qed.

Lemma combine_repeat_true (ws : list word) :
  combine ws (repeat true (length ws)) = map (fun w => (w, true)) ws.
Proof.
  induction ws as [|w ws IH]; [reflexivity|].
  cbn [length repeat combine map]. now rewrite IH.
Qed.

Lemma recordValidation_all_valid now (ws : list word) : forall st,
  noNegativeEntry (vsCache st) ->
  validWords (fold_left (recordValidation now) (map (fun w => (w, true)) ws) st)
  = validWords st ++ ws /\
  noNegativeEntry
    (vsCache (fold_left (recordValidation now) (map (fun w => (w, true)) ws) st)).
Proof.
  induction ws as [|w ws IH]; intros st Hc; cbn [map fold_left].
  - now rewrite app_nil_r.
  - destruct (IH (recordValidation now st (w, true))) as [Hv Hc'].
    + cbn [recordValidation vsCache]. apply noNegativeEntry_set, Hc.
    + split; [|exact Hc']. rewrite Hv. cbn [recordValidation validWords].
      now rewrite <- app_assoc.
Qed.

Lemma checkCached_keeps now w batch : forall uncached st uncached' st',
  noNegativeEntry (vsCache st) ->
  fold_left (checkCached now) batch (uncached, st) = (uncached', st') ->
  count_occ (@eq_dec word _) uncached' w
  + count_occ (@eq_dec word _) (validWords st') w
  = count_occ (@eq_dec word _) uncached w
    + count_occ (@eq_dec word _) (validWords st) w
    + count_occ (@eq_dec word _) batch w
  /\ noNegativeEntry (vsCache st').
Proof.
  induction batch as [|x batch IH]; intros uncached st uncached' st' Hc Hf.
  - cbn [fold_left] in Hf. injection Hf as <- <-. cbn [count_occ].
    split; [lia|exact Hc].
  - cbn [fold_left] in Hf.
    destruct (checkCached now (uncached, st) x) as [u1 st1] eqn:Hstep.
    unfold checkCached in Hstep.
    destruct (noNegativeEntry_get now (vsCache st) (toLowerCase x) Hc)
      as [Hres Hc1].
    destruct (LRUCache.get now (vsCache st) (toLowerCase x)) as [cached cache'].
    cbn [fst snd] in Hres, Hc1.
    assert (Hx : count_occ (@eq_dec word _) (x :: batch) w
                 = count_occ (@eq_dec word _) [x] w
                   + count_occ (@eq_dec word _) batch w).
    { cbn [count_occ]. destruct (eq_dec x w); lia. }
    destruct Hres as [-> | ->]; injection Hstep as <- <-;
      (destruct ((fun Hst => IH _ _ _ _ Hst Hf) Hc1) as [Hcount Hc']);
      cbn [validWords] in Hcount; rewrite ?count_occ_app in Hcount;
      (split; [rewrite Hx; lia | exact Hc']).
Qed.

Lemma validateBatch_keeps now net w st batch :
  neverRefuses net ->
  noNegativeEntry (vsCache st) ->
  count_occ (@eq_dec word _) (validWords (validateBatch now net st batch)) w
  = count_occ (@eq_dec word _) (validWords st) w
    + count_occ (@eq_dec word _) batch w
  /\ noNegativeEntry (vsCache (validateBatch now net st batch)).
Proof.
  intros Hnet Hc. unfold validateBatch.
  destruct (fold_left (checkCached now) batch ([], st)) as [uncached st1] eqn:Hf.
  destruct (checkCached_keeps now w batch [] st uncached st1 Hc Hf)
    as [Hcount Hc1].
  cbn [count_occ] in Hcount.
  destruct uncached as [|u uncached];
    [cbn [count_occ] in Hcount; split; [lia|exact Hc1]|].
  pose proof (fetchAll_neverRefuses net (useFallback st1) (u :: uncached)
                (useFallback st1)) as Hall.
  destruct (fetchAll net (useFallback st1) (useFallback st1) (u :: uncached))
    as [validations uf].
  cbn [fst] in Hall.
  assert (Hrec : forall st2,
            vsCache st2 = vsCache st1 -> validWords st2 = validWords st1 ->
            count_occ (@eq_dec word _)
              (validWords
                 (fold_left (recordValidation now)
                    (map (fun w => (w, true)) (u :: uncached)) st2)) w
            = count_occ (@eq_dec word _) (validWords st) w
              + count_occ (@eq_dec word _) batch w
            /\ noNegativeEntry
                 (vsCache
                    (fold_left (recordValidation now)
                       (map (fun w => (w, true)) (u :: uncached)) st2))).
  { intros st2 E1 E2.
    destruct (recordValidation_all_valid now (u :: uncached) st2) as [Hv Hc2].
    - rewrite E1. exact Hc1.
    - split; [|exact Hc2]. rewrite Hv, E2, count_occ_app. lia. }
  destruct validations as [vs|].
  - rewrite (Hall vs Hnet eq_refl), combine_repeat_true.
    apply Hrec; reflexivity.
  - apply Hrec; reflexivity.
Qed.

Lemma validateBatches_keeps now net w batches : forall st,
  neverRefuses net ->
  noNegativeEntry (vsCache st) ->
  count_occ (@eq_dec word _)
    (validWords (fold_left (validateBatch now net) batches st)) w
  = count_occ (@eq_dec word _) (validWords st) w
    + count_occ (@eq_dec word _) (concat batches) w
  /\ noNegativeEntry (vsCache (fold_left (validateBatch now net) batches st)).
Proof.
  induction batches as [|b batches IH]; intros st Hnet Hc; cbn [fold_left concat].
  - cbn [count_occ]. split; [lia|exact Hc].
  - destruct (validateBatch_keeps now net w st b Hnet Hc) as [H1 Hc1].
    destruct (IH (validateBatch now net st b) Hnet Hc1) as [H2 Hc2].
    split; [|exact Hc2]. rewrite count_occ_app. lia.
Qed.

(** X10. [validateWords] fails open: a word is dropped only when an API
    resolves a request with a status other than 200 or the cache holds a
    negative entry.  On a network where every request either fails (not
    found, rate limit, timeout, no connection) or resolves with 200, and with
    a cache without negative entries, every word of the input is returned:
    the result is a rearrangement of the input, and the cache still has no
    negative entry.  The batch size is at least one. *)
Theorem validateWords_fails_open (now : Z) (net : Network)
    (cfg : DictionaryConfig) (cache : DictCache) (words : list word) :
  1 <= batchSize cfg ->
  neverRefuses net ->
  noNegativeEntry cache ->
  Permutation (fst (validateWords now net cfg cache words)) words /\
  noNegativeEntry (snd (validateWords now net cfg cache words)).
Proof.
  intros Hsize Hnet Hc. unfold validateWords. cbn [fst snd]. split.
  - apply (Permutation_count_occ (@eq_dec word _)). intros w.
    destruct (validateBatches_keeps now net w
                (batchesOf (length words) (batchSize cfg) words)
                {| vsCache := LRUCache.cleanExpired now cache;
                   validWords := []; useFallback := false |} Hnet) as [H1 _].
    { cbn [vsCache]. apply noNegativeEntry_cleanExpired, Hc. }
    rewrite H1. cbn [validWords count_occ].
    rewrite (batchesOf_concat (batchSize cfg) Hsize) by lia. reflexivity.
  - destruct (validateBatches_keeps now net []
                (batchesOf (length words) (batchSize cfg) words)
                {| vsCache := LRUCache.cleanExpired now cache;
                   validWords := []; useFallback := false |} Hnet) as [_ H2].
    { cbn [vsCache]. apply noNegativeEntry_cleanExpired, Hc. }
    exact H2.
Qed.

Lemma neverFound_neverRefuses : neverRefuses neverFound.
Proof. intros url status. split; discriminate. Qed.

Lemma validateWords_fails_open_witness :
  Permutation
    (fst (validateWords 0%Z neverFound (dictionary config)
            (LRUCache.create 2000 604800000%Z) [str "XQZJK"; str "CRANE"]))
    [str "XQZJK"; str "CRANE"] /\
  noNegativeEntry
    (snd (validateWords 0%Z neverFound (dictionary config)
            (LRUCache.create 2000 604800000%Z) [str "XQZJK"; str "CRANE"])).
Proof.
  apply (validateWords_fails_open 0%Z neverFound (dictionary config)
           (LRUCache.create 2000 604800000%Z) [str "XQZJK"; str "CRANE"]).
  - simpl. lia.
  - exact neverFound_neverRefuses.
  - constructor.
Defined.

(** *** [isValidWord] *)

Lemma LRUCache_get_miss now (c : DictCache) key :
  fst (LRUCache.get now c key) = None ->
  JsMap.get (LRUCache.cache (snd (LRUCache.get now c key))) key = None.
Proof.
  unfold LRUCache.get.
  destruct (JsMap.get (LRUCache.cache c) key) as [item|] eqn:Hget;
    [|intros _; exact Hget].
  destruct (LRUCache.expiry item <? now)%Z; [|discriminate].
  intros _. cbn [snd LRUCache.cache LRUCache.withCache].
  apply JsMapFacts.get_None_delete.
Qed.

Lemma isValidWord_entry now answered net cache w item :
  JsMap.get (LRUCache.cache (snd (isValidWord now answered net cache w)))
            (toLowerCase w) = Some item ->
  LRUCache.value item = fst (isValidWord now answered net cache w).
Proof.
  unfold isValidWord.
  pose proof (LRUCache_get_miss now cache (toLowerCase w)) as Hmiss.
  pose proof (LRUCache_get_hit now cache (toLowerCase w)) as Hhit.
  destruct (LRUCache.get now cache (toLowerCase w)) as [cached cache1].
  cbn [fst snd] in Hmiss, Hhit.
  destruct cached as [isValid|].
  - destruct (Hhit isValid eq_refl) as (it & Hget & Hval & _ & Hcache & _).
    cbn [fst snd]. rewrite Hcache, JsMapFacts.get_app.
    rewrite JsMapFacts.get_None_delete. cbn [JsMap.get].
    destruct (eq_dec (toLowerCase w) (toLowerCase w)); [|congruence].
    intros E. injection E as <-. exact Hval.
  - specialize (Hmiss eq_refl).
    destruct (primary net (toLowerCase w)) as [status|status].
    + cbn [fst snd]. rewrite LRUCache_set_get_key.
      intros E. injection E as <-. reflexivity.
    + destruct (eqb status (Some 429)).
      * destruct (fallback net (toLowerCase w)) as [s|s]; cbn [fst snd].
        -- rewrite LRUCache_set_get_key. intros E. injection E as <-. reflexivity.
        -- rewrite Hmiss. discriminate.
      * destruct (eqb status (Some 404)); cbn [fst snd].
        -- rewrite LRUCache_set_get_key. intros E. injection E as <-. reflexivity.
        -- rewrite Hmiss. discriminate.
Qed.

(** X11. [isValidWord] remembers its verdicts: when the cache holds an entry
    for the word after a call (it does whenever an API answered, or the
    verdict came from the cache), a later call for the same word in any
    letter case, made before that entry expires, returns the same verdict
    whatever the APIs would answer then. *)
Theorem isValidWord_remembers (now answered later answered' : Z)
    (net net' : Network) (cache : DictCache) (w w' : word)
    (item : @LRUCache.Item bool) :
  JsMap.get (LRUCache.cache (snd (isValidWord now answered net cache w)))
            (toLowerCase w) = Some item ->
  (later <= LRUCache.expiry item)%Z ->
  toLowerCase w' = toLowerCase w ->
  fst (isValidWord later answered' net'
         (snd (isValidWord now answered net cache w)) w')
  = fst (isValidWord now answered net cache w).
Proof.
  intros Hget Hlive Hcase.
  rewrite <- (isValidWord_entry now answered net cache w item Hget).
  set (c1 := snd (isValidWord now answered net cache w)) in *.
  unfold isValidWord. rewrite Hcase. unfold LRUCache.get. rewrite Hget.
  replace (LRUCache.expiry item <? later)%Z with false
    by (symmetry; apply Z.ltb_ge; exact Hlive).
  reflexivity.
Qed.

Lemma isValidWord_remembers_witness :
  fst (isValidWord 100%Z 120%Z neverFound
         (snd (isValidWord 0%Z 10%Z alwaysFound
                 (LRUCache.create 2000 604800000%Z) (str "CRANE")))
         (str "Crane"))
  = fst (isValidWord 0%Z 10%Z alwaysFound
           (LRUCache.create 2000 604800000%Z) (str "CRANE")).
Proof.
  apply (isValidWord_remembers 0%Z 10%Z 100%Z 120%Z alwaysFound neverFound
           (LRUCache.create 2000 604800000%Z) (str "CRANE") (str "Crane")
           {| LRUCache.value := true; LRUCache.expiry := 604800010%Z |}).
  - reflexivity.
  - simpl. lia.
  - reflexivity.
Defined.

(** X12. The two methods of the dictionary service disagree on a word that
    the primary API does not know: when the request for a word that is not
    cached fails with status 404, [isValidWord] answers [false], but
    [validateWords] (with a batch size of at least one) keeps the word as
    valid, and caches it as valid. *)
Theorem unknown_word_verdicts_differ (now answered : Z) (net : Network)
    (cfg : DictionaryConfig) (cache : DictCache) (w : word) :
  1 <= batchSize cfg ->
  JsMap.get (LRUCache.cache cache) (toLowerCase w) = None ->
  primary net (toLowerCase w) = Rejected (Some 404) ->
  fst (isValidWord now answered net cache w) = false /\
  fst (validateWords now net cfg cache [w]) = [w] /\
  JsMap.get (LRUCache.cache (snd (validateWords now net cfg cache [w])))
            (toLowerCase w)
  = Some {| LRUCache.value := true;
            LRUCache.expiry := (now + LRUCache.ttl cache)%Z |}.
Proof.
  intros Hsize Hnone H404. split.
  - unfold isValidWord, LRUCache.get. rewrite Hnone, H404. reflexivity.
  - assert (Hrun : validateWords now net cfg cache [w]
                   = ([w], LRUCache.set now (LRUCache.cleanExpired now cache)
                                        (toLowerCase w) true)).
    { unfold validateWords. cbn [length batchesOf].
      replace (firstn (batchSize cfg) [w]) with [w]
        by (destruct (batchSize cfg);
            [lia | cbn [firstn]; now rewrite firstn_nil]).
      replace (skipn (batchSize cfg) [w]) with (@nil word)
        by (destruct (batchSize cfg);
            [lia | cbn [skipn]; now rewrite skipn_nil]).
      cbn [batchesOf fold_left].
      unfold validateBatch. cbn [fold_left]. unfold checkCached.
      cbn [vsCache validWords useFallback].
      assert (Hclean : JsMap.get
                         (LRUCache.cache (LRUCache.cleanExpired now cache))
                         (toLowerCase w) = None).
      { unfold LRUCache.cleanExpired. cbn [LRUCache.cache LRUCache.withCache].
        apply JsMap_get_None_keys. intros Hin.
        apply JsMap_keys_filter_incl in Hin.
        apply (JsMap_get_None_keys (LRUCache.cache cache)) in Hnone.
        contradiction. }
      unfold LRUCache.get. rewrite Hclean.
      cbn [app fetchAll]. unfold fetchValidity. rewrite H404.
      change (eqb (Some 404) (Some 429)) with false.
      reflexivity. }
    rewrite Hrun. cbn [fst snd]. split; [reflexivity|].
    apply (LRUCache_set_get_key now (LRUCache.cleanExpired now cache)).
Qed.

Lemma unknown_word_verdicts_differ_witness :
  fst (isValidWord 0%Z 10%Z neverFound (LRUCache.create 2000 604800000%Z)
         (str "XQZJK")) = false /\
  fst (validateWords 0%Z neverFound (dictionary config)
         (LRUCache.create 2000 604800000%Z) [str "XQZJK"]) = [str "XQZJK"] /\
  JsMap.get
    (LRUCache.cache
       (snd (validateWords 0%Z neverFound (dictionary config)
               (LRUCache.create 2000 604800000%Z) [str "XQZJK"])))
    (toLowerCase (str "XQZJK"))
  = Some {| LRUCache.value := true;
            LRUCache.expiry :=
              (0 + LRUCache.ttl
                     (LRUCache.create (K:=word) (V:=bool) 2000 604800000%Z))%Z |}.
Proof.
  apply (unknown_word_verdicts_differ 0%Z 10%Z neverFound (dictionary config)
           (LRUCache.create 2000 604800000%Z) (str "XQZJK")).
  - simpl. lia.
  - reflexivity.
  - reflexivity.
Defined.

(** ** The filter predicate and the secret *)

Lemma in_combine_seq {A : Type} (l : list A) : forall s i x,
  In (i, x) (combine (seq s (length l)) l)
  <-> s <= i /\ nth_error l (i - s) = Some x.
Proof.
  induction l as [|a l IH]; intros s i x; cbn [length seq combine].
  - split; [intros [] | intros [_ E]; destruct (i - s); discriminate E].
  - cbn [In]. rewrite IH. split.
    + intros [E | [Hle Hnth]].
      * injection E as <- <-. rewrite Nat.sub_diag. split; [lia|reflexivity].
      * split; [lia|]. replace (i - s) with (S (i - S s)) by lia. exact Hnth.
    + intros [Hle Hnth]. destruct (Nat.eq_dec s i) as [->|Hne].
      * left. rewrite Nat.sub_diag in Hnth. injection Hnth as ->. reflexivity.
      * right. split; [lia|].
        replace (i - s) with (S (i - S s)) in Hnth by lia. exact Hnth.
Qed.

Lemma map_fst_combine_seq {A : Type} (l : list A) : forall s,
  map fst (combine (seq s (length l)) l) = seq s (length l).
Proof.
  induction l as [|a l IH]; intros s; cbn [length seq combine map fst];
    [reflexivity|]. now rewrite IH.
Qed.

Lemma NoDup_map_fst_filter {A B : Type} (q : A * B -> bool) (l : list (A * B)) :
  NoDup (map fst l) -> NoDup (map fst (filter q l)).
Proof.
  induction l as [|[k v] l IH]; intros Hnd; [constructor|].
  cbn [map fst] in Hnd. inversion Hnd as [|? ? Hk Hnd']; subst.
  cbn [filter]. destruct (q (k, v)); [|apply IH, Hnd'].
  cbn [map fst]. constructor; [|apply IH, Hnd'].
  intros Hin. apply Hk. apply in_map_iff in Hin.
  destruct Hin as (e & <- & He). apply filter_In in He.
  apply in_map. tauto.
Qed.

Lemma greenEntries_keys l :
  NoDup (map fst l) -> NoDup (map fst (greenEntries l)).
Proof.
  intros Hnd. unfold greenEntries. rewrite map_map. cbn [fst].
  apply (NoDup_map_fst_filter _ l Hnd).
Qed.

Lemma collectResult_positions fb0 a i ch r :
  JsMap.get (positions a) i = None ->
  positions (collectResult fb0 a (i, (ch, r)))
  = positions a ++ greenEntries [(i, (ch, r))].
Proof.
  intros Hfresh. unfold collectResult, greenEntries. destruct r.
  - cbn [positions filter snd map fst]. rewrite eqb_refl. cbn [map fst snd].
    apply JsMapFacts.set_absent, Hfresh.
  - cbn [positions filter snd map fst].
    replace (eqb Present Correct) with false by reflexivity.
    now rewrite app_nil_r.
  - cbn [filter snd].
    replace (eqb Absent Correct) with false by reflexivity.
    destruct (_ && _); cbn [positions map]; now rewrite app_nil_r.
Qed.

Lemma positions_collect fb0 : forall l a,
  NoDup (map fst l) ->
  (forall k, In k (map fst l) -> JsMap.get (positions a) k = None) ->
  positions (fold_left (collectResult fb0) l a) = positions a ++ greenEntries l.
Proof.
  induction l as [|[i [ch r]] l IH]; intros a Hnd Hfresh.
  - cbn [fold_left]. unfold greenEntries. cbn [filter map]. now rewrite app_nil_r.
  - cbn [map fst] in Hnd. inversion Hnd as [|? ? Hi Hnd']; subst.
    cbn [fold_left]. rewrite IH; [|exact Hnd'|].
    + rewrite (collectResult_positions fb0 a i ch r)
        by (apply Hfresh; left; reflexivity).
      rewrite <- app_assoc. f_equal.
      unfold greenEntries. cbn [filter]. destruct (eqb _ _); reflexivity.
    + intros k Hk.
      rewrite (collectResult_positions fb0 a i ch r)
        by (apply Hfresh; left; reflexivity).
      rewrite JsMapFacts.get_app, (Hfresh k) by (right; exact Hk).
      unfold greenEntries. cbn [filter snd]. destruct (eqb r Correct);
        cbn [map JsMap.get fst snd]; [|reflexivity].
      destruct (eq_dec k i) as [->|Hne]; [contradiction|reflexivity].
Qed.

Lemma analyzeResults_positions guess results :
  positions (analyzeResults guess results)
  = greenEntries (indexed (feedback guess results)).
Proof.
  unfold analyzeResults. cbn [positions].
  rewrite positions_collect.
  - reflexivity.
  - unfold indexed. rewrite map_fst_combine_seq. apply seq_NoDup.
  - intros k _. reflexivity.
Qed.

Lemma analyzeResults_positions_NoDup guess results :
  NoDup (map fst (positions (analyzeResults guess results))).
Proof.
  rewrite analyzeResults_positions. apply greenEntries_keys.
  unfold indexed. rewrite map_fst_combine_seq. apply seq_NoDup.
Qed.

Lemma analyzeResults_positions_In guess results i ch :
  In (i, ch) (positions (analyzeResults guess results))
  <-> nth_error (feedback guess results) i = Some (ch, Correct).
Proof.
  rewrite analyzeResults_positions. unfold greenEntries, indexed.
  rewrite in_map_iff. split.
  - intros ([k [g r]] & E & Hin). cbn [fst snd] in E. injection E as -> ->.
    apply filter_In in Hin. destruct Hin as [Hin Hr]. cbn [snd] in Hr.
    apply eqb_true in Hr. subst r.
    apply in_combine_seq in Hin. rewrite Nat.sub_0_r in Hin. tauto.
  - intros Hnth. exists (i, (ch, Correct)). split; [reflexivity|].
    apply filter_In. split; [|apply eqb_refl].
    apply in_combine_seq. rewrite Nat.sub_0_r. split; [lia|exact Hnth].
Qed.

Lemma greenEntries_count l ch :
  length (filter (fun pc => eqb (snd pc) ch) (greenEntries l))
  = length (filter (fun gr => eqb (fst gr) ch && eqb (snd gr) Correct)
                   (map snd l)).
Proof.
  unfold greenEntries.
  induction l as [|[i [g r]] l IH]; [reflexivity|].
  cbn [filter map snd fst].
  destruct (eqb r Correct); cbn [map filter fst snd].
  - destruct (eqb g ch); cbn [andb length]; [f_equal|]; exact IH.
  - rewrite andb_false_r. exact IH.
Qed.

Lemma feedback_count_green guess : forall (p : list Mark) ch,
  length (filter (fun gr => eqb (fst gr) ch && eqb (snd gr) Correct)
                 (feedback guess (map resultOfMark p)))
  = countMark Green ch guess p.
Proof.
  unfold feedback, countMark.
  induction guess as [|g guess IH]; intros [|mk p] ch; try reflexivity.
  cbn [map combine filter fst snd].
  replace (eqb (resultOfMark mk) Correct) with (eqb mk Green)
    by (destruct mk; reflexivity).
  destruct (eqb g ch && eqb mk Green); cbn [length]; [f_equal|]; apply IH.
Qed.

Lemma feedback_In guess : forall (p : list Mark) ch r,
  In (ch, r) (feedback guess (map resultOfMark p)) <->
  exists mk, In (ch, mk) (combine guess p) /\ resultOfMark mk = r.
Proof.
  unfold feedback.
  induction guess as [|g guess IH]; intros [|mk p] ch r; cbn [map combine In].
  1-3: split; [intros [] | intros (? & [] & _)].
  rewrite IH. split.
  - intros [E | (mk' & Hin & Hr)].
    + injection E as -> <-. exists mk. auto.
    + exists mk'. auto.
  - intros (mk' & [E | Hin] & Hr).
    + injection E as -> ->. left. now rewrite Hr.
    + right. exists mk'. auto.
Qed.

Lemma feedback_nth guess : forall (p : list Mark) i ch r,
  nth_error (feedback guess (map resultOfMark p)) i = Some (ch, r) <->
  exists mk, nth_error guess i = Some ch /\ nth_error p i = Some mk /\
             resultOfMark mk = r.
Proof.
  unfold feedback.
  induction guess as [|g guess IH]; intros [|mk p] [|i] ch r;
    cbn [map combine nth_error];
    try (split; [discriminate | intros (? & ? & ? & _); discriminate]).
  - split.
    + intros E. injection E as -> <-. exists mk. auto.
    + intros (mk' & E1 & E2 & E3). injection E1 as ->. injection E2 as ->.
      now rewrite E3.
  - apply IH.
Qed.

Lemma countMark_In mk ch guess (p : list Mark) :
  In (ch, mk) (combine guess p) -> 1 <= countMark mk ch guess p.
Proof.
  intros Hin. unfold countMark.
  assert (Hf : In (ch, mk)
                 (filter (fun gp => eqb (fst gp) ch && eqb (snd gp) mk)
                         (combine guess p))).
  { apply filter_In. split; [exact Hin|]. cbn [fst snd]. now rewrite !eqb_refl. }
  destruct (filter _ (combine guess p)); [destruct Hf | cbn [length]; lia].
Qed.

Lemma countMark_absent_mark mk ch guess (p : list Mark) :
  ~ In mk p -> countMark mk ch guess p = 0.
Proof.
  intros Hno. unfold countMark.
  destruct (filter _ (combine guess p)) as [|[g m] l] eqn:Hf; [reflexivity|].
  exfalso.
  assert (Hin : In (g, m) (filter (fun gp => eqb (fst gp) ch && eqb (snd gp) mk)
                                  (combine guess p)))
    by (rewrite Hf; left; reflexivity).
  apply filter_In in Hin. destruct Hin as [Hin Hb]. cbn [fst snd] in Hb.
  apply andb_true_iff in Hb. destruct Hb as [_ Hm]. apply eqb_true in Hm.
  subst m. apply in_combine_r in Hin. contradiction.
Qed.

(** *** The constraints collected from the greens alone *)

Lemma processGreen_slots : forall (l : list (nat * ascii)) c,
  NoDup (map fst l) ->
  (forall i ch, In (i, ch) l ->
     slot_get (greens (fold_left processGreen l c)) i = SChar ch) /\
  (forall i, ~ In i (map fst l) ->
     slot_get (greens (fold_left processGreen l c)) i = slot_get (greens c) i).
Proof.
  induction l as [|[pos ch] l IH]; intros c Hnd.
  - split; [intros i ch [] | reflexivity].
  - cbn [map fst] in Hnd. inversion Hnd as [|? ? Hpos Hnd']; subst.
    destruct (IH (processGreen c (pos, ch)) Hnd') as [Hin Hout].
    cbn [fold_left]. split.
    + intros i ch0 [E | Hl].
      * injection E as <- <-. rewrite (Hout pos Hpos).
        unfold processGreen, slot_set. cbn [greens].
        apply slot_get_array_put_eq.
      * apply Hin, Hl.
    + intros i Hi. cbn [map fst In] in Hi.
      rewrite Hout by tauto.
      unfold processGreen, slot_set. cbn [greens].
      apply slot_get_array_put_neq. tauto.
Qed.

Lemma processGreen_fields (l : list (nat * ascii)) : forall c,
  (forall char m, In (char, m) (minCounts c) -> m <= cnt (minCounts c) char) ->
  let c' := fold_left processGreen l c in
  (forall char,
     cnt (minCounts c') char
     = cnt (minCounts c) char
       + length (filter (fun pc => eqb (snd pc) char) l)) /\
  (forall char m, In (char, m) (minCounts c') -> m <= cnt (minCounts c') char) /\
  maxCounts c' = maxCounts c /\
  bannedPos c' = bannedPos c /\
  forbidden c' = forbidden c.
Proof.
  induction l as [|[pos ch] l IH]; intros c Hc; cbn [fold_left].
  - cbn [filter length]. repeat split; auto.
  - destruct (IH (processGreen c (pos, ch))) as (H1 & H2 & H3 & H4 & H5).
    + unfold processGreen. cbn [minCounts]. fold (cnt (minCounts c) ch).
      intros char m Hin. apply JsMapFacts.In_set_inv in Hin.
      destruct (eq_dec char ch) as [->|Hne].
      * rewrite cnt_set_eq. destruct Hin as [E|Hin]; [injection E as <-; lia|].
        apply Hc in Hin. lia.
      * rewrite cnt_set_neq by exact Hne.
        destruct Hin as [E|Hin]; [injection E as -> _; congruence|].
        apply Hc, Hin.
    + repeat split; auto.
      intros char. rewrite H1. unfold processGreen at 1. cbn [minCounts].
      fold (cnt (minCounts c) ch). cbn [filter snd].
      destruct (eq_dec char ch) as [->|Hne].
      * rewrite cnt_set_eq, eqb_refl. cbn [length]. lia.
      * rewrite cnt_set_neq by exact Hne.
        replace (eqb ch char) with false
          by (symmetry; apply eqb_false; congruence).
        lia.
Qed.

Lemma processAbsent_forbidden l ch : forall c,
  In ch (forbidden (fold_left processAbsent l c)) ->
  In ch (forbidden c) \/ (In ch l /\ cnt (minCounts c) ch = 0).
Proof.
  induction l as [|a l IH]; intros c; cbn [fold_left]; [tauto|].
  intros Hin. apply IH in Hin. rewrite processAbsent_minCounts in Hin.
  destruct Hin as [Hin | [Hin H0]]; [|right; split; [right; exact Hin|exact H0]].
  unfold processAbsent in Hin.
  destruct (negb (truthy (JsMap.get (minCounts c) a))) eqn:Hn;
    cbn [forbidden] in Hin; [|tauto].
  apply JsSetFacts.In_add in Hin. destruct Hin as [Hin | ->]; [tauto|].
  right. split; [left; reflexivity|].
  apply negb_true_iff in Hn. unfold cnt, truthy, js_or in *.
  destruct (JsMap.get (minCounts c) a) as [[|k]|]; [reflexivity|discriminate|reflexivity].
Qed.

(** *** Feedback without a present letter *)

Section GreenGreyFeedback.
Variable cfg : BotConfig.
Variables guess secret : word.
Hypothesis Hlen : length secret <= wordLength cfg.
Hypothesis Hno : ~ In Yellow (computePattern guess secret).

Let n := wordLength cfg.
Let p := computePattern guess secret.
Let fb := feedback guess (feedbackFor guess secret).
Let a := analyzeResults guess (feedbackFor guess secret).
Let c0 : NormalizedConstraints :=
  {| greens := repeat SNull n; minCounts := []; maxCounts := [];
     bannedPos := []; forbidden := []; testedLetters := [] |}.
Let c1 := fold_left processGreen (positions a) c0.

Lemma no_present_letter : present a = [].
Proof.
  destruct (present a) as [|ch l] eqn:Hp; [reflexivity|]. exfalso.
  assert (Hin : In ch (present a)) by (rewrite Hp; left; reflexivity).
  unfold a, analyzeResults in Hin. cbn [present] in Hin.
  apply collectResult_present in Hin. rewrite map_snd_indexed in Hin.
  unfold feedbackFor in Hin. apply feedback_In in Hin.
  destruct Hin as (mk & Hin & Hr). destruct mk; try discriminate Hr.
  apply in_combine_r in Hin. exact (Hno Hin).
Qed.

Lemma collected_from_greens :
  collectConstraints n a = fold_left processAbsent (absent a) c1.
Proof.
  unfold collectConstraints. rewrite no_present_letter. reflexivity.
Qed.

Lemma green_count ch :
  cnt (minCounts c1) ch = countMark Green ch guess p.
Proof.
  destruct (processGreen_fields (positions a) c0) as (H1 & _).
  { intros char m []. }
  fold c1 in H1. rewrite H1. unfold c0 at 1. cbn [minCounts].
  unfold cnt at 1. cbn [JsMap.get js_or].
  unfold a. rewrite analyzeResults_positions, greenEntries_count.
  rewrite map_snd_indexed. unfold feedbackFor. apply feedback_count_green.
Qed.

Lemma no_yellow_tile ch : countMark Yellow ch guess p = 0.
Proof. apply countMark_absent_mark. exact Hno. Qed.

Lemma green_count_le ch : cnt (minCounts c1) ch <= count_occ ascii_dec secret ch.
Proof.
  rewrite green_count.
  pose proof (computePattern_coloured guess secret ch) as E. fold p in E. lia.
Qed.

Lemma absent_letter_count ch :
  In ch (absent a) -> count_occ ascii_dec secret ch = cnt (minCounts c1) ch.
Proof.
  intros Hin. unfold a in Hin. apply analyzeResults_absent in Hin.
  unfold firstResult in Hin.
  destruct (find (fun gr => eqb (fst gr) ch)
                 (feedback guess (feedbackFor guess secret)))
    as [[g r]|] eqn:Hfind; [|discriminate].
  cbn [option_map snd] in Hin. injection Hin as ->.
  apply find_some in Hfind. destruct Hfind as [Hfb Hg]. cbn [fst] in Hg.
  apply eqb_true in Hg. subst g.
  unfold feedbackFor in Hfb. apply feedback_In in Hfb.
  destruct Hfb as (mk & Hmk & Hr). destruct mk; try discriminate Hr.
  fold p in Hmk. apply countMark_In in Hmk.
  pose proof (computePattern_coloured guess secret ch) as E. fold p in E.
  pose proof (countMark_total ch guess p (computePattern_length guess secret)).
  rewrite green_count. rewrite no_yellow_tile in *. lia.
Qed.

Lemma secret_passes : satisfiesConstraints (collectConstraints n a) secret = true.
Proof.
  rewrite collected_from_greens.
  destruct (fold_processAbsent_fields (absent a) c1) as (Eg & Em & Eb).
  destruct (processGreen_fields (positions a) c0) as (_ & Hmin & Hmax & Hban & Hforb).
  { intros char m []. }
  fold c1 in Hmin, Hmax, Hban, Hforb.
  destruct (processGreen_slots (positions a) c0
              (analyzeResults_positions_NoDup guess (feedbackFor guess secret)))
    as [Hslot_in Hslot_out].
  fold c1 in Hslot_in, Hslot_out.
  unfold satisfiesConstraints. rewrite Eg, Em, Eb.
  repeat (apply andb_true_iff; split); apply forallb_forall.
  - (* forbidden letters *)
    intros ch Hch. apply processAbsent_forbidden in Hch.
    rewrite Hforb in Hch. destruct Hch as [[] | [Hin H0]].
    apply absent_letter_count in Hin.
    apply negb_true_iff. unfold includes.
    destruct (in_dec ascii_dec ch secret) as [Hs|]; [|reflexivity].
    apply (count_occ_In ascii_dec) in Hs. lia.
  - (* green positions *)
    intros i Hi. apply in_seq in Hi.
    destruct (nth_error secret i) as [s|] eqn:Hs.
    2:{ apply nth_error_None in Hs. lia. }
    apply negb_true_iff, andb_false_iff.
    destruct (in_dec Nat.eq_dec i (map fst (positions a))) as [Hin|Hout].
    + right. apply in_map_iff in Hin. destruct Hin as ([k ch] & E & Hin).
      cbn [fst] in E. subst k.
      rewrite (Hslot_in i ch Hin).
      unfold a in Hin. apply analyzeResults_positions_In in Hin.
      unfold feedbackFor in Hin. apply feedback_nth in Hin.
      destruct Hin as (mk & Hg & Hp & Hr). destruct mk; try discriminate Hr.
      apply computePattern_green in Hp. destruct Hp as [_ Hp].
      rewrite Hg, Hs in Hp. injection Hp as ->.
      apply negb_false_iff, eqb_refl.
    + left. rewrite (Hslot_out i Hout). unfold c0. cbn [greens].
      unfold slot_get. rewrite nth_repeat_lt by (unfold n; lia).
      reflexivity.
  - (* minimum counts *)
    intros [ch m] Hin. cbn [fst snd]. apply negb_true_iff, Nat.ltb_ge.
    unfold matchCount. apply Hmin in Hin. pose proof (green_count_le ch). lia.
  - (* maximum counts *)
    intros [ch mx] Hin. cbn [fst snd]. apply negb_true_iff, Nat.ltb_ge.
    unfold matchCount.
    pose proof (processAbsent_max_is_min (absent a) c1) as Hmm.
    specialize (Hmm ltac:(rewrite Hmax; intros ? ? [])) .
    specialize (Hmm ch mx Hin). rewrite Em in Hmm. fold (cnt (minCounts c1) ch) in Hmm.
    apply processAbsent_maxCounts_keys in Hin. rewrite Hmax in Hin.
    destruct Hin as [[] | Hin].
    apply absent_letter_count in Hin. lia.
  - (* banned positions *)
    rewrite Hban. intros cp [].
Qed.

End GreenGreyFeedback.

Lemma yellow_is_present guess secret :
  In Yellow (computePattern guess secret) ->
  exists char, In (char, Present) (feedback guess (feedbackFor guess secret)).
Proof.
  intros Hin. apply In_nth_error in Hin. destruct Hin as [i Hi].
  assert (Hlt : i < length guess).
  { rewrite <- (computePattern_length guess secret).
    apply nth_error_Some. congruence. }
  destruct (nth_error guess i) as [g|] eqn:Hg.
  2:{ apply nth_error_None in Hg. lia. }
  exists g. apply (nth_error_In _ i). unfold feedbackFor.
  apply feedback_nth. exists Yellow. auto.
Qed.

(** X13. The filter predicate of [filterWords] and the secret.  For any
    guess made of characters that match themselves as patterns and any
    secret of at most [wordLength] letters, the constraints that
    [normalizeConstraints] builds from the analysis of the secret's own
    feedback accept the secret exactly when the feedback shows no present
    (yellow) letter: feedback made of correct and absent letters only keeps
    the secret, and any present letter makes the predicate reject it. *)
Theorem filter_accepts_secret_iff (cfg : BotConfig) (guess secret : word) :
  forallb literalChar guess = true ->
  length secret <= wordLength cfg ->
  exists c,
    normalizeConstraints cfg (analyzeResults guess (feedbackFor guess secret))
    = inr c /\
    (satisfiesConstraints c secret = true
     <-> ~ In Yellow (computePattern guess secret)).
Proof.
  intros _ Hlen. eexists. split; [apply normalizeConstraints_total|]. split.
  - intros Hsat Hy. destruct (yellow_is_present guess secret Hy) as [char Hin].
    destruct (present_result_empties_filter cfg guess
                (feedbackFor guess secret) char secret Hin Hlen)
      as (c & Hc & Hrej).
    rewrite normalizeConstraints_total in Hc. injection Hc as <-. congruence.
  - intros Hno. apply secret_passes; assumption.
Qed.

Lemma filter_accepts_secret_iff_witness :
  exists c,
    normalizeConstraints config
      (analyzeResults (str "SLATE") (feedbackFor (str "SLATE") (str "CRANE")))
    = inr c /\
    (satisfiesConstraints c (str "CRANE") = true
     <-> ~ In Yellow (computePattern (str "SLATE") (str "CRANE"))).
Proof.
  apply (filter_accepts_secret_iff config (str "SLATE") (str "CRANE")).
  - reflexivity.
  - simpl. lia.
Defined.

(** X14. One present letter empties the filter stage: for the analysis of any
    feedback with a present result (one result per letter of the guess, the
    guess made of characters that match themselves as patterns), the
    predicate of [filterWords] rejects every word of every pool whose words
    have at most [wordLength] letters, so the filter stage returns the empty
    list. *)
Theorem present_letter_empties_pool (cfg : BotConfig) (guess : word)
    (results : list ResultKind) (char : ascii) (pool : list word) :
  length results = length guess ->
  forallb literalChar guess = true ->
  In (char, Present) (feedback guess results) ->
  Forall (fun w => length w <= wordLength cfg) pool ->
  exists c,
    normalizeConstraints cfg (analyzeResults guess results) = inr c /\
    filterByConstraints c pool = [].
Proof.
  intros _ _ Hin Hpool. eexists. split; [apply normalizeConstraints_total|].
  unfold filterByConstraints.
  induction pool as [|w pool IH]; [reflexivity|].
  inversion Hpool as [|? ? Hw Hrest]; subst. cbn [filter].
  destruct (present_result_empties_filter cfg guess results char w Hin Hw)
    as (c & Hc & Hrej).
  rewrite normalizeConstraints_total in Hc. injection Hc as <-.
  rewrite Hrej. apply IH, Hrest.
Qed.

Lemma present_letter_empties_pool_witness :
  exists c,
    normalizeConstraints config
      (analyzeResults (str "STARE")
         [Absent; Absent; Correct; Present; Correct]) = inr c /\
    filterByConstraints c (startingWords config) = [].
Proof.
  apply (present_letter_empties_pool config (str "STARE")
           [Absent; Absent; Correct; Present; Correct] "R"%char
           (startingWords config)).
  - reflexivity.
  - reflexivity.
  - simpl. tauto.
  - repeat constructor.
Defined.

Lemma processAbsent_max_recorded l : forall c,
  (forall char mx, In (char, mx) (maxCounts c) ->
     JsMap.get (minCounts c) char = Some mx /\ 1 <= mx) ->
  forall char mx, In (char, mx) (maxCounts (fold_left processAbsent l c)) ->
     JsMap.get (minCounts (fold_left processAbsent l c)) char = Some mx /\
     1 <= mx.
Proof.
  induction l as [|x l IH]; intros c Hc; cbn [fold_left]; [exact Hc|].
  apply IH. intros char mx. rewrite processAbsent_minCounts.
  unfold processAbsent.
  destruct (negb (truthy (JsMap.get (minCounts c) x))) eqn:Hn;
    cbn [maxCounts]; [apply Hc|].
  intros Hin. apply JsMapFacts.In_set_inv in Hin.
  destruct Hin as [E|Hin]; [|apply Hc, Hin].
  injection E as -> ->. apply negb_false_iff in Hn.
  unfold truthy, js_or in *.
  destruct (JsMap.get (minCounts c) x) as [[|k]|]; try discriminate.
  split; [reflexivity | lia].
Qed.

(** X15. [normalizeConstraints] never throws its "Impossible constraints"
    error: for every analysis it returns the constraints it collected.  Every
    maximum count it records is a copy of the minimum count of the same
    letter, taken when that minimum is at least one, so the check
    [min > max] cannot succeed. *)
Theorem normalizeConstraints_never_throws (cfg : BotConfig)
    (analysis : GuessAnalysis) :
  exists c,
    normalizeConstraints cfg analysis = inr c /\
    forall char mx, In (char, mx) (maxCounts c) ->
      JsMap.get (minCounts c) char = Some mx /\ 1 <= mx.
Proof.
  exists (collectConstraints (wordLength cfg) analysis).
  split; [apply normalizeConstraints_total|].
  unfold collectConstraints. apply processAbsent_max_recorded.
  intros char mx.
  rewrite fold_processPresent_maxCounts, fold_processGreen_maxCounts.
  cbn [maxCounts]. intros [].
Qed.

(** ** What [analyzeResults] records *)

Lemma collectResult_correct fb0 (l : list (nat * (ascii * ResultKind))) ch :
  In ch (correct (fold_left (collectResult fb0) l emptyAnalysis))
  <-> In (ch, Correct) (map snd l).
Proof.
  apply (fold_left_prefix_inv
           (fun pre a => In ch (correct a) <-> In (ch, Correct) (map snd pre))).
  - simpl. tauto.
  - intros pre [i [g r]] a IH. rewrite map_app, in_app_iff. simpl map.
    unfold collectResult. destruct r; cbn [correct].
    + rewrite JsSetFacts.In_add, IH. simpl. intuition congruence.
    + rewrite IH. simpl. intuition congruence.
    + destruct (_ && _); cbn [correct]; rewrite IH; simpl; intuition congruence.
Qed.

Lemma analyzeResults_sets_closed (guess : word) (results : list ResultKind) :
  let a := analyzeResults guess results in
  let fb := feedback guess results in
  (forall ch, In ch (correct a) <-> In (ch, Correct) fb) /\
  (forall ch, In ch (present a) <-> In (ch, Present) fb) /\
  (forall ch, In ch (absent a) <-> firstResult fb ch = Some Absent) /\
  (forall i ch, JsMap.get (positions a) i = Some ch
                <-> nth_error fb i = Some (ch, Correct)).
Proof.
  intros a fb. repeat split.
  - unfold a, analyzeResults. cbn [correct]. intros Hin.
    apply collectResult_correct in Hin. now rewrite map_snd_indexed in Hin.
  - unfold a, analyzeResults. cbn [correct]. intros Hin.
    apply collectResult_correct. now rewrite map_snd_indexed.
  - unfold a, analyzeResults. cbn [present]. intros Hin.
    apply collectResult_present in Hin. now rewrite map_snd_indexed in Hin.
  - unfold a, analyzeResults. cbn [present]. intros Hin.
    apply collectResult_present. now rewrite map_snd_indexed.
  - apply analyzeResults_absent.
  - apply analyzeResults_absent.
  - intros Hget. apply JsMapFacts.get_In in Hget.
    apply analyzeResults_positions_In, Hget.
  - intros Hnth. apply JsMap_In_get.
    + apply analyzeResults_positions_NoDup.
    + apply analyzeResults_positions_In, Hnth.
Qed.

(** X16. The sets of an analysis, for one result per letter of the guess.
    [analysis.correct] and [analysis.present] hold the letters with a
    correct, respectively present, result; [analysis.positions] maps exactly
    the indices with a correct result to their letters; and
    [analysis.absent] holds the letters whose first result in the guess is
    absent, whatever their later results are. *)
Theorem analyzeResults_sets (guess : word) (results : list ResultKind) :
  length results = length guess ->
  let a := analyzeResults guess results in
  let fb := feedback guess results in
  (forall ch, In ch (correct a) <-> In (ch, Correct) fb) /\
  (forall ch, In ch (present a) <-> In (ch, Present) fb) /\
  (forall ch, In ch (absent a) <-> firstResult fb ch = Some Absent) /\
  (forall i ch, JsMap.get (positions a) i = Some ch
                <-> nth_error fb i = Some (ch, Correct)).
Proof. intros _. exact (analyzeResults_sets_closed guess results). Qed.

Lemma analyzeResults_sets_witness :
  let guess := str "SPEED" in
  let results := [Absent; Absent; Present; Absent; Present] in
  let a := analyzeResults guess results in
  let fb := feedback guess results in
  (forall ch, In ch (correct a) <-> In (ch, Correct) fb) /\
  (forall ch, In ch (present a) <-> In (ch, Present) fb) /\
  (forall ch, In ch (absent a) <-> firstResult fb ch = Some Absent) /\
  (forall i ch, JsMap.get (positions a) i = Some ch
                <-> nth_error fb i = Some (ch, Correct)).
Proof.
  apply (analyzeResults_sets (str "SPEED")
           [Absent; Absent; Present; Absent; Present]).
  reflexivity.
Defined.

Lemma knownCount_firstResult fb ch :
  0 < knownCount fb ch -> firstResult fb ch <> None.
Proof.
  intros Hpos Hnone. apply firstResult_None in Hnone. lia.
Qed.

(** First pass: an entry of [letterCounts] is only made for a letter with a
    correct or present result. *)
Lemma collectResult_letterCounts fb0 (l : list (nat * (ascii * ResultKind))) :
  let a := fold_left (collectResult fb0) l emptyAnalysis in
  forall ch, JsMap.get (letterCounts a) ch <> None ->
             0 < knownCount (map snd l) ch.
Proof.
  cbv zeta.
  assert (H : (forall ch,
                 In ch (correct (fold_left (collectResult fb0) l emptyAnalysis))
                 \/ In ch (present (fold_left (collectResult fb0) l emptyAnalysis))
                 -> 0 < knownCount (map snd l) ch) /\
              (forall ch,
                 JsMap.get
                   (letterCounts (fold_left (collectResult fb0) l emptyAnalysis))
                   ch <> None ->
                 0 < knownCount (map snd l) ch)); [|apply H].
  apply (fold_left_prefix_inv
           (fun pre a =>
              (forall ch, In ch (correct a) \/ In ch (present a) ->
                          0 < knownCount (map snd pre) ch) /\
              (forall ch, JsMap.get (letterCounts a) ch <> None ->
                          0 < knownCount (map snd pre) ch))).
  - split; [intros ch [[]|[]] | intros ch Hne; exfalso; apply Hne; reflexivity].
  - intros pre [i [g r]] a [Hsets Hlc].
    rewrite map_app. simpl map.
    assert (Hmono : forall ch, 0 < knownCount (map snd pre) ch ->
                               0 < knownCount (map snd pre ++ [(g, r)]) ch).
    { intros ch Hpos. rewrite knownCount_snoc. lia. }
    assert (Hnew : isCorrectOrPresent r = true ->
                   0 < knownCount (map snd pre ++ [(g, r)]) g).
    { intros Hr. rewrite knownCount_snoc, eqb_refl, Hr. cbn [andb]. lia. }
    unfold collectResult. destruct r; cbn [correct present letterCounts].
    + split.
      * intros ch [Hin|Hin]; [|auto].
        apply JsSetFacts.In_add in Hin. destruct Hin as [Hin | ->]; auto.
      * intros ch Hne. auto.
    + split.
      * intros ch [Hin|Hin]; [auto|].
        apply JsSetFacts.In_add in Hin. destruct Hin as [Hin | ->]; auto.
      * intros ch Hne. destruct (JsMap.has (letterCounts a) g); [auto|].
        destruct (eq_dec ch g) as [->|Hneq]; [auto|].
        rewrite JsMapFacts.get_set_neq in Hne by exact Hneq. auto.
    + destruct (negb (JsSet.has (correct a) g) && negb (JsSet.has (present a) g))
        eqn:Hfresh; cbn [correct present letterCounts].
      * split; [intros ch Hin; auto | intros ch Hne; auto].
      * split; [intros ch Hin; auto|].
        intros ch Hne. destruct (eq_dec ch g) as [->|Hneq].
        -- apply Hmono, Hsets. apply andb_false_iff in Hfresh.
           destruct Hfresh as [Hf|Hf]; apply negb_false_iff in Hf;
             apply JsSetFacts.has_true in Hf; tauto.
        -- rewrite JsMapFacts.get_set_neq in Hne by exact Hneq. auto.
Qed.

(** Second pass: the letters that have an entry in [charResults]. *)
Lemma groupResult_entries (l : list (nat * (ascii * ResultKind))) :
  let charResults := fold_left groupResult l [] in
  forall char,
    (JsMap.get charResults char = None <-> firstResult (map snd l) char = None) /\
    (forall info, JsMap.get charResults char = Some info ->
       1 <= length (crCorrect info) + length (crPresent info)
            + length (crAbsent info)).
Proof.
  apply (fold_left_prefix_inv
           (fun pre cr =>
              forall char,
                (JsMap.get cr char = None
                 <-> firstResult (map snd pre) char = None) /\
                (forall info, JsMap.get cr char = Some info ->
                   1 <= length (crCorrect info) + length (crPresent info)
                        + length (crAbsent info)))).
  - intros char. split; [split; reflexivity | discriminate].
  - intros pre [i [g r]] cr IH char.
    rewrite map_app. simpl map. rewrite firstResult_snoc.
    destruct (IH char) as [Hnone Hsome].
    unfold groupResult.
    destruct (eq_dec char g) as [->|Hne].
    + rewrite JsMapFacts.get_set_eq, eqb_refl. split.
      * split; [discriminate|].
        destruct (firstResult (map snd pre) g); discriminate.
      * intros info E. injection E as <-.
        destruct r; cbn [crCorrect crPresent crAbsent];
          rewrite length_app; cbn [length]; lia.
    + rewrite JsMapFacts.get_set_neq by exact Hne.
      replace (eqb g char) with false
        by (symmetry; apply eqb_false; congruence).
      split; [|exact Hsome].
      rewrite Hnone. destruct (firstResult (map snd pre) char);
        split; congruence.
Qed.

Lemma buildLetterCount_absent_only entries char info : forall counts,
  NoDup (map fst entries) ->
  In (char, info) entries ->
  length (crCorrect info) + length (crPresent info) = 0 ->
  1 <= length (crAbsent info) ->
  JsMap.get (fold_left buildLetterCount entries counts) char
  = Some {| lcMin := 0; lcMax := Some 0 |}.
Proof.
  induction entries as [|[c i0] entries IH]; intros counts Hnd Hin Hzero Habs;
    [contradiction|].
  inversion Hnd as [|? ? Hnot Hnd']; subst. cbn [fold_left].
  destruct Hin as [E|Hin].
  - injection E as -> ->.
    rewrite buildLetterCount_other.
    + unfold buildLetterCount.
      replace ((0 <? length (crCorrect info)) || (0 <? length (crPresent info)))
        with false.
      2:{ symmetry. apply orb_false_iff. split; apply Nat.ltb_ge; lia. }
      replace ((0 <? length (crAbsent info)) && (length (crCorrect info) =? 0)
               && (length (crPresent info) =? 0)) with true.
      2:{ symmetry. repeat (apply andb_true_iff; split);
            [apply Nat.ltb_lt | apply Nat.eqb_eq | apply Nat.eqb_eq]; lia. }
      apply JsMapFacts.get_set_eq.
    + intros e He Heq. apply Hnot. apply in_map_iff. exists e. auto.
  - apply IH; assumption.
Qed.

Lemma analyzeResults_letterCounts_closed (guess : word) (results : list ResultKind)
    (ch : ascii) :
  let fb := feedback guess results in
  JsMap.get (letterCounts (analyzeResults guess results)) ch
  = match firstResult fb ch with
    | None => None
    | Some _ =>
        Some (if 0 <? knownCount fb ch
              then {| lcMin := knownCount fb ch; lcMax := None |}
              else {| lcMin := 0; lcMax := Some 0 |})
    end.
Proof.
  intros fb.
  destruct (0 <? knownCount fb ch) eqn:Hk.
  - apply Nat.ltb_lt in Hk.
    rewrite (analyzeResults_max_overwritten guess results ch Hk).
    destruct (firstResult fb ch) eqn:Hf; [reflexivity|].
    exfalso. exact (knownCount_firstResult fb ch Hk Hf).
  - apply Nat.ltb_ge in Hk.
    unfold analyzeResults. cbn [letterCounts]. fold fb.
    pose proof (collectResult_letterCounts fb (indexed fb) ch) as Hfirst.
    cbv zeta in Hfirst. rewrite map_snd_indexed in Hfirst.
    assert (Hnone : JsMap.get
                      (letterCounts
                         (fold_left (collectResult fb) (indexed fb) emptyAnalysis))
                      ch = None).
    { destruct (JsMap.get _ ch) eqn:Hget; [|reflexivity].
      exfalso. assert (0 < knownCount fb ch) by (apply Hfirst; congruence). lia. }
    destruct (groupResult_entries (indexed fb) ch) as [Hiff Hsome].
    destruct (groupResult_counts (indexed fb) ch) as [_ Hcount].
    rewrite map_snd_indexed in Hiff, Hcount.
    destruct (JsMap.get (fold_left groupResult (indexed fb) []) ch)
      as [info|] eqn:Hget.
    + destruct (firstResult fb ch) eqn:Hf;
        [|exfalso; destruct Hiff as [_ Hiff]; specialize (Hiff eq_refl);
          discriminate].
      specialize (Hsome info eq_refl). specialize (Hcount info eq_refl).
      apply (buildLetterCount_absent_only _ ch info).
      * apply groupResult_keys_NoDup.
      * apply JsMapFacts.get_In, Hget.
      * lia.
      * lia.
    + rewrite (proj1 Hiff eq_refl).
      rewrite buildLetterCount_other; [exact Hnone|].
      intros e He Heq.
      apply (JsMap_get_None_keys (fold_left groupResult (indexed fb) []) ch)
        in Hget.
      apply Hget. unfold JsMap.keys. apply in_map_iff. exists e. auto.
Qed.

(** X17. The letter counts of an analysis, in closed form, for one result per
    letter of the guess.  A letter that does not occur in the guess has no
    entry.  A letter with at least one
    correct or present result gets as minimum the number of those results and
    no maximum, also when one of its occurrences is absent (which shows that
    this number is the exact count).  A letter whose results are all absent
    gets minimum and maximum 0. *)
Theorem analyzeResults_letterCounts (guess : word) (results : list ResultKind)
    (ch : ascii) :
  length results = length guess ->
  let fb := feedback guess results in
  JsMap.get (letterCounts (analyzeResults guess results)) ch
  = match firstResult fb ch with
    | None => None
    | Some _ =>
        Some (if 0 <? knownCount fb ch
              then {| lcMin := knownCount fb ch; lcMax := None |}
              else {| lcMin := 0; lcMax := Some 0 |})
    end.
Proof. intros _. exact (analyzeResults_letterCounts_closed guess results ch). Qed.

Lemma analyzeResults_letterCounts_witness :
  let guess := str "SPEED" in
  let results := [Absent; Absent; Present; Absent; Present] in
  let fb := feedback guess results in
  JsMap.get (letterCounts (analyzeResults guess results)) "E"%char
  = match firstResult fb "E"%char with
    | None => None
    | Some _ =>
        Some (if 0 <? knownCount fb "E"%char
              then {| lcMin := knownCount fb "E"%char; lcMax := None |}
              else {| lcMin := 0; lcMax := Some 0 |})
    end.
Proof.
  apply (analyzeResults_letterCounts (str "SPEED")
           [Absent; Absent; Present; Absent; Present] "E"%char).
  reflexivity.
Defined.

(** ** Sorting and the best starting word *)

Lemma insertSorted_Permutation {A : Type} (after : A -> A -> bool) (x : A)
    (l : list A) :
  Permutation (insertSorted after x l) (x :: l).
Proof.
  induction l as [|y l IH]; cbn [insertSorted]; [reflexivity|].
  destruct (after x y); [|reflexivity].
  rewrite IH. apply perm_swap.
Qed.

Lemma jsSort_Permutation {A : Type} (after : A -> A -> bool) (l : list A) :
  Permutation (jsSort after l) l.
Proof.
  unfold jsSort. induction l as [|x l IH]; cbn [fold_right]; [reflexivity|].
  rewrite insertSorted_Permutation. now constructor.
Qed.

Lemma jsSort_nil_inv {A : Type} (after : A -> A -> bool) (l : list A) :
  jsSort after l = [] -> l = [].
Proof.
  intros E. pose proof (jsSort_Permutation after l) as Hp. rewrite E in Hp.
  apply Permutation_nil in Hp. exact Hp.
Qed.

(** The first element after sorting by descending score has a maximal
    score. *)
Lemma jsSort_head_max {A : Type} (score : A -> R) (l : list A) x rest :
  jsSort (fun a b => Rltb (score a) (score b)) l = x :: rest ->
  forall y, In y l -> (score y <= score x)%R.
Proof.
  unfold jsSort. revert x rest.
  induction l as [|a l IH]; intros x rest Hs y Hy; [destruct Hy|].
  cbn [fold_right] in Hs.
  set (after := fun a b => Rltb (score a) (score b)) in *.
  destruct (fold_right (insertSorted after) [] l) as [|h s] eqn:Hl.
  - cbn [insertSorted] in Hs. injection Hs as <- <-.
    apply (jsSort_nil_inv after) in Hl. subst l.
    destruct Hy as [<-|[]]. apply Rle_refl.
  - specialize (IH h s eq_refl).
    cbn [insertSorted] in Hs. unfold after at 1 in Hs. unfold Rltb in Hs.
    destruct (Rlt_dec (score a) (score h)) as [Hlt|Hge].
    + injection Hs as <- _. destruct Hy as [<-|Hy]; [lra|apply IH, Hy].
    + injection Hs as <- _. destruct Hy as [<-|Hy]; [apply Rle_refl|].
      specialize (IH y Hy). lra.
Qed.

(** X18. [getBestStartingWord] returns a starting word whose base score (the
    score of [scoreWord] without analysis and candidates) is maximal among
    the starting words, and [undefined] exactly when there is no starting
    word.  As a side effect the list of starting words is reordered: it is
    sorted in place, the returned word first. *)
Theorem getBestStartingWord_maximal (bot : Bot) :
  match fst (getBestStartingWord bot) with
  | Some w =>
      In w (botStartingWords bot) /\
      (forall w', In w' (botStartingWords bot) ->
                  (baseScore bot w' <= baseScore bot w)%R) /\
      hd_error (botStartingWords (snd (getBestStartingWord bot))) = Some w
  | None => botStartingWords bot = []
  end /\
  Permutation (botStartingWords (snd (getBestStartingWord bot)))
              (botStartingWords bot).
Proof.
  unfold getBestStartingWord. cbn [fst snd withStartingWords botStartingWords].
  split; [|apply jsSort_Permutation].
  destruct (jsSort _ (botStartingWords bot)) as [|w rest] eqn:Hs; cbn [hd_error].
  - apply (jsSort_nil_inv _ _ Hs).
  - split; [|split; [|reflexivity]].
    + apply (jsSort_In (fun a b => Rltb (baseScore bot a) (baseScore bot b))).
      rewrite Hs. left. reflexivity.
    + apply (jsSort_head_max (baseScore bot) _ w rest Hs).
Qed.

(** ** The guess selector always proposes a word *)

Lemma scoreWord_total bot w analysis candidates :
  exists s, scoreWord bot w analysis candidates = inr s.
Proof.
  unfold scoreWord. destruct analysis as [a|]; [|eexists; reflexivity].
  rewrite normalizeConstraints_total. cbn [bind]. eexists; reflexivity.
Qed.

Lemma mapM_scoreWord_total bot analysis candidates (g : word -> R -> R)
    (ws : list word) :
  exists scored,
    mapM (fun w => bind (scoreWord bot w analysis candidates)
                        (fun s => inr (w, g w s))) ws
    = inr scored /\
    map fst scored = ws.
Proof.
  induction ws as [|w ws IH].
  - exists []. split; reflexivity.
  - destruct IH as (scored & Hs & Hfst).
    destruct (scoreWord_total bot w analysis candidates) as [s Hw].
    exists ((w, g w s) :: scored). cbn [mapM]. rewrite Hw. cbn [bind].
    rewrite Hs. cbn [bind map fst]. split; [reflexivity|]. now rewrite Hfst.
Qed.

Lemma bestScored_Some scored :
  scored <> [] -> exists w, bestScored scored = Some w.
Proof.
  intros Hne. unfold bestScored, sortByScore.
  destruct (jsSort _ scored) as [|[w s] rest] eqn:Hs.
  - apply jsSort_nil_inv in Hs. contradiction.
  - exists w. reflexivity.
Qed.

Lemma getBestStartingWord_Some bot :
  botStartingWords bot <> [] ->
  exists w bot', getBestStartingWord bot = (Some w, bot').
Proof.
  intros Hne. unfold getBestStartingWord.
  destruct (jsSort _ (botStartingWords bot)) as [|w rest] eqn:Hs.
  - apply jsSort_nil_inv in Hs. contradiction.
  - do 2 eexists. reflexivity.
Qed.

Lemma enumerateCandidates_bot now net bot limit :
  botConfig (snd (enumerateCandidates now net bot limit)) = botConfig bot /\
  botStartingWords (snd (enumerateCandidates now net bot limit))
  = botStartingWords bot.
Proof.
  unfold enumerateCandidates.
  match goal with
  | |- context [validate now net bot ?ws] =>
      pose proof (validate_bot now net bot ws) as Hv;
      destruct (validate now net bot ws) as [valid bot1]
  end.
  exact Hv.
Qed.

Lemma filterWords_bot now net bot analysis wordList :
  exists result bot',
    filterWords now net bot analysis wordList = inr (result, bot') /\
    botConfig bot' = botConfig bot /\
    botStartingWords bot' = botStartingWords bot.
Proof.
  unfold filterWords. rewrite normalizeConstraints_total. cbn [bind].
  match goal with
  | |- context [validate now net bot ?ws] =>
      pose proof (validate_bot now net bot ws) as [Hb1 Hb2];
      destruct (validate now net bot ws) as [filteredWords bot1]
  end.
  cbn [snd] in Hb1, Hb2.
  destruct filteredWords as [|w0 rest].
  - match goal with
    | |- context [generateWordCombinations now net bot1 ?p analysis] =>
        pose proof (generateWordCombinations_bot now net bot1 p analysis)
          as [Hg1 Hg2];
        destruct (generateWordCombinations now net bot1 p analysis)
          as [result bot']
    end.
    cbn [snd] in Hg1, Hg2. exists result, bot'.
    repeat split; congruence.
  - exists (w0 :: rest), bot1. repeat split; assumption.
Qed.

Lemma scored_proposes bot analysis candidates (g : word -> R -> R)
    (ws : list word) (other : list (word * R) -> ConstraintError + (option word * Bot)) :
  ws <> [] ->
  (forall scored, scored <> [] ->
     exists w bot', other scored = inr (Some w, bot')) ->
  exists w bot',
    bind (mapM (fun w => bind (scoreWord bot w analysis candidates)
                              (fun s => inr (w, g w s))) ws) other
    = inr (Some w, bot').
Proof.
  intros Hne Hother.
  destruct (mapM_scoreWord_total bot analysis candidates g ws)
    as (scored & Hs & Hfst).
  rewrite Hs. cbn [bind]. apply Hother.
  intros ->. cbn [map] in Hfst. congruence.
Qed.

Lemma entropyStrategy_proposes bot analysis previousGuesses remainingWords
    availableWords :
  botStartingWords bot <> [] ->
  exists w bot',
    entropyStrategy bot analysis previousGuesses remainingWords availableWords
    = inr (Some w, bot').
Proof.
  intros Hstart. unfold entropyStrategy.
  set (top := filter _ (slice0 _ availableWords)).
  set (weight := if 50 <? length remainingWords then _ else _).
  destruct (mapM_scoreWord_total bot (Some analysis) (Some remainingWords)
              (fun w s => (entropyOf w remainingWords * weight
                           + s * (1 - weight))%R) top)
    as (scored & Hs & Hfst).
  rewrite Hs. cbn [bind].
  destruct scored as [|x scored].
  - destruct (getBestStartingWord_Some bot Hstart) as (w & bot' & E).
    rewrite E. eauto.
  - destruct (bestScored_Some (x :: scored)) as [w E]; [discriminate|].
    rewrite E. eauto.
Qed.

Lemma minimaxStrategy_proposes bot analysis previousGuesses remainingWords
    availableWords :
  botStartingWords bot <> [] ->
  exists w bot',
    minimaxStrategy bot analysis previousGuesses remainingWords availableWords
    = inr (Some w, bot').
Proof.
  intros Hstart. unfold minimaxStrategy.
  destruct (jsSort _ _) as [|[bestWord bestScore] rest] eqn:Hsort.
  - apply entropyStrategy_proposes, Hstart.
  - set (tied := map fst (filter _ ((bestWord, bestScore) :: rest))).
    destruct (1 <? length tied) eqn:Htied; [|eauto].
    apply Nat.ltb_lt in Htied.
    destruct (mapM_scoreWord_total bot (Some analysis) (Some remainingWords)
                (fun w s => (entropyOf w remainingWords * (7 / 10)
                             + s * (3 / 10))%R) tied)
      as (scored & Hs & Hfst).
    rewrite Hs. cbn [bind].
    destruct (bestScored_Some scored) as [w E].
    { intros ->. cbn [map] in Hfst. rewrite <- Hfst in Htied.
      cbn [length] in Htied. lia. }
    rewrite E. eauto.
Qed.

Lemma selectGuess_proposes now net bot analysis previousGuesses remainingWords :
  botStartingWords bot <> [] ->
  exists w bot',
    selectGuess now net bot analysis previousGuesses remainingWords
    = inr (Some w, bot').
Proof.
  intros Hstart. unfold selectGuess.
  pose proof (enumerateCandidates_bot now net bot 500) as [_ Hb].
  destruct (enumerateCandidates now net bot 500) as [allAvailable bot1].
  cbn [snd] in Hb. rewrite <- Hb in Hstart.
  destruct (length remainingWords <=? 2).
  - destruct (filter _ remainingWords) as [|w ws]; [|eauto].
    apply entropyStrategy_proposes, Hstart.
  - destruct (length remainingWords <=? 20).
    + apply minimaxStrategy_proposes, Hstart.
    + apply entropyStrategy_proposes, Hstart.
Qed.

Lemma beamFallback_proposes now net bot analysis previousGuesses :
  botStartingWords bot <> [] ->
  exists w bot',
    beamFallback now net bot analysis previousGuesses = inr (Some w, bot').
Proof.
  intros Hstart. unfold beamFallback.
  pose proof (enumerateCandidates_bot now net bot 300) as [_ Hb].
  destruct (enumerateCandidates now net bot 300) as [beam bot1].
  cbn [snd] in Hb. rewrite <- Hb in Hstart.
  destruct (filter (fun w => negb (includesWord previousGuesses w)
                             && matchesAnalysis analysis w) beam)
    as [|v vs].
  - destruct (filter (fun w => negb (includesWord previousGuesses w)
                               && looseMatch analysis w) beam)
      as [|l ls].
    + destruct (getBestStartingWord_Some bot1 Hstart) as (w & bot' & E).
      rewrite E. eauto.
    + destruct (mapM_scoreWord_total bot1 (Some analysis) (Some (l :: ls))
                  (fun _ s => s) (l :: ls)) as (scored & Hs & Hfst).
      rewrite Hs. cbn [bind].
      destruct (bestScored_Some scored) as [w E].
      { intros ->. discriminate Hfst. }
      rewrite E. eauto.
  - destruct (mapM_scoreWord_total bot1 (Some analysis) (Some (v :: vs))
                (fun _ s => s) (v :: vs)) as (scored & Hs & Hfst).
    rewrite Hs. cbn [bind].
    destruct (bestScored_Some scored) as [w E].
    { intros ->. discriminate Hfst. }
    rewrite E. eauto.
Qed.

(** X19. [generateNextGuess] always proposes a word: for an analysis whose
    letters match themselves as patterns, whatever the previous guesses, the
    candidate list, the answers of the dictionary APIs and the state of the
    cache, a bot with at least one starting word gets a word back, never
    [undefined] and never an exception (the error of [normalizeConstraints]
    cannot occur).  The dictionary batch size is at least one, so that
    validation ends. *)
Theorem generateNextGuess_always_proposes (now : Z) (net : Network) (bot : Bot)
    (analysis : GuessAnalysis) (previousGuesses : list word)
    (candidates : option (list word)) :
  literalAnalysis analysis = true ->
  botStartingWords bot <> [] ->
  1 <= batchSize (dictionary (botConfig bot)) ->
  exists w bot',
    generateNextGuess now net bot analysis previousGuesses candidates
    = inr (Some w, bot').
Proof.
  intros _ Hstart _. unfold generateNextGuess.
  assert (Hrem : exists remainingWords bot1,
            match candidates with
            | Some remainingWords => inr (remainingWords, bot)
            | None => filterWords now net bot analysis None
            end = inr (remainingWords, bot1) /\
            botStartingWords bot1 = botStartingWords bot).
  { destruct candidates as [given|]; [eauto|].
    destruct (filterWords_bot now net bot analysis None)
      as (result & bot' & E & _ & Hb). eauto. }
  destruct Hrem as (remainingWords & bot1 & -> & Hb). cbn [bind].
  rewrite <- Hb in Hstart.
  destruct (length remainingWords =? 0).
  - apply beamFallback_proposes, Hstart.
  - apply selectGuess_proposes, Hstart.
Qed.

Lemma generateNextGuess_always_proposes_witness :
  exists w bot',
    generateNextGuess 0%Z alwaysFound (newBot config)
      (analyzeResults (str "ARISE") [Present; Absent; Absent; Present; Absent])
      [str "ARISE"] None
    = inr (Some w, bot').
Proof.
  apply (generateNextGuess_always_proposes 0%Z alwaysFound (newBot config)
           (analyzeResults (str "ARISE")
              [Present; Absent; Absent; Present; Absent])
           [str "ARISE"] None).
  - reflexivity.
  - discriminate.
  - simpl. lia.
Defined.

(** ** The words that the generators produce *)

Lemma count_occ_remove_middle (a b : list word) (x w : word) :
  count_occ (@eq_dec word _) (a ++ x :: b) w
  = count_occ (@eq_dec word _) (a ++ b) w + (if eq_dec x w then 1 else 0).
Proof.
  rewrite !count_occ_app. cbn [count_occ]. destruct (eq_dec x w); lia.
Qed.

Lemma count_le_length : forall l1 l2 : list word,
  (forall w, count_occ (@eq_dec word _) l1 w <= count_occ (@eq_dec word _) l2 w) ->
  length l1 <= length l2.
Proof.
  induction l1 as [|x l1 IH]; intros l2 Hc; [cbn [length]; lia|].
  assert (Hx : In x l2).
  { apply (count_occ_In (@eq_dec word _)). specialize (Hc x).
    cbn [count_occ] in Hc. destruct (eq_dec x x); [lia|congruence]. }
  apply in_split in Hx. destruct Hx as (a & b & ->).
  specialize (IH (a ++ b)). rewrite length_app in *. cbn [length].
  assert (length l1 <= length a + length b); [|lia].
  apply IH. intros w. specialize (Hc w).
  rewrite count_occ_remove_middle in Hc. cbn [count_occ] in Hc.
  destruct (eq_dec x w); lia.
Qed.

Lemma validate_length now net bot words :
  1 <= batchSize (dictionary (botConfig bot)) ->
  length (fst (validate now net bot words)) <= length words.
Proof.
  intros Hsize. apply count_le_length. intros w. unfold validate.
  pose proof (validateWords_incl now net (dictionary (botConfig bot))
                (dictionaryService bot) words) as _.
  destruct (validateWords now net (dictionary (botConfig bot))
              (dictionaryService bot) words) as [valid d] eqn:Hv.
  cbn [fst].
  replace valid
    with (fst (validateWords now net (dictionary (botConfig bot))
                 (dictionaryService bot) words)) by (rewrite Hv; reflexivity).
  unfold validateWords. cbn [fst].
  etransitivity; [apply validateBatches_count|]. cbn [validWords count_occ].
  rewrite (batchesOf_concat _ Hsize) by lia. lia.
Qed.

Lemma JsMap_In_get_some {K V : Type} `{EqDec K} (m : list (K * V)) k v :
  In (k, v) m -> exists v', JsMap.get m k = Some v'.
Proof.
  induction m as [|[k1 v1] m IH]; [intros []|].
  cbn [JsMap.get]. destruct (eq_dec k k1); [eauto|].
  intros [E|Hin]; [injection E as -> _; congruence | apply IH, Hin].
Qed.

Lemma isPossiblePrefix_vowel bot (partial : word) :
  isPossiblePrefix bot partial = true ->
  3 <= length partial ->
  existsb (isVowel bot) partial = true.
Proof.
  unfold isPossiblePrefix. intros Hp Hlen.
  replace (3 <=? length partial) with true in Hp
    by (symmetry; apply Nat.leb_le; exact Hlen).
  destruct (existsb (isVowel bot) partial); [reflexivity|discriminate Hp].
Qed.

Lemma In_slice0 {A : Type} (n : nat) (l : list A) x :
  In x (slice0 n l) -> In x l.
Proof.
  unfold slice0. intros Hin. rewrite <- (firstn_skipn n l).
  apply in_or_app. left. exact Hin.
Qed.

(** One round of the beam search. *)
Lemma extendBeam_inv bot pos (beam : list (word * nat)) :
  Forall (fun ps => length (fst ps) = pos /\
                    (forall i ch, nth_error (fst ps) i = Some ch ->
                                  seenAt bot i ch)) beam ->
  length (extendBeam bot pos beam) <= 100 /\
  Forall (fun ps => length (fst ps) = S pos /\
                    isPossiblePrefix bot (fst ps) = true /\
                    (forall i ch, nth_error (fst ps) i = Some ch ->
                                  seenAt bot i ch))
         (extendBeam bot pos beam).
Proof.
  intros Hbeam. unfold extendBeam.
  split; [unfold slice0; apply firstn_le_length|].
  apply Forall_forall. intros [partial score] Hin.
  apply In_slice0, jsSort_In in Hin.
  apply in_flat_map in Hin. destruct Hin as ([p0 s0] & Hps & Hin).
  apply in_flat_map in Hin. destruct Hin as ([ch n] & Hcf & Hin).
  cbn [fst] in Hin.
  destruct (isPossiblePrefix bot (p0 ++ [ch])) eqn:Hpre; [|destruct Hin].
  destruct Hin as [E|[]]. injection E as <- _.
  rewrite Forall_forall in Hbeam. destruct (Hbeam _ Hps) as [Hlen Hseen].
  cbn [fst] in *. split; [|split; [exact Hpre|]].
  - rewrite length_app. cbn [length]. lia.
  - intros i c Hi.
    destruct (Nat.lt_ge_cases i (length p0)) as [Hlt|Hge].
    + rewrite nth_error_app1 in Hi by exact Hlt. apply Hseen, Hi.
    + rewrite nth_error_app2 in Hi by exact Hge.
      destruct (i - length p0) as [|k] eqn:Hk;
        [|destruct k; discriminate Hi].
      cbn [nth_error] in Hi. injection Hi as <-.
      assert (i = pos) as -> by lia.
      destruct (JsMap.get (positionFrequencies bot) pos) as [freq|] eqn:Hfreq;
        [|destruct Hcf].
      destruct (JsMap_In_get_some freq ch n Hcf) as [n' Hn'].
      exists freq, n'. auto.
Qed.

Lemma beam_search_inv bot :
  let beam := for_loop (wordLength (botConfig bot)) (extendBeam bot) [([], 0)] in
  length beam <= 100 /\
  Forall (fun ps => length (fst ps) = wordLength (botConfig bot) /\
                    (3 <= wordLength (botConfig bot) ->
                     existsb (isVowel bot) (fst ps) = true) /\
                    (forall i ch, nth_error (fst ps) i = Some ch ->
                                  seenAt bot i ch)) beam.
Proof.
  cbv zeta.
  apply (for_loop_inv
           (fun pos beam =>
              length beam <= 100 /\
              Forall (fun ps => length (fst ps) = pos /\
                                (3 <= pos -> existsb (isVowel bot) (fst ps) = true) /\
                                (forall i ch, nth_error (fst ps) i = Some ch ->
                                              seenAt bot i ch)) beam)).
  - split; [cbn [length]; lia|]. constructor; [|constructor].
    cbn [fst length]. split; [reflexivity|]. split; [lia|].
    intros [|i] ch Hi; discriminate Hi.
  - intros pos beam _ [_ Hbeam].
    destruct (extendBeam_inv bot pos beam) as [Hlen Hnext].
    { eapply Forall_impl; [|exact Hbeam]. cbv beta. tauto. }
    split; [exact Hlen|].
    eapply Forall_impl; [|exact Hnext]. cbv beta.
    intros ps (Hl & Hp & Hs). split; [exact Hl|]. split; [|exact Hs].
    intros H3. apply isPossiblePrefix_vowel; [exact Hp | lia].
Qed.

(** X20. The words of [enumerateCandidates].  For a batch size of at least
    one, the beam search returns at most [limit] and at most 100 words; every
    one has exactly [wordLength] letters, each of them a letter recorded for
    its position in [positionFrequencies], and contains a vowel when
    [wordLength] is at least 3. *)
Theorem enumerateCandidates_words (now : Z) (net : Network) (bot : Bot)
    (limit : nat) :
  1 <= batchSize (dictionary (botConfig bot)) ->
  length (fst (enumerateCandidates now net bot limit)) <= Nat.min limit 100 /\
  Forall (fun w => length w = wordLength (botConfig bot) /\
                   (3 <= wordLength (botConfig bot) ->
                    existsb (isVowel bot) w = true) /\
                   (forall i ch, nth_error w i = Some ch -> seenAt bot i ch))
         (fst (enumerateCandidates now net bot limit)).
Proof.
  intros Hsize. unfold enumerateCandidates.
  destruct (beam_search_inv bot) as [Hlen Hbeam].
  set (beam := for_loop (wordLength (botConfig bot)) (extendBeam bot) [([], 0)])
    in *.
  pose proof (validate_incl now net bot (map fst beam)) as Hincl.
  pose proof (validate_length now net bot (map fst beam) Hsize) as Hvlen.
  destruct (validate now net bot (map fst beam)) as [valid bot1].
  cbn [fst] in *. rewrite length_map in Hvlen. split.
  - unfold slice0. pose proof (firstn_le_length limit valid).
    pose proof (length_firstn limit valid) as E. lia.
  - apply Forall_forall. intros w Hw. apply In_slice0, Hincl in Hw.
    apply in_map_iff in Hw. destruct Hw as (ps & <- & Hps).
    rewrite Forall_forall in Hbeam. apply Hbeam, Hps.
Qed.

Lemma enumerateCandidates_words_witness :
  length (fst (enumerateCandidates 0%Z alwaysFound (newBot config) 300))
  <= Nat.min 300 100 /\
  Forall (fun w => length w = wordLength (botConfig (newBot config)) /\
                   (3 <= wordLength (botConfig (newBot config)) ->
                    existsb (isVowel (newBot config)) w = true) /\
                   (forall i ch, nth_error w i = Some ch ->
                                 seenAt (newBot config) i ch))
         (fst (enumerateCandidates 0%Z alwaysFound (newBot config) 300)).
Proof.
  apply (enumerateCandidates_words 0%Z alwaysFound (newBot config) 300).
  simpl. lia.
Defined.

(** X21. The words that [generateWordCombinations] synthesizes.  For a batch
    size of at least one it returns at most five words, and every one has
    exactly [wordLength] letters, has the known letter at each position
    recorded in [analysis.positions], contains every present letter and no
    absent letter, and contains one of the vowels A, E, I, O, U. *)
Theorem generateWordCombinations_words (now : Z) (net : Network) (bot : Bot)
    (pattern : list (option ascii)) (analysis : GuessAnalysis) :
  1 <= batchSize (dictionary (botConfig bot)) ->
  length (fst (generateWordCombinations now net bot pattern analysis)) <= 5 /\
  Forall (fun w =>
            length w = wordLength (botConfig bot) /\
            (forall pos char, In (pos, char) (positions analysis) ->
                              nth_error w pos = Some char) /\
            (forall char, In char (present analysis) -> In char w) /\
            (forall char, In char (absent analysis) -> ~ In char w) /\
            exists v, In v w /\ In v (str "AEIOU"))
         (fst (generateWordCombinations now net bot pattern analysis)).
Proof.
  intros Hsize. unfold generateWordCombinations.
  set (possibleWords := filter _ (map _ _)).
  pose proof (validate_incl now net bot possibleWords) as Hincl.
  pose proof (validate_length now net bot possibleWords Hsize) as Hvlen.
  split.
  - etransitivity; [exact Hvlen|]. unfold possibleWords.
    etransitivity; [apply filter_length_le|]. rewrite length_map.
    cbn [length]. lia.
  - apply Forall_forall. intros w Hw. apply Hincl in Hw.
    unfold possibleWords in Hw. apply filter_In in Hw. destruct Hw as [_ Hw].
    apply andb_true_iff in Hw. destruct Hw as [Hlen Hvalid].
    apply Nat.eqb_eq in Hlen. split; [exact Hlen|].
    unfold isValidCandidate in Hvalid.
    repeat (apply andb_true_iff in Hvalid; destruct Hvalid as [Hvalid ?]).
    rename H into Hvowel, H0 into Habsent, H1 into Hpresent.
    rewrite forallb_forall in Hvalid, Hpresent, Habsent.
    repeat split.
    + intros pos char Hin. specialize (Hvalid _ Hin). cbn [fst snd] in Hvalid.
      apply eqb_true in Hvalid. exact Hvalid.
    + intros char Hin. specialize (Hpresent _ Hin). unfold includes in Hpresent.
      destruct (in_dec ascii_dec char w); [assumption|discriminate].
    + intros char Hin Hw'. specialize (Habsent _ Hin). unfold includes in Habsent.
      destruct (in_dec ascii_dec char w); [discriminate|contradiction].
    + apply existsb_exists in Hvowel. destruct Hvowel as (v & Hv & Hinc).
      exists v. split; [exact Hv|]. unfold includes in Hinc.
      destruct (in_dec ascii_dec v (str "AEIOU")); [assumption|discriminate].
Qed.

Lemma generateWordCombinations_words_witness :
  length (fst (generateWordCombinations 0%Z alwaysFound (newBot config)
                 (repeat None 5) emptyAnalysis)) <= 5 /\
  Forall (fun w =>
            length w = wordLength (botConfig (newBot config)) /\
            (forall pos char, In (pos, char) (positions emptyAnalysis) ->
                              nth_error w pos = Some char) /\
            (forall char, In char (present emptyAnalysis) -> In char w) /\
            (forall char, In char (absent emptyAnalysis) -> ~ In char w) /\
            exists v, In v w /\ In v (str "AEIOU"))
         (fst (generateWordCombinations 0%Z alwaysFound (newBot config)
                 (repeat None 5) emptyAnalysis)).
Proof.
  apply (generateWordCombinations_words 0%Z alwaysFound (newBot config)
           (repeat None 5) emptyAnalysis).
  simpl. lia.
Defined.

(** ** The strict matcher of the beam fallback and the secret *)

Lemma feedback_knownCount guess : forall (p : list Mark) ch,
  knownCount (feedback guess (map resultOfMark p)) ch
  = countMark Green ch guess p + countMark Yellow ch guess p.
Proof.
  unfold knownCount, feedback, countMark.
  induction guess as [|g guess IH]; intros [|mk p] ch; try reflexivity.
  cbn [map combine filter fst snd]. specialize (IH p ch).
  destruct (eqb g ch); cbn [andb]; [|exact IH].
  destruct mk; cbn [resultOfMark isCorrectOrPresent eqb]; simpl; lia.
Qed.

Lemma firstResult_In fb ch r :
  firstResult fb ch = Some r -> In (ch, r) fb.
Proof.
  unfold firstResult.
  destruct (find (fun gr => eqb (fst gr) ch) fb) as [[g r0]|] eqn:Hfind;
    [|discriminate].
  cbn [option_map snd]. intros E. injection E as ->.
  apply find_some in Hfind. destruct Hfind as [Hin Hg]. cbn [fst] in Hg.
  apply eqb_true in Hg. now subst g.
Qed.

Lemma In_firstResult fb ch r :
  In (ch, r) fb -> firstResult fb ch <> None.
Proof.
  unfold firstResult. intros Hin Hnone.
  destruct (find (fun gr => eqb (fst gr) ch) fb) eqn:Hfind; [discriminate|].
  apply (find_none _ _ Hfind) in Hin. cbn [fst] in Hin.
  rewrite eqb_refl in Hin. discriminate.
Qed.

Lemma buildLetterCount_keys entries : forall counts,
  NoDup (map fst counts) ->
  NoDup (map fst (fold_left buildLetterCount entries counts)).
Proof.
  induction entries as [|[c info] entries IH]; intros counts Hnd; [exact Hnd|].
  cbn [fold_left]. apply IH. unfold buildLetterCount.
  destruct (_ && _ && _); destruct (_ || _);
    repeat apply JsMap_set_keys_NoDup; exact Hnd.
Qed.

Lemma collectResult_letterCounts_keys fb0
    (l : list (nat * (ascii * ResultKind))) :
  NoDup (map fst (letterCounts (fold_left (collectResult fb0) l emptyAnalysis))).
Proof.
  apply (fold_left_prefix_inv (fun _ a => NoDup (map fst (letterCounts a)))).
  - constructor.
  - intros pre [i [g r]] a Hnd. unfold collectResult.
    destruct r; cbn [letterCounts]; [exact Hnd| |].
    + destruct (JsMap.has (letterCounts a) g);
        [exact Hnd | apply JsMap_set_keys_NoDup, Hnd].
    + destruct (_ && _); cbn [letterCounts];
        [exact Hnd | apply JsMap_set_keys_NoDup, Hnd].
Qed.

Lemma analyzeResults_letterCounts_keys guess results :
  NoDup (map fst (letterCounts (analyzeResults guess results))).
Proof.
  unfold analyzeResults. cbn [letterCounts].
  apply buildLetterCount_keys, collectResult_letterCounts_keys.
Qed.

Section OwnFeedback.
Variables guess secret : word.

Let p := computePattern guess secret.
Let fb := feedback guess (feedbackFor guess secret).
Let a := analyzeResults guess (feedbackFor guess secret).

Lemma known_le_secret ch : knownCount fb ch <= count_occ ascii_dec secret ch.
Proof.
  unfold fb, feedbackFor. rewrite feedback_knownCount.
  rewrite computePattern_coloured. lia.
Qed.

Lemma unknown_letter_absent ch r :
  In (ch, r) fb -> knownCount fb ch = 0 -> count_occ ascii_dec secret ch = 0.
Proof.
  unfold fb, feedbackFor. intros Hin Hk.
  rewrite feedback_knownCount, computePattern_coloured in Hk.
  apply feedback_In in Hin. destruct Hin as (mk & Hin & _).
  apply in_combine_l in Hin. apply (count_occ_In ascii_dec) in Hin. lia.
Qed.

Lemma hit_letter_known ch r :
  In (ch, r) fb -> isCorrectOrPresent r = true -> 0 < knownCount fb ch.
Proof.
  intros Hin Hr. unfold knownCount.
  assert (Hf : In (ch, r)
                 (filter (fun gr => eqb (fst gr) ch && isCorrectOrPresent (snd gr))
                         fb)).
  { apply filter_In. split; [exact Hin|]. cbn [fst snd].
    now rewrite eqb_refl, Hr. }
  destruct (filter _ fb); [destruct Hf | cbn [length]; lia].
Qed.

Lemma secret_matches : matchesAnalysis a secret = true.
Proof.
  destruct (analyzeResults_sets_closed guess (feedbackFor guess secret))
    as (Hcorrect & Hpresent & Habsent & Hpos).
  fold a fb in Hcorrect, Hpresent, Habsent, Hpos.
  unfold matchesAnalysis.
  repeat (apply andb_true_iff; split); apply forallb_forall.
  - (* present letters occur in the secret *)
    intros ch Hch. apply Hpresent in Hch.
    pose proof (hit_letter_known ch Present Hch eq_refl).
    pose proof (known_le_secret ch).
    unfold includes. destruct (in_dec ascii_dec ch secret) as [|Hn];
      [reflexivity|].
    apply (count_occ_not_In ascii_dec) in Hn. lia.
  - (* absent letters without a hit do not *)
    intros ch Hch. apply negb_true_iff.
    destruct (JsSet.has (present a) ch) eqn:Hp; [reflexivity|].
    destruct (JsSet.has (correct a) ch) eqn:Hc; [reflexivity|].
    cbn [negb andb]. apply JsSetFacts.has_false in Hp, Hc.
    apply Habsent in Hch. apply firstResult_In in Hch.
    assert (Hk : knownCount fb ch = 0).
    { destruct (knownCount fb ch) eqn:Hk; [reflexivity|]. exfalso.
      assert (Hhit : 0 < knownCount fb ch) by lia.
      unfold knownCount in Hhit.
      destruct (filter (fun gr => eqb (fst gr) ch && isCorrectOrPresent (snd gr)) fb)
        as [|[g r] l] eqn:Hf; [cbn [length] in Hhit; lia|].
      assert (Hin : In (g, r)
                      (filter (fun gr => eqb (fst gr) ch
                                         && isCorrectOrPresent (snd gr)) fb))
        by (rewrite Hf; left; reflexivity).
      apply filter_In in Hin. destruct Hin as [Hin Hb]. cbn [fst snd] in Hb.
      apply andb_true_iff in Hb. destruct Hb as [Hg Hr].
      apply eqb_true in Hg. subst g.
      destruct r; [apply Hc, Hcorrect, Hin | apply Hp, Hpresent, Hin
                  | discriminate Hr]. }
    pose proof (unknown_letter_absent ch Absent Hch Hk) as H0.
    unfold includes. destruct (in_dec ascii_dec ch secret) as [Hin|];
      [|reflexivity].
    apply (count_occ_In ascii_dec) in Hin. lia.
  - (* the known positions *)
    intros [i ch] Hin. cbn [fst snd].
    assert (Hget : nth_error fb i = Some (ch, Correct)).
    { apply Hpos. apply JsMap_In_get;
        [apply analyzeResults_positions_NoDup | exact Hin]. }
    unfold fb, feedbackFor in Hget. apply feedback_nth in Hget.
    destruct Hget as (mk & Hg & Hp & Hr). destruct mk; try discriminate Hr.
    apply computePattern_green in Hp. destruct Hp as [_ Hp].
    apply eqb_true. congruence.
  - (* the letter counts *)
    intros [ch lc] Hin. cbn [fst snd].
    apply (JsMap_In_get _ _ _ (analyzeResults_letterCounts_keys guess
                                 (feedbackFor guess secret))) in Hin.
    rewrite analyzeResults_letterCounts_closed in Hin. fold fb in Hin.
    destruct (firstResult fb ch) as [r|] eqn:Hfirst; [|discriminate].
    apply firstResult_In in Hfirst.
    injection Hin as <-. unfold matchCount.
    destruct (0 <? knownCount fb ch) eqn:Hk; cbn [lcMin lcMax].
    + pose proof (known_le_secret ch). rewrite andb_true_r.
      apply negb_true_iff, Nat.ltb_ge. lia.
    + apply Nat.ltb_ge in Hk.
      rewrite (unknown_letter_absent ch r Hfirst) by lia. reflexivity.
Qed.

End OwnFeedback.

(** X22. The strict matcher of the beam fallback is sound: for every guess
    made of characters that match themselves as patterns and every secret,
    the secret satisfies [matchesAnalysis] (and therefore the looser test)
    for the analysis of its own feedback.  Unlike the predicate of
    [filterWords], it never rejects the word that is looked for. *)
Theorem matchesAnalysis_accepts_secret (guess secret : word) :
  forallb literalChar guess = true ->
  matchesAnalysis (analyzeResults guess (feedbackFor guess secret)) secret
  = true /\
  looseMatch (analyzeResults guess (feedbackFor guess secret)) secret = true.
Proof.
  intros _.
  pose proof (secret_matches guess secret) as Hm. split; [exact Hm|].
  unfold matchesAnalysis in Hm.
  repeat (apply andb_true_iff in Hm; destruct Hm as [Hm ?]).
  unfold looseMatch. apply andb_true_iff. split; [exact Hm|].
  rewrite forallb_forall in *. intros ch Hch.
  match goal with
  | Habs : forall x, In x (absent _) -> _ |- _ => specialize (Habs ch Hch)
  end.
  destruct (JsSet.has _ ch); [reflexivity|].
  destruct (JsSet.has _ ch); [reflexivity|].
  cbn [negb andb orb] in *. assumption.
Qed.

Lemma matchesAnalysis_accepts_secret_witness :
  matchesAnalysis
    (analyzeResults (str "STARE") (feedbackFor (str "STARE") (str "CRANE")))
    (str "CRANE") = true /\
  looseMatch
    (analyzeResults (str "STARE") (feedbackFor (str "STARE") (str "CRANE")))
    (str "CRANE") = true.
Proof.
  apply (matchesAnalysis_accepts_secret (str "STARE") (str "CRANE")).
  reflexivity.
Defined.

(** ** The frequency tables of a new bot *)

Lemma countLetter_fold (l : word) : forall freq ch,
  cnt (fold_left countLetter l freq) ch = cnt freq ch + count_occ ascii_dec l ch.
Proof.
  induction l as [|x l IH]; intros freq ch; cbn [fold_left count_occ]; [lia|].
  rewrite IH. unfold countLetter. fold (cnt freq x).
  destruct (ascii_dec x ch) as [->|Hne].
  - rewrite cnt_set_eq. lia.
  - rewrite cnt_set_neq by congruence. lia.
Qed.

Lemma commonLetters_fold (l : list (nat * ascii)) : forall freq ch,
  cnt (fold_left
         (fun freq il =>
            let '(index, letter) := il in
            if truthy (JsMap.get freq letter)
            then JsMap.set freq letter
                   (js_or (JsMap.get freq letter) 0 + (10 - index))
            else freq) l freq) ch
  = if cnt freq ch =? 0 then 0
    else cnt freq ch
         + list_sum (map (fun il => if eqb (snd il) ch then 10 - fst il else 0) l).
Proof.
  induction l as [|[index letter] l IH]; intros freq ch;
    cbn [fold_left map list_sum fst snd].
  - cbn [list_sum fold_right].
    destruct (cnt freq ch =? 0) eqn:E; [apply Nat.eqb_eq in E|]; lia.
  - rewrite IH. fold (cnt freq letter). cbn [list_sum fold_right].
    assert (Htruthy : truthy (JsMap.get freq letter)
                      = negb (cnt freq letter =? 0)).
    { unfold truthy, cnt, js_or.
      destruct (JsMap.get freq letter) as [[|k]|]; reflexivity. }
    rewrite Htruthy.
    destruct (ascii_dec letter ch) as [->|Hne].
    + rewrite eqb_refl.
      destruct (cnt freq ch =? 0) eqn:E; cbn [negb].
      * rewrite E. reflexivity.
      * rewrite cnt_set_eq. apply Nat.eqb_neq in E.
        replace (cnt freq ch + (10 - index) =? 0) with false
          by (symmetry; apply Nat.eqb_neq; lia).
        unfold list_sum. lia.
    + replace (eqb letter ch) with false
        by (symmetry; apply eqb_false; exact Hne).
      destruct (negb (cnt freq letter =? 0));
        rewrite ?cnt_set_neq by congruence; reflexivity.
Qed.

Lemma letterFrequencies_fold (l : list (nat * ascii)) (letters : word)
    (ch : ascii) :
  js_or
    (JsMap.get
       (fold_left
          (fun freq il =>
             let '(index, letter) := il in
             if truthy (JsMap.get freq letter)
             then JsMap.set freq letter
                    (js_or (JsMap.get freq letter) 0 + (10 - index))
             else freq) l (fold_left countLetter letters [])) ch) 0
  = let occurrences := count_occ ascii_dec letters ch in
    if occurrences =? 0 then 0
    else occurrences
         + list_sum (map (fun il => if eqb (snd il) ch then 10 - fst il else 0) l).
Proof.
  match goal with
  | |- js_or (JsMap.get ?m ch) 0 = ?rhs => change (cnt m ch = rhs)
  end.
  rewrite commonLetters_fold, countLetter_fold.
  unfold cnt. cbn [JsMap.get js_or Nat.add]. reflexivity.
Qed.

Lemma calculateLetterFrequencies_unfold (startingWords : list word) :
  calculateLetterFrequencies startingWords
  = fold_left
      (fun freq il =>
         let '(index, letter) := il in
         if truthy (JsMap.get freq letter)
         then JsMap.set freq letter
                (js_or (JsMap.get freq letter) 0 + (10 - index))
         else freq)
      (indexed (str "EARIOTNSLC"))
      (fold_left countLetter (concat startingWords) []).
Proof. reflexivity. Qed.

Lemma commonLetterBonus_unfold (ch : ascii) :
  commonLetterBonus ch
  = list_sum
      (map (fun il => if eqb (snd il) ch then 10 - fst il else 0)
           (indexed (str "EARIOTNSLC"))).
Proof. reflexivity. Qed.

(** X23. The letter frequencies of a bot count the letters of the starting
    words: the entry of a letter is the number of its occurrences in all
    starting words together, plus the bonus of the letter when it is one of
    the ten common letters; a letter that occurs in no starting word has no
    score, common or not. *)
Theorem calculateLetterFrequencies_counts (startingWords : list word)
    (ch : ascii) :
  js_or (JsMap.get (calculateLetterFrequencies startingWords) ch) 0
  = let occurrences := count_occ ascii_dec (concat startingWords) ch in
    if occurrences =? 0 then 0 else occurrences + commonLetterBonus ch.
Proof.
  rewrite calculateLetterFrequencies_unfold, commonLetterBonus_unfold.
  apply letterFrequencies_fold.
Qed.

Example commonLetterBonus_table :
  map commonLetterBonus (str "EARIOTNSLCUDZ")
  = [10; 9; 8; 7; 6; 5; 4; 3; 2; 1; 0; 0; 0].
Proof. reflexivity. Qed.

Lemma positionCount_fold i ch (ws : list word) : forall freq,
  cnt (fold_left
         (fun freq w =>
            match nth_error w i with
            | Some char => countLetter freq char
            | None => freq
            end) ws freq) ch
  = cnt freq ch
    + length (filter (fun w => eqb (nth_error w i) (Some ch)) ws).
Proof.
  induction ws as [|w ws IH]; intros freq; cbn [fold_left filter length]; [lia|].
  rewrite IH. destruct (nth_error w i) as [c|].
  - unfold countLetter. fold (cnt freq c).
    destruct (ascii_dec c ch) as [->|Hne].
    + rewrite cnt_set_eq, eqb_refl. cbn [length]. lia.
    + rewrite cnt_set_neq by congruence.
      replace (eqb (Some c) (Some ch)) with false
        by (symmetry; apply eqb_false; congruence).
      lia.
  - replace (eqb None (Some ch)) with false by reflexivity. lia.
Qed.

Lemma initPositionFrequencies_get n (ws : list word) i :
  JsMap.get (initPositionFrequencies n ws) i
  = if i <? n
    then Some (fold_left
                 (fun freq w =>
                    match nth_error w i with
                    | Some char => countLetter freq char
                    | None => freq
                    end) ws [])
    else None.
Proof.
  unfold initPositionFrequencies.
  apply (for_loop_inv
           (fun k posFreq =>
              JsMap.get posFreq i
              = if i <? k
                then Some (fold_left
                             (fun freq w =>
                                match nth_error w i with
                                | Some char => countLetter freq char
                                | None => freq
                                end) ws [])
                else None)).
  - reflexivity.
  - intros k posFreq _ IH.
    destruct (Nat.eq_dec i k) as [->|Hne].
    + rewrite JsMapFacts.get_set_eq.
      replace (k <? S k) with true by (symmetry; apply Nat.ltb_lt; lia).
      reflexivity.
    + rewrite JsMapFacts.get_set_neq by exact Hne. rewrite IH.
      destruct (i <? k) eqn:E1; destruct (i <? S k) eqn:E2; try reflexivity;
        [apply Nat.ltb_lt in E1; apply Nat.ltb_ge in E2
        |apply Nat.ltb_ge in E1; apply Nat.ltb_lt in E2]; lia.
Qed.

(** X24. The position frequencies of a new bot count the starting words
    position by position: the score of a letter at a position below
    [wordLength] is the number of starting words that have this letter at
    this position, and it is 0 at the other positions. *)
Theorem positionScore_counts (cfg : BotConfig) (i : nat) (ch : ascii) :
  positionScore (newBot cfg) i ch
  = if i <? wordLength cfg
    then length (filter (fun w => eqb (nth_error w i) (Some ch))
                        (startingWords cfg))
    else 0.
Proof.
  unfold positionScore, newBot. cbn [positionFrequencies].
  rewrite initPositionFrequencies_get.
  destruct (i <? wordLength cfg); [|reflexivity].
  match goal with
  | |- js_or (JsMap.get ?m ch) 0 = _ => fold (cnt m ch)
  end.
  rewrite positionCount_fold. reflexivity.
Qed.

(** ** Playing a game *)

Section GameFacts.
Variable W : Type.
Variable clock : W -> Z.
Variable dictionaryApis : W -> Network.
Variable gameApi : W -> GuessRequest -> option (list ResultKind) * W.
Variable delay : Z -> W -> W.
Variable retries : nat.
Variable delayBetweenGuesses : Z.

(** The attempts of a game are counted by its lists of guesses and of
    results. *)
Lemma playRounds_attempts gameType size seed : forall remaining attempt bot w
    currentGuess gd,
  S (gdAttempts gd) = attempt ->
  length (gdGuesses gd) = gdAttempts gd ->
  length (gdResults gd) = gdAttempts gd ->
  let gd' := fst (fst (playRounds W clock dictionaryApis gameApi delay retries
                         delayBetweenGuesses gameType size seed remaining
                         attempt bot w currentGuess gd)) in
  gdAttempts gd' <= gdAttempts gd + remaining /\
  length (gdGuesses gd') = gdAttempts gd' /\
  length (gdResults gd') = gdAttempts gd'.
Proof.
  induction remaining as [|remaining IH];
    intros attempt bot w currentGuess gd Hatt Hg Hr; cbv zeta.
  - cbn [playRounds fst]. split; [lia|]. split; assumption.
  - cbn [playRounds].
    destruct (makeGuess W gameApi delay retries w currentGuess gameType size seed)
      as [[result|] w1].
    2:{ cbn [fst withError gdAttempts gdGuesses gdResults].
        split; [lia|]. split; assumption. }
    set (gd1 := recordAttempt gd currentGuess result attempt).
    assert (H1 : gdAttempts gd1 = attempt /\
                 length (gdGuesses gd1) = attempt /\
                 length (gdResults gd1) = attempt).
    { unfold gd1. cbn [recordAttempt gdAttempts gdGuesses gdResults].
      rewrite !length_app. cbn [length]. lia. }
    destruct H1 as (Ha1 & Hg1 & Hr1).
    assert (Hstop : gdAttempts gd1 <= gdAttempts gd + S remaining /\
                    length (gdGuesses gd1) = gdAttempts gd1 /\
                    length (gdResults gd1) = gdAttempts gd1) by lia.
    destruct (negb (displayResults currentGuess result)); [exact Hstop|].
    destruct (checkWin result); [exact Hstop|].
    destruct currentGuess as [guess|]; [|exact Hstop].
    destruct (generateNextGuess _ _ _ _ _ _) as [e|[nextGuess bot1]];
      [exact Hstop|].
    destruct (noGuess nextGuess); [exact Hstop|].
    specialize (IH (S attempt) bot1 (delay delayBetweenGuesses w1) nextGuess gd1).
    cbv zeta in IH. destruct IH as (Hle & Hg' & Hr'); lia.
Qed.

(** A game is marked as won only at the attempt whose result passes
    [checkWin], and no attempt is made after that. *)
Lemma playRounds_success gameType size seed : forall remaining attempt bot w
    currentGuess gd,
  gdSuccess gd = false ->
  gdError gd = None ->
  Forall (fun r => checkWin r = false) (gdResults gd) ->
  let gd' := fst (fst (playRounds W clock dictionaryApis gameApi delay retries
                         delayBetweenGuesses gameType size seed remaining
                         attempt bot w currentGuess gd)) in
  (gdSuccess gd' = true ->
   gdError gd' = None /\
   exists rs r,
     gdResults gd' = rs ++ [r] /\ checkWin r = true /\
     Forall (fun r' => checkWin r' = false) rs) /\
  (gdSuccess gd' = false -> gdError gd' = None ->
   Forall (fun r => checkWin r = false) (gdResults gd')).
Proof.
  induction remaining as [|remaining IH];
    intros attempt bot w currentGuess gd Hs He Hlost; cbv zeta.
  - cbn [playRounds fst]. split; [congruence|auto].
  - cbn [playRounds].
    destruct (makeGuess W gameApi delay retries w currentGuess gameType size seed)
      as [[result|] w1].
    2:{ cbn [fst withError gdSuccess gdError]. split; [congruence|discriminate]. }
    set (gd1 := recordAttempt gd currentGuess result attempt).
    assert (Herr : forall e,
              (gdSuccess (withError gd1 e) = true ->
               gdError (withError gd1 e) = None /\
               exists rs r,
                 gdResults (withError gd1 e) = rs ++ [r] /\ checkWin r = true /\
                 Forall (fun r' => checkWin r' = false) rs) /\
              (gdSuccess (withError gd1 e) = false ->
               gdError (withError gd1 e) = None ->
               Forall (fun r => checkWin r = false)
                      (gdResults (withError gd1 e)))).
    { intros e. cbn [withError gdSuccess gdError recordAttempt gd1].
      split; [congruence|discriminate]. }
    destruct (negb (displayResults currentGuess result)); [apply Herr|].
    destruct (checkWin result) eqn:Hwin.
    { cbn [fst withSuccess gdSuccess gdError gdResults recordAttempt gd1].
      split; [|discriminate]. intros _. split; [exact He|].
      exists (gdResults gd), result. auto. }
    destruct currentGuess as [guess|]; [|apply Herr].
    destruct (generateNextGuess _ _ _ _ _ _) as [e|[nextGuess bot1]];
      [apply Herr|].
    assert (Hlost1 : Forall (fun r => checkWin r = false) (gdResults gd1)).
    { unfold gd1. cbn [recordAttempt gdResults]. apply Forall_app.
      split; [exact Hlost|]. constructor; [exact Hwin|constructor]. }
    destruct (noGuess nextGuess).
    { cbn [fst]. split; [unfold gd1; cbn [recordAttempt gdSuccess]; congruence|].
      intros _ _. exact Hlost1. }
    apply IH; [exact Hs | exact He | exact Hlost1].
Qed.

(** X25. The record of a game.  [playGame] makes at most [maxAttempts]
    attempts; the record holds one guess and one result per attempt; a game
    is marked as won only when its last result passes [checkWin], in which
    case no earlier result did and no error is recorded; and the record is
    appended to the game history. *)
Theorem playGame_record (bot : Bot) (gameHistory : list GameData) (w : W)
    (gameType : GameType) (size : nat) (seed : option nat) :
  let played := playGame W clock dictionaryApis gameApi delay retries
                  delayBetweenGuesses bot gameHistory w gameType size seed in
  let gameData := fst (fst played) in
  gdAttempts gameData <= maxAttempts (botConfig bot) /\
  length (gdGuesses gameData) = gdAttempts gameData /\
  length (gdResults gameData) = gdAttempts gameData /\
  (gdSuccess gameData = true ->
   gdError gameData = None /\
   exists rs r,
     gdResults gameData = rs ++ [r] /\ checkWin r = true /\
     Forall (fun r' => checkWin r' = false) rs) /\
  snd (snd (fst played)) = gameHistory ++ [gameData].
Proof.
  cbv zeta. unfold playGame.
  destruct (getBestStartingWord bot) as [currentGuess bot0].
  set (gd0 := {| gdId := clock w; gdType := gameType; gdSize := size;
                 gdSeed := if truthy seed then seed else None;
                 gdStartTime := clock w; gdEndTime := None; gdDuration := None;
                 gdGuesses := []; gdResults := []; gdSuccess := false;
                 gdAttempts := 0; gdError := None |}).
  pose proof (playRounds_attempts gameType size seed (maxAttempts (botConfig bot))
                1 bot0 w currentGuess gd0 eq_refl eq_refl eq_refl) as Hatt.
  pose proof (playRounds_success gameType size seed (maxAttempts (botConfig bot))
                1 bot0 w currentGuess gd0 eq_refl eq_refl (Forall_nil _)) as Hsucc.
  cbv zeta in Hatt, Hsucc.
  destruct (playRounds W clock dictionaryApis gameApi delay retries
              delayBetweenGuesses gameType size seed
              (maxAttempts (botConfig bot)) 1 bot0 w currentGuess gd0)
    as [[gd bot1] w1].
  cbn [fst snd withEndTime gdAttempts gdGuesses gdResults gdSuccess gdError]
    in *.
  destruct Hatt as (Hle & Hg & Hr). destruct Hsucc as [Hwin _].
  repeat split; try assumption; try apply Hwin; auto.
Qed.

(** *** A server that answers like the simulator *)

Section HonestServer.
Variable secret : word.
Hypothesis Hhonest : forall w req data w',
  gameApi w req = (Some data, w') ->
  exists g, reqGuess req = Some g /\ data = feedbackFor g secret.

Lemma makeGuessFrom_honest req : forall remaining attempt w data w',
  makeGuessFrom W gameApi delay retries remaining attempt w req
  = (Some data, w') ->
  exists g, reqGuess req = Some g /\ data = feedbackFor g secret.
Proof.
  induction remaining as [|remaining IH]; intros attempt w data w' Hm;
    cbn [makeGuessFrom] in Hm; [discriminate|].
  destruct (gameApi w req) as [[d|] w1] eqn:Hreq.
  - injection Hm as <- <-. apply (Hhonest _ _ _ _ Hreq).
  - apply (IH _ _ _ _ Hm).
Qed.

Lemma playRounds_honest gameType size seed : forall remaining attempt bot w
    currentGuess gd,
  gdSuccess gd = false ->
  Forall2 (fun g r => exists g', g = Some g' /\ r = feedbackFor g' secret)
          (gdGuesses gd) (gdResults gd) ->
  Forall (fun r => checkWin r = false) (gdResults gd) ->
  let gd' := fst (fst (playRounds W clock dictionaryApis gameApi delay retries
                         delayBetweenGuesses gameType size seed remaining
                         attempt bot w currentGuess gd)) in
  Forall2 (fun g r => exists g', g = Some g' /\ r = feedbackFor g' secret)
          (gdGuesses gd') (gdResults gd') /\
  (gdSuccess gd' = true ->
   exists gs g rs,
     gdGuesses gd' = gs ++ [Some g] /\
     gdResults gd' = rs ++ [feedbackFor g secret] /\
     checkWin (feedbackFor g secret) = true /\
     Forall (fun r => checkWin r = false) rs) /\
  (gdSuccess gd' = false ->
   Forall (fun r => checkWin r = false) (gdResults gd')).
Proof.
  induction remaining as [|remaining IH];
    intros attempt bot w currentGuess gd Hs Hpair Hlost; cbv zeta.
  - cbn [playRounds fst]. split; [exact Hpair|]. split; [congruence|auto].
  - cbn [playRounds].
    destruct (makeGuess W gameApi delay retries w currentGuess gameType size seed)
      as [[result|] w1] eqn:Hmake.
    2:{ cbn [fst withError gdSuccess gdGuesses gdResults].
        split; [exact Hpair|]. split; [congruence|auto]. }
    unfold makeGuess in Hmake. apply makeGuessFrom_honest in Hmake.
    cbn [reqGuess] in Hmake. destruct Hmake as (g & -> & ->).
    set (result := feedbackFor g secret).
    set (gd1 := recordAttempt gd (Some g) result attempt).
    assert (Hpair1 : Forall2 (fun g r => exists g', g = Some g'
                                         /\ r = feedbackFor g' secret)
                             (gdGuesses gd1) (gdResults gd1)).
    { unfold gd1. cbn [recordAttempt gdGuesses gdResults].
      apply Forall2_app; [exact Hpair|]. constructor; [|constructor].
      exists g. auto. }
    replace (displayResults (Some g) result) with true.
    2:{ symmetry. cbn [displayResults]. apply Nat.leb_le.
        unfold result, feedbackFor. rewrite length_map, computePattern_length.
        lia. }
    cbn [negb].
    destruct (checkWin result) eqn:Hwin.
    { cbn [fst withSuccess gdSuccess gdGuesses gdResults].
      split; [exact Hpair1|]. split; [|discriminate]. intros _.
      exists (gdGuesses gd), g, (gdResults gd). auto. }
    assert (Hlost1 : Forall (fun r => checkWin r = false) (gdResults gd1)).
    { unfold gd1. cbn [recordAttempt gdResults]. apply Forall_app.
      split; [exact Hlost|]. constructor; [exact Hwin|constructor]. }
    assert (Hstop : forall gd2,
              gdGuesses gd2 = gdGuesses gd1 -> gdResults gd2 = gdResults gd1 ->
              gdSuccess gd2 = false ->
              Forall2 (fun g r => exists g', g = Some g'
                                  /\ r = feedbackFor g' secret)
                      (gdGuesses gd2) (gdResults gd2) /\
              (gdSuccess gd2 = true ->
               exists gs g rs,
                 gdGuesses gd2 = gs ++ [Some g] /\
                 gdResults gd2 = rs ++ [feedbackFor g secret] /\
                 checkWin (feedbackFor g secret) = true /\
                 Forall (fun r => checkWin r = false) rs) /\
              (gdSuccess gd2 = false ->
               Forall (fun r => checkWin r = false) (gdResults gd2))).
    { intros gd2 Eg Er Es. rewrite Eg, Er.
      split; [exact Hpair1|]. split; [congruence|auto]. }
    destruct (generateNextGuess _ _ _ _ _ _) as [e|[nextGuess bot1]];
      [apply Hstop; auto|].
    destruct (noGuess nextGuess); [apply Hstop; auto|].
    apply IH; [exact Hs | exact Hpair1 | exact Hlost1].
Qed.

End HonestServer.

End GameFacts.

Lemma Forall2_In_l {A B : Type} (P : A -> B -> Prop) (l1 : list A) :
  forall (l2 : list B) x,
    Forall2 P l1 l2 -> In x l1 -> exists y, In y l2 /\ P x y.
Proof.
  induction l1 as [|a l1 IH]; intros l2 x H12 Hin; [destruct Hin|].
  inversion H12 as [|? b ? l2' Hab Hrest]; subst.
  destruct Hin as [<-|Hin].
  - exists b. split; [left; reflexivity|exact Hab].
  - destruct (IH l2' x Hrest Hin) as (y & Hy & Hp).
    exists y. split; [right; exact Hy|exact Hp].
Qed.

(** X26. A game against a server that answers like the simulator.  When
    every answer of the game API is the simulator's feedback for the guess
    that was sent and one fixed secret, every recorded result is the feedback
    of the recorded guess; the game is marked as won as soon as the secret is
    among the guesses; and a game marked as won ends with a guess that the
    secret begins with, which is the secret itself when they have the same
    length. *)
Theorem playGame_against_simulator (W : Type) (clock : W -> Z)
    (dictionaryApis : W -> Network)
    (gameApi : W -> GuessRequest -> option (list ResultKind) * W)
    (delay : Z -> W -> W) (retries : nat) (delayBetweenGuesses : Z)
    (secret : word) (bot : Bot) (gameHistory : list GameData) (w : W)
    (gameType : GameType) (size : nat) (seed : option nat) :
  (forall w req data w',
     gameApi w req = (Some data, w') ->
     exists g, reqGuess req = Some g /\ data = feedbackFor g secret) ->
  let gameData :=
    fst (fst (playGame W clock dictionaryApis gameApi delay retries
                delayBetweenGuesses bot gameHistory w gameType size seed)) in
  Forall2 (fun g r => exists g', g = Some g' /\ r = feedbackFor g' secret)
          (gdGuesses gameData) (gdResults gameData) /\
  (In (Some secret) (gdGuesses gameData) -> gdSuccess gameData = true) /\
  (gdSuccess gameData = true ->
   exists gs g,
     gdGuesses gameData = gs ++ [Some g] /\
     firstn (length g) secret = g /\
     (length g = length secret -> g = secret)).
Proof.
  intros Hhonest. cbv zeta. unfold playGame.
  destruct (getBestStartingWord bot) as [currentGuess bot0].
  set (gd0 := {| gdId := clock w; gdType := gameType; gdSize := size;
                 gdSeed := if truthy seed then seed else None;
                 gdStartTime := clock w; gdEndTime := None; gdDuration := None;
                 gdGuesses := []; gdResults := []; gdSuccess := false;
                 gdAttempts := 0; gdError := None |}).
  pose proof (playRounds_honest W clock dictionaryApis gameApi delay retries
                delayBetweenGuesses secret Hhonest gameType size seed
                (maxAttempts (botConfig bot)) 1 bot0 w currentGuess gd0
                eq_refl (Forall2_nil _) (Forall_nil _)) as Hplay.
  cbv zeta in Hplay.
  destruct (playRounds W clock dictionaryApis gameApi delay retries
              delayBetweenGuesses gameType size seed
              (maxAttempts (botConfig bot)) 1 bot0 w currentGuess gd0)
    as [[gd bot1] w1].
  cbn [fst snd withEndTime gdGuesses gdResults gdSuccess] in *.
  destruct Hplay as (Hpair & Hwon & Hlost).
  split; [exact Hpair|]. split.
  - intros Hin. destruct (gdSuccess gd) eqn:Hs; [reflexivity|]. exfalso.
    destruct (Forall2_In_l _ _ _ _ Hpair Hin) as (r & Hr & g' & Eg & ->).
    injection Eg as <-.
    specialize (Hlost eq_refl). rewrite Forall_forall in Hlost.
    specialize (Hlost _ Hr).
    assert (Hwin : checkWin (feedbackFor secret secret) = true)
      by (apply checkWin_feedbackFor, firstn_all).
    congruence.
  - intros Hs. destruct (Hwon Hs) as (gs & g & rs & Eg & _ & Hwin & _).
    exists gs, g. split; [exact Eg|].
    apply checkWin_feedbackFor in Hwin. split; [exact Hwin|].
    intros Hlen. rewrite Hlen, firstn_all in Hwin. now symmetry.
Qed.

Lemma simulatorApi_honest secret : forall w req data w',
  simulatorApi secret w req = (Some data, w') ->
  exists g, reqGuess req = Some g /\ data = feedbackFor g secret.
Proof.
  intros w req data w'. unfold simulatorApi.
  destruct (reqGuess req) as [g|]; [|discriminate].
  intros E. injection E as <- _. exists g. auto.
Qed.

Lemma playGame_against_simulator_witness :
  let gameData :=
    fst (fst (playGame nat (fun w => Z.of_nat w) (fun _ => alwaysFound)
                (simulatorApi (str "CRANE")) (fun _ w => w) 3 1000%Z
                (newBot config) [] 0 Daily 5 None)) in
  Forall2 (fun g r => exists g', g = Some g'
                      /\ r = feedbackFor g' (str "CRANE"))
          (gdGuesses gameData) (gdResults gameData) /\
  (In (Some (str "CRANE")) (gdGuesses gameData) ->
   gdSuccess gameData = true) /\
  (gdSuccess gameData = true ->
   exists gs g,
     gdGuesses gameData = gs ++ [Some g] /\
     firstn (length g) (str "CRANE") = g /\
     (length g = length (str "CRANE") -> g = str "CRANE")).
Proof.
  apply (playGame_against_simulator nat (fun w => Z.of_nat w)
           (fun _ => alwaysFound) (simulatorApi (str "CRANE")) (fun _ w => w)
           3 1000%Z (str "CRANE") (newBot config) [] 0 Daily 5 None).
  exact (simulatorApi_honest (str "CRANE")).
Defined.

(** *** The retries of [makeGuess] *)

Lemma repeat_snoc {A : Type} (x : A) n : repeat x n ++ [x] = x :: repeat x n.
Proof. induction n as [|n IH]; cbn [repeat app]; [reflexivity|]. now rewrite IH. Qed.

Lemma makeGuessFrom_succeeds retries req data rest : forall k remaining attempt s,
  remaining + attempt = S retries ->
  k < remaining ->
  pending s = repeat None k ++ Some data :: rest ->
  makeGuessFrom Script scriptApi scriptDelay retries remaining attempt s req
  = (Some data,
     {| pending := rest;
        received := received s ++ repeat req (S k);
        waited := (waited s
                   + 500 * Z.of_nat k * (2 * Z.of_nat attempt + Z.of_nat k - 1))%Z |}).
Proof.
  induction k as [|k IH]; intros remaining attempt s Hsum Hk Hpending.
  - destruct remaining as [|remaining]; [lia|].
    cbn [makeGuessFrom]. unfold scriptApi. rewrite Hpending.
    cbn [repeat app]. f_equal. f_equal. lia.
  - destruct remaining as [|remaining]; [lia|].
    cbn [makeGuessFrom]. unfold scriptApi at 1. rewrite Hpending.
    cbn [repeat app].
    replace (attempt <? retries) with true
      by (symmetry; apply Nat.ltb_lt; lia).
    rewrite (IH remaining (S attempt)); [|lia|lia|reflexivity].
    cbn [scriptDelay received waited pending]. f_equal. f_equal.
    + rewrite <- app_assoc. reflexivity.
    + lia.
Qed.

Lemma makeGuessFrom_S (W : Type)
    (gameApi : W -> GuessRequest -> option (list ResultKind) * W)
    (delay : Z -> W -> W) retries remaining attempt w req :
  makeGuessFrom W gameApi delay retries (S remaining) attempt w req
  = match gameApi w req with
    | (Some data, w1) => (Some data, w1)
    | (None, w1) =>
        makeGuessFrom W gameApi delay retries remaining (S attempt)
          (if attempt <? retries
           then delay (1000 * Z.of_nat attempt)%Z w1 else w1)
          req
    end.
Proof. reflexivity. Qed.

Lemma makeGuessFrom_gives_up retries req rest : forall m attempt s,
  S m + attempt = S retries ->
  pending s = repeat None (S m) ++ rest ->
  makeGuessFrom Script scriptApi scriptDelay retries (S m) attempt s req
  = (None,
     {| pending := rest;
        received := received s ++ repeat req (S m);
        waited := (waited s
                   + 500 * Z.of_nat m * (2 * Z.of_nat attempt + Z.of_nat m - 1))%Z |}).
Proof.
  induction m as [|m IH]; intros attempt s Hsum Hpending.
  - cbn [makeGuessFrom]. unfold scriptApi. rewrite Hpending.
    cbn [repeat app].
    replace (attempt <? retries) with false
      by (symmetry; apply Nat.ltb_ge; lia).
    cbn [makeGuessFrom]. f_equal. f_equal. lia.
  - rewrite makeGuessFrom_S. unfold scriptApi at 1. rewrite Hpending.
    cbn [repeat app].
    replace (attempt <? retries) with true
      by (symmetry; apply Nat.ltb_lt; lia).
    rewrite (IH (S attempt)); [|lia|reflexivity].
    cbn [scriptDelay received waited pending]. f_equal. f_equal.
    + rewrite <- app_assoc. reflexivity.
    + lia.
Qed.

(** X27. [makeGuess] retries.  When the next [k] requests fail, with [k]
    below [config.api.retries], and the one after them is answered,
    [makeGuess] returns the data of that answer; it has sent the same request
    [k + 1] times (with the seed only for a random game with a non-zero
    seed) and has waited 1000 ms times the number of the attempt after each
    failure, [500 * k * (k + 1)] ms in all. *)
Theorem makeGuess_retries (retries k : nat) (data : list ResultKind)
    (rest : list (option (list ResultKind))) (s : Script)
    (guess : option word) (gameType : GameType) (size : nat)
    (seed : option nat) :
  k < retries ->
  pending s = repeat None k ++ Some data :: rest ->
  makeGuess Script scriptApi scriptDelay retries s guess gameType size seed
  = (Some data,
     {| pending := rest;
        received :=
          received s
          ++ repeat {| reqType := gameType; reqGuess := guess; reqSize := size;
                       reqSeed := if truthy seed && eqb gameType RandomGame
                                  then seed else None |} (S k);
        waited := (waited s + 500 * Z.of_nat k * (Z.of_nat k + 1))%Z |}).
Proof.
  intros Hk Hpending. unfold makeGuess.
  rewrite (makeGuessFrom_succeeds retries _ data rest k retries 1 s);
    [|lia|exact Hk|exact Hpending].
  f_equal. f_equal. lia.
Qed.

Lemma makeGuess_retries_witness :
  makeGuess Script scriptApi scriptDelay 3
    {| pending := repeat None 2
                  ++ Some [Correct; Absent; Absent; Present; Correct] :: [];
       received := []; waited := 0%Z |}
    (Some (str "CRANE")) Daily 5 (Some 7)
  = (Some [Correct; Absent; Absent; Present; Correct],
     {| pending := [];
        received :=
          received {| pending := repeat None 2
                               ++ Some [Correct; Absent; Absent; Present; Correct]
                                  :: [];
                      received := []; waited := 0%Z |}
          ++ repeat {| reqType := Daily; reqGuess := Some (str "CRANE");
                       reqSize := 5;
                       reqSeed := if truthy (Some 7) && eqb Daily RandomGame
                                  then Some 7 else None |} (S 2);
        waited := (waited {| pending := repeat None 2
                               ++ Some [Correct; Absent; Absent; Present; Correct]
                                  :: [];
                             received := []; waited := 0%Z |}
                   + 500 * Z.of_nat 2 * (Z.of_nat 2 + 1))%Z |}).
Proof.
  apply (makeGuess_retries 3 2 [Correct; Absent; Absent; Present; Correct] []).
  - lia.
  - reflexivity.
Defined.

(** X28. [makeGuess] gives up.  When the next [config.api.retries] requests
    all fail, [makeGuess] throws its error after exactly that many requests;
    it has waited after every failure but the last,
    [500 * retries * (retries - 1)] ms in all, where the comment in the code
    announces an exponential backoff. *)
Theorem makeGuess_gives_up (retries : nat)
    (rest : list (option (list ResultKind))) (s : Script)
    (guess : option word) (gameType : GameType) (size : nat)
    (seed : option nat) :
  pending s = repeat None retries ++ rest ->
  makeGuess Script scriptApi scriptDelay retries s guess gameType size seed
  = (None,
     {| pending := rest;
        received :=
          received s
          ++ repeat {| reqType := gameType; reqGuess := guess; reqSize := size;
                       reqSeed := if truthy seed && eqb gameType RandomGame
                                  then seed else None |} retries;
        waited := (waited s
                   + 500 * Z.of_nat retries * (Z.of_nat retries - 1))%Z |}).
Proof.
  intros Hpending. unfold makeGuess.
  destruct retries as [|m].
  - cbn [makeGuessFrom repeat app] in *. rewrite app_nil_r.
    destruct s as [p r wt]. cbn [pending received waited] in *. subst p.
    f_equal. f_equal. lia.
  - rewrite (makeGuessFrom_gives_up (S m) _ rest m 1 s);
      [|lia|exact Hpending].
    f_equal. f_equal. lia.
Qed.

Lemma makeGuess_gives_up_witness :
  makeGuess Script scriptApi scriptDelay 3
    {| pending := repeat None 3 ++ [Some [Correct]];
       received := []; waited := 0%Z |}
    (Some (str "CRANE")) RandomGame 5 (Some 7)
  = (None,
     {| pending := [Some [Correct]];
        received :=
          received {| pending := repeat None 3 ++ [Some [Correct]];
                      received := []; waited := 0%Z |}
          ++ repeat {| reqType := RandomGame; reqGuess := Some (str "CRANE");
                       reqSize := 5;
                       reqSeed := if truthy (Some 7) && eqb RandomGame RandomGame
                                  then Some 7 else None |} 3;
        waited := (waited {| pending := repeat None 3 ++ [Some [Correct]];
                             received := []; waited := 0%Z |}
                   + 500 * Z.of_nat 3 * (Z.of_nat 3 - 1))%Z |}).
Proof.
  apply (makeGuess_gives_up 3 [Some [Correct]]).
  reflexivity.
Defined.

(** ** Statistics *)

Lemma fold_min_spec (rest : list nat) : forall x,
  (fold_left Nat.min rest x = x \/ In (fold_left Nat.min rest x) rest) /\
  fold_left Nat.min rest x <= x /\
  forall y, In y rest -> fold_left Nat.min rest x <= y.
Proof.
  induction rest as [|a rest IH]; intros x; cbn [fold_left].
  - split; [left; reflexivity|]. split; [lia | intros y []].
  - destruct (IH (Nat.min x a)) as (Hin & Hle & Hall). repeat split.
    + destruct Hin as [E|Hin]; [|right; right; exact Hin].
      rewrite E. destruct (Nat.min_spec x a) as [[_ ->]|[_ ->]];
        [left; reflexivity | right; left; reflexivity].
    + lia.
    + intros y [<-|Hy]; [lia | apply Hall, Hy].
Qed.

Lemma fold_max_spec (rest : list nat) : forall x,
  x <= fold_left Nat.max rest x /\
  forall y, In y rest -> y <= fold_left Nat.max rest x.
Proof.
  induction rest as [|a rest IH]; intros x; cbn [fold_left].
  - split; [lia | intros y []].
  - destruct (IH (Nat.max x a)) as (Hle & Hall). split; [lia|].
    intros y [<-|Hy]; [lia | apply Hall, Hy].
Qed.

Lemma mathMin_spec (xs : list nat) :
  xs <> [] -> In (mathMin xs) xs /\ forall y, In y xs -> mathMin xs <= y.
Proof.
  destruct xs as [|x rest]; [congruence|]. intros _. cbn [mathMin].
  destruct (fold_min_spec rest x) as (Hin & Hle & Hall). split.
  - destruct Hin as [->|Hin]; [left; reflexivity | right; exact Hin].
  - intros y [<-|Hy]; [exact Hle | apply Hall, Hy].
Qed.

Lemma mathMax_spec (xs : list nat) y : In y xs -> y <= mathMax xs.
Proof.
  destruct xs as [|x rest]; [intros []|]. cbn [mathMax].
  destruct (fold_max_spec rest x) as (Hle & Hall).
  intros [<-|Hy]; [exact Hle | apply Hall, Hy].
Qed.

Lemma sumAttempts_list_sum (games : list GameData) : forall sum,
  fold_left (fun sum g => sum + gdAttempts g) games sum
  = sum + list_sum (map gdAttempts games).
Proof.
  induction games as [|g games IH]; intros sum; cbn [fold_left map list_sum];
    [cbn; lia|].
  rewrite IH. unfold list_sum. cbn [fold_right]. lia.
Qed.

Lemma list_sum_bounds (xs : list nat) a b :
  (forall x, In x xs -> a <= x <= b) ->
  length xs * a <= list_sum xs <= length xs * b.
Proof.
  induction xs as [|x xs IH]; intros Hall; [cbn; lia|].
  assert (Hx : a <= x <= b) by (apply Hall; left; reflexivity).
  assert (Hrest : length xs * a <= list_sum xs <= length xs * b)
    by (apply IH; intros y Hy; apply Hall; right; exact Hy).
  cbn [length]. change (list_sum (x :: xs)) with (x + list_sum xs). lia.
Qed.

Lemma average_bounds (s n a b : nat) :
  0 < n -> n * a <= s -> s <= n * b ->
  (INR a <= INR s / INR n <= INR b)%R.
Proof.
  intros Hn Ha Hb.
  assert (HnR : (0 < INR n)%R) by (apply lt_0_INR; exact Hn).
  apply le_INR in Ha. apply le_INR in Hb. rewrite mult_INR in Ha, Hb.
  split.
  - apply (Rmult_le_reg_r (INR n)); [exact HnR|].
    unfold Rdiv. rewrite Rmult_assoc, Rinv_l by lra. lra.
  - apply (Rmult_le_reg_r (INR n)); [exact HnR|].
    unfold Rdiv. rewrite Rmult_assoc, Rinv_l by lra. lra.
Qed.

Lemma getAnalytics_nonempty (gameHistory : list GameData) :
  gameHistory <> [] ->
  getAnalytics gameHistory
  = let successfulGames := filter gdSuccess gameHistory in
    {| totalGames := length gameHistory;
       winRate :=
         (INR (length successfulGames) / INR (length gameHistory) * 100)%R;
       averageAttempts :=
         if 0 <? length successfulGames
         then (INR (fold_left (fun sum g => (sum + gdAttempts g)%nat)
                              successfulGames 0%nat)
               / INR (length successfulGames))%R
         else 0%R;
       averageGameTime :=
         (IZR (fold_left
                 (fun sum g =>
                    (sum + match gdDuration g with
                           | Some d => d
                           | None => 0
                           end)%Z)
                 gameHistory 0%Z)
          / INR (length gameHistory))%R;
       bestPerformance :=
         if 0 <? length successfulGames
         then Some (mathMin (map gdAttempts successfulGames))
         else None;
       worstPerformance := mathMax (map gdAttempts gameHistory) |}.
Proof. destruct gameHistory; [congruence | reflexivity]. Qed.

(** X29. The statistics of [getAnalytics] are consistent with the game
    history.  The win rate lies between 0 and 100; no game took more
    attempts than [worstPerformance]; when some game was won,
    [bestPerformance] is the number of attempts of a won game, no won game
    took fewer, and the average number of attempts of the won games lies
    between [bestPerformance] and [worstPerformance]; when no game was won,
    [bestPerformance] is [null] and the win rate and the average are 0. *)
Theorem getAnalytics_consistent (gameHistory : list GameData) :
  let analytics := getAnalytics gameHistory in
  totalGames analytics = length gameHistory /\
  (0 <= winRate analytics <= 100)%R /\
  (forall g, In g gameHistory ->
             gdAttempts g <= worstPerformance analytics) /\
  match bestPerformance analytics with
  | Some best =>
      (exists g, In g gameHistory /\ gdSuccess g = true /\
                 gdAttempts g = best) /\
      (forall g, In g gameHistory -> gdSuccess g = true ->
                 best <= gdAttempts g) /\
      (INR best <= averageAttempts analytics
       <= INR (worstPerformance analytics))%R
  | None =>
      (forall g, In g gameHistory -> gdSuccess g = false) /\
      winRate analytics = 0%R /\
      averageAttempts analytics = 0%R
  end.
Proof.
  cbv zeta. destruct (list_eq_dec Nat.eq_dec (map gdAttempts gameHistory) [])
    as [Hempty|Hnonempty].
  - apply map_eq_nil in Hempty. subst gameHistory.
    cbn. repeat split; try lra; intros g [].
  - assert (Hh : gameHistory <> []) by (intros ->; apply Hnonempty; reflexivity).
    rewrite (getAnalytics_nonempty gameHistory Hh). cbv zeta.
    cbn [totalGames winRate worstPerformance bestPerformance averageAttempts].
    set (won := filter gdSuccess gameHistory).
    assert (Hn : 0 < length gameHistory)
      by (destruct gameHistory; [congruence | cbn [length]; lia]).
    assert (HnR : (0 < INR (length gameHistory))%R) by (apply lt_0_INR, Hn).
    assert (Hwon_le : length won <= length gameHistory)
      by apply filter_length_le.
    assert (Hworst : forall g, In g gameHistory ->
                       gdAttempts g <= mathMax (map gdAttempts gameHistory)).
    { intros g Hg. apply mathMax_spec, in_map, Hg. }
    split; [reflexivity|]. split; [|split; [exact Hworst|]].
    + pose proof (pos_INR (length won)) as H0.
      apply le_INR in Hwon_le.
      assert (Hq : (0 <= INR (length won) / INR (length gameHistory) <= 1)%R).
      { split.
        - apply Rmult_le_pos; [exact H0|]. left. apply Rinv_0_lt_compat, HnR.
        - apply (Rmult_le_reg_r (INR (length gameHistory))); [exact HnR|].
          unfold Rdiv. rewrite Rmult_assoc, Rinv_l by lra. lra. }
      lra.
    + destruct (0 <? length won) eqn:Hw.
      * apply Nat.ltb_lt in Hw.
        assert (Hne : map gdAttempts won <> []).
        { destruct won; [cbn [length] in Hw; lia | discriminate]. }
        destruct (mathMin_spec _ Hne) as [Hin Hmin].
        apply in_map_iff in Hin. destruct Hin as (g & Eg & Hg).
        unfold won in Hg. apply filter_In in Hg. destruct Hg as [Hg Hs].
        split; [exists g; auto|]. split.
        -- intros g' Hg' Hs'. apply Hmin. apply in_map.
           unfold won. apply filter_In. auto.
        -- rewrite sumAttempts_list_sum. cbn [Nat.add].
           destruct (list_sum_bounds (map gdAttempts won)
                       (mathMin (map gdAttempts won))
                       (mathMax (map gdAttempts gameHistory))) as [Hlo Hhi].
           { intros x Hx. split; [apply Hmin, Hx|].
             apply in_map_iff in Hx. destruct Hx as (g' & <- & Hg').
             unfold won in Hg'. apply filter_In in Hg'. apply Hworst. tauto. }
           rewrite length_map in Hlo, Hhi.
           apply average_bounds; assumption.
      * apply Nat.ltb_ge in Hw.
        assert (Hnil : won = []) by (destruct won; [reflexivity|cbn [length] in Hw; lia]).
        split; [|split; [|reflexivity]].
        -- intros g Hg. destruct (gdSuccess g) eqn:Hs; [|reflexivity].
           exfalso. assert (Hin : In g won) by (apply filter_In; auto).
           rewrite Hnil in Hin. exact Hin.
        -- rewrite Hnil. cbn [length INR]. unfold Rdiv. lra.
Qed.

(** ** Which word can be proposed twice *)

Lemma validate_withDictionary now net bot words :
  exists d, snd (validate now net bot words) = withDictionary bot d.
Proof.
  unfold validate. destruct (validateWords _ _ _ _ _) as [valid d].
  exists d. reflexivity.
Qed.

Lemma enumerateCandidates_withDictionary now net bot limit :
  exists d, snd (enumerateCandidates now net bot limit) = withDictionary bot d.
Proof.
  unfold enumerateCandidates.
  match goal with
  | |- context [validate now net bot ?ws] =>
      destruct (validate_withDictionary now net bot ws) as [d Hd];
      destruct (validate now net bot ws) as [valid bot1]
  end.
  cbn [snd] in *. exists d. exact Hd.
Qed.

Lemma filterWords_withDictionary now net bot analysis wordList result bot' :
  filterWords now net bot analysis wordList = inr (result, bot') ->
  exists d, bot' = withDictionary bot d.
Proof.
  unfold filterWords. rewrite normalizeConstraints_total. cbn [bind].
  match goal with
  | |- context [validate now net bot ?ws] =>
      destruct (validate_withDictionary now net bot ws) as [d1 Hd1];
      destruct (validate now net bot ws) as [filteredWords bot1]
  end.
  cbn [snd] in Hd1. subst bot1.
  destruct filteredWords as [|w0 rest].
  - unfold generateWordCombinations.
    match goal with
    | |- context [validate now net ?b ?ws] =>
        destruct (validate_withDictionary now net b ws) as [d2 Hd2];
        destruct (validate now net b ws) as [valid bot2]
    end.
    cbn [snd] in Hd2. intros E. injection E as _ <-.
    exists d2. rewrite Hd2. reflexivity.
  - intros E. injection E as _ <-. exists d1. reflexivity.
Qed.

Lemma getBestStartingWord_best bot w bot' :
  getBestStartingWord bot = (Some w, bot') ->
  In w (botStartingWords bot) /\
  forall w', In w' (botStartingWords bot) ->
             (baseScore bot w' <= baseScore bot w)%R.
Proof.
  unfold getBestStartingWord.
  destruct (jsSort _ (botStartingWords bot)) as [|x rest] eqn:Hs;
    cbn [hd_error]; intros E; [discriminate|].
  injection E as -> _. split.
  - apply (jsSort_In (fun a b => Rltb (baseScore bot a) (baseScore bot b))).
    rewrite Hs. left. reflexivity.
  - apply (jsSort_head_max (baseScore bot) _ w rest Hs).
Qed.

Lemma getBestStartingWord_withDictionary bot d w bot' :
  (Some w, bot') = getBestStartingWord (withDictionary bot d) ->
  In w (botStartingWords bot) /\
  forall w', In w' (botStartingWords bot) ->
             (baseScore bot w' <= baseScore bot w)%R.
Proof.
  intros E. symmetry in E. apply getBestStartingWord_best in E. exact E.
Qed.

(** The evaluation of the repository's test input "ARISE, A and S present":
    the selector proposes ARISE again. *)
Lemma arise_proposed_again :
  exists bot',
    generateNextGuess 0%Z alwaysFound (newBot config)
      (analyzeResults (str "ARISE") [Present; Absent; Absent; Present; Absent])
      [str "ARISE"] None
    = inr (Some (str "ARISE"), bot').
Proof.
  unfold generateNextGuess.
  destruct (filterWords 0%Z alwaysFound (newBot config)
              (analyzeResults (str "ARISE")
                 [Present; Absent; Absent; Present; Absent]) None)
    as [e|[remainingWords bot1]] eqn:HF;
    vm_compute in HF; [discriminate HF|].
  injection HF as <- <-. cbn [bind length Nat.eqb].
  unfold beamFallback.
  match goal with
  | |- context [enumerateCandidates ?n ?t ?b 300] =>
      destruct (enumerateCandidates n t b 300) as [beam bot2] eqn:HB
  end.
  vm_compute in HB. injection HB as <- <-.
  match goal with
  | |- context [filter ?p ?l] =>
      replace (filter p l) with (@nil word) by (vm_compute; reflexivity)
  end.
  match goal with
  | |- context [filter ?p ?l] =>
      replace (filter p l) with (@nil word) by (vm_compute; reflexivity)
  end.
  rewrite getBestStartingWord_computed.
  eexists. vm_compute. reflexivity.
Qed.

(** X30. The only word that [generateNextGuess] can propose a second time is
    a best starting word: when the word returned is among the previous
    guesses, it is one of the bot's starting words and no starting word has
    a higher base score.  Every other branch of the selector skips the words
    already guessed. *)
Theorem generateNextGuess_repeats_only_best (now : Z) (net : Network)
    (bot : Bot) (analysis : GuessAnalysis) (previousGuesses : list word)
    (candidates : option (list word)) (w : word) :
  (exists bot',
     generateNextGuess now net bot analysis previousGuesses candidates
     = inr (Some w, bot')) ->
  In w previousGuesses ->
  In w (botStartingWords bot) /\
  forall w', In w' (botStartingWords bot) ->
             (baseScore bot w' <= baseScore bot w)%R.
Proof.
  intros [bot' Hg] Hin. unfold generateNextGuess in Hg.
  assert (Hrem : forall remainingWords bot1,
            match candidates with
            | Some given => inr (given, bot)
            | None => filterWords now net bot analysis None
            end = inr (remainingWords, bot1) ->
            bot1 = bot \/ exists d, bot1 = withDictionary bot d).
  { intros remainingWords bot1. destruct candidates as [given|].
    - intros E. injection E as _ <-. left. reflexivity.
    - intros E. right. apply (filterWords_withDictionary _ _ _ _ _ _ _ E). }
  destruct (match candidates with
            | Some given => inr (given, bot)
            | None => filterWords now net bot analysis None
            end) as [e|[remainingWords bot1]]; cbn [bind] in Hg;
    [discriminate|].
  specialize (Hrem remainingWords bot1 eq_refl).
  assert (Hbest : exists d, (Some w, bot')
                            = getBestStartingWord (withDictionary bot d)).
  { destruct (length remainingWords =? 0).
    - apply beamFallback_not_repeated in Hg. destruct Hg as [Hn|Hb]; [tauto|].
      destruct (enumerateCandidates_withDictionary now net bot1 300) as [d Hd].
      rewrite Hd in Hb. exists d.
      destruct Hrem as [->|[d1 ->]]; exact Hb.
    - apply selectGuess_not_repeated in Hg. destruct Hg as [Hn|Hb]; [tauto|].
      destruct (enumerateCandidates_withDictionary now net bot1 500) as [d Hd].
      rewrite Hd in Hb. exists d.
      destruct Hrem as [->|[d1 ->]]; exact Hb. }
  destruct Hbest as [d Hb].
  apply (getBestStartingWord_withDictionary bot d w bot' Hb).
Qed.

Lemma generateNextGuess_repeats_only_best_witness :
  In (str "ARISE") (botStartingWords (newBot config)) /\
  forall w', In w' (botStartingWords (newBot config)) ->
             (baseScore (newBot config) w'
              <= baseScore (newBot config) (str "ARISE"))%R.
Proof.
  apply (generateNextGuess_repeats_only_best 0%Z alwaysFound (newBot config)
           (analyzeResults (str "ARISE")
              [Present; Absent; Absent; Present; Absent])
           [str "ARISE"] None (str "ARISE")).
  - exact arise_proposed_again.
  - left. reflexivity.
Defined.

(** ** Constraint conflicts *)

Lemma scored_returns bot analysis candidates (g : word -> R -> R)
    (ws : list word)
    (other : list (word * R) -> ConstraintError + (option word * Bot)) :
  (forall scored, exists r, other scored = inr r) ->
  exists r,
    bind (mapM (fun w => bind (scoreWord bot w analysis candidates)
                              (fun s => inr (w, g w s))) ws) other
    = inr r.
Proof.
  intros Hother.
  destruct (mapM_scoreWord_total bot analysis candidates g ws)
    as (scored & Hs & _).
  rewrite Hs. cbn [bind]. apply Hother.
Qed.

Lemma entropyStrategy_returns bot analysis previousGuesses remainingWords
    availableWords :
  exists r,
    entropyStrategy bot analysis previousGuesses remainingWords availableWords
    = inr r.
Proof.
  unfold entropyStrategy.
  set (weight := if 50 <? length remainingWords then _ else _).
  apply (scored_returns bot (Some analysis) (Some remainingWords)
           (fun w s => (entropyOf w remainingWords * weight
                        + s * (1 - weight))%R)).
  intros [|x scored]; eexists; reflexivity.
Qed.

Lemma minimaxStrategy_returns bot analysis previousGuesses remainingWords
    availableWords :
  exists r,
    minimaxStrategy bot analysis previousGuesses remainingWords availableWords
    = inr r.
Proof.
  unfold minimaxStrategy.
  destruct (jsSort _ _) as [|[bestWord bestScore] rest].
  - apply entropyStrategy_returns.
  - destruct (1 <? _); [|eexists; reflexivity].
    apply (scored_returns bot (Some analysis) (Some remainingWords)
             (fun w s => (entropyOf w remainingWords * (7 / 10)
                          + s * (3 / 10))%R)).
    intros scored. eexists; reflexivity.
Qed.

Lemma selectGuess_returns now net bot analysis previousGuesses remainingWords :
  exists r,
    selectGuess now net bot analysis previousGuesses remainingWords = inr r.
Proof.
  unfold selectGuess.
  destruct (enumerateCandidates now net bot 500) as [allAvailable bot1].
  destruct (length remainingWords <=? 2).
  - destruct (filter _ remainingWords) as [|w ws]; [|eexists; reflexivity].
    apply entropyStrategy_returns.
  - destruct (length remainingWords <=? 20).
    + apply minimaxStrategy_returns.
    + apply entropyStrategy_returns.
Qed.

Lemma beamFallback_returns now net bot analysis previousGuesses :
  exists r, beamFallback now net bot analysis previousGuesses = inr r.
Proof.
  unfold beamFallback.
  destruct (enumerateCandidates now net bot 300) as [beam bot1].
  destruct (filter (fun w => negb (includesWord previousGuesses w)
                             && matchesAnalysis analysis w) beam)
    as [|v vs].
  - destruct (filter (fun w => negb (includesWord previousGuesses w)
                               && looseMatch analysis w) beam)
      as [|l ls]; [eexists; reflexivity|].
    apply (scored_returns bot1 (Some analysis) (Some (l :: ls)) (fun _ s => s)).
    intros scored. eexists; reflexivity.
  - apply (scored_returns bot1 (Some analysis) (Some (v :: vs)) (fun _ s => s)).
    intros scored. eexists; reflexivity.
Qed.

Lemma generateNextGuess_returns now net bot analysis previousGuesses candidates :
  exists r,
    generateNextGuess now net bot analysis previousGuesses candidates = inr r.
Proof.
  unfold generateNextGuess.
  assert (Hrem : exists rb,
            match candidates with
            | Some remainingWords => inr (remainingWords, bot)
            | None => filterWords now net bot analysis None
            end = inr rb).
  { destruct candidates as [given|]; [eexists; reflexivity|].
    destruct (filterWords_bot now net bot analysis None)
      as (result & bot' & E & _). rewrite E. eexists; reflexivity. }
  destruct Hrem as ([remainingWords bot1] & ->). cbn [bind].
  destruct (length remainingWords =? 0).
  - apply beamFallback_returns.
  - apply selectGuess_returns.
Qed.

Lemma playRounds_no_constraint_failure (W : Type) (clock : W -> Z)
    (dictionaryApis : W -> Network)
    (gameApi : W -> GuessRequest -> option (list ResultKind) * W)
    (delay : Z -> W -> W) (retries : nat) (delayBetweenGuesses : Z)
    gameType size seed remaining :
  forall attempt bot w currentGuess gd,
    ~ constraintFailure gd ->
    ~ constraintFailure
        (fst (fst (playRounds W clock dictionaryApis gameApi delay retries
                     delayBetweenGuesses gameType size seed remaining attempt
                     bot w currentGuess gd))).
Proof.
  induction remaining as [|remaining IH];
    intros attempt bot w currentGuess gd Hgd; cbn [playRounds].
  - exact Hgd.
  - destruct (makeGuess W gameApi delay retries w currentGuess gameType size seed)
      as [[result|] w1]; cbn [fst].
    2:{ intros [e He]. discriminate He. }
    destruct (negb (displayResults currentGuess result)); cbn [fst].
    { intros [e He]. discriminate He. }
    destruct (checkWin result); cbn [fst].
    { exact Hgd. }
    destruct currentGuess as [guess|]; cbn [fst].
    2:{ intros [e He]. discriminate He. }
    destruct (generateNextGuess_returns (clock w1) (dictionaryApis w1) bot
                (analyzeResults guess result)
                (definedGuesses
                   (gdGuesses (recordAttempt gd (Some guess) result attempt)))
                None) as [[nextGuess bot1] E].
    rewrite E.
    destruct (noGuess nextGuess); cbn [fst].
    + exact Hgd.
    + apply IH. exact Hgd.
Qed.

(** C6 (as amended). Constraint normalization never fails.  The validation
    at the end of [normalizeConstraints] raises its error exactly when some
    letter has a maximum count below its minimum count; but
    [normalizeConstraints] builds the model from the analysis of one guess
    and records a maximum only as a copy of the minimum of the same letter,
    so for every analysis it returns the constraints, and these have no such
    letter.  Nothing is merged between guesses: whatever the game API
    answers during a game, [playGame] never ends with the error of
    [normalizeConstraints]. *)
Theorem constraint_conflict_never_raised :
  (forall minC maxC,
     conflict minC maxC <-> exists e, validateCounts minC maxC = Some e) /\
  (forall cfg analysis,
     exists c,
       normalizeConstraints cfg analysis = inr c /\
       ~ conflict (minCounts c) (maxCounts c) /\
       forall char max, In (char, max) (maxCounts c) ->
         JsMap.get (minCounts c) char = Some max) /\
  (forall (W : Type) (clock : W -> Z) (dictionaryApis : W -> Network)
          (gameApi : W -> GuessRequest -> option (list ResultKind) * W)
          (delay : Z -> W -> W) (retries : nat) (delayBetweenGuesses : Z)
          (bot : Bot) (gameHistory : list GameData) (w : W)
          (gameType : GameType) (size : nat) (seed : option nat),
     ~ constraintFailure
         (fst (fst (playGame W clock dictionaryApis gameApi delay retries
                      delayBetweenGuesses bot gameHistory w gameType size
                      seed)))).
Proof.
  split; [exact conflict_iff_validateCounts|]. split.
  - intros cfg analysis.
    exists (collectConstraints (wordLength cfg) analysis).
    split; [apply normalizeConstraints_total|].
    assert (Hmax : forall char max,
              In (char, max)
                 (maxCounts (collectConstraints (wordLength cfg) analysis)) ->
              JsMap.get
                (minCounts (collectConstraints (wordLength cfg) analysis)) char
              = Some max).
    { intros char max Hin. unfold collectConstraints in *.
      refine (proj1 (processAbsent_max_recorded _ _ _ char max Hin)).
      intros ch mx.
      rewrite fold_processPresent_maxCounts, fold_processGreen_maxCounts.
      cbn [maxCounts]. intros []. }
    split; [|exact Hmax].
    intros (char & mn & mx & Hin & Hget & Hlt).
    rewrite (Hmax char mx Hin) in Hget. injection Hget as <-. lia.
  - intros W clock dictionaryApis gameApi delay retries delayBetweenGuesses
           bot gameHistory w gameType size seed.
    unfold playGame.
    destruct (getBestStartingWord bot) as [currentGuess bot0].
    match goal with
    | |- context [playRounds W clock dictionaryApis gameApi delay retries
                    delayBetweenGuesses gameType size seed ?n 1 bot0 w
                    currentGuess ?gd] =>
        pose proof (playRounds_no_constraint_failure W clock dictionaryApis
                      gameApi delay retries delayBetweenGuesses gameType size
                      seed n 1 bot0 w currentGuess gd) as Hplay;
        destruct (playRounds W clock dictionaryApis gameApi delay retries
                    delayBetweenGuesses gameType size seed n 1 bot0 w
                    currentGuess gd) as [[played bot1] w1]
    end.
    cbn [fst] in *. intros [e He]. cbn [withEndTime gdError] in He.
    apply Hplay.
    + intros [e' He']. discriminate He'.
    + exists e. exact He.
Qed.

(** C6, counterexample.  Two answers of the game API that contradict each
    other.  For the guess EAGLE the results absent, absent, absent, absent,
    correct (what the secret WHOSE gives) make the model hold a maximum of
    one E; for the guess ELITE the results correct, absent, absent, absent,
    correct (what the secret EVOKE gives) require at least two.  The minimum
    exceeds the maximum, and [normalizeConstraints] returns normally both
    times: the second model has no maximum for E any more, and
    [generateNextGuess] goes on to select the next guess. *)
Lemma contradictory_feedback_not_raised :
  let first :=
    analyzeResults (str "EAGLE") [Absent; Absent; Absent; Absent; Correct] in
  let second :=
    analyzeResults (str "ELITE") [Correct; Absent; Absent; Absent; Correct] in
  feedbackFor (str "EAGLE") (str "WHOSE")
    = [Absent; Absent; Absent; Absent; Correct] /\
  feedbackFor (str "ELITE") (str "EVOKE")
    = [Correct; Absent; Absent; Absent; Correct] /\
  exists c1 c2,
    normalizeConstraints config first = inr c1 /\
    normalizeConstraints config second = inr c2 /\
    JsMap.get (maxCounts c1) "E"%char = Some 1 /\
    JsMap.get (minCounts c2) "E"%char = Some 2 /\
    JsMap.get (maxCounts c2) "E"%char = None /\
    exists next,
      generateNextGuess 0%Z alwaysFound (newBot config) second
        [str "EAGLE"; str "ELITE"] None = inr next.
Proof.
  intros first second. split; [reflexivity|]. split; [reflexivity|].
  do 2 eexists. split; [apply normalizeConstraints_total|].
  split; [apply normalizeConstraints_total|].
  split; [reflexivity|]. split; [reflexivity|]. split; [reflexivity|].
  apply generateNextGuess_returns.
Qed.

(** ** The order of the words that [validateWords] returns *)

Lemma Subseq_refl {A : Type} (l : list A) : Subseq l l.
Proof. induction l; constructor; assumption. Qed.

Lemma Subseq_trans {A : Type} (l1 l2 l3 : list A) :
  Subseq l1 l2 -> Subseq l2 l3 -> Subseq l1 l3.
Proof.
  intros H12 H23. revert l1 H12.
  induction H23 as [|x l2 l3 H23 IH|x l2 l3 H23 IH]; intros l1 H12.
  - exact H12.
  - constructor. apply IH, H12.
  - inversion H12; subst.
    + apply Subseq_skip. apply IH. assumption.
    + apply Subseq_take. apply IH. assumption.
Qed.

Lemma Subseq_map {A B : Type} (f : A -> B) (l1 l2 : list A) :
  Subseq l1 l2 -> Subseq (map f l1) (map f l2).
Proof. induction 1; cbn [map]; constructor; assumption. Qed.

Lemma JsMap_get_delete {K V : Type} `{EqDec K} (m : list (K * V)) key key' :
  JsMap.get (JsMap.delete m key') key <> None -> JsMap.get m key <> None.
Proof.
  induction m as [|[k1 v1] m IH]; cbn [JsMap.delete JsMap.get]; [tauto|].
  destruct (eq_dec key' k1) as [->|Hne].
  - destruct (eq_dec key k1); [discriminate|exact IH].
  - cbn [JsMap.get]. destruct (eq_dec key k1); [discriminate|exact IH].
Qed.

Lemma JsMap_get_filter_None {K V : Type} `{EqDec K} (p : K * V -> bool)
    (m : list (K * V)) key :
  JsMap.get m key = None -> JsMap.get (filter p m) key = None.
Proof.
  induction m as [|[k1 v1] m IH]; cbn [filter JsMap.get]; [reflexivity|].
  destruct (eq_dec key k1) as [->|Hne]; [discriminate|].
  intros Hget. destruct (p (k1, v1)); [|exact (IH Hget)].
  cbn [JsMap.get]. destruct (eq_dec key k1); [contradiction|exact (IH Hget)].
Qed.

Lemma JsMap_get_filter_Some {K V : Type} `{EqDec K} (p : K * V -> bool)
    (m : list (K * V)) key v :
  JsMap.get m key = Some v -> p (key, v) = true ->
  JsMap.get (filter p m) key = Some v.
Proof.
  induction m as [|[k1 v1] m IH]; cbn [filter JsMap.get]; [discriminate|].
  destruct (eq_dec key k1) as [->|Hne].
  - intros E Hp. injection E as ->. rewrite Hp. cbn [JsMap.get].
    destruct (eq_dec k1 k1); congruence.
  - intros Hget Hp. destruct (p (k1, v1)); [|exact (IH Hget Hp)].
    cbn [JsMap.get]. destruct (eq_dec key k1); [contradiction|exact (IH Hget Hp)].
Qed.

Lemma LRUCache_set_keys now (c : DictCache) key v key' :
  JsMap.get (LRUCache.cache (LRUCache.set now c key v)) key' <> None ->
  key' = key \/ JsMap.get (LRUCache.cache c) key' <> None.
Proof.
  unfold LRUCache.set. cbn [LRUCache.cache LRUCache.withCache].
  destruct (eq_dec key' key) as [->|Hne]; [auto|].
  rewrite JsMapFacts.get_set_neq by exact Hne.
  intros Hget. right.
  destruct (JsMap.has (LRUCache.cache c) key).
  - exact (JsMap_get_delete _ _ _ Hget).
  - destruct (LRUCache.maxSize c <=? JsMap.size (LRUCache.cache c));
      [|exact Hget].
    destruct (JsMap.keys (LRUCache.cache c)) as [|firstKey rest];
      [exact Hget|].
    exact (JsMap_get_delete _ _ _ Hget).
Qed.

Lemma LRUCache_set_bounds now (c : DictCache) key v :
  LRUCache.maxSize (LRUCache.set now c key v) = LRUCache.maxSize c /\
  LRUCache.ttl (LRUCache.set now c key v) = LRUCache.ttl c.
Proof. split; reflexivity. Qed.

Lemma LRUCache_set_appends now (c : DictCache) key v :
  JsMap.get (LRUCache.cache c) key = None ->
  LRUCache.size c < LRUCache.maxSize c ->
  LRUCache.cache (LRUCache.set now c key v)
  = LRUCache.cache c
    ++ [(key, {| LRUCache.value := v;
                 LRUCache.expiry := (now + LRUCache.ttl c)%Z |})].
Proof.
  intros Hget Hroom. unfold LRUCache.set, JsMap.has. rewrite Hget.
  unfold LRUCache.size in Hroom.
  destruct (LRUCache.maxSize c <=? JsMap.size (LRUCache.cache c)) eqn:Hfull.
  { apply Nat.leb_le in Hfull. lia. }
  cbn [LRUCache.cache LRUCache.withCache].
  apply JsMapFacts.set_absent, Hget.
Qed.

Lemma checkCached_cold now batch : forall uncached st,
  (forall w, In w batch ->
     JsMap.get (LRUCache.cache (vsCache st)) (toLowerCase w) = None) ->
  fold_left (checkCached now) batch (uncached, st) = (uncached ++ batch, st).
Proof.
  induction batch as [|x batch IH]; intros uncached st Hcold; cbn [fold_left].
  - now rewrite app_nil_r.
  - assert (Hx : checkCached now (uncached, st) x = (uncached ++ [x], st)).
    { unfold checkCached, LRUCache.get.
      rewrite (Hcold x (or_introl eq_refl)). destruct st; reflexivity. }
    rewrite Hx, IH, <- app_assoc; [reflexivity|].
    intros w Hw. apply Hcold. right; exact Hw.
Qed.

Lemma fetchAll_length net atStart : forall ws uf vs,
  fst (fetchAll net atStart uf ws) = Some vs -> length vs = length ws.
Proof.
  induction ws as [|w ws IH]; intros uf vs; cbn [fetchAll].
  - cbn [fst]. intros E. injection E as <-. reflexivity.
  - destruct (fetchValidity net atStart uf w) as [r uf1].
    specialize (IH uf1).
    destruct (fetchAll net atStart uf1 ws) as [rs uf2].
    cbn [fst] in *. destruct r as [b|]; [|discriminate].
    destruct rs as [bs|]; [|discriminate].
    intros E. injection E as <-. cbn [length]. f_equal. apply IH. reflexivity.
Qed.

Lemma map_fst_combine {A B : Type} (l : list A) : forall l' : list B,
  length l' = length l -> map fst (combine l l') = l.
Proof.
  induction l as [|x l IH]; intros [|y l'] Hlen; try discriminate Hlen;
    [reflexivity|].
  cbn [combine map fst]. f_equal. apply IH. cbn [length] in Hlen. lia.
Qed.

Lemma recordValidation_cold_step now c0 done st w v :
  coldRun now c0 done st ->
  JsMap.get (LRUCache.cache c0) (toLowerCase w) = None ->
  ~ In (toLowerCase w) (map toLowerCase (map fst done)) ->
  coldRun now c0 (done ++ [(w, v)]) (recordValidation now st (w, v)).
Proof.
  intros (Hvalid & Hkeys & Hmax & Httl & Hshape) Hfresh Hnew.
  assert (Habsent : JsMap.get (LRUCache.cache (vsCache st)) (toLowerCase w)
                    = None).
  { destruct (JsMap.get (LRUCache.cache (vsCache st)) (toLowerCase w))
      as [item|] eqn:Hget; [|reflexivity].
    exfalso. destruct (Hkeys (toLowerCase w)) as [Hc|Hd];
      [congruence | congruence | contradiction]. }
  unfold coldRun, recordValidation. cbn [vsCache validWords].
  repeat split.
  - rewrite filter_app, map_app, Hvalid. cbn [filter snd].
    destruct v; cbn [map fst]; [reflexivity | now rewrite app_nil_r].
  - intros key Hget. apply LRUCache_set_keys in Hget.
    rewrite !map_app, in_app_iff. cbn [map fst In].
    destruct Hget as [->|Hget]; [tauto|].
    destruct (Hkeys key Hget); tauto.
  - exact Hmax.
  - exact Httl.
  - rewrite length_app. cbn [length]. intros Hroom.
    rewrite LRUCache_set_appends.
    + rewrite Hshape by lia. rewrite map_app, <- app_assoc.
      unfold storedEntry at 3. cbn [map fst snd]. rewrite Httl. reflexivity.
    + exact Habsent.
    + unfold LRUCache.size, JsMap.size in *. rewrite Hshape by lia.
      rewrite length_app, length_map. lia.
Qed.

Lemma recordValidation_cold now c0 wvs : forall done st,
  coldRun now c0 done st ->
  (forall wv, In wv wvs ->
     JsMap.get (LRUCache.cache c0) (toLowerCase (fst wv)) = None) ->
  NoDup (map toLowerCase (map fst (done ++ wvs))) ->
  coldRun now c0 (done ++ wvs) (fold_left (recordValidation now) wvs st).
Proof.
  induction wvs as [|[w v] wvs IH]; intros done st Hrun Hfresh Hnd;
    cbn [fold_left].
  - now rewrite app_nil_r.
  - replace (done ++ (w, v) :: wvs) with ((done ++ [(w, v)]) ++ wvs) in *
      by (now rewrite <- app_assoc).
    apply IH.
    + apply recordValidation_cold_step; [exact Hrun | |].
      * apply (Hfresh (w, v)). left; reflexivity.
      * rewrite !map_app in Hnd. cbn [map fst] in Hnd.
        rewrite <- app_assoc in Hnd. cbn [app] in Hnd.
        apply NoDup_remove_2 in Hnd. intros Hin. apply Hnd.
        apply in_or_app. left. exact Hin.
    + intros wv Hin. apply Hfresh. right; exact Hin.
    + exact Hnd.
Qed.

Lemma coldRun_useFallback now c0 done st uf :
  coldRun now c0 done st ->
  coldRun now c0 done
    {| vsCache := vsCache st; validWords := validWords st;
       useFallback := uf |}.
Proof. intros H; exact H. Qed.

Lemma validateBatch_cold now net c0 done st batch :
  coldRun now c0 done st ->
  (forall w, In w batch ->
     JsMap.get (LRUCache.cache c0) (toLowerCase w) = None) ->
  NoDup (map toLowerCase (map fst done ++ batch)) ->
  exists wvs,
    map fst wvs = batch /\
    coldRun now c0 (done ++ wvs) (validateBatch now net st batch).
Proof.
  intros Hrun Hfresh Hnd.
  assert (Hcold : forall w, In w batch ->
            JsMap.get (LRUCache.cache (vsCache st)) (toLowerCase w) = None).
  { intros w Hw.
    destruct (JsMap.get (LRUCache.cache (vsCache st)) (toLowerCase w))
      as [item|] eqn:Hget; [|reflexivity].
    exfalso. destruct Hrun as (_ & Hkeys & _).
    destruct (Hkeys (toLowerCase w)) as [Hc|Hd]; [congruence | |].
    - rewrite (Hfresh w Hw) in Hc. congruence.
    - rewrite map_app in Hnd. apply NoDup_app_remove_l in Hnd as Hb.
      clear Hb. revert Hnd Hd Hw. generalize (map fst done). intros ws.
      induction ws as [|x ws IH]; cbn [map app In]; [tauto|].
      intros Hnd [E|Hin] Hw.
      + inversion Hnd as [|? ? Hx _]; subst. apply Hx.
        rewrite E. apply in_or_app. right. apply in_map. exact Hw.
      + inversion Hnd; subst. apply IH; assumption. }
  unfold validateBatch. rewrite (checkCached_cold now batch [] st Hcold).
  cbn [app].
  destruct batch as [|b batch].
  { exists []. split; [reflexivity|]. now rewrite app_nil_r. }
  destruct (fetchAll net (useFallback st) (useFallback st) (b :: batch))
    as [validations uf] eqn:Hfetch.
  assert (Hnd' : forall wvs, map fst wvs = b :: batch ->
            NoDup (map toLowerCase (map fst (done ++ wvs)))).
  { intros wvs E. now rewrite map_app, E. }
  destruct validations as [vs|].
  - exists (combine (b :: batch) vs).
    assert (E : map fst (combine (b :: batch) vs) = b :: batch).
    { apply map_fst_combine.
      apply (fetchAll_length net (useFallback st) (b :: batch)
               (useFallback st)).
      now rewrite Hfetch. }
    split; [exact E|].
    apply recordValidation_cold.
    + apply coldRun_useFallback, Hrun.
    + intros wv Hin. apply Hfresh. rewrite <- E. apply in_map. exact Hin.
    + apply Hnd', E.
  - exists (map (fun w => (w, true)) (b :: batch)).
    assert (E : map fst (map (fun w => (w, true)) (b :: batch)) = b :: batch).
    { rewrite map_map. cbn [fst]. apply map_id. }
    split; [exact E|].
    apply recordValidation_cold.
    + apply coldRun_useFallback, Hrun.
    + intros wv Hin. apply Hfresh. rewrite <- E. apply in_map. exact Hin.
    + apply Hnd', E.
Qed.

Lemma validateBatches_cold now net c0 batches : forall done st,
  coldRun now c0 done st ->
  (forall w, In w (concat batches) ->
     JsMap.get (LRUCache.cache c0) (toLowerCase w) = None) ->
  NoDup (map toLowerCase (map fst done ++ concat batches)) ->
  exists wvs,
    map fst wvs = concat batches /\
    coldRun now c0 (done ++ wvs)
      (fold_left (validateBatch now net) batches st).
Proof.
  induction batches as [|batch batches IH]; intros done st Hrun Hfresh Hnd;
    cbn [fold_left concat] in *.
  - exists []. split; [reflexivity|]. now rewrite app_nil_r.
  - destruct (validateBatch_cold now net c0 done st batch Hrun)
      as (wvs1 & E1 & Hrun1).
    + intros w Hw. apply Hfresh. apply in_or_app. left; exact Hw.
    + rewrite app_assoc, map_app in Hnd. apply NoDup_app_remove_r in Hnd.
      exact Hnd.
    + destruct (IH (done ++ wvs1) _ Hrun1) as (wvs2 & E2 & Hrun2).
      * intros w Hw. apply Hfresh. apply in_or_app. right; exact Hw.
      * rewrite (map_app fst), E1, <- app_assoc. exact Hnd.
      * exists (wvs1 ++ wvs2). split.
        -- now rewrite map_app, E1, E2.
        -- now rewrite app_assoc.
Qed.

(** A first call: none of the words is in the cache and their cache keys
    are distinct. *)
Lemma validateWords_cold now net cfg (cache : DictCache) words :
  1 <= batchSize cfg ->
  (forall w, In w words ->
     JsMap.get (LRUCache.cache cache) (toLowerCase w) = None) ->
  NoDup (map toLowerCase words) ->
  exists done st,
    validateWords now net cfg cache words = (validWords st, vsCache st) /\
    map fst done = words /\
    coldRun now (LRUCache.cleanExpired now cache) done st.
Proof.
  intros Hsize Hfresh Hnd. unfold validateWords.
  set (st0 := {| vsCache := LRUCache.cleanExpired now cache;
                 validWords := []; useFallback := false |}).
  assert (Hrun0 : coldRun now (LRUCache.cleanExpired now cache) [] st0).
  { unfold coldRun, st0. cbn [vsCache validWords filter map].
    repeat split; auto. intros _. now rewrite app_nil_r. }
  pose proof (batchesOf_concat (batchSize cfg) Hsize (length words) words
                (le_n _)) as Hconcat.
  destruct (validateBatches_cold now net (LRUCache.cleanExpired now cache)
              (batchesOf (length words) (batchSize cfg) words) [] st0 Hrun0)
    as (wvs & E & Hrun).
  - rewrite Hconcat. intros w Hw. unfold LRUCache.cleanExpired.
    cbn [LRUCache.cache LRUCache.withCache].
    apply JsMap_get_filter_None, Hfresh, Hw.
  - rewrite Hconcat. exact Hnd.
  - rewrite Hconcat in E. cbn [app] in Hrun.
    exists wvs. eexists. split; [reflexivity|]. split; assumption.
Qed.

Lemma verdictIn_absent done w :
  ~ In w (map fst done) -> verdictIn done w = false.
Proof.
  unfold verdictIn. induction done as [|[w0 v0] done IH]; cbn [existsb map fst In];
    [reflexivity|].
  intros Hn. rewrite IH by tauto.
  destruct (eqb w0 w) eqn:E; [|reflexivity].
  apply eqb_true in E. tauto.
Qed.

Lemma verdictIn_cons_other w0 v0 done w :
  w0 <> w -> verdictIn ((w0, v0) :: done) w = verdictIn done w.
Proof.
  intros Hne. unfold verdictIn. cbn [existsb fst snd].
  apply eqb_false in Hne. now rewrite Hne.
Qed.

Lemma verdictIn_cons_same w0 v0 done :
  ~ In w0 (map fst done) -> verdictIn ((w0, v0) :: done) w0 = v0.
Proof.
  intros Hn. pose proof (verdictIn_absent done w0 Hn) as E.
  unfold verdictIn in *. cbn [existsb fst snd]. rewrite E, eqb_refl.
  destruct v0; reflexivity.
Qed.

Lemma valid_by_verdict done :
  NoDup (map fst done) ->
  map fst (filter snd done) = filter (verdictIn done) (map fst done).
Proof.
  induction done as [|[w0 v0] done IH]; [reflexivity|].
  cbn [map fst]. intros Hnd. inversion Hnd as [|? ? Hw0 Hnd']; subst.
  cbn [filter snd]. rewrite (verdictIn_cons_same w0 v0 done Hw0).
  assert (E : filter (verdictIn ((w0, v0) :: done)) (map fst done)
              = filter (verdictIn done) (map fst done)).
  { apply filter_ext_in. intros w Hw. apply verdictIn_cons_other.
    intros ->. contradiction. }
  rewrite E, <- (IH Hnd'). destruct v0; reflexivity.
Qed.

Lemma NoDup_toLowerCase (ws : list word) :
  NoDup (map toLowerCase ws) -> NoDup ws.
Proof. apply NoDup_map_inv. Qed.

Lemma storedEntry_get now c0 done w :
  NoDup (map toLowerCase (map fst done)) ->
  In w (map fst done) ->
  JsMap.get (map (storedEntry now c0) done) (toLowerCase w)
  = Some {| LRUCache.value := verdictIn done w;
            LRUCache.expiry := (now + LRUCache.ttl c0)%Z |}.
Proof.
  induction done as [|[w0 v0] done IH]; [intros _ []|].
  cbn [map fst]. intros Hnd Hin.
  inversion Hnd as [|? ? Hk Hnd']; subst.
  assert (Hw0 : ~ In w0 (map fst done)).
  { intros H0. apply Hk. apply in_map. exact H0. }
  unfold storedEntry at 1. cbn [JsMap.get fst snd].
  destruct (eq_dec (toLowerCase w) (toLowerCase w0)) as [E|Hne].
  - assert (w = w0) as ->.
    { destruct Hin as [<-|Hin]; [reflexivity|].
      exfalso. apply Hk. rewrite <- E. apply in_map. exact Hin. }
    now rewrite (verdictIn_cons_same w0 v0 done Hw0).
  - assert (Hw : w0 <> w) by (intros ->; contradiction).
    rewrite (verdictIn_cons_other w0 v0 done w Hw).
    apply IH; [exact Hnd'|]. destruct Hin as [E|Hin]; [contradiction|exact Hin].
Qed.

(** A later call: every word is in the cache with its verdict and the
    entries have not expired. *)
Section WarmRun.
Variables (now : Z) (expires : Z) (verdict : word -> bool).
Hypothesis Hlive : (now <= expires)%Z.

Let entry (w : word) : @LRUCache.Item bool :=
  {| LRUCache.value := verdict w; LRUCache.expiry := expires |}.

Lemma checkCached_warm batch : forall uncached st later,
  NoDup (map toLowerCase (batch ++ later)) ->
  (forall w, In w (batch ++ later) ->
     JsMap.get (LRUCache.cache (vsCache st)) (toLowerCase w) = Some (entry w)) ->
  exists st',
    fold_left (checkCached now) batch (uncached, st) = (uncached, st') /\
    validWords st' = validWords st ++ filter verdict batch /\
    forall w, In w later ->
      JsMap.get (LRUCache.cache (vsCache st')) (toLowerCase w) = Some (entry w).
Proof.
  induction batch as [|x batch IH]; intros uncached st later Hnd Hwarm;
    cbn [fold_left app] in *.
  - exists st. rewrite app_nil_r. repeat split; auto.
  - cbn [map] in Hnd. inversion Hnd as [|? ? Hx Hnd']; subst.
    pose proof (Hwarm x (or_introl eq_refl)) as Hget.
    assert (Hexp : (LRUCache.expiry (entry x) <? now)%Z = false).
    { apply Z.ltb_ge. exact Hlive. }
    unfold checkCached at 2. unfold LRUCache.get. rewrite Hget, Hexp.
    cbn [LRUCache.value entry].
    match goal with
    | |- context [fold_left _ batch (uncached, ?s)] =>
        destruct (IH uncached s later Hnd') as (st' & Hfold & Hvalid & Hlater)
    end.
    { intros w Hw. cbn [vsCache LRUCache.cache LRUCache.withCache].
      assert (Hne : toLowerCase w <> toLowerCase x).
      { intros E. apply Hx. rewrite <- E. apply in_map. exact Hw. }
      rewrite JsMapFacts.get_set_neq by exact Hne.
      rewrite JsMap_get_delete_neq by exact Hne.
      apply Hwarm. right; exact Hw. }
    exists st'. split; [exact Hfold|]. split; [|exact Hlater].
    rewrite Hvalid. cbn [validWords filter].
    destruct (verdict x); [now rewrite <- app_assoc | reflexivity].
Qed.

Lemma validateBatch_warm net batch st later :
  NoDup (map toLowerCase (batch ++ later)) ->
  (forall w, In w (batch ++ later) ->
     JsMap.get (LRUCache.cache (vsCache st)) (toLowerCase w) = Some (entry w)) ->
  validWords (validateBatch now net st batch)
  = validWords st ++ filter verdict batch /\
  forall w, In w later ->
    JsMap.get (LRUCache.cache (vsCache (validateBatch now net st batch)))
              (toLowerCase w) = Some (entry w).
Proof.
  intros Hnd Hwarm. unfold validateBatch.
  destruct (checkCached_warm batch [] st later Hnd Hwarm)
    as (st' & -> & Hvalid & Hlater).
  split; assumption.
Qed.

Lemma validateBatches_warm net batches : forall st,
  NoDup (map toLowerCase (concat batches)) ->
  (forall w, In w (concat batches) ->
     JsMap.get (LRUCache.cache (vsCache st)) (toLowerCase w) = Some (entry w)) ->
  validWords (fold_left (validateBatch now net) batches st)
  = validWords st ++ filter verdict (concat batches).
Proof.
  induction batches as [|batch batches IH]; intros st Hnd Hwarm;
    cbn [fold_left concat] in *.
  - now rewrite app_nil_r.
  - destruct (validateBatch_warm net batch st (concat batches) Hnd Hwarm)
      as [Hvalid Hlater].
    rewrite IH; [| |exact Hlater].
    + rewrite Hvalid, filter_app, app_assoc. reflexivity.
    + rewrite map_app in Hnd. apply NoDup_app_remove_l in Hnd. exact Hnd.
Qed.

Lemma validateWords_warm net cfg (cache : DictCache) words :
  1 <= batchSize cfg ->
  NoDup (map toLowerCase words) ->
  (forall w, In w words ->
     JsMap.get (LRUCache.cache cache) (toLowerCase w) = Some (entry w)) ->
  fst (validateWords now net cfg cache words) = filter verdict words.
Proof.
  intros Hsize Hnd Hwarm. unfold validateWords. cbn [fst].
  pose proof (batchesOf_concat (batchSize cfg) Hsize (length words) words
                (le_n _)) as Hconcat.
  rewrite validateBatches_warm; rewrite ?Hconcat; [reflexivity|exact Hnd|].
  intros w Hw. cbn [vsCache]. unfold LRUCache.cleanExpired.
  cbn [LRUCache.cache LRUCache.withCache].
  apply JsMap_get_filter_Some; [apply Hwarm, Hw|].
  cbn [snd]. apply negb_true_iff, Z.ltb_ge. exact Hlive.
Qed.

End WarmRun.

(** C8 (as amended). [filterWords] on a pool, for an analysis whose letters
    match themselves as patterns, a dictionary batch size of at least one
    and a call in which some word of the pool survives the constraints and
    the dictionary service.  Every word returned is a word of the pool that
    satisfies the constraints.  When the dictionary cache holds no entry for
    the words that satisfy the constraints and their cache keys are
    distinct, the result is the pool with some words dropped and the others
    in the pool's order; and when the cache also has room for these words,
    the same call made again before the new entries expire returns the same
    list, whatever the dictionary APIs answer then. *)
Theorem filterWords_pool_order (now : Z) (net : Network) (bot : Bot)
    (analysis : GuessAnalysis) (pool : list word) :
  let c := collectConstraints (wordLength (botConfig bot)) analysis in
  let passing := filterByConstraints c pool in
  let service := dictionaryService bot in
  literalKeys analysis = true ->
  1 <= batchSize (dictionary (botConfig bot)) ->
  fst (validate now net bot passing) <> [] ->
  exists result bot1,
    filterWords now net bot analysis (Some pool) = inr (result, bot1) /\
    (forall w, In w result -> In w pool /\ satisfiesConstraints c w = true) /\
    ((forall w, In w passing ->
        JsMap.get (LRUCache.cache service) (toLowerCase w) = None) ->
     NoDup (map toLowerCase passing) ->
     Subseq result pool /\
     (LRUCache.size service + length passing <= LRUCache.maxSize service ->
      forall (now' : Z) (net' : Network),
        (now' <= now + LRUCache.ttl service)%Z ->
        exists bot2,
          filterWords now' net' bot1 analysis (Some pool)
          = inr (result, bot2))).
Proof.
  intros c passing service _ Hsize Hsome.
  assert (Hfilter : forall now0 net0 bot0,
            botConfig bot0 = botConfig bot ->
            fst (validate now0 net0 bot0 passing) <> [] ->
            filterWords now0 net0 bot0 analysis (Some pool)
            = inr (validate now0 net0 bot0 passing)).
  { intros now0 net0 bot0 Hcfg Hne. unfold filterWords.
    rewrite normalizeConstraints_total. cbn [bind]. rewrite Hcfg.
    fold c. fold passing.
    destruct (validate now0 net0 bot0 passing) as [[|w0 rest] bot'];
      [contradiction Hne; reflexivity | reflexivity]. }
  exists (fst (validate now net bot passing)),
         (snd (validate now net bot passing)).
  split.
  { rewrite (Hfilter now net bot eq_refl Hsome).
    now destruct (validate now net bot passing). }
  split.
  { intros w Hw. apply validate_incl in Hw.
    apply (proj1 (filter_In _ _ _) Hw). }
  intros Hcold Hnd.
  destruct (validateWords_cold now net (dictionary (botConfig bot)) service
              passing Hsize Hcold Hnd) as (done & st & Hrun1 & Edone & Hrun).
  assert (Hval : validate now net bot passing
                 = (validWords st, withDictionary bot (vsCache st))).
  { unfold validate. fold service. now rewrite Hrun1. }
  rewrite Hval in *. cbn [fst snd] in *.
  destruct Hrun as (Hvalid & _ & Hmax & Httl & Hshape).
  split.
  { rewrite Hvalid. apply (Subseq_trans _ passing).
    - rewrite <- Edone. apply Subseq_map, filter_Subseq.
    - apply filter_Subseq. }
  intros Hroom now' net' Hlive.
  assert (Hshape' : LRUCache.cache (vsCache st)
                    = LRUCache.cache (LRUCache.cleanExpired now service)
                      ++ map (storedEntry now (LRUCache.cleanExpired now service))
                             done).
  { apply Hshape. rewrite <- Edone, length_map in Hroom.
    unfold LRUCache.size, JsMap.size, LRUCache.cleanExpired in *.
    cbn [LRUCache.cache LRUCache.withCache LRUCache.maxSize].
    pose proof (filter_length_le
                  (fun e => negb (LRUCache.expiry (snd e) <? now)%Z)
                  (LRUCache.cache service)). lia. }
  assert (Hrepeat : fst (validate now' net' (withDictionary bot (vsCache st))
                           passing) = validWords st).
  { unfold validate. cbn [dictionaryService withDictionary botConfig].
    destruct (validateWords now' net' (dictionary (botConfig bot))
                (vsCache st) passing) as [valid d] eqn:Hv.
    cbn [fst].
    pose proof (validateWords_warm now' (now + LRUCache.ttl service)%Z
                  (verdictIn done) Hlive net' (dictionary (botConfig bot))
                  (vsCache st) passing Hsize Hnd) as Hwarm.
    rewrite Hv in Hwarm. cbn [fst] in Hwarm. rewrite Hwarm.
    - rewrite Hvalid, <- Edone. symmetry. apply valid_by_verdict.
      apply NoDup_toLowerCase. rewrite Edone. exact Hnd.
    - intros w Hw. rewrite Hshape', JsMapFacts.get_app.
      unfold LRUCache.cleanExpired at 1.
      cbn [LRUCache.cache LRUCache.withCache].
      rewrite (JsMap_get_filter_None _ _ _ (Hcold w Hw)).
      rewrite <- Edone in Hw, Hnd.
      rewrite (storedEntry_get now _ done w Hnd Hw). reflexivity. }
  exists (snd (validate now' net' (withDictionary bot (vsCache st)) passing)).
  rewrite (Hfilter now' net' (withDictionary bot (vsCache st)) eq_refl).
  - revert Hrepeat.
    destruct (validate now' net' (withDictionary bot (vsCache st)) passing)
      as [valid bot2].
    cbn [fst snd]. now intros ->.
  - rewrite Hrepeat. exact Hsome.
Qed.

Lemma filterWords_pool_order_witness :
  let bot := newBot config in
  let analysis :=
    analyzeResults (str "BLIMP") [Absent; Absent; Absent; Absent; Absent] in
  let pool := [str "STARE"; str "SLATE"; str "CRANE"; str "TRACE"] in
  let c := collectConstraints (wordLength (botConfig bot)) analysis in
  let passing := filterByConstraints c pool in
  let service := dictionaryService bot in
  exists result bot1,
    filterWords 0%Z emptyAnswerForStare bot analysis (Some pool)
    = inr (result, bot1) /\
    (forall w, In w result -> In w pool /\ satisfiesConstraints c w = true) /\
    ((forall w, In w passing ->
        JsMap.get (LRUCache.cache service) (toLowerCase w) = None) ->
     NoDup (map toLowerCase passing) ->
     Subseq result pool /\
     (LRUCache.size service + length passing <= LRUCache.maxSize service ->
      forall (now' : Z) (net' : Network),
        (now' <= 0 + LRUCache.ttl service)%Z ->
        exists bot2,
          filterWords now' net' bot1 analysis (Some pool)
          = inr (result, bot2))).
Proof.
  apply (filterWords_pool_order 0%Z emptyAnswerForStare (newBot config)
           (analyzeResults (str "BLIMP")
              [Absent; Absent; Absent; Absent; Absent])
           [str "STARE"; str "SLATE"; str "CRANE"; str "TRACE"]).
  - reflexivity.
  - simpl. lia.
  - vm_compute. discriminate.
Defined.

Example filterWords_first_and_second_call :
  exists bot1 bot2,
    filterWords 0%Z emptyAnswerForStare (newBot config)
      (analyzeResults (str "BLIMP") [Absent; Absent; Absent; Absent; Absent])
      (Some [str "STARE"; str "SLATE"; str "CRANE"; str "TRACE"])
    = inr ([str "CRANE"; str "TRACE"], bot1) /\
    filterWords 1000%Z alwaysFound bot1
      (analyzeResults (str "BLIMP") [Absent; Absent; Absent; Absent; Absent])
      (Some [str "STARE"; str "SLATE"; str "CRANE"; str "TRACE"])
    = inr ([str "CRANE"; str "TRACE"], bot2).
Proof. do 2 eexists. split; [vm_compute; reflexivity | vm_compute; reflexivity]. Qed.
